(** * Traversome: the heuristic variant path generator

    A shallow embedding of [traversome/PathGenerator.py] (class
    [PathGenerator]) and the properties of its coverage model, multiplicity
    likelihood evaluator, stochastic stopping rule, hetero-unit decomposer,
    single-process search loop and start of a traversal; then of its subpath
    index, coverage sources and workers, and of the parts of
    [traversome/ModelFitMaxLike.py] that do not depend on the optimizer's
    internals.

    Conventions of the embedding
    - a contig name is a [string]; an oriented contig [(v_name, v_end)] is a
      pair [string * bool]; a path is a list of oriented contigs;
    - Python [int] is [Z] (occurrence counts, which never go negative, are
      [nat]); Python and numpy floats are real numbers [R] in the coverage
      model and the likelihood code (which need [sqrt], [ln] and [exp]) and
      rationals [Q] in the decomposer and the configuration checks (which
      only add, multiply, divide and compare, and stay executable);
    - a Python exception is the [Err] case of [result]; only the kind of the
      exception is kept, not its message;
    - a [dict] or [OrderedDict] is an association list in insertion order; a
      [set] is a duplicate-free list, iterated in the order of the list;
    - the random source is an explicit sequence of draws handed to the
      function that consumes it. *)

From Stdlib Require Import List String Ascii Bool Arith ZArith QArith Lia.
From Stdlib Require Import Permutation Lqa Reals Lra.
From Stdlib Require Import DecimalString.
Import ListNotations.

Set Implicit Arguments.
Close Scope Q_scope.

(** ** Exceptions and the error monad *)

Inductive exn : Type :=
| AssertionError
| KeyError
| IndexError
| ZeroDivisionError
| ValueError
| PyException.

Inductive result (A : Type) : Type :=
| Ok (a : A)
| Err (e : exn).

Arguments Ok {A} a.
Arguments Err {A} e.

Definition bind {A B : Type} (m : result A) (f : A -> result B) : result B :=
  match m with
  | Ok a => f a
  | Err e => Err e
  end.

Notation "x <- m ;; k" := (bind m (fun x => k))
  (at level 61, m at next level, right associativity).
Notation "' p <- m ;; k" := (bind m (fun p => k))
  (at level 61, p pattern, m at next level, right associativity).

(** [assert c] of Python. *)
Definition assert (c : bool) : result unit :=
  if c then Ok tt else Err AssertionError.

Fixpoint mapM {A B : Type} (f : A -> result B) (l : list A) : result (list B) :=
  match l with
  | [] => Ok []
  | x :: t => y <- f x ;; ys <- mapM f t ;; Ok (y :: ys)
  end.

(** ** Data model *)

Definition vne : Type := (string * bool)%type.
Definition path : Type := list vne.

(** One entry of [graph.vertex_info]. *)
Record vertex : Type := {
  v_len : Z;
  v_cov : R;
  v_connections : bool -> list vne
}.

(** The assembly graph collaborator: the [vertex_info] table the generator
    reads directly and the path utilities it calls. *)
Record assembly_graph : Type := {
  vertex_info : list (string * vertex);
  get_standardized_path : path -> path;
  get_standardized_path_circ : path -> path;
  contain_path : path -> bool;
  reverse_path : path -> path;
  roll_path : path -> path;
  is_circular_path : path -> bool;
  is_fully_covered_by : path -> bool
}.

(** One record of the alignment collaborator. *)
Record gaf_record : Type := {
  gaf_path : path;
  p_align_len : Z
}.

(** The [traversome_obj] handed to the constructor. *)
Record traversome : Type := {
  tvs_graph : assembly_graph;
  tvs_alignment : list gaf_record;
  get_variant_sub_paths : path -> list path
}.

(** The keyword arguments of [PathGenerator.__init__]. *)
Record config : Type := {
  cfg_num_search : Z;
  cfg_num_processes : Z;
  cfg_force_circular : bool;
  cfg_hetero_chromosome : bool;
  cfg_differ_f : Q;
  cfg_decay_f : Q;
  cfg_decay_t : Z;
  cfg_cov_inert : Q;
  cfg_use_alignment_cov : bool;
  cfg_min_unit_similarity : Q
}.

(** The defaults of the signature of [__init__]. *)
Definition default_config : config := {|
  cfg_num_search := 1000;
  cfg_num_processes := 1;
  cfg_force_circular := true;
  cfg_hetero_chromosome := true;
  cfg_differ_f := 1;
  cfg_decay_f := 20;
  cfg_decay_t := 1000;
  cfg_cov_inert := 1;
  cfg_use_alignment_cov := false;
  cfg_min_unit_similarity := 85 # 100
|}.

(** The attributes of a [PathGenerator] object. *)
Record generator : Type := {
  graph : assembly_graph;
  alignment : list gaf_record;
  tvs : traversome;
  num_search : Z;
  num_processes : Z;
  force_circular : bool;
  hetero_chromosome : bool;
  differ_f : Q;
  decay_f : Q;
  decay_t : Z;
  cov_inert : Q;
  use_alignment_cov : bool;
  min_unit_similarity : Q;
  local_max_alignment_len : option Z;
  read_paths : list path;
  read_paths_counter : list (path * Z);
  starting_subpath_to_readpaths : list (path * list (nat * bool));
  middle_subpath_to_readpaths : list (path * list (nat * bool));
  read_paths_counter_indexed : bool;
  contig_coverages : list (string * R);
  candidate_single_copy_vs : list string;
  variants : list path;
  variants_counts : list (path * Z)
}.

(** ** Construction: [PathGenerator.__init__] *)

Definition Qleb (a b : Q) : bool := Qle_bool a b.

(** The object [__init__] builds once its assertions have passed. *)
Definition fresh_generator (t : traversome) (c : config) : generator := {|
  graph := tvs_graph t;
  alignment := tvs_alignment t;
  tvs := t;
  num_search := cfg_num_search c;
  num_processes := cfg_num_processes c;
  force_circular := cfg_force_circular c;
  hetero_chromosome := cfg_hetero_chromosome c;
  differ_f := cfg_differ_f c;
  decay_f := cfg_decay_f c;
  decay_t := cfg_decay_t c;
  cov_inert := cfg_cov_inert c;
  use_alignment_cov := cfg_use_alignment_cov c;
  min_unit_similarity := cfg_min_unit_similarity c;
  local_max_alignment_len := None;
  read_paths := [];
  read_paths_counter := [];
  starting_subpath_to_readpaths := [];
  middle_subpath_to_readpaths := [];
  read_paths_counter_indexed := false;
  contig_coverages := [];
  candidate_single_copy_vs := [];
  variants := [];
  variants_counts := []
|}.

Definition init (t : traversome) (c : config) : result generator :=
  _ <- assert (1 <=? cfg_num_processes c)%Z ;;
  _ <- assert (Qleb 0 (cfg_differ_f c)) ;;
  _ <- assert (Qleb 0 (cfg_decay_f c)) ;;
  _ <- assert (100 <=? cfg_decay_t c)%Z ;;
  _ <- assert (Qleb 0 (cfg_cov_inert c)) ;;
  _ <- assert (Qleb (1 # 2) (cfg_min_unit_similarity c)) ;;
  Ok (fresh_generator t c).

(** The bounds the constructor asserts, as a proposition. *)
Definition config_in_bounds (c : config) : Prop :=
  (1 <= cfg_num_processes c)%Z /\
  (0 <= cfg_differ_f c)%Q /\
  (0 <= cfg_decay_f c)%Q /\
  (100 <= cfg_decay_t c)%Z /\
  (0 <= cfg_cov_inert c)%Q /\
  (1 # 2 <= cfg_min_unit_similarity c)%Q.

(** ** Python containers *)

(** [d.get(k)] on a dict with string keys. *)
Fixpoint lookup {V : Type} (k : string) (d : list (string * V)) : option V :=
  match d with
  | [] => None
  | (k', v) :: t => if String.eqb k k' then Some v else lookup k t
  end.

(** [d[k]], raising [KeyError] on a missing key. *)
Definition getitem {V : Type} (k : string) (d : list (string * V)) : result V :=
  match lookup k d with
  | Some v => Ok v
  | None => Err KeyError
  end.

(** [d[k] = v] on a key that is present: the entry keeps its position. *)
Fixpoint setitem {V : Type} (k : string) (v : V) (d : list (string * V))
  : list (string * V) :=
  match d with
  | [] => [(k, v)]
  | (k', v') :: t =>
      if String.eqb k k' then (k', v) :: t else (k', v') :: setitem k v t
  end.

(** [del d[k]]. *)
Fixpoint delitem {V : Type} (k : string) (d : list (string * V))
  : list (string * V) :=
  match d with
  | [] => []
  | (k', v') :: t =>
      if String.eqb k k' then t else (k', v') :: delitem k t
  end.

Definition mem_string (x : string) (l : list string) : bool :=
  existsb (String.eqb x) l.

(** [sorted(l)]: a stable insertion sort. *)
Fixpoint insert_sorted {A : Type} (leb : A -> A -> bool) (x : A) (l : list A)
  : list A :=
  match l with
  | [] => [x]
  | y :: t => if leb x y then x :: l else y :: insert_sorted leb x t
  end.

Definition sorted {A : Type} (leb : A -> A -> bool) (l : list A) : list A :=
  fold_right (insert_sorted leb) [] l.

(** Python's order on [(v_name, v_end)] tuples: names first, then
    [False < True]. *)
Definition vne_compare (a b : vne) : comparison :=
  match String.compare (fst a) (fst b) with
  | Eq => Bool.compare (snd a) (snd b)
  | c => c
  end.

Definition vne_leb (a b : vne) : bool :=
  match vne_compare a b with Gt => false | _ => true end.

Definition vne_eqb (a b : vne) : bool :=
  String.eqb (fst a) (fst b) && Bool.eqb (snd a) (snd b).

Definition vne_dec (a b : vne) : {a = b} + {a <> b}.
Proof. decide equality; [apply bool_dec | apply string_dec]. Defined.

Definition path_dec (a b : path) : {a = b} + {a <> b} :=
  list_eq_dec vne_dec a b.

Definition path_eqb (a b : path) : bool :=
  if path_dec a b then true else false.

(** Lexicographic order on paths (tuples of tuples). *)
Fixpoint path_compare (a b : path) : comparison :=
  match a, b with
  | [], [] => Eq
  | [], _ :: _ => Lt
  | _ :: _, [] => Gt
  | x :: a', y :: b' =>
      match vne_compare x y with
      | Eq => path_compare a' b'
      | c => c
      end
  end.

Definition path_leb (a b : path) : bool :=
  match path_compare a b with Gt => false | _ => true end.

Definition names (p : path) : list string := map fst p.

(** [{v_n: l.count(v_n) for v_n in set(l)}]. Python iterates a set in an
    order it does not specify; the order of [nodup] stands for it. *)
Definition count_names (l : list string) : list (string * nat) :=
  map (fun n => (n, count_occ string_dec l n)) (nodup string_dec l).

Definition sumZ (l : list Z) : Z := fold_right Z.add 0%Z l.

(** ** Coverage model *)

Open Scope R_scope.

Definition sumR (l : list R) : R := fold_right Rplus 0 l.

(** [np.average(a, weights=w)]: numpy raises [ZeroDivisionError] when the
    weights sum to zero. *)
Definition np_average (a : list R) (w : list Z) : result R :=
  if (sumZ w =? 0)%Z then Err ZeroDivisionError
  else Ok (sumR (map (fun aw => fst aw * IZR (snd aw)) (combine a w))
           / IZR (sumZ w)).

Definition in_vertex_info (g : assembly_graph) (n : string) : bool :=
  match lookup n (vertex_info g) with Some _ => true | None => false end.

Definition is_empty {A : Type} (l : list A) : bool :=
  match l with [] => true | _ => false end.

(** [__check_path] *)
Definition check_path (self : generator) (p : path) : result unit :=
  _ <- assert (negb (is_empty p)) ;;
  if forallb (fun v => in_vertex_info (graph self) (fst v)) p
  then Ok tt else Err PyException.

(** One round of the exclusion loop of [__get_cov_mean]: when more copies are
    to be removed than the path has, the code logs an error and leaves the
    entry as it is. *)
Definition exclude_name (v_names : list (string * nat)) (del : string * nat)
  : list (string * nat) :=
  let (del_n, del_c) := del in
  let have := match lookup del_n v_names with Some c => c | None => O end in
  if (have <? del_c)%nat then v_names
  else
    let left := (have - del_c)%nat in
    if (left =? 0)%nat then delitem del_n v_names
    else setitem del_n left v_names.

Definition counts_after_exclusion (p : path) (exclude_path : option path)
  : list (string * nat) :=
  let v_names := count_names (names p) in
  match exclude_path with
  | None | Some [] => v_names
  | Some ex => fold_left exclude_name (count_names (names ex)) v_names
  end.

(** The two lists [v_covers] and [v_lengths] built by [__get_cov_mean]. *)
Definition cover_entry (self : generator) (nc : string * nat)
  : result (R * Z) :=
  let (v_name, c) := nc in
  cov <- getitem v_name (contig_coverages self) ;;
  v <- getitem v_name (vertex_info (graph self)) ;;
  Ok (cov / INR c, (v_len v * Z.of_nat c)%Z).

(** The population standard deviation of the weighted values, or a tenth of
    the mean when there is a single value. *)
Definition weighted_std (v_covers : list R) (v_lengths : list Z) (mean : R)
  : result R :=
  if (1 <? List.length v_covers)%nat then
    var <- np_average (map (fun c => (c - mean) ^ 2) v_covers) v_lengths ;;
    Ok (sqrt var)
  else Ok (mean * (1 / 10)).

(** [__get_cov_mean(path, exclude_path, return_std=False)] *)
Definition get_cov_mean (self : generator) (p : path)
    (exclude_path : option path) : result R :=
  _ <- check_path self p ;;
  tbl <- mapM (cover_entry self) (counts_after_exclusion p exclude_path) ;;
  np_average (map fst tbl) (map snd tbl).

(** [__get_cov_mean(path, exclude_path, return_std=True)] *)
Definition get_cov_mean_std (self : generator) (p : path)
    (exclude_path : option path) : result (R * R) :=
  _ <- check_path self p ;;
  tbl <- mapM (cover_entry self) (counts_after_exclusion p exclude_path) ;;
  mean <- np_average (map fst tbl) (map snd tbl) ;;
  std <- weighted_std (map fst tbl) (map snd tbl) mean ;;
  Ok (mean, std).

Definition min_nat_list (l : list nat) : nat :=
  match l with
  | [] => O
  | x :: t => fold_left Nat.min t x
  end.

(** The contigs [__get_cov_mean_of_single] averages over: those of minimum
    count, restricted to the single-copy candidates when some are among
    them. *)
Definition single_copy_names (self : generator) (p : path) : list string :=
  let v_names := count_names (names p) in
  let min_cov := min_nat_list (map snd v_names) in
  let v_names := map fst (filter (fun nc => (snd nc =? min_cov)%nat) v_names) in
  let single_copy_likely :=
    filter (fun n => mem_string n (candidate_single_copy_vs self)) v_names in
  if is_empty single_copy_likely then v_names
  else sorted String.leb single_copy_likely.

Definition single_entry (self : generator) (v_name : string)
  : result (R * Z) :=
  cov <- getitem v_name (contig_coverages self) ;;
  v <- getitem v_name (vertex_info (graph self)) ;;
  Ok (cov, v_len v).

(** [__get_cov_mean_of_single(path, return_std=True)] *)
Definition get_cov_mean_of_single_std (self : generator) (p : path)
  : result (R * R) :=
  _ <- check_path self p ;;
  tbl <- mapM (single_entry self) (single_copy_names self p) ;;
  mean <- np_average (map fst tbl) (map snd tbl) ;;
  std <- weighted_std (map fst tbl) (map snd tbl) mean ;;
  Ok (mean, std).

(** [__get_cov_mean_of_single(path)] *)
Definition get_cov_mean_of_single (self : generator) (p : path) : result R :=
  ms <- get_cov_mean_of_single_std self p ;; Ok (fst ms).

(** ** Floating-point values with infinities

    The likelihood code produces [-inf] and relies on how [inf] and [nan]
    behave in [min] and in comparisons, so those values are kept; finite
    floats are real numbers. *)

Inductive xreal : Type :=
| Fin (r : R)
| PInf
| NInf
| NaN.

Definition xopp (a : xreal) : xreal :=
  match a with
  | Fin x => Fin (- x)
  | PInf => NInf
  | NInf => PInf
  | NaN => NaN
  end.

Definition xadd (a b : xreal) : xreal :=
  match a, b with
  | NaN, _ | _, NaN => NaN
  | PInf, NInf | NInf, PInf => NaN
  | PInf, _ | _, PInf => PInf
  | NInf, _ | _, NInf => NInf
  | Fin x, Fin y => Fin (x + y)
  end.

Definition xsub (a b : xreal) : xreal := xadd a (xopp b).

(** A float times a Python int. *)
Definition xmul_int (a : xreal) (n : Z) : xreal :=
  match a with
  | Fin x => Fin (x * IZR n)
  | NaN => NaN
  | PInf => if (n =? 0)%Z then NaN else if (0 <? n)%Z then PInf else NInf
  | NInf => if (n =? 0)%Z then NaN else if (0 <? n)%Z then NInf else PInf
  end.

(** [min(0, x)]: Python returns [x] when [x < 0] holds and the int [0]
    otherwise, also for [nan] and [inf]. *)
Definition min0 (x : xreal) : xreal :=
  match x with
  | Fin r => if Rlt_dec r 0 then Fin r else Fin 0
  | NInf => NInf
  | PInf | NaN => Fin 0
  end.

(** A capped ratio divided by an accumulated length. A ratio of zero is the
    Python int [0], whose division by a zero length raises; a negative ratio
    is a numpy float, whose division by zero is an infinity. *)
Definition xdiv_int (x : xreal) (n : Z) : result xreal :=
  match x with
  | Fin r =>
      if (n =? 0)%Z then
        if Req_dec_T r 0 then Err ZeroDivisionError
        else if Rlt_dec r 0 then Ok NInf else Ok PInf
      else Ok (Fin (r / IZR n))
  | NInf => if (0 <=? n)%Z then Ok NInf else Ok PInf
  | PInf => if (0 <=? n)%Z then Ok PInf else Ok NInf
  | NaN => Ok NaN
  end.

(** Division of numpy floats: no exception, [x / 0] is an infinity or [nan]. *)
Definition xdiv (a b : xreal) : xreal :=
  match a, b with
  | NaN, _ | _, NaN => NaN
  | Fin x, Fin y =>
      if Req_dec_T y 0 then
        if Req_dec_T x 0 then NaN else if Rlt_dec x 0 then NInf else PInf
      else Fin (x / y)
  | Fin _, _ => Fin 0
  | PInf, Fin y => if Rlt_dec y 0 then NInf else PInf
  | NInf, Fin y => if Rlt_dec y 0 then PInf else NInf
  | _, _ => NaN
  end.

Definition xexp (a : xreal) : xreal :=
  match a with
  | Fin x => Fin (exp x)
  | PInf => PInf
  | NInf => Fin 0
  | NaN => NaN
  end.

(** [a > r] for a float [a] and a finite [r]; false on [nan]. *)
Definition xgtb (a : xreal) (r : R) : bool :=
  match a with
  | Fin x => if Rlt_dec r x then true else false
  | PInf => true
  | NInf | NaN => false
  end.

(** [a <= 0] on floats. *)
Definition xle0 (a : xreal) : Prop :=
  match a with
  | Fin x => x <= 0
  | NInf => True
  | PInf | NaN => False
  end.

(** [a <= b] on floats; false when either is [nan]. *)
Definition xle (a b : xreal) : Prop :=
  match a, b with
  | NaN, _ | _, NaN => False
  | NInf, _ => True
  | _, PInf => True
  | Fin x, Fin y => x <= y
  | _, _ => False
  end.

(** [scipy.stats.norm.logpdf(x, loc, scale)]: [nan] unless [scale > 0]. *)
Definition norm_logpdf (x loc scale : R) : xreal :=
  if Rlt_dec 0 scale
  then Fin (- ((x - loc) / scale) ^ 2 / 2 - ln (sqrt (2 * PI)) - ln scale)
  else NaN.

(** ** Multiplicity likelihood evaluator: [__cal_multiplicity_like] *)

(** Truth value of an optional float argument: [None] and [0.0] are false. *)
Definition truthy (o : option R) : bool :=
  match o with
  | Some r => if Req_dec_T r 0 then false else true
  | None => false
  end.

Record like_state : Type := {
  log_like_ratio : xreal;
  old_like_cache : list (string * xreal);
  ls_path : path;
  log_like_ratio_list : list xreal
}.

(** The body of the loop over [proposed_extension]. *)
Definition like_step (self : generator) (current_v_counts : list (string * nat))
    (single_cov_mean single_cov_std : R) (proposed_lengths : list (string * Z))
    (s : like_state) (v : vne) : result like_state :=
  let (v_name, v_end) := v in
  current_c <- getitem v_name current_v_counts ;;
  ' (old_like, cache) <-
    match lookup v_name (old_like_cache s) with
    | Some old_like => Ok (old_like, old_like_cache s)
    | None =>
        old_like <-
          (if (current_c =? 0)%nat then Ok NInf
           else cov <- getitem v_name (contig_coverages self) ;;
                Ok (norm_logpdf (cov / INR current_c)
                                single_cov_mean single_cov_std)) ;;
        Ok (old_like, setitem v_name old_like (old_like_cache s))
    end ;;
  _ <- get_cov_mean_std self (ls_path s ++ [(v_name, v_end)]) None ;;
  new_like <-
    (if (current_c =? 0)%nat then Ok (Fin 0)
     else cov <- getitem v_name (contig_coverages self) ;;
          Ok (norm_logpdf (cov / INR (current_c + 1))
                          single_cov_mean single_cov_std)) ;;
  len <- getitem v_name proposed_lengths ;;
  let r := min0 (xadd (log_like_ratio s)
                      (xmul_int (xsub new_like old_like) len)) in
  Ok {| log_like_ratio := r;
        old_like_cache := cache;
        ls_path := ls_path s ++ [(v_name, v_end)];
        log_like_ratio_list := log_like_ratio_list s ++ [r] |}.

Fixpoint like_loop (self : generator) (current_v_counts : list (string * nat))
    (single_cov_mean single_cov_std : R) (proposed_lengths : list (string * Z))
    (s : like_state) (ext : path) : result like_state :=
  match ext with
  | [] => Ok s
  | v :: t =>
      s' <- like_step self current_v_counts single_cov_mean single_cov_std
                      proposed_lengths s v ;;
      like_loop self current_v_counts single_cov_mean single_cov_std
                proposed_lengths s' t
  end.

(** [accumulated_v_lengths]: the loop inserts, at the front, the sum of the
    first [longest_ex_len - rev_go] lengths. *)
Definition accumulated_v_lengths (v_lengths : list Z) (n : nat) : list Z :=
  fold_left
    (fun acc rev_go =>
       sumZ (firstn (List.length v_lengths - rev_go) v_lengths) :: acc)
    (seq 0 n) [].

Definition cal_multiplicity_like (self : generator) (p proposed_extension : path)
    (current_v_counts : option (list (string * nat)))
    (old_cov_mean old_cov_std single_cov_mean single_cov_std : option R)
    (logarithm : bool) : result (list xreal) :=
  let current_v_counts :=
    match current_v_counts with
    | Some (e :: d) => e :: d
    | _ => map (fun n => (n, count_occ string_dec (names p) n))
               (nodup string_dec (names proposed_extension))
    end in
  _ <- (if truthy old_cov_mean && truthy old_cov_std then Ok tt
        else _ <- get_cov_mean_std self p None ;; Ok tt) ;;
  ' (s_mean, s_std) <-
    match single_cov_mean, single_cov_std with
    | Some m, Some s =>
        if truthy single_cov_mean && truthy single_cov_std then Ok (m, s)
        else get_cov_mean_of_single_std self p
    | _, _ => get_cov_mean_of_single_std self p
    end ;;
  proposed_lengths <-
    mapM (fun v => vtx <- getitem (fst v) (vertex_info (graph self)) ;;
                   Ok (fst v, v_len vtx)) proposed_extension ;;
  s <- like_loop self current_v_counts s_mean s_std proposed_lengths
         {| log_like_ratio := Fin 0; old_like_cache := [];
            ls_path := p; log_like_ratio_list := [] |}
         proposed_extension ;;
  v_lengths <- mapM (fun v => getitem (fst v) proposed_lengths)
                    proposed_extension ;;
  let acc := accumulated_v_lengths v_lengths
               (List.length (log_like_ratio_list s)) in
  llrs <- mapM (fun la => xdiv_int (fst la) (snd la))
               (combine (log_like_ratio_list s) acc) ;;
  if logarithm then Ok llrs else Ok (map xexp llrs).

(** ** Stochastic stopping rule: [__heuristic_check_multiplicity] *)

(** What the rule hands over to: a further call of [__heuristic_extend_path]
    or the path it returns. *)
Inductive engine_call : Type :=
| Extend (p : path) (not_do_reverse : bool)
| Return (p : path).

(** The slice [l[:k]]; a negative [k] counts from the end. *)
Definition slice_to {A : Type} (l : list A) (k : Z) : list A :=
  if (0 <=? k)%Z then firstn (Z.to_nat k) l
  else firstn (Z.to_nat (Z.of_nat (List.length l) + k)) l.

(** The loop over [like_ratio_list[::-1]]; [draws rev_go] is the value of
    [random()] in round [rev_go]. *)
Fixpoint draw_loop (g : assembly_graph) (p proposed_extension : path)
    (not_do_reverse : bool) (draws : nat -> R) (previous_like : xreal)
    (rev_go : nat) (rev_list : list xreal) : engine_call :=
  match rev_list with
  | [] =>
      if not_do_reverse then Return p
      else Extend (reverse_path g p) true
  | like_ratio :: t =>
      let proposed_end :=
        (Z.of_nat (List.length proposed_extension) - Z.of_nat rev_go)%Z in
      let draw_prob :=
        xdiv (xsub like_ratio previous_like) (xsub (Fin 1) previous_like) in
      if xgtb draw_prob (draws rev_go)
      then Extend (p ++ slice_to proposed_extension proposed_end)
                  not_do_reverse
      else draw_loop g p proposed_extension not_do_reverse draws like_ratio
                     (S rev_go) t
  end.

Definition heuristic_check_multiplicity (self : generator)
    (p proposed_extension : path) (not_do_reverse : bool)
    (current_v_counts : option (list (string * nat)))
    (cached_like_ls : option (list xreal)) (draws : nat -> R)
  : result engine_call :=
  _ <- assert (negb (is_empty proposed_extension)) ;;
  let current_v_counts :=
    match current_v_counts with
    | Some (e :: d) => e :: d
    | _ => map (fun v => (fst v, count_occ string_dec (names p) (fst v)))
               proposed_extension
    end in
  like_ratio_list <-
    match cached_like_ls with
    | Some (x :: l) => Ok (x :: l)
    | _ => cal_multiplicity_like self p proposed_extension
             (Some current_v_counts) None None None None false
    end ;;
  Ok (draw_loop (graph self) p proposed_extension not_do_reverse draws
                (Fin 0) 0 (rev like_ratio_list)).

Close Scope R_scope.

(** ** Hetero-unit decomposer: [__decompose_hetero_units] *)

Definition Qltb (a b : Q) : bool := negb (Qle_bool b a).

Definition sumQ (l : list Q) : Q := fold_right Qplus 0%Q l.

Definition count_vne (p : path) (v : vne) : nat := count_occ vne_dec p v.

(** [sorted(set(circular_path))] *)
Definition unique_vne_list (p : path) : path :=
  sorted vne_leb (nodup vne_dec p).

(** [copy_to_vne[this_copy].append(v_n_e)], creating the entry when the
    copy number is new. *)
Fixpoint add_copy (c : nat) (v : vne) (d : list (nat * list vne))
  : list (nat * list vne) :=
  match d with
  | [] => [(c, [v])]
  | (c', l) :: t =>
      if (c =? c')%nat then (c', l ++ [v]) :: t else (c', l) :: add_copy c v t
  end.

Definition copy_to_vne (p : path) : list (nat * list vne) :=
  fold_left (fun d v => add_copy (count_vne p v) v d) (unique_vne_list p) [].

Definition vne_to_copy (p : path) : list (vne * nat) :=
  map (fun v => (v, count_vne p v)) (unique_vne_list p).

Fixpoint lookup_copy (c : nat) (d : list (nat * list vne))
  : result (list vne) :=
  match d with
  | [] => Err KeyError
  | (c', l) :: t => if (c =? c')%nat then Ok l else lookup_copy c t
  end.

(** [OrderedDict(pairs)]: a key met again keeps its first position and takes
    the later value. *)
Definition ordered_dict {V : Type} (pairs : list (string * V))
  : list (string * V) :=
  fold_left (fun d kv => setitem (fst kv) (snd kv) d) pairs [].

(** Step 1.2: [v_lengths], keyed by contig name. *)
Definition unit_v_lengths (self : generator) (p : path)
  : result (list (string * Z)) :=
  pairs <- mapM (fun v => vtx <- getitem (fst v) (vertex_info (graph self)) ;;
                          Ok (fst v, v_len vtx)) (unique_vne_list p) ;;
  Ok (ordered_dict pairs).

(** [set(names of the path) & self.__candidate_single_copy_vs] *)
Definition candidate_sc_vertices (self : generator) (p : path) : list string :=
  filter (fun n => mem_string n (candidate_single_copy_vs self))
         (nodup string_dec (names (unique_vne_list p))).

(** [sum_lens]: per copy number, the summed length of its contigs, limited to
    the single-copy candidates when the path has some. *)
Definition sum_lens (self : generator) (p : path) (v_lengths : list (string * Z))
    (copies : list nat) : result (list Z) :=
  let limited := negb (is_empty (candidate_sc_vertices self p)) in
  mapM (fun copy_num =>
          vs <- lookup_copy copy_num (copy_to_vne p) ;;
          ls <- mapM (fun v => getitem (fst v) v_lengths)
                  (if limited
                   then filter (fun v => mem_string (fst v)
                                           (candidate_single_copy_vs self)) vs
                   else vs) ;;
          Ok (sumZ ls))
       copies.

(** [w / sum_w] with Python numbers: a zero divisor raises. *)
Definition py_div (w sum_w : Z) : result Q :=
  if (sum_w =? 0)%Z then Err ZeroDivisionError
  else Ok (inject_Z w / inject_Z sum_w)%Q.

(** The loop of step 2 over [enumerate(copies)]; [cw] pairs the copy numbers
    from position [go_c] on with their weights. *)
Fixpoint candidate_units_loop (min_sim : Q) (cw : list (nat * Q)) : list nat :=
  match cw with
  | [] => []
  | (copy_num, w) :: t =>
      let rest := candidate_units_loop min_sim t in
      if (1 <? copy_num)%nat then
        let accumulated_weight :=
          sumQ (map snd (filter (fun c => (fst c mod copy_num =? 0)%nat) cw)) in
        if Qle_bool min_sim accumulated_weight then copy_num :: rest else rest
      else rest
  end.

(** Step 2: [candidate_num_units]. *)
Definition candidate_num_units (self : generator) (p : path)
    (v_lengths : list (string * Z)) : result (list nat) :=
  let copies := sorted Nat.leb (map fst (copy_to_vne p)) in
  sl <- sum_lens self p v_lengths copies ;;
  let weights := map (fun cl => (Z.of_nat (fst cl) * snd cl)%Z)
                     (combine copies sl) in
  let sum_w := sumZ weights in
  weights <- mapM (fun w => py_div w sum_w) weights ;;
  Ok (candidate_units_loop (min_unit_similarity self) (combine copies weights)).

(** [a * b] on one-dimensional numpy arrays: an array of one element is
    broadcast, any other difference of length raises [ValueError]. *)
Definition np_mul (a b : list Z) : result (list Z) :=
  if (List.length a =? List.length b)%nat
  then Ok (map (fun xy => (fst xy * snd xy)%Z) (combine a b))
  else match a, b with
       | [x], _ => Ok (map (Z.mul x) b)
       | _, [y] => Ok (map (fun x => (x * y)%Z) a)
       | _, _ => Err ValueError
       end.

(** The positions of [v] in the path. *)
Definition positions (p : path) (v : vne) : list nat :=
  map fst (filter (fun iv => vne_eqb (snd iv) v)
                  (combine (seq 0 (List.length p)) p)).

Fixpoint list_nat_compare (a b : list nat) : comparison :=
  match a, b with
  | [], [] => Eq
  | [], _ :: _ => Lt
  | _ :: _, [] => Gt
  | x :: a', y :: b' =>
      match Nat.compare x y with
      | Eq => list_nat_compare a' b'
      | c => c
      end
  end.

Definition indices_leb (a b : vne * list nat) : bool :=
  match list_nat_compare (snd a) (snd b) with Gt => false | _ => true end.

(** Step 3.1.1: do the last start's positions come right before the first
    start's, around the circle? *)
Definition consecutive_ends (len_total : nat) (first last : list nat) : bool :=
  forallb (fun fe => ((snd fe + 1) mod len_total =? fst fe)%nat)
          (combine (tl first ++ firstn 1 first) last).

(** Step 3.1.2: the [while] loop. [go_keep_start] is always the entry right
    before [go_check_start], so the loop is a pass over the entries after the
    first one: an entry whose positions are those of the kept entry shifted
    by [step] is deleted and [step] grows; any other entry is kept, becomes
    the one to compare with, and [step] is back to one. *)
Fixpoint drop_consecutive (len_total : nat) (keep : list nat) (step : nat)
    (rest : list (vne * list nat)) : list (vne * list nat) :=
  match rest with
  | [] => []
  | c :: t =>
      if forallb (fun kc => ((fst kc + step) mod len_total =? snd kc)%nat)
                 (combine keep (snd c))
      then drop_consecutive len_total keep (S step) t
      else c :: drop_consecutive len_total (snd c) 1 t
  end.

(** Step 3.1: the start entries that are tried for one [num_units]. *)
Definition start_entries (self : generator) (p : path) (num_units : nat)
  : result (list (vne * list nat)) :=
  vs <- lookup_copy num_units (copy_to_vne p) ;;
  let sc := candidate_sc_vertices self p in
  let unit_sc_vertices := filter (fun v => mem_string (fst v) sc) vs in
  let candidate_starts :=
    if is_empty unit_sc_vertices then vs else unit_sc_vertices in
  let sne_indices :=
    sorted indices_leb (map (fun s => (s, positions p s)) candidate_starts) in
  match sne_indices with
  | [] => Err IndexError
  | first :: others =>
      let ends := consecutive_ends (List.length p) (snd first)
                    (snd (last sne_indices first)) in
      let kept :=
        first :: drop_consecutive (List.length p) (snd first) 1 others in
      if ends && (1 <? List.length kept)%nat then Ok (tl kept) else Ok kept
  end.

(** The slice [p[a:b]] for [0 <= a], [0 <= b]. *)
Definition slice {A : Type} (l : list A) (a b : nat) : list A :=
  firstn (b - a) (skipn a l).

(** Step 3.2: the units cut at the positions of one start. *)
Definition cut_units (p : path) (s_indices : list nat) : list path :=
  map (fun ft => slice p (fst ft) (snd ft))
      (combine (removelast s_indices) (tl s_indices))
  ++ [skipn (last s_indices O) p ++ firstn (hd O s_indices) p].

(** [variant_counts.min(axis=0)]: per oriented contig, its least count over
    the units. *)
Definition variants_shared (units : list path) (unique : path) : list Z :=
  map (fun v => Z.of_nat (min_nat_list (map (fun u => count_vne u v) units)))
      unique.

(** [shared_len > self.__min_unit_similarity], where [shared_len] is the
    numpy quotient [num / den]: with a zero divisor it is [inf] or [nan]. *)
Definition exceeds (num den : Z) (min_sim : Q) : bool :=
  if (den =? 0)%Z then (0 <? num)%Z
  else Qltb min_sim (inject_Z num / inject_Z den)%Q.

Definition add_scheme (s : list path) (schemes : list (list path))
  : list (list path) :=
  if existsb (fun s' => if list_eq_dec path_dec s s' then true else false)
             schemes
  then schemes else schemes ++ [s].

(** Steps 3.1 and 3.2 for one [num_units]. *)
Definition schemes_for (self : generator) (p : path) (v_lengths : list Z)
    (total_base_len : Z) (schemes : list (list path)) (num_units : nat)
  : result (list (list path)) :=
  starts <- start_entries self p num_units ;;
  fold_left
    (fun acc start =>
       schemes <- acc ;;
       let units := cut_units p (snd start) in
       sl <- np_mul (variants_shared units (unique_vne_list p)) v_lengths ;;
       if exceeds (Z.of_nat num_units * sumZ sl) total_base_len
                  (min_unit_similarity self)
       then
         let this_scheme :=
           sorted path_leb
             (map (fun u => get_standardized_path_circ (graph self)
                              (roll_path (graph self) u)) units) in
         Ok (add_scheme this_scheme schemes)
       else Ok schemes)
    starts (Ok schemes).

(** Step 3 up to [qualified_schemes]; the set is kept in insertion order. *)
Definition qualified_schemes (self : generator) (p : path)
    (v_lengths : list (string * Z)) (candidates : list nat)
  : result (list (list path)) :=
  let v_lengths := map snd v_lengths in
  let v_copies := map (fun vc => Z.of_nat (snd vc)) (vne_to_copy p) in
  prod <- np_mul v_lengths v_copies ;;
  let total_base_len := sumZ prod in
  fold_left
    (fun acc num_units =>
       schemes <- acc ;;
       schemes_for self p v_lengths total_base_len schemes num_units)
    candidates (Ok []).

(** The sub-paths of all the units of a scheme. *)
Definition scheme_sub_paths (self : generator) (scheme : list path)
  : list path :=
  flat_map (get_variant_sub_paths (tvs self)) scheme.

(** [not (original_sub_paths - these_sub_paths)] *)
Definition covers_original (self : generator) (p : path) (scheme : list path)
  : bool :=
  forallb (fun sp => existsb (path_eqb sp) (scheme_sub_paths self scheme))
          (get_variant_sub_paths (tvs self) p).

(** Step 3.3: the units of the schemes that lose no sub-path, or the path
    itself when there is none. *)
Definition select_units (self : generator) (p : path)
    (schemes : list (list path)) : list path :=
  let circular_units :=
    fold_left
      (fun units scheme =>
         if covers_original self p scheme then units ++ scheme else units)
      schemes [] in
  if is_empty circular_units then [p] else circular_units.

Definition decompose_hetero_units (self : generator) (circular_path : path)
  : result (list path) :=
  if (List.length circular_path <? 4)%nat then Ok [circular_path]
  else
    v_lengths <- unit_v_lengths self circular_path ;;
    candidates <- candidate_num_units self circular_path v_lengths ;;
    if is_empty candidates then Ok [circular_path]
    else
      schemes <- qualified_schemes self circular_path v_lengths candidates ;;
      Ok (select_units self circular_path schemes).

(** ** Subpath index: [index_readpaths_subpaths] *)

(** Dicts keyed by a path (a tuple). *)
Fixpoint path_lookup {V : Type} (k : path) (d : list (path * V)) : option V :=
  match d with
  | [] => None
  | (k', v) :: t => if path_eqb k k' then Some v else path_lookup k t
  end.

Fixpoint path_setitem {V : Type} (k : path) (v : V) (d : list (path * V))
  : list (path * V) :=
  match d with
  | [] => [(k, v)]
  | (k', v') :: t =>
      if path_eqb k k' then (k', v) :: t else (k', v') :: path_setitem k v t
  end.

Definition read_eqb (a b : nat * bool) : bool :=
  (fst a =? fst b)%nat && Bool.eqb (snd a) (snd b).

(** [s.add(x)] on a set kept as a duplicate-free list. *)
Definition set_add (x : nat * bool) (s : list (nat * bool))
  : list (nat * bool) :=
  if existsb (read_eqb x) s then s else s ++ [x].

(** [__index_start_subpath] and [__index_middle_subpath], on the table they
    update. *)
Definition index_subpath (subpath : path) (read_id : nat) (strand : bool)
    (table : list (path * list (nat * bool))) : list (path * list (nat * bool)) :=
  match path_lookup subpath table with
  | Some s => path_setitem subpath (set_add (read_id, strand) s) table
  | None => path_setitem subpath [(read_id, strand)] table
  end.

(** The first loop: count the read paths, keep the first occurrence of each
    in [read_paths], and collect the alignment lengths. *)
Definition count_record (g : assembly_graph) (filter_by_graph : bool)
    (acc : list (path * Z) * list path * list Z) (rec : gaf_record)
  : list (path * Z) * list path * list Z :=
  let '(counter, rps, lens) := acc in
  let this_read_path := get_standardized_path g (gaf_path rec) in
  if negb filter_by_graph || contain_path g this_read_path then
    match path_lookup this_read_path counter with
    | Some c =>
        (path_setitem this_read_path (c + 1)%Z counter, rps,
         lens ++ [p_align_len rec])
    | None =>
        (path_setitem this_read_path 1%Z counter, rps ++ [this_read_path],
         lens ++ [p_align_len rec])
    end
  else acc.

Definition subpath_tables : Type :=
  (list (path * list (nat * bool)) * list (path * list (nat * bool)))%type.

(** The body of the loop over [sub_contig_num] for one read path. *)
Definition index_sub_contig_num (forward reverse : path) (read_id : nat)
    (tables : subpath_tables) (sub_contig_num : nat) : subpath_tables :=
  let (starting, middle) := tables in
  let starting := index_subpath (firstn sub_contig_num forward) read_id true
                    starting in
  let starting := index_subpath (firstn sub_contig_num reverse) read_id false
                    starting in
  let middle :=
    fold_left
      (fun m go_sub =>
         let m := index_subpath (slice forward go_sub (go_sub + sub_contig_num))
                    read_id true m in
         index_subpath (slice reverse go_sub (go_sub + sub_contig_num))
           read_id false m)
      (seq 1 (List.length forward - sub_contig_num - 1)) middle in
  (starting, middle).

Definition index_read_path (g : assembly_graph) (tables : subpath_tables)
    (ir : nat * path) : subpath_tables :=
  let (read_id, this_read_path) := ir in
  fold_left
    (index_sub_contig_num this_read_path (reverse_path g this_read_path) read_id)
    (seq 1 (List.length this_read_path - 1)) tables.

Definition max_Z_list (l : list Z) : result Z :=
  match l with
  | [] => Err IndexError
  | x :: t => Ok (fold_left Z.max t x)
  end.

Definition index_readpaths_subpaths (self : generator) (filter_by_graph : bool)
  : result generator :=
  let '(counter, rps, alignment_lengths) :=
    fold_left (count_record (graph self) filter_by_graph) (alignment self)
              ([], read_paths self, []) in
  let (starting, middle) :=
    fold_left (index_read_path (graph self))
              (combine (seq 0 (List.length rps)) rps)
              (starting_subpath_to_readpaths self,
               middle_subpath_to_readpaths self) in
  (* sorted(alignment_lengths)[-1] *)
  longest <- max_Z_list alignment_lengths ;;
  Ok {|
    graph := graph self; alignment := alignment self; tvs := tvs self;
    num_search := num_search self; num_processes := num_processes self;
    force_circular := force_circular self;
    hetero_chromosome := hetero_chromosome self;
    differ_f := differ_f self; decay_f := decay_f self;
    decay_t := decay_t self; cov_inert := cov_inert self;
    use_alignment_cov := use_alignment_cov self;
    min_unit_similarity := min_unit_similarity self;
    local_max_alignment_len := Some longest;
    read_paths := rps;
    read_paths_counter := counter;
    starting_subpath_to_readpaths := starting;
    middle_subpath_to_readpaths := middle;
    read_paths_counter_indexed := true;
    contig_coverages := contig_coverages self;
    candidate_single_copy_vs := candidate_single_copy_vs self;
    variants := variants self;
    variants_counts := variants_counts self
  |}.

(** ** Coverage sources and single-copy candidates *)

Definition set_contig_coverages (self : generator) (c : list (string * R))
  : generator := {|
    graph := graph self; alignment := alignment self; tvs := tvs self;
    num_search := num_search self; num_processes := num_processes self;
    force_circular := force_circular self;
    hetero_chromosome := hetero_chromosome self;
    differ_f := differ_f self; decay_f := decay_f self;
    decay_t := decay_t self; cov_inert := cov_inert self;
    use_alignment_cov := use_alignment_cov self;
    min_unit_similarity := min_unit_similarity self;
    local_max_alignment_len := local_max_alignment_len self;
    read_paths := read_paths self;
    read_paths_counter := read_paths_counter self;
    starting_subpath_to_readpaths := starting_subpath_to_readpaths self;
    middle_subpath_to_readpaths := middle_subpath_to_readpaths self;
    read_paths_counter_indexed := read_paths_counter_indexed self;
    contig_coverages := c;
    candidate_single_copy_vs := candidate_single_copy_vs self;
    variants := variants self;
    variants_counts := variants_counts self
  |}.

Definition set_candidate_single_copy_vs (self : generator) (s : list string)
  : generator := {|
    graph := graph self; alignment := alignment self; tvs := tvs self;
    num_search := num_search self; num_processes := num_processes self;
    force_circular := force_circular self;
    hetero_chromosome := hetero_chromosome self;
    differ_f := differ_f self; decay_f := decay_f self;
    decay_t := decay_t self; cov_inert := cov_inert self;
    use_alignment_cov := use_alignment_cov self;
    min_unit_similarity := min_unit_similarity self;
    local_max_alignment_len := local_max_alignment_len self;
    read_paths := read_paths self;
    read_paths_counter := read_paths_counter self;
    starting_subpath_to_readpaths := starting_subpath_to_readpaths self;
    middle_subpath_to_readpaths := middle_subpath_to_readpaths self;
    read_paths_counter_indexed := read_paths_counter_indexed self;
    contig_coverages := contig_coverages self;
    candidate_single_copy_vs := s;
    variants := variants self;
    variants_counts := variants_counts self
  |}.

Definition set_catalog (self : generator) (vs : list path)
    (vc : list (path * Z)) : generator := {|
    graph := graph self; alignment := alignment self; tvs := tvs self;
    num_search := num_search self; num_processes := num_processes self;
    force_circular := force_circular self;
    hetero_chromosome := hetero_chromosome self;
    differ_f := differ_f self; decay_f := decay_f self;
    decay_t := decay_t self; cov_inert := cov_inert self;
    use_alignment_cov := use_alignment_cov self;
    min_unit_similarity := min_unit_similarity self;
    local_max_alignment_len := local_max_alignment_len self;
    read_paths := read_paths self;
    read_paths_counter := read_paths_counter self;
    starting_subpath_to_readpaths := starting_subpath_to_readpaths self;
    middle_subpath_to_readpaths := middle_subpath_to_readpaths self;
    read_paths_counter_indexed := read_paths_counter_indexed self;
    contig_coverages := contig_coverages self;
    candidate_single_copy_vs := candidate_single_copy_vs self;
    variants := vs;
    variants_counts := vc
  |}.

(** [estimate_contig_coverages_from_read_paths] *)
Definition estimate_contig_coverages_from_read_paths (self : generator)
  : generator :=
  let zero := ordered_dict (map (fun nv => (fst nv, 0%Z))
                               (vertex_info (graph self))) in
  let counted :=
    fold_left
      (fun cov read_path =>
         fold_left
           (fun cov v =>
              match lookup (fst v) cov with
              | Some c => setitem (fst v) (c + 1)%Z cov
              | None => cov
              end)
           read_path cov)
      (read_paths self) zero in
  set_contig_coverages self (map (fun nc => (fst nc, IZR (snd nc))) counted).

(** [use_contig_coverage_from_assembly_graph] *)
Definition use_contig_coverage_from_assembly_graph (self : generator)
  : generator :=
  set_contig_coverages self
    (ordered_dict (map (fun nv => (fst nv, v_cov (snd nv)))
                       (vertex_info (graph self)))).

(** [estimate_single_copy_vertices] *)
Definition estimate_single_copy_vertices (self : generator) : generator :=
  set_candidate_single_copy_vs self
    (fold_left
       (fun s nv =>
          if (List.length (v_connections (snd nv) true) <? 2)%nat
             && (List.length (v_connections (snd nv) false) <? 2)%nat
          then if mem_string (fst nv) s then s else s ++ [fst nv]
          else s)
       (vertex_info (graph self)) (candidate_single_copy_vs self)).

(** ** Search coordinator *)

(** [get_single_traversal], given the path [raw] that the randomized
    [__heuristic_extend_path([])] came back with. *)
Definition get_single_traversal (self : generator) (raw : path) : path :=
  get_standardized_path_circ (graph self) (roll_path (graph self) raw).

(** [invalid_search] *)
Definition invalid_search (self : generator) (new_path : path) : bool :=
  (force_circular self && negb (is_circular_path (graph self) new_path))
  || (negb (hetero_chromosome self)
      && negb (is_fully_covered_by (graph self) new_path)).

(** [new_path_list] *)
Definition new_path_list (self : generator) (new_path : path)
  : result (list path) :=
  if is_circular_path (graph self) new_path
  then decompose_hetero_units self new_path
  else Ok [new_path].

(** The catalog ([variants], [variants_counts]) and the two counters. *)
Record search_state : Type := {
  ss_variants : list path;
  ss_variants_counts : list (path * Z);
  count_search : Z;
  count_valid : Z
}.

(** One insertion: a count increment, or a first insertion. *)
Definition insert_variant (s : search_state) (new_path : path) : search_state :=
  match path_lookup new_path (ss_variants_counts s) with
  | Some c =>
      {| ss_variants := ss_variants s;
         ss_variants_counts :=
           path_setitem new_path (c + 1)%Z (ss_variants_counts s);
         count_search := count_search s;
         count_valid := (count_valid s + 1)%Z |}
  | None =>
      {| ss_variants := ss_variants s ++ [new_path];
         ss_variants_counts :=
           path_setitem new_path 1%Z (ss_variants_counts s);
         count_search := count_search s;
         count_valid := (count_valid s + 1)%Z |}
  end.

(** The [for new_path in new_path_list] loop of [__gen_heuristic_paths_uni]:
    the states after each round, in order. *)
Fixpoint insert_units (n_search : Z) (s : search_state) (units : list path)
  : list search_state :=
  match units with
  | [] => []
  | new_path :: t =>
      let s' := insert_variant s new_path in
      s' :: (if (count_valid s' =? n_search)%Z then []
             else insert_units n_search s' t)
  end.

Definition bump_search (s : search_state) : search_state :=
  {| ss_variants := ss_variants s;
     ss_variants_counts := ss_variants_counts s;
     count_search := (count_search s + 1)%Z;
     count_valid := count_valid s |}.

(** The [while count_valid < self.num_search] loop: the states it goes
    through, in order. [raws] are the paths the successive traversals come
    back with; the loop is left pending when they run out. *)
Fixpoint uni_loop (self : generator) (s : search_state) (raws : list path)
  : result (list search_state) :=
  match raws with
  | [] => Ok []
  | raw :: raws' =>
      if (count_valid s <? num_search self)%Z then
        let new_path := get_single_traversal self raw in
        let s1 := bump_search s in
        if invalid_search self new_path then
          rest <- uni_loop self s1 raws' ;; Ok (s1 :: rest)
        else
          units <- new_path_list self new_path ;;
          let inserted := insert_units (num_search self) s1 units in
          rest <- uni_loop self (last inserted s1) raws' ;;
          Ok (s1 :: inserted ++ rest)
      else Ok []
  end.

Definition search_start (self : generator) : search_state :=
  {| ss_variants := variants self;
     ss_variants_counts := variants_counts self;
     count_search := 0; count_valid := 0 |}.

(** [__gen_heuristic_paths_uni]: the generator and the two counters when
    the loop is left. *)
Definition gen_heuristic_paths_uni (self : generator) (raws : list path)
  : result (generator * search_state) :=
  trace <- uni_loop self (search_start self) raws ;;
  let s := last trace (search_start self) in
  Ok (set_catalog self (ss_variants s) (ss_variants_counts s), s).

(** The part of [__heuristic_traversal_worker] between [lock.acquire()] and
    [lock.release()], for one traversal. *)
Fixpoint commit_units (n_search : Z) (s : search_state) (units : list path)
  : search_state :=
  match units with
  | [] => s
  | new_path :: t =>
      if (n_search <=? count_valid s)%Z then s
      else commit_units n_search (insert_variant s new_path) t
  end.

Definition worker_commit (self : generator) (s : search_state) (raw : path)
  : result search_state :=
  let new_path := get_single_traversal self raw in
  if invalid_search self new_path then Ok (bump_search s)
  else
    units <- new_path_list self new_path ;;
    Ok (commit_units (num_search self) (bump_search s) units).

(** [__gen_heuristic_paths_mp]: every change of the shared catalog and
    counters is made under the lock, so a run is the sequence of the workers'
    locked sections; [raws] are their traversals in the order in which they
    took the lock. The catalog starts empty and replaces the generator's at
    the end. *)
Definition gen_heuristic_paths_mp (self : generator) (raws : list path)
  : result (generator * search_state) :=
  s <- fold_left (fun acc raw => s <- acc ;; worker_commit self s raw) raws
         (Ok {| ss_variants := []; ss_variants_counts := [];
                count_search := 0; count_valid := 0 |}) ;;
  Ok (set_catalog self (ss_variants s) (ss_variants_counts s), s).

(** [generate_heuristic_paths] *)
Definition generate_heuristic_paths (self : generator)
    (num_processes_arg : option Z) (raws : list path)
  : result (generator * search_state) :=
  let n := match num_processes_arg with
           | Some n => n
           | None => num_processes self
           end in
  _ <- assert (1 <=? n)%Z ;;
  self <- (if read_paths_counter_indexed self then Ok self
           else index_readpaths_subpaths self true) ;;
  let self := if use_alignment_cov self
              then estimate_contig_coverages_from_read_paths self
              else use_contig_coverage_from_assembly_graph self in
  let self := estimate_single_copy_vertices self in
  if (n =? 1)%Z then gen_heuristic_paths_uni self raws
  else gen_heuristic_paths_mp self raws.

(** The sum of the occurrence counts of a catalog. *)
Definition total_count (d : list (path * Z)) : Z := sumZ (map snd d).

(** The structural constraints of a run, on one path. *)
Definition meets_constraints (self : generator) (p : path) : Prop :=
  (force_circular self = true -> is_circular_path (graph self) p = true) /\
  (hetero_chromosome self = false ->
   is_fully_covered_by (graph self) p = true).

(** ** Example collaborators

    The graph utilities and [get_variant_sub_paths] are not part of the two
    source files; the examples below run the generator with simple versions
    of them. *)

Definition flip (v : vne) : vne := (fst v, negb (snd v)).

(** Modelled from the spec: [graph.reverse_path], absent from the sources;
    the path read from its other end, every contig turned over. *)
Definition ex_reverse_path (p : path) : path := map flip (rev p).

(** All the rotations of a path. *)
Definition rotations (p : path) : list path :=
  map (fun k => skipn k p ++ firstn k p) (seq 0 (List.length p)).

(** Modelled from the spec: [graph.get_standardized_path_circ], absent from
    the sources; the canonical form of a circular path, taken as the least of
    its rotations and of the rotations of its reverse. *)
Definition ex_standardized_path_circ (p : path) : path :=
  hd p (sorted path_leb (rotations p ++ rotations (ex_reverse_path p))).

(** Modelled from the spec: [graph.get_standardized_path], absent from the
    sources; the canonical form of an open path, the lesser of the path and
    its reverse. *)
Definition ex_standardized_path (p : path) : path :=
  if path_leb p (ex_reverse_path p) then p else ex_reverse_path p.

(** Is [b] next to [a] in the graph? The generator appends
    [(next_name, not next_end)] for [(next_name, next_end)] in
    [connections[last_end]] of the last contig. *)
Definition ex_connected (vi : list (string * vertex)) (a b : vne) : bool :=
  match lookup (fst a) vi with
  | Some v => existsb (vne_eqb (flip b)) (v_connections v (snd a))
  | None => false
  end.

Fixpoint ex_chain (vi : list (string * vertex)) (p : path) : bool :=
  match p with
  | a :: ((b :: _) as t) => ex_connected vi a b && ex_chain vi t
  | _ => true
  end.

(** Modelled from the spec: [graph.contain_path], absent from the sources;
    every contig is in the graph and follows the one before it. *)
Definition ex_contain_path (vi : list (string * vertex)) (p : path) : bool :=
  forallb (fun v => match lookup (fst v) vi with Some _ => true | None => false end) p
  && ex_chain vi p.

(** Modelled from the spec: [graph.is_circular_path], absent from the
    sources; the first contig follows the last one. *)
Definition ex_is_circular_path (vi : list (string * vertex)) (p : path) : bool :=
  match p with
  | [] => false
  | a :: _ => ex_connected vi (last p a) a
  end.

(** Modelled from the spec: [graph.is_fully_covered_by], absent from the
    sources; every contig of the graph occurs in the path. *)
Definition ex_is_fully_covered_by (vi : list (string * vertex)) (p : path)
  : bool :=
  forallb (fun nv => mem_string (fst nv) (names p)) vi.

(** Modelled from the spec: [graph.roll_path], absent from the sources; the
    repeating unit of a path, which is the path itself as long as the path
    does not run over its own start. *)
Definition ex_roll_path (p : path) : path := p.

Definition ex_graph (vi : list (string * vertex)) : assembly_graph := {|
  vertex_info := vi;
  get_standardized_path := ex_standardized_path;
  get_standardized_path_circ := ex_standardized_path_circ;
  contain_path := ex_contain_path vi;
  reverse_path := ex_reverse_path;
  roll_path := ex_roll_path;
  is_circular_path := ex_is_circular_path vi;
  is_fully_covered_by := ex_is_fully_covered_by vi
|}.

Fixpoint is_prefix (a b : path) : bool :=
  match a, b with
  | [], _ => true
  | x :: a', y :: b' => vne_eqb x y && is_prefix a' b'
  | _ :: _, [] => false
  end.

Fixpoint is_infix (a b : path) : bool :=
  match b with
  | [] => is_empty a
  | _ :: b' => is_prefix a b || is_infix a b'
  end.

(** Modelled from the spec: [traversome.get_variant_sub_paths], absent from
    the sources; the read paths that can be read off the variant, around the
    circle and on either strand. *)
Definition ex_variant_sub_paths (reads : list path) (variant : path)
  : list path :=
  filter (fun r => is_infix r (variant ++ variant)
                   || is_infix (ex_reverse_path r) (variant ++ variant))
         reads.

Definition ex_traversome (vi : list (string * vertex))
    (records : list gaf_record) : traversome := {|
  tvs_graph := ex_graph vi;
  tvs_alignment := records;
  get_variant_sub_paths :=
    ex_variant_sub_paths (map (fun r => ex_standardized_path (gaf_path r))
                              records)
|}.

Definition fw (n : string) : vne := (n, true).
Definition bw (n : string) : vne := (n, false).

(** The three-contig circle of the end-to-end scenario:
    A (100, 10x) - B (50, 20x) - C (100, 10x) - A, read five times. *)
Definition abc_vertex_info : list (string * vertex) :=
  [ ("A"%string,
     {| v_len := 100; v_cov := 10%R;
        v_connections := fun e => if e then [bw "B"] else [fw "C"] |});
    ("B"%string,
     {| v_len := 50; v_cov := 20%R;
        v_connections := fun e => if e then [bw "C"] else [fw "A"] |});
    ("C"%string,
     {| v_len := 100; v_cov := 10%R;
        v_connections := fun e => if e then [bw "A"] else [fw "B"] |}) ].

Definition abc_path : path := [fw "A"; fw "B"; fw "C"].

Definition abc_traversome : traversome :=
  ex_traversome abc_vertex_info
    (repeat {| gaf_path := abc_path; p_align_len := 250 |} 5).

Definition abc_config : config := {|
  cfg_num_search := 1;
  cfg_num_processes := 1;
  cfg_force_circular := true;
  cfg_hetero_chromosome := true;
  cfg_differ_f := 1;
  cfg_decay_f := 20;
  cfg_decay_t := 1000;
  cfg_cov_inert := 1;
  cfg_use_alignment_cov := false;
  cfg_min_unit_similarity := 85 # 100
|}.

(** The generator of the scenario, and the same once its coverages and
    single-copy candidates are in place. *)
Definition abc_generator : generator :=
  fresh_generator abc_traversome abc_config.

Definition abc_ready : generator :=
  estimate_single_copy_vertices
    (use_contig_coverage_from_assembly_graph abc_generator).

(** A graph with a bubble: 1 - 2 - (7 | 8) - 5 - 1. *)
Definition bubble_vertex_info : list (string * vertex) :=
  [ ("1"%string,
     {| v_len := 1000; v_cov := 20%R;
        v_connections := fun e => if e then [bw "2"] else [fw "5"] |});
    ("2"%string,
     {| v_len := 100; v_cov := 20%R;
        v_connections := fun e => if e then [bw "7"; bw "8"] else [fw "1"] |});
    ("5"%string,
     {| v_len := 100; v_cov := 20%R;
        v_connections := fun e => if e then [bw "1"] else [fw "7"; fw "8"] |});
    ("7"%string,
     {| v_len := 10; v_cov := 10%R;
        v_connections := fun e => if e then [bw "5"] else [fw "2"] |});
    ("8"%string,
     {| v_len := 10; v_cov := 10%R;
        v_connections := fun e => if e then [bw "5"] else [fw "2"] |}) ].

Definition bubble_reads : list gaf_record :=
  [ {| gaf_path := [fw "1"; fw "2"; fw "7"; fw "5"]; p_align_len := 1210 |};
    {| gaf_path := [fw "1"; fw "2"; fw "8"; fw "5"]; p_align_len := 1210 |};
    {| gaf_path := [fw "5"; fw "1"]; p_align_len := 1100 |} ].

(** A traversal that goes around the bubble graph twice, once through each
    branch. *)
Definition bubble_traversal : path :=
  [fw "1"; fw "2"; fw "7"; fw "5"; fw "1"; fw "2"; fw "8"; fw "5"].

Definition bubble_config : config := {|
  cfg_num_search := 2;
  cfg_num_processes := 1;
  cfg_force_circular := true;
  cfg_hetero_chromosome := false;
  cfg_differ_f := 1;
  cfg_decay_f := 20;
  cfg_decay_t := 1000;
  cfg_cov_inert := 1;
  cfg_use_alignment_cov := false;
  cfg_min_unit_similarity := 85 # 100
|}.

Definition bubble_generator : generator :=
  fresh_generator (ex_traversome bubble_vertex_info bubble_reads) bubble_config.

(** A single circular contig. *)
Definition loop_vertex_info : list (string * vertex) :=
  [ ("X"%string,
     {| v_len := 100; v_cov := 10%R;
        v_connections := fun e => if e then [bw "X"] else [fw "X"] |}) ].

Definition loop_generator : generator :=
  fresh_generator
    (ex_traversome loop_vertex_info
       [ {| gaf_path := [fw "X"; fw "X"]; p_align_len := 200 |} ])
    default_config.

(** A configuration with a negative target search count. *)
Definition negative_search_config : config := {|
  cfg_num_search := -1;
  cfg_num_processes := 1;
  cfg_force_circular := true;
  cfg_hetero_chromosome := true;
  cfg_differ_f := 1;
  cfg_decay_f := 20;
  cfg_decay_t := 1000;
  cfg_cov_inert := 1;
  cfg_use_alignment_cov := false;
  cfg_min_unit_similarity := 85 # 100
|}.

(** ** Notions used to state the properties *)

(** The coverage and the length of a contig, read with a default. *)
Definition cov_of (self : generator) (n : string) : R :=
  match lookup n (contig_coverages self) with
  | Some c => c
  | None => 0%R
  end.

Definition len_of (self : generator) (n : string) : Z :=
  match lookup n (vertex_info (graph self)) with
  | Some v => v_len v
  | None => 0%Z
  end.

(** The contig has a coverage and is in the graph. *)
Definition known (self : generator) (n : string) : bool :=
  match lookup n (contig_coverages self), lookup n (vertex_info (graph self)) with
  | Some _, Some _ => true
  | _, _ => false
  end.

(** The mean [__get_cov_mean] takes of a table of occurrence counts. *)
Definition mean_of_counts (self : generator) (counts : list (string * nat))
  : result R :=
  tbl <- mapM (cover_entry self) counts ;;
  np_average (map fst tbl) (map snd tbl).

(** The length-weighted mean of the per-copy coverages of the contigs [ns],
    where contig [n] has [cnt n] copies: the values are [cov / copies], the
    weights [length * copies]. *)
Definition weighted_mean_of (self : generator) (cnt : string -> nat)
    (ns : list string) : R :=
  (sumR (map (fun n => cov_of self n / INR (cnt n)
                       * IZR (len_of self n * Z.of_nat (cnt n))) ns)
   / IZR (sumZ (map (fun n => len_of self n * Z.of_nat (cnt n))%Z ns)))%R.

(** The copies of contig [n] left in [p] once those of [ex] are taken out;
    nothing is taken out when [ex] has more copies of [n] than [p]. *)
Definition remaining (p ex : path) (n : string) : nat :=
  let have := count_occ string_dec (names p) n in
  let del := count_occ string_dec (names ex) n in
  if (have <? del)%nat then have else (have - del)%nat.

(** The contigs of [p] that keep at least one copy. *)
Definition remaining_names (p ex : path) : list string :=
  filter (fun n => (0 <? remaining p ex n)%nat) (nodup string_dec (names p)).

(** The entry of [v_covers] and [v_lengths] for one contig and its count. *)
Definition entry_of (self : generator) (nc : string * nat) : R * Z :=
  ((cov_of self (fst nc) / INR (snd nc))%R,
   (len_of self (fst nc) * Z.of_nat (snd nc))%Z).

(** A count, doubled. *)
Definition double_count (nc : string * nat) : string * nat :=
  (fst nc, 2 * snd nc).

(** The table of the contigs [keys] with a positive count under [f]. *)
Definition dict_of (keys : list string) (f : string -> nat)
  : list (string * nat) :=
  map (fun n => (n, f n)) (filter (fun n => 0 <? f n) keys).

Definition upd_count (f : string -> nat) (k : string) (v : nat)
  : string -> nat :=
  fun n => if String.eqb n k then v else f n.

(** The effect of one round of the exclusion loop on the counts. *)
Definition excl_count (f : string -> nat) (k : string) (c : nat)
  : string -> nat :=
  upd_count f k (if f k <? c then f k else f k - c).

(** An exclusion path that asks for two copies of contig A. *)
Definition two_copies_of_a : path := [fw "A"; fw "A"].

(** A sequence of floats that never goes up. *)
Fixpoint non_increasing (l : list xreal) : Prop :=
  match l with
  | a :: ((b :: _) as t) => xle b a /\ non_increasing t
  | _ => True
  end.

(** A likelihood ratio: a finite number between 0 and 1. *)
Definition is_ratio (x : xreal) : Prop :=
  match x with
  | Fin r => (0 <= r <= 1)%R
  | _ => False
  end.

(** The second lap around the A-B-C circle starts with contigs A and B. *)
Definition second_lap_start : path := [fw "A"; fw "B"].

(** A contig that has a coverage, is in the graph and has a positive
    length. *)
Definition usable (self : generator) (n : string) : Prop :=
  known self n = true /\ (0 < len_of self n)%Z.

(** The likelihood ratios of [n] log-likelihood ratios that are all zero. *)
Definition all_zero_ratios (n : nat) : list xreal :=
  map xexp (repeat (Fin 0) n).

(** A random source that always draws one half. *)
Definition half_draws : nat -> R := fun _ => (1 / 2)%R.

(** A contig that is in the graph and has a positive length. *)
Definition placed (self : generator) (n : string) : Prop :=
  in_vertex_info (graph self) n = true /\ (0 < len_of self n)%Z.

(** The generators of the examples once their coverages and single-copy
    candidates are in place. *)
Definition loop_ready : generator :=
  estimate_single_copy_vertices
    (use_contig_coverage_from_assembly_graph loop_generator).

Definition bubble_ready : generator :=
  estimate_single_copy_vertices
    (use_contig_coverage_from_assembly_graph bubble_generator).

(** Two copies of the one-contig circle. *)
Definition loop_twice : path := [fw "X"] ++ [fw "X"].

(** One lap around the bubble graph, through contig 7. *)
Definition bubble_lap : path := [fw "1"; fw "2"; fw "7"; fw "5"].

(** The two-lap traversal in canonical form, and the two units it is cut
    into. *)
Definition bubble_circle : path :=
  get_single_traversal bubble_ready bubble_traversal.

Definition bubble_unit_7 : path := [bw "1"; bw "5"; bw "7"; bw "2"].
Definition bubble_unit_8 : path := [bw "1"; bw "5"; bw "8"; bw "2"].

(** Two laps around the A-B-C circle, in canonical form. *)
Definition abc_variant : path := get_single_traversal abc_ready abc_path.
Definition abc_twice : path :=
  get_single_traversal abc_ready (abc_path ++ abc_path).

(** The bubble graph with one more read, which runs from one branch of the
    bubble to the other. *)
Definition spanning_reads : list gaf_record :=
  bubble_reads ++
  [ {| gaf_path := [fw "7"; fw "5"; fw "1"; fw "2"; fw "8"];
       p_align_len := 1220 |} ].

Definition spanning_ready : generator :=
  estimate_single_copy_vertices
    (use_contig_coverage_from_assembly_graph
       (fresh_generator (ex_traversome bubble_vertex_info spanning_reads)
                        bubble_config)).

(** A path that [new_path_list] yields for a traversal that passes the
    check of the structural constraints. *)
Definition from_valid_traversal (self : generator) (raws : list path)
    (p : path) : Prop :=
  exists raw units,
    In raw raws /\
    meets_constraints self (get_single_traversal self raw) /\
    new_path_list self (get_single_traversal self raw) = Ok units /\
    In p units /\
    (is_circular_path (graph self) (get_single_traversal self raw) = false ->
     p = get_single_traversal self raw).

(** The paths a search state has in its catalog: in the list of variants or
    as a key of the counts. *)
Definition in_catalog (s : search_state) (p : path) : Prop :=
  In p (ss_variants s) \/ In p (map fst (ss_variants_counts s)).

(** The bound and the balance every state of a run keeps. *)
Definition within_target (n total0 : Z) (s : search_state) : Prop :=
  (count_valid s <= n)%Z /\
  total_count (ss_variants_counts s) = (total0 + count_valid s)%Z.

(** The number of processes [generate_heuristic_paths] runs with. *)
Definition effective_processes (self : generator) (n : option Z) : Z :=
  match n with
  | Some n => n
  | None => num_processes self
  end.

(** The generator once [generate_heuristic_paths] has set its coverages and
    single-copy candidates. *)
Definition prepared (self : generator) : generator :=
  estimate_single_copy_vertices
    (if use_alignment_cov self
     then estimate_contig_coverages_from_read_paths self
     else use_contig_coverage_from_assembly_graph self).

(** The end-to-end scenario, run from the freshly built generator: the index
    it builds, and the generator and counters it ends with. *)
Definition abc_indexed : generator :=
  match index_readpaths_subpaths abc_generator true with
  | Ok g => g
  | Err _ => abc_generator
  end.

Definition abc_final_state : search_state := {|
  ss_variants := [abc_variant];
  ss_variants_counts := [(abc_variant, 1%Z)];
  count_search := 1;
  count_valid := 1
|}.

Definition abc_final : generator :=
  set_catalog (prepared abc_indexed) [abc_variant] [(abc_variant, 1%Z)].

(** The same for the bubble graph, where heterogeneous chromosomes are
    disallowed and the one traversal goes around twice. *)
Definition bubble_indexed : generator :=
  match index_readpaths_subpaths bubble_generator true with
  | Ok g => g
  | Err _ => bubble_generator
  end.

Definition bubble_final_state : search_state := {|
  ss_variants := [bubble_unit_7; bubble_unit_8];
  ss_variants_counts := [(bubble_unit_7, 1%Z); (bubble_unit_8, 1%Z)];
  count_search := 1;
  count_valid := 2
|}.

Definition bubble_final : generator :=
  set_catalog (prepared bubble_indexed) [bubble_unit_7; bubble_unit_8]
    [(bubble_unit_7, 1%Z); (bubble_unit_8, 1%Z)].

(** The bubble graph searched for three variants: the second traversal
    yields two units, of which only the first is still wanted. *)
Definition bubble_three : generator :=
  prepared
    (fresh_generator (ex_traversome bubble_vertex_info bubble_reads) {|
       cfg_num_search := 3;
       cfg_num_processes := 1;
       cfg_force_circular := true;
       cfg_hetero_chromosome := true;
       cfg_differ_f := 1;
       cfg_decay_f := 20;
       cfg_decay_t := 1000;
       cfg_cov_inert := 1;
       cfg_use_alignment_cov := false;
       cfg_min_unit_similarity := 85 # 100
     |}).

Definition bubble_three_raws : list path :=
  [bubble_traversal; bubble_traversal; bubble_traversal].

Definition bubble_three_trace : list search_state :=
  match uni_loop bubble_three (search_start bubble_three) bubble_three_raws with
  | Ok trace => trace
  | Err _ => []
  end.

Definition bubble_three_state : search_state := {|
  ss_variants := [bubble_unit_7; bubble_unit_8];
  ss_variants_counts := [(bubble_unit_7, 2%Z); (bubble_unit_8, 1%Z)];
  count_search := 2;
  count_valid := 3
|}.

(** A unit that holds contig A in both orientations, twice over. *)
Definition both_ways_twice : path :=
  [fw "A"; fw "B"; bw "A"; fw "C"] ++ [fw "A"; fw "B"; bw "A"; fw "C"].

(** ** Notions used to state the properties of the subpath index *)

(** A read path, read along the strand of an index entry. *)
Definition oriented (g : assembly_graph) (rp : path) (strand : bool) : path :=
  if strand then rp else reverse_path g rp.

(** The entry [x = (read_id, strand)] under the sub-path [sub] points to a
    read path of which [sub] is a start: its first [k] contigs along the
    strand, with [k] less than the length of the read path. *)
Definition starts_read (g : assembly_graph) (rps : list path) (sub : path)
    (x : nat * bool) : Prop :=
  exists rp k,
    nth_error rps (fst x) = Some rp /\
    (1 <= k < List.length rp)%nat /\
    sub = firstn k (oriented g rp (snd x)).

(** The entry points to a read path of which [sub] is a window that begins
    after the first contig and ends before position [len(read path)]. *)
Definition inside_read (g : assembly_graph) (rps : list path) (sub : path)
    (x : nat * bool) : Prop :=
  exists rp a k,
    nth_error rps (fst x) = Some rp /\
    (1 <= a)%nat /\ (1 <= k)%nat /\ (a + k < List.length rp)%nat /\
    sub = slice (oriented g rp (snd x)) a (a + k).

(** Every entry of every set of a table satisfies [P]. *)
Definition table_sound (P : path -> nat * bool -> Prop)
    (table : list (path * list (nat * bool))) : Prop :=
  forall sub set x, In (sub, set) table -> In x set -> P sub x.

(** The table has the entry [x] under the sub-path [sub]. *)
Definition registered (table : list (path * list (nat * bool))) (sub : path)
    (x : nat * bool) : Prop :=
  exists set, path_lookup sub table = Some set /\ In x set.

(** The standardized paths of the alignment records that the first loop of
    [index_readpaths_subpaths] counts, and these records. *)
Definition counted_records (self : generator) (filter_by_graph : bool)
  : list gaf_record :=
  filter (fun rec =>
            negb filter_by_graph
            || contain_path (graph self)
                 (get_standardized_path (graph self) (gaf_path rec)))
         (alignment self).

Definition counted_paths (self : generator) (filter_by_graph : bool)
  : list path :=
  map (fun rec => get_standardized_path (graph self) (gaf_path rec))
      (counted_records self filter_by_graph).

(** ** Notions used to state the properties of the decomposer and of the
    catalog *)

(** A list of positions that goes up strictly. *)
Fixpoint ascending (l : list nat) : Prop :=
  match l with
  | a :: ((b :: _) as t) => (a < b)%nat /\ ascending t
  | _ => True
  end.

(** The list of variants and the table of their counts go together: the
    list holds the keys of the table, in the order of their first insertion
    and once each, and every count is at least one. *)
Definition catalog_consistent (s : search_state) : Prop :=
  ss_variants s = map fst (ss_variants_counts s) /\
  NoDup (ss_variants s) /\
  Forall (fun pc => (1 <= snd pc)%Z) (ss_variants_counts s).

(** A generator built on the A-B-C circle with no alignment record. *)
Definition no_reads_generator : generator :=
  fresh_generator (ex_traversome abc_vertex_info []) abc_config.

(** The state the workers leave when the three traversals of the bubble
    graph are committed one after the other. *)
Definition bubble_three_mp_state : search_state := {|
  ss_variants := [bubble_unit_7; bubble_unit_8];
  ss_variants_counts := [(bubble_unit_7, 2%Z); (bubble_unit_8, 1%Z)];
  count_search := 3;
  count_valid := 3
|}.

(** ** The extensions [__heuristic_extend_path] proposes from overlaps

    Of the randomized engine, the two parts that involve no draw: the loop
    that collects the candidates by the overlap with the end of the path,
    and the extension that is proposed once a candidate is chosen. *)

(** The order of the tuples [(read_id, strand)]. *)
Definition read_leb (a b : nat * bool) : bool :=
  (fst a <? fst b)%nat || ((fst a =? fst b)%nat && implb (snd a) (snd b)).

(** [path[-overlap_c_num:]] *)
Definition last_contigs (p : path) (overlap_c_num : nat) : path :=
  skipn (List.length p - overlap_c_num) p.

(** The loop over [overlap_c_num]. [candidate_ls_list] and
    [candidates_list_overlap_c_nums], which grow together, are kept as one
    list of pairs. [internal_length] is [graph.get_path_internal_length] and
    [longest] the value of [local_max_alignment_len]. *)
Fixpoint overlap_loop (starting : list (path * list (nat * bool)))
    (internal_length : path -> Z) (longest : Z) (p : path) (nums : list nat)
  : list (nat * list (nat * bool)) :=
  match nums with
  | [] => []
  | overlap_c_num :: rest =>
      let overlap_path := last_contigs p overlap_c_num in
      if (longest <=? internal_length (overlap_path ++ [(""%string, true)]))%Z
      then []
      else
        match path_lookup overlap_path starting with
        | Some s =>
            (overlap_c_num, sorted read_leb s)
            :: overlap_loop starting internal_length longest p rest
        | None => overlap_loop starting internal_length longest p rest
        end
  end.

Definition overlap_candidates (self : generator) (internal_length : path -> Z)
    (longest : Z) (p : path) : list (nat * list (nat * bool)) :=
  overlap_loop (starting_subpath_to_readpaths self) internal_length longest p
               (seq 1 (List.length p)).

(** [new_extend], for the candidate [(read_id, strand)] and its overlap. *)
Definition new_extend (self : generator) (read_id : nat) (strand : bool)
    (ovl_c_num : nat) : result path :=
  match nth_error (read_paths self) read_id with
  | None => Err IndexError
  | Some read_path =>
      let read_path :=
        if strand then read_path else reverse_path (graph self) read_path in
      Ok (skipn ovl_c_num read_path)
  end.

(** ** Maximum-likelihood fit: [ModelFitMaxLike] *)

(** What the code reads of the object [scipy.optimize.minimize] returns:
    [success], [fun] and [x]. *)
Record optimize_result : Type := {
  res_success : bool;
  res_fun : R;
  res_x : list R
}.

(** The key of [sorted(success_runs, key=lambda x: x.fun)]. *)
Definition fun_leb (a b : optimize_result) : bool :=
  if Rle_dec (res_fun a) (res_fun b) then true else false.

(** The [while count_run < 10000] loop of [minimize_neg_likelihood].
    [runs count_run] is what the optimizer returns in the round that starts
    with the counter at [count_run] (the initial values are drawn at random);
    [todo] bounds the rounds that are left. *)
Fixpoint minimize_loop (runs : nat -> optimize_result) (todo count_run : nat)
    (success_runs : list optimize_result) : list optimize_result :=
  match todo with
  | O => success_runs
  | S todo' =>
      let result := runs count_run in
      if res_success result then
        let success_runs := success_runs ++ [result] in
        if (5 <? List.length success_runs)%nat then success_runs
        else minimize_loop runs todo' (S count_run) success_runs
      else minimize_loop runs todo' (S count_run) success_runs
  end.

(** [minimize_neg_likelihood]; [None] stands for the [False] it returns when
    no run succeeded. *)
Definition minimize_neg_likelihood (runs : nat -> optimize_result)
  : option optimize_result :=
  match sorted fun_leb (minimize_loop runs (Z.to_nat 10000) 0 []) with
  | [] => None
  | best :: _ => Some best
  end.

(** Dicts keyed by a variant id (a Python int). *)
Fixpoint zlookup {V : Type} (k : Z) (d : list (Z * V)) : option V :=
  match d with
  | [] => None
  | (k', v) :: t => if (k =? k')%Z then Some v else zlookup k t
  end.

Definition zgetitem {V : Type} (k : Z) (d : list (Z * V)) : result V :=
  match zlookup k d with
  | Some v => Ok v
  | None => Err KeyError
  end.

Fixpoint zsetitem {V : Type} (k : Z) (v : V) (d : list (Z * V))
  : list (Z * V) :=
  match d with
  | [] => [(k, v)]
  | (k', v') :: t =>
      if (k =? k')%Z then (k', v) :: t else (k', v') :: zsetitem k v t
  end.

(** [str] of a Python int. *)
Definition py_str (z : Z) : string := NilZero.string_of_int (Z.to_int z).

(** [__str_rep_id], given the ids the representative stands for. *)
Definition str_rep_id (unidentifiable_iso_ids : list Z) : string :=
  String.concat "+" (map py_str unidentifiable_iso_ids).

(** The list [representatives] of [__summarize_run_prop]; an empty
    [within_iso_ids] counts as none. *)
Definition representatives (merged_variants : list (Z * list Z))
    (within_iso_ids : option (list Z)) : list Z :=
  match within_iso_ids with
  | Some (w :: ws) =>
      filter (fun rep_id => existsb (Z.eqb rep_id) (w :: ws))
             (map fst merged_variants)
  | _ => map fst merged_variants
  end.

(** The loop over [enumerate(success_run.x)]: the state is [prop_dict] and
    [echo_prop]. *)
Fixpoint summarize_loop (merged_variants : list (Z * list Z)) (reps : list Z)
    (xs : list R) (go : nat) (st : list (Z * R) * list (string * R))
  : result (list (Z * R) * list (string * R)) :=
  match xs with
  | [] => Ok st
  | this_prop :: xs' =>
      let (prop_dict, echo_prop) := st in
      match nth_error reps go with
      | None => Err IndexError
      | Some rep =>
          ids <- zgetitem rep merged_variants ;;
          let echo_prop := setitem (str_rep_id ids) this_prop echo_prop in
          let this_prop := (this_prop / INR (List.length ids))%R in
          let prop_dict :=
            fold_left (fun d uid_iso_id => zsetitem uid_iso_id this_prop d)
                      ids prop_dict in
          summarize_loop merged_variants reps xs' (S go) (prop_dict, echo_prop)
      end
  end.

(** [__summarize_run_prop(success_run, within_iso_ids)]: [use_prop] and
    [echo_prop]. *)
Definition summarize_run_prop (merged_variants : list (Z * list Z))
    (success_run : optimize_result) (within_iso_ids : option (list Z))
  : result (list (Z * R) * list (string * R)) :=
  ' (prop_dict, echo_prop) <-
    summarize_loop merged_variants
      (representatives merged_variants within_iso_ids)
      (res_x success_run) 0 ([], []) ;;
  Ok (sorted (fun a b => (fst a <=? fst b)%Z) prop_dict, echo_prop).

(** The value a dict of proportions has for an id, zero when it has none. *)
Definition prop_of (d : list (Z * R)) (uid : Z) : R :=
  match zlookup uid d with
  | Some v => v
  | None => 0%R
  end.

(** Every variant id stands under one representative only. *)
Definition groups_disjoint (merged_variants : list (Z * list Z)) : Prop :=
  forall r1 r2 ids1 ids2 uid,
    zlookup r1 merged_variants = Some ids1 ->
    zlookup r2 merged_variants = Some ids2 ->
    In uid ids1 -> In uid ids2 -> r1 = r2.

(** Two representatives, the first of which stands for two variants, and a
    run that gives them the proportions 0.6 and 0.4. *)
Definition two_groups : list (Z * list Z) :=
  [(0%Z, [0%Z; 2%Z]); (1%Z, [1%Z])].

Definition two_groups_run : optimize_result :=
  {| res_success := true; res_fun := 1%R; res_x := [(6 / 10)%R; (4 / 10)%R] |}.

(** What [__summarize_run_prop] returns for them. *)
Definition two_groups_use_prop : list (Z * R) :=
  [(0%Z, (6 / 10 / INR 2)%R); (1%Z, (4 / 10 / INR 1)%R);
   (2%Z, (6 / 10 / INR 2)%R)].

Definition two_groups_echo_prop : list (string * R) :=
  [("0+2"%string, (6 / 10)%R); ("1"%string, (4 / 10)%R)].

(** [del d[k]]: a missing key raises [KeyError]. *)
Fixpoint zdelitem {V : Type} (k : Z) (d : list (Z * V))
  : result (list (Z * V)) :=
  match d with
  | [] => Err KeyError
  | (k', v) :: t =>
      if (k =? k')%Z then Ok t
      else t' <- zdelitem k t ;; Ok ((k', v) :: t')
  end.

Definition del_key {V : Type} (k : string) (d : list (string * V))
  : result (list (string * V)) :=
  match lookup k d with
  | Some _ => Ok (delitem k d)
  | None => Err KeyError
  end.

(** [abs(p - 0.) < diff_tolerance] *)
Definition near_zero (p diff_tolerance : R) : bool :=
  if Rlt_dec (Rabs (p - 0)) diff_tolerance then true else false.

(** One round of the loop of [__drop_zero_variants]. The state is the three
    tables the function changes in place: [chosen_ids] (its keys, the values
    are not used), [representative_props] and [echo_props]. *)
Definition drop_zero_step (merged_variants : list (Z * list Z))
    (diff_tolerance : R)
    (st : list Z * list (Z * R) * list (string * R)) (iso_id : Z)
  : result (list Z * list (Z * R) * list (string * R)) :=
  let '(chosen_ids, representative_props, echo_props) := st in
  p <- zgetitem iso_id representative_props ;;
  if near_zero p diff_tolerance then
    let chosen_ids := remove Z.eq_dec iso_id chosen_ids in
    ids <- zgetitem iso_id merged_variants ;;
    representative_props <-
      fold_left (fun acc uid_iso_id => d <- acc ;; zdelitem uid_iso_id d)
                ids (Ok representative_props) ;;
    echo_props <- del_key (str_rep_id ids) echo_props ;;
    Ok (chosen_ids, representative_props, echo_props)
  else Ok st.

(** [__drop_zero_variants]: the loop runs over a copy of the chosen ids. *)
Definition drop_zero_variants (merged_variants : list (Z * list Z))
    (chosen_ids : list Z) (representative_props : list (Z * R))
    (echo_props : list (string * R)) (diff_tolerance : R)
  : result (list Z * list (Z * R) * list (string * R)) :=
  fold_left
    (fun acc iso_id =>
       st <- acc ;; drop_zero_step merged_variants diff_tolerance st iso_id)
    chosen_ids (Ok (chosen_ids, representative_props, echo_props)).

(** A table of proportions in which variant 1 has none. *)
Definition one_zero_props : list (Z * R) :=
  [(0%Z, (1 / 2)%R); (1%Z, 0%R); (2%Z, (1 / 2)%R)].

Definition one_zero_echo : list (string * R) :=
  [("0+2"%string, 1%R); ("1"%string, 0%R)].

(** ** The start of a traversal: [get_single_traversal] and the branch
    [if not path] of [__heuristic_extend_path]

    The random source [self.__random] is the one of the traversome object
    ([traversome_obj.random]); it is called as Python's [random] module is
    ([choices], [random]), and is taken to behave as that module does. *)

(** [itertools.accumulate(weights)], from the running sum [acc]. *)
Fixpoint accumulate (acc : R) (weights : list R) : list R :=
  match weights with
  | [] => []
  | w :: t => (acc + w)%R :: accumulate (acc + w)%R t
  end.

(** [bisect(cum_weights, x, 0, hi)] on cumulative weights that do not go
    down: how many of the first [hi] of them are at most [x]. *)
Definition bisect (cum_weights : list R) (x : R) (hi : nat) : nat :=
  List.length (filter (fun c => if Rle_dec c x then true else false)
                      (firstn hi cum_weights)).

(** Modelled from the spec: the weighted draw of the random source, which is
    absent from the sources. The engine calls it as
    [random.choices(population, weights=weights)[0]] of Python's standard
    library, and it is modelled as that function: the cumulative weights
    must be as many as the population ([ValueError]); their total is their
    last element, which an empty list does not have ([IndexError]), and must
    be positive ([ValueError]); [u] is the value of the one call of
    [random()]. *)
Definition choices {A : Type} (population : list A) (weights : list R) (u : R)
  : result A :=
  let cum_weights := accumulate 0%R weights in
  if negb (List.length cum_weights =? List.length population)%nat
  then Err ValueError
  else
    match cum_weights with
    | [] => Err IndexError
    | c :: _ =>
        let total := last cum_weights c in
        if Rle_dec total 0 then Err ValueError
        else
          match nth_error population
                  (bisect cum_weights (u * total)%R
                          (List.length population - 1)) with
          | Some x => Ok x
          | None => Err IndexError
          end
    end.

(** [1. / self.__read_paths_counter[r_p]] *)
Definition freq_reciprocal (self : generator) (r_p : path) : result R :=
  match path_lookup r_p (read_paths_counter self) with
  | None => Err KeyError
  | Some c => if (c =? 0)%Z then Err ZeroDivisionError else Ok (1 / IZR c)%R
  end.

(** [__heuristic_extend_path(path)] on an empty path: a read path is drawn
    with the reciprocals of the counts as weights, turned over when the next
    draw is above one half, and the engine is called again on it. [draws 0]
    and [draws 1] are the values of the two calls of [random()]; [extend]
    stands for that further call, which goes on with the draws from the
    position it is given. On a path that is not empty the call is [extend]
    itself. *)
Definition heuristic_extend_path (self : generator) (draws : nat -> R)
    (extend : path -> nat -> result path) (p : path) : result path :=
  match p with
  | [] =>
      read_p_freq_reciprocal <- mapM (freq_reciprocal self) (read_paths self) ;;
      read_path <- choices (read_paths self) read_p_freq_reciprocal
                     (draws 0%nat) ;;
      let read_path :=
        if Rgt_dec (draws 1%nat) (1 / 2)
        then reverse_path (graph self) read_path
        else read_path in
      extend read_path 2%nat
  | _ => extend p 0%nat
  end.

(** The call [get_single_traversal()]: the engine is started on the empty
    path and what it returns is put in canonical form. *)
Definition get_single_traversal_call (self : generator) (draws : nat -> R)
    (extend : path -> nat -> result path) : result path :=
  raw <- heuristic_extend_path self draws extend [] ;;
  Ok (get_single_traversal self raw).

(** The generators a program can hold: what the constructor returns, and
    what the methods make of it. A search that stops on an exception leaves
    the catalog as far as it was filled. *)
Inductive reachable : generator -> Prop :=
| reach_init : forall t c g, init t c = Ok g -> reachable g
| reach_index : forall g f g',
    reachable g -> index_readpaths_subpaths g f = Ok g' -> reachable g'
| reach_coverages_from_reads : forall g,
    reachable g -> reachable (estimate_contig_coverages_from_read_paths g)
| reach_coverages_from_graph : forall g,
    reachable g -> reachable (use_contig_coverage_from_assembly_graph g)
| reach_single_copy : forall g,
    reachable g -> reachable (estimate_single_copy_vertices g)
| reach_catalog : forall g vs vc,
    reachable g -> reachable (set_catalog g vs vc)
| reach_generate : forall g n raws g' s,
    reachable g -> generate_heuristic_paths g n raws = Ok (g', s) ->
    reachable g'.

(** ** Notions used to state the properties of the single-process loop *)

(** The traversals of a run that pass the check of the structural
    constraints: the rounds of the loop that insert something. *)
Definition valid_traversals (self : generator) (raws : list path) : list path :=
  filter (fun raw => negb (invalid_search self (get_single_traversal self raw)))
         raws.

(** The loop has been left: its guard [count_valid < self.num_search] does
    not hold. *)
Definition loop_left (self : generator) (s : search_state) : Prop :=
  (num_search self <= count_valid s)%Z.

(** The generator the constructor builds for a negative target. *)
Definition negative_target : generator :=
  fresh_generator abc_traversome negative_search_config.

(** ** Notions used to state the decomposition of exact repeats *)

(** [m] copies of the unit [u], one after the other. *)
Definition laps (m : nat) (u : path) : path := List.concat (repeat u m).

(** The circle [u] read from its position [k]. *)
Definition rotation (k : nat) (u : path) : path := skipn k u ++ firstn k u.

(** The canonical form the decomposer gives a unit. *)
Definition canonical (self : generator) (u : path) : path :=
  get_standardized_path_circ (graph self) (roll_path (graph self) u).

(** The positions [start], [start + step], ... of [m] occurrences. *)
Fixpoint steps (start step m : nat) : list nat :=
  match m with
  | O => []
  | S m' => start :: steps (start + step) step m'
  end.


(** The A-B-C circle with one read that goes around it more than twice. *)
Definition long_read_ready : generator :=
  estimate_single_copy_vertices
    (use_contig_coverage_from_assembly_graph
       (fresh_generator
          (ex_traversome abc_vertex_info
             [ {| gaf_path := abc_path ++ abc_path ++ [fw "A"];
                  p_align_len := 600 |} ])
          abc_config)).

(** The A-B-C scenario with a similarity threshold of one. *)
Definition strict_config : config := {|
  cfg_num_search := 1;
  cfg_num_processes := 1;
  cfg_force_circular := true;
  cfg_hetero_chromosome := true;
  cfg_differ_f := 1;
  cfg_decay_f := 20;
  cfg_decay_t := 1000;
  cfg_cov_inert := 1;
  cfg_use_alignment_cov := false;
  cfg_min_unit_similarity := 1
|}.

Definition strict_ready : generator :=
  estimate_single_copy_vertices
    (use_contig_coverage_from_assembly_graph
       (fresh_generator abc_traversome strict_config)).

(** A graph in which the circle X - Y - X - Z goes through the long contig X
    twice; Y and Z also lead to X through W, so that no contig of the circle
    is a single-copy candidate. *)
Definition xyz_vertex_info : list (string * vertex) :=
  [ ("X"%string,
     {| v_len := 1000; v_cov := 40%R;
        v_connections := fun e => if e then [bw "Y"; bw "Z"]
                                  else [fw "Y"; fw "Z"; fw "W"] |});
    ("Y"%string,
     {| v_len := 10; v_cov := 20%R;
        v_connections := fun e => if e then [bw "X"; bw "W"] else [fw "X"] |});
    ("Z"%string,
     {| v_len := 10; v_cov := 20%R;
        v_connections := fun e => if e then [bw "X"; bw "W"] else [fw "X"] |});
    ("W"%string,
     {| v_len := 10; v_cov := 20%R;
        v_connections := fun e => if e then [bw "X"] else [fw "Y"; fw "Z"] |}) ].

Definition xyz_unit : path := [fw "X"; fw "Y"; fw "X"; fw "Z"].

Definition xyz_ready : generator :=
  estimate_single_copy_vertices
    (use_contig_coverage_from_assembly_graph
       (fresh_generator (ex_traversome xyz_vertex_info []) abc_config)).

(** A graph in which the circle A+ B+ A- C+ goes through contig A in both
    orientations. *)
Definition hairpin_vertex_info : list (string * vertex) :=
  [ ("A"%string,
     {| v_len := 100; v_cov := 20%R;
        v_connections := fun e => if e then [bw "B"; fw "B"]
                                  else [bw "C"; fw "C"] |});
    ("B"%string,
     {| v_len := 50; v_cov := 10%R;
        v_connections := fun e => if e then [fw "A"] else [fw "A"] |});
    ("C"%string,
     {| v_len := 50; v_cov := 10%R;
        v_connections := fun e => if e then [bw "A"] else [bw "A"] |}) ].

Definition both_ways_unit : path := [fw "A"; fw "B"; bw "A"; fw "C"].

Definition hairpin_ready : generator :=
  estimate_single_copy_vertices
    (use_contig_coverage_from_assembly_graph
       (fresh_generator (ex_traversome hairpin_vertex_info []) abc_config)).

(** * Properties *)

Unset Implicit Arguments.

(** ** Construction *)

Lemma assert_true : forall b, b = true -> assert b = Ok tt.
Proof. intros b ->. reflexivity. Qed.

Lemma assert_false : forall b, b = false -> assert b = Err AssertionError.
Proof. intros b ->. reflexivity. Qed.

Lemma config_in_bounds_dec :
  forall c, config_in_bounds c <->
    ((1 <=? cfg_num_processes c)%Z
     && Qleb 0 (cfg_differ_f c)
     && Qleb 0 (cfg_decay_f c)
     && (100 <=? cfg_decay_t c)%Z
     && Qleb 0 (cfg_cov_inert c)
     && Qleb (1 # 2) (cfg_min_unit_similarity c) = true).
Proof.
  intro c. unfold config_in_bounds, Qleb.
  rewrite !andb_true_iff, !Z.leb_le, !Qle_bool_iff. tauto.
Qed.

Lemma init_cases :
  forall t c,
    init t c =
    if (1 <=? cfg_num_processes c)%Z
       && Qleb 0 (cfg_differ_f c)
       && Qleb 0 (cfg_decay_f c)
       && (100 <=? cfg_decay_t c)%Z
       && Qleb 0 (cfg_cov_inert c)
       && Qleb (1 # 2) (cfg_min_unit_similarity c)
    then Ok (fresh_generator t c) else Err AssertionError.
Proof.
  intros t c. unfold init.
  destruct (1 <=? cfg_num_processes c)%Z; [|reflexivity].
  destruct (Qleb 0 (cfg_differ_f c)); [|reflexivity].
  destruct (Qleb 0 (cfg_decay_f c)); [|reflexivity].
  destruct (100 <=? cfg_decay_t c)%Z; [|reflexivity].
  destruct (Qleb 0 (cfg_cov_inert c)); [|reflexivity].
  destruct (Qleb (1 # 2) (cfg_min_unit_similarity c)); reflexivity.
Qed.

(** C9 (as amended): construction checks exactly six of the parameters. It
    succeeds, with the fresh generator, if and only if the worker count is at
    least 1, the differ exponent, the decay factor and the coverage-inertia
    exponent are at least 0, the decay threshold is at least 100 and the
    minimum unit similarity is at least 0.5; otherwise it fails with an
    assertion error. The target search count and the flags play no part. *)
Theorem init_checks_six_bounds :
  forall t c,
    (init t c = Ok (fresh_generator t c) <-> config_in_bounds c) /\
    (init t c = Err AssertionError <-> ~ config_in_bounds c).
Proof.
  intros t c. rewrite init_cases, config_in_bounds_dec.
  destruct ((1 <=? cfg_num_processes c)%Z && Qleb 0 (cfg_differ_f c)
            && Qleb 0 (cfg_decay_f c) && (100 <=? cfg_decay_t c)%Z
            && Qleb 0 (cfg_cov_inert c)
            && Qleb (1 # 2) (cfg_min_unit_similarity c)).
  - split; split; intro H; try reflexivity; try discriminate.
    exfalso. apply H. reflexivity.
  - split; split; intro H; try reflexivity; try discriminate.
Qed.

(** C9, counterexample: the target search count is not validated; a
    generator is built with a target of -1. *)
Lemma init_accepts_negative_num_search :
  exists g, init abc_traversome negative_search_config = Ok g /\
            num_search g = (-1)%Z.
Proof.
  exists (fresh_generator abc_traversome negative_search_config).
  split; reflexivity.
Qed.

(** ** Coverage model *)

Lemma sumR_perm : forall l l', Permutation l l' -> sumR l = sumR l'.
Proof.
  unfold sumR. induction 1; simpl in *; lra.
Qed.

Lemma sumZ_perm : forall l l', Permutation l l' -> sumZ l = sumZ l'.
Proof.
  unfold sumZ. induction 1; simpl in *; lia.
Qed.

Lemma forallb_perm :
  forall (A : Type) (f : A -> bool) l l',
    Permutation l l' -> forallb f l = forallb f l'.
Proof.
  induction 1; simpl.
  - reflexivity.
  - now rewrite IHPermutation.
  - destruct (f x), (f y); reflexivity.
  - congruence.
Qed.

Lemma cover_entry_cases :
  forall self n c,
    cover_entry self (n, c) =
    if known self n
    then Ok ((cov_of self n / INR c)%R, (len_of self n * Z.of_nat c)%Z)
    else Err KeyError.
Proof.
  intros self n c. unfold cover_entry, known, cov_of, len_of, getitem.
  destruct (lookup n (contig_coverages self)); simpl; [|reflexivity].
  destruct (lookup n (vertex_info (graph self))); reflexivity.
Qed.

Lemma mapM_cover_entry :
  forall self cs,
    mapM (cover_entry self) cs =
    if forallb (fun nc => known self (fst nc)) cs
    then Ok (map (entry_of self) cs) else Err KeyError.
Proof.
  intros self cs. induction cs as [|[n c] cs IH]; [reflexivity|].
  cbn [mapM forallb map fst]. rewrite cover_entry_cases, IH.
  destruct (known self n); [|reflexivity]. cbn [bind andb].
  destruct (forallb _ cs); reflexivity.
Qed.

Lemma sumR_entries_perm :
  forall (tbl tbl' : list (R * Z)),
    Permutation tbl tbl' ->
    sumR (map (fun aw => (fst aw * IZR (snd aw))%R)
              (combine (map fst tbl) (map snd tbl))) =
    sumR (map (fun aw => (fst aw * IZR (snd aw))%R)
              (combine (map fst tbl') (map snd tbl'))).
Proof.
  intros tbl tbl' H. apply sumR_perm.
  assert (E : forall t : list (R * Z), combine (map fst t) (map snd t) = t).
  { induction t as [|[a w] t IH]; simpl; [reflexivity | now rewrite IH]. }
  rewrite !E. now apply Permutation_map.
Qed.

Lemma np_average_perm :
  forall (tbl tbl' : list (R * Z)),
    Permutation tbl tbl' ->
    np_average (map fst tbl) (map snd tbl) =
    np_average (map fst tbl') (map snd tbl').
Proof.
  intros tbl tbl' H. unfold np_average.
  rewrite (sumZ_perm _ _ (Permutation_map snd H)).
  rewrite (sumR_entries_perm _ _ H). reflexivity.
Qed.

Lemma mean_of_counts_perm :
  forall self cs cs',
    Permutation cs cs' -> mean_of_counts self cs = mean_of_counts self cs'.
Proof.
  intros self cs cs' H. unfold mean_of_counts.
  rewrite !mapM_cover_entry, (forallb_perm _ _ _ _ H).
  destruct (forallb _ cs'); [|reflexivity]. simpl.
  apply np_average_perm. now apply Permutation_map.
Qed.

Lemma nodup_perm :
  forall l l' : list string,
    Permutation l l' ->
    Permutation (nodup string_dec l) (nodup string_dec l').
Proof.
  intros l l' H. apply NoDup_Permutation; try apply NoDup_nodup.
  intro x. rewrite !nodup_In. split; apply Permutation_in; [|symmetry]; exact H.
Qed.

Lemma count_names_perm :
  forall l l' : list string,
    Permutation l l' -> Permutation (count_names l) (count_names l').
Proof.
  intros l l' H. unfold count_names.
  rewrite (map_ext (fun n => (n, count_occ string_dec l n))
                   (fun n => (n, count_occ string_dec l' n))).
  - apply Permutation_map, nodup_perm, H.
  - intro n. f_equal. now apply Permutation_count_occ.
Qed.

Lemma check_path_perm :
  forall self p q, Permutation p q -> check_path self p = check_path self q.
Proof.
  intros self p q H. unfold check_path.
  rewrite (forallb_perm _ _ _ _ H).
  assert (E : is_empty p = is_empty q).
  { destruct p, q; try reflexivity.
    - apply Permutation_nil in H. discriminate.
    - symmetry in H. apply Permutation_nil in H. discriminate. }
  now rewrite E.
Qed.

Lemma get_cov_mean_unfold :
  forall self p ex,
    get_cov_mean self p ex =
    (_ <- check_path self p ;;
     mean_of_counts self (counts_after_exclusion p ex)).
Proof. reflexivity. Qed.

Lemma get_cov_mean_perm :
  forall self p q,
    Permutation p q -> get_cov_mean self p None = get_cov_mean self q None.
Proof.
  intros self p q H. rewrite !get_cov_mean_unfold.
  rewrite (check_path_perm self _ _ H). unfold counts_after_exclusion, names.
  rewrite (mean_of_counts_perm self _ _
             (count_names_perm _ _ (Permutation_map fst H))).
  reflexivity.
Qed.

(** *** Doubling every multiplicity *)

Lemma forallb_names :
  forall (g : string -> bool) (p : path),
    forallb (fun v => g (fst v)) p = forallb g (names p).
Proof.
  intros g p. induction p as [|v p IH]; simpl; [reflexivity | now rewrite IH].
Qed.

Lemma forallb_same_elements :
  forall (A : Type) (g : A -> bool) (l l' : list A),
    (forall x, In x l <-> In x l') -> forallb g l = forallb g l'.
Proof.
  intros A g l l' H.
  destruct (forallb g l) eqn:E, (forallb g l') eqn:E'; try reflexivity.
  - rewrite forallb_forall in E.
    assert (forallb g l' = true) by (apply forallb_forall; intros x Hx; apply E, H, Hx).
    congruence.
  - rewrite forallb_forall in E'.
    assert (forallb g l = true) by (apply forallb_forall; intros x Hx; apply E', H, Hx).
    congruence.
Qed.

Lemma doubled_same_names :
  forall l l' : list string,
    (forall n, count_occ string_dec l' n = 2 * count_occ string_dec l n) ->
    forall n, In n l' <-> In n l.
Proof.
  intros l l' H n.
  rewrite (count_occ_In string_dec l'), (count_occ_In string_dec l), H. lia.
Qed.

Lemma check_path_doubled :
  forall self p q,
    (forall n, count_occ string_dec (names q) n
               = 2 * count_occ string_dec (names p) n) ->
    check_path self q = check_path self p.
Proof.
  intros self p q H. unfold check_path.
  rewrite !(forallb_names (in_vertex_info (graph self))).
  rewrite (forallb_same_elements _ _ _ _ (doubled_same_names _ _ H)).
  assert (E : is_empty q = is_empty p).
  { destruct p as [|[a e] p], q as [|[b f] q]; try reflexivity.
    - specialize (H b). simpl in H. destruct (string_dec b b); [lia | congruence].
    - specialize (H a). simpl in H. destruct (string_dec a a); [lia | congruence]. }
  now rewrite E.
Qed.

Lemma count_names_doubled :
  forall l l' : list string,
    (forall n, count_occ string_dec l' n = 2 * count_occ string_dec l n) ->
    Permutation (count_names l') (map double_count (count_names l)).
Proof.
  intros l l' H. unfold count_names. rewrite map_map.
  rewrite (map_ext (fun n => (n, count_occ string_dec l' n))
                   (fun n => double_count (n, count_occ string_dec l n))).
  - apply Permutation_map, NoDup_Permutation; try apply NoDup_nodup.
    intro n. rewrite !nodup_In. apply doubled_same_names, H.
  - intro n. unfold double_count. simpl fst. simpl snd. now rewrite H.
Qed.

Lemma entry_doubled :
  forall self n c,
    (0 < c)%nat ->
    (fst (entry_of self (double_count (n, c)))
     * IZR (snd (entry_of self (double_count (n, c)))))%R
    = (fst (entry_of self (n, c)) * IZR (snd (entry_of self (n, c))))%R.
Proof.
  intros self n c Hc. unfold entry_of, double_count. cbn [fst snd].
  rewrite !mult_IZR, <- !INR_IZR_INZ, mult_INR. simpl (INR 2).
  assert (INR c <> 0)%R by (apply not_0_INR; lia).
  field. assumption.
Qed.

Lemma combine_fst_snd :
  forall (A B : Type) (t : list (A * B)), combine (map fst t) (map snd t) = t.
Proof.
  induction t as [|[a w] t IH]; simpl; [reflexivity | now rewrite IH].
Qed.

Lemma mean_of_counts_doubled :
  forall self cs,
    Forall (fun nc => (0 < snd nc)%nat) cs ->
    mean_of_counts self (map double_count cs) =
    (m <- mean_of_counts self cs ;; Ok (m / 2)%R).
Proof.
  intros self cs Hpos. unfold mean_of_counts.
  rewrite !mapM_cover_entry.
  assert (EK : forallb (fun nc => known self (fst nc)) (map double_count cs)
               = forallb (fun nc => known self (fst nc)) cs).
  { clear Hpos. induction cs as [|nc cs IH]; [reflexivity|].
    cbn [map forallb double_count fst]. now rewrite IH. }
  rewrite EK. clear EK.
  destruct (forallb (fun nc => known self (fst nc)) cs); [|reflexivity].
  cbn [bind]. unfold np_average. rewrite !combine_fst_snd.
  assert (EZ : sumZ (map snd (map (entry_of self) (map double_count cs)))
               = (2 * sumZ (map snd (map (entry_of self) cs)))%Z).
  { clear Hpos. induction cs as [|[n c] cs IH]; [reflexivity|].
    cbn [map sumZ fold_right] in *. unfold sumZ in IH. rewrite IH.
    unfold entry_of, double_count. cbn [fst snd].
    rewrite Nat2Z.inj_mul. change (Z.of_nat 2) with 2%Z. ring. }
  assert (ER : sumR (map (fun aw => (fst aw * IZR (snd aw))%R)
                         (map (entry_of self) (map double_count cs)))
               = sumR (map (fun aw => (fst aw * IZR (snd aw))%R)
                           (map (entry_of self) cs))).
  { clear EZ. induction Hpos as [|[n c] cs Hc Hcs IH]; [reflexivity|].
    cbn [map sumR fold_right] in *. unfold sumR in IH. rewrite IH.
    rewrite (entry_doubled self n c Hc). reflexivity. }
  rewrite EZ, ER.
  destruct (sumZ (map snd (map (entry_of self) cs)) =? 0)%Z eqn:E.
  - apply Z.eqb_eq in E. rewrite E. reflexivity.
  - apply Z.eqb_neq in E.
    destruct (2 * sumZ (map snd (map (entry_of self) cs)) =? 0)%Z eqn:E2.
    + apply Z.eqb_eq in E2. lia.
    + cbn [bind]. f_equal. rewrite mult_IZR.
      assert (IZR (sumZ (map snd (map (entry_of self) cs))) <> 0)%R
        by (apply not_0_IZR; exact E).
      field. assumption.
Qed.

Lemma count_names_positive :
  forall l : list string, Forall (fun nc => (0 < snd nc)%nat) (count_names l).
Proof.
  intro l. unfold count_names. apply Forall_forall. intros [n c] Hin.
  apply in_map_iff in Hin. destruct Hin as [m [E Hm]]. inversion E; subst.
  simpl. apply nodup_In in Hm. now apply count_occ_In.
Qed.

Lemma get_cov_mean_doubled :
  forall self p q,
    (forall n, count_occ string_dec (names q) n
               = 2 * count_occ string_dec (names p) n) ->
    get_cov_mean self q None =
    (m <- get_cov_mean self p None ;; Ok (m / 2)%R).
Proof.
  intros self p q H. rewrite !get_cov_mean_unfold.
  rewrite (check_path_doubled self _ _ H).
  destruct (check_path self p); [|reflexivity]. cbn [bind].
  unfold counts_after_exclusion.
  rewrite (mean_of_counts_perm self _ _ (count_names_doubled _ _ H)).
  apply mean_of_counts_doubled, count_names_positive.
Qed.

(** *** Excluding a sub-path *)

Lemma dict_of_cons :
  forall k keys f,
    dict_of (k :: keys) f =
    if 0 <? f k then (k, f k) :: dict_of keys f else dict_of keys f.
Proof.
  intros. unfold dict_of. cbn [filter]. destruct (0 <? f k); reflexivity.
Qed.

Lemma dict_of_ext :
  forall keys f g,
    (forall n, In n keys -> f n = g n) -> dict_of keys f = dict_of keys g.
Proof.
  induction keys as [|k keys IH]; intros f g H; [reflexivity|].
  rewrite !dict_of_cons, <- (H k (or_introl eq_refl)).
  rewrite (IH f g) by (intros n Hn; apply H; now right).
  reflexivity.
Qed.

Lemma lookup_dict_of_notin :
  forall keys f k, ~ In k keys -> lookup k (dict_of keys f) = None.
Proof.
  induction keys as [|a keys IH]; intros f k Hk; [reflexivity|].
  rewrite dict_of_cons.
  assert (k <> a) by (intro; subst; apply Hk; now left).
  assert (~ In k keys) by (intro; apply Hk; now right).
  destruct (0 <? f a); [|now apply IH].
  cbn [lookup]. destruct (String.eqb_spec k a); [contradiction | now apply IH].
Qed.

Lemma lookup_dict_of :
  forall keys f k,
    In k keys ->
    lookup k (dict_of keys f) = if 0 <? f k then Some (f k) else None.
Proof.
  induction keys as [|a keys IH]; intros f k Hk; [contradiction|].
  rewrite dict_of_cons. destruct (string_dec k a) as [->|Hne].
  - destruct (0 <? f a) eqn:E.
    + cbn [lookup]. now rewrite String.eqb_refl.
    + destruct (in_dec string_dec a keys) as [Hin|Hnin].
      * rewrite (IH f a Hin), E. reflexivity.
      * now apply lookup_dict_of_notin.
  - destruct Hk as [->|Hk]; [congruence|].
    destruct (0 <? f a).
    + cbn [lookup]. destruct (String.eqb_spec k a); [contradiction|]. now apply IH.
    + now apply IH.
Qed.

Lemma upd_count_other :
  forall f k v n, n <> k -> upd_count f k v n = f n.
Proof.
  intros. unfold upd_count. destruct (String.eqb_spec n k); congruence.
Qed.

Lemma upd_count_same : forall f k v, upd_count f k v k = v.
Proof. intros. unfold upd_count. now rewrite String.eqb_refl. Qed.

Lemma dict_of_upd_notin :
  forall keys f k v, ~ In k keys -> dict_of keys (upd_count f k v) = dict_of keys f.
Proof.
  intros. apply dict_of_ext. intros n Hn. apply upd_count_other.
  intro; subst; contradiction.
Qed.

Lemma delitem_dict_of :
  forall keys f k,
    NoDup keys -> delitem k (dict_of keys f) = dict_of keys (upd_count f k 0).
Proof.
  induction keys as [|a keys IH]; intros f k Hnd; [reflexivity|].
  inversion Hnd as [|? ? Ha Hnd']; subst.
  rewrite !dict_of_cons. destruct (string_dec k a) as [->|Hne].
  - rewrite upd_count_same. change (0 <? 0) with false. cbv iota.
    rewrite (dict_of_upd_notin keys f a 0 Ha).
    destruct (0 <? f a).
    + cbn [delitem]. now rewrite String.eqb_refl.
    + rewrite IH by assumption. now apply dict_of_upd_notin.
  - rewrite (upd_count_other f k 0 a) by congruence.
    destruct (0 <? f a).
    + cbn [delitem]. destruct (String.eqb_spec k a); [contradiction|].
      now rewrite IH.
    + now apply IH.
Qed.

Lemma setitem_dict_of :
  forall keys f k v,
    NoDup keys -> In k keys -> 0 < f k -> 0 < v ->
    setitem k v (dict_of keys f) = dict_of keys (upd_count f k v).
Proof.
  induction keys as [|a keys IH]; intros f k v Hnd Hin Hf Hv; [contradiction|].
  inversion Hnd as [|? ? Ha Hnd']; subst.
  rewrite !dict_of_cons. destruct (string_dec k a) as [->|Hne].
  - rewrite upd_count_same.
    apply Nat.ltb_lt in Hf, Hv. rewrite Hf, Hv.
    cbn [setitem]. rewrite String.eqb_refl.
    now rewrite (dict_of_upd_notin keys f a v Ha).
  - destruct Hin as [->|Hin]; [congruence|].
    rewrite (upd_count_other f k v a) by congruence.
    destruct (0 <? f a).
    + cbn [setitem]. destruct (String.eqb_spec k a); [contradiction|].
      now rewrite IH.
    + now apply IH.
Qed.

Lemma exclude_name_dict_of :
  forall keys f k c,
    NoDup keys -> (forall n, ~ In n keys -> f n = 0) ->
    exclude_name (dict_of keys f) (k, c) = dict_of keys (excl_count f k c).
Proof.
  intros keys f k c Hnd Hout. unfold exclude_name, excl_count.
  assert (Hhave : match lookup k (dict_of keys f) with
                  | Some c' => c' | None => 0 end = f k).
  { destruct (in_dec string_dec k keys) as [Hin|Hnin].
    - rewrite (lookup_dict_of keys f k Hin).
      destruct (0 <? f k) eqn:E; [reflexivity|].
      apply Nat.ltb_ge in E. lia.
    - rewrite (lookup_dict_of_notin keys f k Hnin). symmetry. now apply Hout. }
  rewrite Hhave. destruct (f k <? c) eqn:Elt.
  - apply dict_of_ext. intros n _. unfold upd_count.
    destruct (String.eqb_spec n k); congruence.
  - apply Nat.ltb_ge in Elt. destruct (f k - c =? 0) eqn:E0.
    + apply Nat.eqb_eq in E0. rewrite E0. now apply delitem_dict_of.
    + apply Nat.eqb_neq in E0. apply setitem_dict_of; try lia; try assumption.
      destruct (in_dec string_dec k keys) as [Hin|Hnin]; [assumption|].
      specialize (Hout k Hnin). lia.
Qed.

Lemma excl_count_out :
  forall keys f k c,
    (forall n, ~ In n keys -> f n = 0) ->
    forall n, ~ In n keys -> excl_count f k c n = 0.
Proof.
  intros keys f k c Hout n Hn. unfold excl_count, upd_count.
  destruct (String.eqb_spec n k) as [->|]; [|now apply Hout].
  rewrite (Hout k Hn). now destruct (0 <? c).
Qed.

Lemma fold_exclude_dict_of :
  forall (g : string -> nat) dkeys keys f,
    NoDup keys -> (forall n, ~ In n keys -> f n = 0) ->
    fold_left exclude_name (map (fun n => (n, g n)) dkeys) (dict_of keys f) =
    dict_of keys (fold_left (fun f n => excl_count f n (g n)) dkeys f).
Proof.
  induction dkeys as [|d dkeys IH]; intros keys f Hnd Hout; [reflexivity|].
  cbn [map fold_left]. rewrite exclude_name_dict_of by assumption.
  apply IH; [assumption|]. now apply excl_count_out.
Qed.

Lemma fold_excl_count_notin :
  forall (g : string -> nat) dkeys f n,
    ~ In n dkeys ->
    fold_left (fun f n => excl_count f n (g n)) dkeys f n = f n.
Proof.
  induction dkeys as [|d dkeys IH]; intros f n Hn; [reflexivity|].
  cbn [fold_left]. rewrite IH by (intro; apply Hn; now right).
  unfold excl_count. apply upd_count_other. intro; subst; apply Hn; now left.
Qed.

Lemma fold_excl_count_in :
  forall (g : string -> nat) dkeys f n,
    NoDup dkeys -> In n dkeys ->
    fold_left (fun f n => excl_count f n (g n)) dkeys f n =
    if f n <? g n then f n else f n - g n.
Proof.
  induction dkeys as [|d dkeys IH]; intros f n Hnd Hn; [contradiction|].
  inversion Hnd as [|? ? Hd Hnd']; subst. cbn [fold_left].
  destruct (string_dec n d) as [->|Hne].
  - rewrite fold_excl_count_notin by assumption.
    unfold excl_count. apply upd_count_same.
  - destruct Hn as [->|Hn]; [congruence|].
    rewrite IH by assumption.
    unfold excl_count. now rewrite upd_count_other by assumption.
Qed.

Lemma count_names_dict_of :
  forall l : list string,
    count_names l = dict_of (nodup string_dec l) (count_occ string_dec l).
Proof.
  intro l. unfold count_names, dict_of. f_equal.
  symmetry. apply forallb_filter_id. apply forallb_forall. intros n Hn.
  apply Nat.ltb_lt. apply nodup_In in Hn. now apply count_occ_In.
Qed.

Lemma counts_after_exclusion_spec :
  forall p ex,
    counts_after_exclusion p (Some ex) =
    map (fun n => (n, remaining p ex n)) (remaining_names p ex).
Proof.
  intros p ex.
  assert (E : fold_left exclude_name (count_names (names ex))
                (count_names (names p)) =
              map (fun n => (n, remaining p ex n)) (remaining_names p ex)).
  { rewrite (count_names_dict_of (names p)). unfold count_names at 1.
    rewrite fold_exclude_dict_of.
    - apply dict_of_ext. intros n _. unfold remaining.
      destruct (in_dec string_dec n (nodup string_dec (names ex))) as [Hin|Hnin].
      + apply fold_excl_count_in; [apply NoDup_nodup | assumption].
      + rewrite fold_excl_count_notin by assumption.
        rewrite nodup_In in Hnin.
        apply (count_occ_not_In string_dec) in Hnin. rewrite Hnin.
        rewrite Nat.sub_0_r. now destruct (count_occ string_dec (names p) n).
    - apply NoDup_nodup.
    - intros n Hn. rewrite nodup_In in Hn.
      now apply (count_occ_not_In string_dec). }
  unfold counts_after_exclusion. destruct ex as [|e ex]; [|exact E].
  rewrite <- E. reflexivity.
Qed.

Lemma check_path_ok :
  forall self p,
    p <> [] -> forallb (known self) (names p) = true ->
    check_path self p = Ok tt.
Proof.
  intros self p Hne Hk. unfold check_path.
  destruct p as [|v p]; [congruence|]. cbn [is_empty negb assert bind].
  rewrite (forallb_names (in_vertex_info (graph self))).
  assert (E : forallb (in_vertex_info (graph self)) (names (v :: p)) = true).
  { apply forallb_forall. intros n Hn.
    rewrite forallb_forall in Hk. specialize (Hk n Hn).
    unfold known in Hk. unfold in_vertex_info.
    destruct (lookup n (contig_coverages self)); [|discriminate].
    destruct (lookup n (vertex_info (graph self))); [reflexivity | discriminate]. }
  now rewrite E.
Qed.

Lemma mean_of_counts_known :
  forall self (cnt : string -> nat) ns,
    forallb (known self) ns = true ->
    sumZ (map (fun n => (len_of self n * Z.of_nat (cnt n))%Z) ns) <> 0%Z ->
    mean_of_counts self (map (fun n => (n, cnt n)) ns) =
    Ok (weighted_mean_of self cnt ns).
Proof.
  intros self cnt ns Hk Hz. unfold mean_of_counts.
  rewrite mapM_cover_entry.
  assert (E : forallb (fun nc : string * nat => known self (fst nc))
                      (map (fun n => (n, cnt n)) ns) = true).
  { apply forallb_forall. intros [n c] Hin.
    apply in_map_iff in Hin. destruct Hin as [m [Em Hm]]. inversion Em; subst.
    rewrite forallb_forall in Hk. now apply Hk. }
  rewrite E. cbn [bind]. unfold np_average, weighted_mean_of.
  rewrite combine_fst_snd, !map_map. unfold entry_of. cbn [fst snd].
  apply Z.eqb_neq in Hz. rewrite Hz. reflexivity.
Qed.

Lemma forallb_filter_sub :
  forall (A : Type) (f g : A -> bool) l,
    forallb f l = true -> forallb f (filter g l) = true.
Proof.
  intros A f g l H. apply forallb_forall. intros x Hx.
  apply filter_In in Hx. rewrite forallb_forall in H. now apply H.
Qed.

Lemma remaining_names_known :
  forall self p ex,
    forallb (known self) (names p) = true ->
    forallb (known self) (remaining_names p ex) = true.
Proof.
  intros self p ex H. unfold remaining_names. apply forallb_filter_sub.
  apply forallb_forall. intros n Hn. apply nodup_In in Hn.
  rewrite forallb_forall in H. now apply H.
Qed.

Lemma get_cov_mean_of_remaining :
  forall self p ex,
    p <> [] ->
    forallb (known self) (names p) = true ->
    sumZ (map (fun n => (len_of self n * Z.of_nat (remaining p ex n))%Z)
              (remaining_names p ex)) <> 0%Z ->
    get_cov_mean self p (Some ex) =
    Ok (weighted_mean_of self (remaining p ex) (remaining_names p ex)).
Proof.
  intros self p ex Hne Hk Hz. rewrite get_cov_mean_unfold.
  rewrite (check_path_ok self p Hne Hk). cbn [bind].
  rewrite counts_after_exclusion_spec.
  apply mean_of_counts_known; [now apply remaining_names_known | exact Hz].
Qed.

Lemma count_occ_names_app :
  forall (p q : path) n,
    count_occ string_dec (names (p ++ q)) n =
    count_occ string_dec (names p) n + count_occ string_dec (names q) n.
Proof.
  intros p q n. unfold names. rewrite map_app. apply count_occ_app.
Qed.

(** C5 (as amended): the mean coverage of a path does not depend on the order
    of its contigs; doubling every contig's multiplicity halves it (the
    values are the coverages per copy), errors being the same on both
    sides. *)
Theorem get_cov_mean_order_and_doubling :
  forall self p q,
    (Permutation p q ->
     get_cov_mean self p None = get_cov_mean self q None) /\
    ((forall n, count_occ string_dec (names q) n
                = 2 * count_occ string_dec (names p) n) ->
     get_cov_mean self q None =
     (m <- get_cov_mean self p None ;; Ok (m / 2)%R)).
Proof.
  intros self p q. split.
  - apply get_cov_mean_perm.
  - apply get_cov_mean_doubled.
Qed.

Lemma get_cov_mean_order_and_doubling_witness :
  get_cov_mean abc_ready abc_path None
  = get_cov_mean abc_ready (rev abc_path) None /\
  get_cov_mean abc_ready (abc_path ++ abc_path) None
  = (m <- get_cov_mean abc_ready abc_path None ;; Ok (m / 2)%R).
Proof.
  split.
  - apply (proj1 (get_cov_mean_order_and_doubling
                    abc_ready abc_path (rev abc_path))).
    apply Permutation_rev.
  - apply (proj2 (get_cov_mean_order_and_doubling
                    abc_ready abc_path (abc_path ++ abc_path))).
    intro n. rewrite count_occ_names_app.
    generalize (count_occ string_dec (names abc_path) n). intro c. lia.
Defined.

(** C5, counterexample: going around the A-B-C circle twice doubles every
    multiplicity and changes the mean coverage, from 12 to 6. *)
Lemma doubled_path_changes_mean :
  get_cov_mean abc_ready abc_path None = Ok 12%R /\
  get_cov_mean abc_ready (abc_path ++ abc_path) None = Ok 6%R /\
  get_cov_mean abc_ready (abc_path ++ abc_path) None
  <> get_cov_mean abc_ready abc_path None.
Proof.
  assert (E1 : get_cov_mean abc_ready abc_path None = Ok 12%R)
    by (cbn; f_equal; lra).
  assert (E2 : get_cov_mean abc_ready (abc_path ++ abc_path) None = Ok 6%R)
    by (cbn; f_equal; lra).
  repeat split; try assumption.
  rewrite E1, E2. intro H.
  assert (H6 : 6%R = 12%R) by congruence. lra.
Qed.

(** C2 (as amended): with an exclusion path, the mean is the length-weighted
    mean of the per-copy coverages over the copies that remain. A contig of
    which more copies are to be removed than the path has keeps all its
    copies: that case is logged and raises nothing. *)
Theorem get_cov_mean_excluding :
  forall self p ex,
    p <> [] ->
    forallb (known self) (names p) = true ->
    sumZ (map (fun n => (len_of self n * Z.of_nat (remaining p ex n))%Z)
              (remaining_names p ex)) <> 0%Z ->
    get_cov_mean self p (Some ex) =
    Ok (weighted_mean_of self (remaining p ex) (remaining_names p ex)).
Proof.
  exact get_cov_mean_of_remaining.
Qed.

Lemma get_cov_mean_excluding_witness :
  abc_path <> [] /\
  forallb (known abc_ready) (names abc_path) = true /\
  get_cov_mean abc_ready abc_path (Some two_copies_of_a) =
  Ok (weighted_mean_of abc_ready (remaining abc_path two_copies_of_a)
        (remaining_names abc_path two_copies_of_a)).
Proof.
  split; [discriminate|]. split; [reflexivity|].
  apply (get_cov_mean_excluding abc_ready abc_path two_copies_of_a).
  - discriminate.
  - reflexivity.
  - vm_compute. discriminate.
Defined.

(** C2, counterexample: two copies of contig A are to be excluded from a path
    that has one; no error is raised and the mean of the whole path, 12, is
    returned. *)
Lemma over_exclusion_raises_nothing :
  (count_occ string_dec (names abc_path) "A"%string
   < count_occ string_dec (names two_copies_of_a) "A"%string) /\
  get_cov_mean abc_ready abc_path (Some two_copies_of_a) = Ok 12%R.
Proof.
  split.
  - vm_compute. lia.
  - cbn. f_equal. lra.
Qed.

(** ** Multiplicity likelihood evaluator *)

Lemma bind_ok :
  forall (A B : Type) (m : result A) (f : A -> result B) (b : B),
    bind m f = Ok b -> exists a, m = Ok a /\ f a = Ok b.
Proof.
  intros A B m f b H. destruct m as [a|e]; [|discriminate].
  exists a. split; [reflexivity | exact H].
Qed.

Tactic Notation "bind_inv" hyp(H) "as" ident(a) ident(Ha) :=
  apply bind_ok in H; destruct H as [a [Ha H]].

Lemma mapM_length :
  forall (A B : Type) (f : A -> result B) l l',
    mapM f l = Ok l' -> List.length l' = List.length l.
Proof.
  intros A B f l. induction l as [|x l IH]; intros l' H.
  - inversion H. reflexivity.
  - cbn [mapM] in H. bind_inv H as y Hy. bind_inv H as ys Hys.
    inversion H; subst. cbn [List.length]. f_equal. now apply IH.
Qed.

Lemma mapM_Forall2 :
  forall (A B : Type) (f : A -> result B) l l',
    mapM f l = Ok l' -> Forall2 (fun x y => f x = Ok y) l l'.
Proof.
  intros A B f l. induction l as [|x l IH]; intros l' H.
  - inversion H. constructor.
  - cbn [mapM] in H. bind_inv H as y Hy. bind_inv H as ys Hys.
    inversion H; subst. constructor; [assumption | now apply IH].
Qed.

Lemma mapM_ok :
  forall (A B : Type) (f : A -> result B) l,
    (forall x, In x l -> exists y, f x = Ok y) ->
    exists l', mapM f l = Ok l'.
Proof.
  intros A B f l. induction l as [|x l IH]; intros H.
  - exists []. reflexivity.
  - destruct (H x (or_introl eq_refl)) as [y Hy].
    destruct IH as [l' Hl']; [intros z Hz; apply H; now right|].
    exists (y :: l'). cbn [mapM]. rewrite Hy, Hl'. reflexivity.
Qed.

Lemma min0_le0 : forall x, xle0 (min0 x).
Proof.
  intros [r| | |]; cbn; try lra; try exact I.
  destruct (Rlt_dec r 0); cbn; lra.
Qed.

Lemma xdiv_int_le0 :
  forall x n y, xle0 x -> (0 < n)%Z -> xdiv_int x n = Ok y -> xle0 y.
Proof.
  intros x n y Hx Hn H. destruct x as [r| | |]; cbn in Hx; try contradiction.
  - unfold xdiv_int in H.
    destruct (Z.eqb_spec n 0); [lia|]. inversion H; subst. cbn.
    assert (0 < IZR n)%R by (apply IZR_lt; exact Hn).
    assert (0 < / IZR n)%R by now apply Rinv_0_lt_compat.
    unfold Rdiv. replace 0%R with (0 * / IZR n)%R by ring.
    apply Rmult_le_compat_r; [now left | exact Hx].
  - unfold xdiv_int in H. destruct (Z.leb_spec 0 n); [|lia].
    inversion H; subst. exact I.
Qed.

Lemma xdiv_int_ok :
  forall x n, n <> 0%Z -> exists y, xdiv_int x n = Ok y.
Proof.
  intros x n Hn. destruct x as [r| | |]; unfold xdiv_int.
  - destruct (Z.eqb_spec n 0); [contradiction|]. eexists; reflexivity.
  - destruct (0 <=? n)%Z; eexists; reflexivity.
  - destruct (0 <=? n)%Z; eexists; reflexivity.
  - eexists; reflexivity.
Qed.

Lemma xexp_ratio : forall x, xle0 x -> is_ratio (xexp x).
Proof.
  intros [r| | |] H; cbn in *; try contradiction.
  - split; [left; apply exp_pos|].
    rewrite <- exp_0. destruct H as [H|H].
    + left. now apply exp_increasing.
    + right. now rewrite H.
  - lra.
Qed.

(** *** The loop keeps every ratio at or below zero *)

Lemma like_step_le0 :
  forall self cvc sm ss pl s v s',
    like_step self cvc sm ss pl s v = Ok s' ->
    Forall xle0 (log_like_ratio_list s) ->
    Forall xle0 (log_like_ratio_list s') /\
    List.length (log_like_ratio_list s')
    = S (List.length (log_like_ratio_list s)).
Proof.
  intros self cvc sm ss pl s [v_name v_end] s' H Hall.
  unfold like_step in H.
  bind_inv H as c Hc. bind_inv H as oc Hoc. destruct oc as [old_like cache].
  bind_inv H as u Hu. bind_inv H as new_like Hnew. bind_inv H as len Hlen.
  inversion H; subst.
  cbn [log_like_ratio_list]. split.
  - apply Forall_app. split; [assumption|]. constructor; [|constructor].
    apply min0_le0.
  - rewrite length_app. cbn. lia.
Qed.

Lemma like_loop_le0 :
  forall self cvc sm ss pl ext s s',
    like_loop self cvc sm ss pl s ext = Ok s' ->
    Forall xle0 (log_like_ratio_list s) ->
    Forall xle0 (log_like_ratio_list s') /\
    List.length (log_like_ratio_list s')
    = List.length (log_like_ratio_list s) + List.length ext.
Proof.
  intros self cvc sm ss pl ext. induction ext as [|v ext IH]; intros s s' H Hall.
  - inversion H; subst. split; [assumption | cbn; lia].
  - cbn [like_loop] in H. bind_inv H as s1 Hs1.
    destruct (like_step_le0 _ _ _ _ _ _ _ _ Hs1 Hall) as [Hall' Hlen].
    destruct (IH _ _ H Hall') as [Hall'' Hlen'].
    split; [assumption|]. rewrite Hlen', Hlen. cbn. lia.
Qed.

(** *** The accumulated lengths *)

Lemma fold_left_cons_rev :
  forall (A B : Type) (h : A -> B) l acc,
    fold_left (fun acc x => h x :: acc) l acc = rev (map h l) ++ acc.
Proof.
  intros A B h l. induction l as [|x l IH]; intro acc; [reflexivity|].
  cbn [fold_left map rev]. rewrite IH, <- app_assoc. reflexivity.
Qed.

Lemma accumulated_v_lengths_eq :
  forall vls n,
    accumulated_v_lengths vls n =
    rev (map (fun rev_go => sumZ (firstn (List.length vls - rev_go) vls))
             (seq 0 n)).
Proof.
  intros. unfold accumulated_v_lengths.
  rewrite fold_left_cons_rev, app_nil_r. reflexivity.
Qed.

Lemma sumZ_firstn_pos :
  forall vls k,
    Forall (fun z => 0 < z)%Z vls -> 0 < k -> vls <> [] ->
    (0 < sumZ (firstn k vls))%Z.
Proof.
  intros vls k Hall Hk Hne. destruct vls as [|z vls]; [congruence|].
  destruct k as [|k]; [lia|]. cbn [firstn sumZ fold_right].
  inversion Hall as [|? ? Hz Hrest]; subst.
  assert (0 <= fold_right Z.add 0 (firstn k vls))%Z; [|lia].
  clear - Hrest. revert k. induction Hrest as [|y l Hy Hl IH]; intro k.
  - destruct k; cbn; lia.
  - destruct k; cbn; [lia|]. specialize (IH k). lia.
Qed.

Lemma accumulated_v_lengths_pos :
  forall vls n,
    Forall (fun z => 0 < z)%Z vls -> n <= List.length vls ->
    Forall (fun z => 0 < z)%Z (accumulated_v_lengths vls n).
Proof.
  intros vls n Hall Hn. rewrite accumulated_v_lengths_eq.
  apply Forall_rev, Forall_forall. intros z Hz.
  apply in_map_iff in Hz. destruct Hz as [rev_go [E Hin]]. subst z.
  apply in_seq in Hin. apply sumZ_firstn_pos; [assumption | lia |].
  destruct vls; [cbn in Hn; lia | discriminate].
Qed.

Lemma accumulated_v_lengths_length :
  forall vls n, List.length (accumulated_v_lengths vls n) = n.
Proof.
  intros. rewrite accumulated_v_lengths_eq.
  now rewrite length_rev, length_map, length_seq.
Qed.

Lemma mapM_xdiv_le0 :
  forall xs ns ys,
    Forall xle0 xs -> Forall (fun z => 0 < z)%Z ns ->
    mapM (fun la => xdiv_int (fst la) (snd la)) (combine xs ns) = Ok ys ->
    Forall xle0 ys.
Proof.
  intros xs ns ys Hx Hn H. apply mapM_Forall2 in H.
  assert (Hc : Forall (fun la => xle0 (fst la) /\ (0 < snd la)%Z)
                      (combine xs ns)).
  { apply Forall_forall. intros [x n] Hin. cbn. split.
    - apply in_combine_l in Hin. rewrite Forall_forall in Hx. now apply Hx.
    - apply in_combine_r in Hin. rewrite Forall_forall in Hn. now apply Hn. }
  induction H as [|[x n] y l l' Hxy H IH]; [constructor|].
  inversion Hc as [|? ? [Hx0 Hn0] Hc']; subst. constructor.
  - cbn in Hxy, Hx0, Hn0. eapply xdiv_int_le0; eassumption.
  - now apply IH.
Qed.

(** *** The lengths of the proposed contigs *)

Lemma proposed_lengths_eq :
  forall self ext pl,
    mapM (fun v : vne => vtx <- getitem (fst v) (vertex_info (graph self)) ;;
                         Ok (fst v, v_len vtx)) ext = Ok pl ->
    pl = map (fun v : vne => (fst v, len_of self (fst v))) ext.
Proof.
  intros self ext. induction ext as [|v ext IH]; intros pl H.
  - inversion H. reflexivity.
  - cbn [mapM] in H. bind_inv H as y Hy. bind_inv H as ys Hys.
    inversion H; subst.
    cbn [map]. rewrite <- (IH _ Hys). f_equal.
    unfold getitem in Hy. bind_inv Hy as vtx Hvtx. inversion Hy; subst.
    unfold len_of.
    destruct (lookup (fst v) (vertex_info (graph self))); [|discriminate].
    inversion Hvtx; subst. reflexivity.
Qed.

Lemma lookup_map_key :
  forall (V : Type) (g : string -> V) (ext : path) n,
    In n (names ext) ->
    lookup n (map (fun v : vne => (fst v, g (fst v))) ext) = Some (g n).
Proof.
  intros V g ext n. induction ext as [|v ext IH]; intro Hin; [contradiction|].
  cbn [map lookup]. destruct (String.eqb_spec n (fst v)) as [->|Hne].
  - reflexivity.
  - apply IH. destruct Hin as [E|Hin]; [congruence | exact Hin].
Qed.

Lemma v_lengths_eq :
  forall (g : string -> Z) (ext0 ext : path),
    incl ext ext0 ->
    mapM (fun v : vne =>
            getitem (fst v) (map (fun v : vne => (fst v, g (fst v))) ext0))
         ext
    = Ok (map (fun v : vne => g (fst v)) ext).
Proof.
  intros g ext0 ext. induction ext as [|v ext IH]; intro Hincl; [reflexivity|].
  cbn [mapM map]. unfold getitem at 1.
  rewrite lookup_map_key
    by (apply in_map; apply Hincl; now left).
  cbn [bind]. rewrite IH by (intros x Hx; apply Hincl; now right).
  reflexivity.
Qed.

Lemma cal_multiplicity_like_exp :
  forall self p ext cvc om os sm ss,
    cal_multiplicity_like self p ext cvc om os sm ss false =
    (l <- cal_multiplicity_like self p ext cvc om os sm ss true ;;
     Ok (map xexp l)).
Proof.
  intros. unfold cal_multiplicity_like.
  repeat match goal with
         | |- bind ?m _ = bind (bind ?m _) _ =>
             destruct m; cbn [bind]; [|reflexivity]
         end.
  destruct a0 as [s_mean s_std].
  repeat match goal with
         | |- bind ?m _ = bind (bind ?m _) _ =>
             destruct m; cbn [bind]; [|reflexivity]
         end.
  reflexivity.
Qed.

Lemma cal_multiplicity_like_le0 :
  forall self p ext cvc om os sm ss l,
    (forall v, In v ext -> (0 < len_of self (fst v))%Z) ->
    cal_multiplicity_like self p ext cvc om os sm ss true = Ok l ->
    Forall xle0 l /\ List.length l = List.length ext.
Proof.
  intros self p ext cvc om os sm ss l Hlen H.
  unfold cal_multiplicity_like in H.
  bind_inv H as u Hu. bind_inv H as ms Hms. destruct ms as [s_mean s_std].
  bind_inv H as pl Hpl. bind_inv H as s Hs. bind_inv H as vls Hvls.
  bind_inv H as llrs Hllrs. inversion H; subst.
  apply proposed_lengths_eq in Hpl. subst pl.
  assert (Evls : Ok vls = Ok (map (fun v : vne => len_of self (fst v)) ext)).
  { rewrite <- Hvls. exact (v_lengths_eq (len_of self) ext ext (incl_refl ext)). }
  inversion Evls; subst. clear Evls Hvls.
  destruct (like_loop_le0 _ _ _ _ _ _ _ _ Hs (Forall_nil _)) as [Hall Hn].
  cbn [log_like_ratio_list List.length] in Hn. cbn [Nat.add] in Hn.
  assert (Hpos : Forall (fun z => 0 < z)%Z
                        (map (fun v : vne => len_of self (fst v)) ext)).
  { apply Forall_forall. intros z Hz. apply in_map_iff in Hz.
    destruct Hz as [v [E Hv]]. subst z. now apply Hlen. }
  split.
  - eapply mapM_xdiv_le0; [exact Hall | | exact Hllrs].
    apply accumulated_v_lengths_pos; [exact Hpos|].
    rewrite length_map, Hn. lia.
  - apply mapM_length in Hllrs. rewrite Hllrs, length_combine.
    rewrite accumulated_v_lengths_length, Hn. apply Nat.min_id.
Qed.

(** *** The evaluator returns *)

Lemma sumZ_pos :
  forall l, l <> [] -> Forall (fun z => 0 < z)%Z l -> (0 < sumZ l)%Z.
Proof.
  intros l Hne Hall.
  rewrite <- (firstn_all l). apply sumZ_firstn_pos; try assumption.
  destruct l; [congruence | cbn; lia].
Qed.

Lemma np_average_ok :
  forall a w, sumZ w <> 0%Z -> exists r, np_average a w = Ok r.
Proof.
  intros a w H. unfold np_average. apply Z.eqb_neq in H. rewrite H.
  eexists; reflexivity.
Qed.

Lemma weighted_std_ok :
  forall a w m, sumZ w <> 0%Z -> exists s, weighted_std a w m = Ok s.
Proof.
  intros a w m H. unfold weighted_std.
  destruct (1 <? List.length a); [|eexists; reflexivity].
  destruct (np_average_ok (map (fun c => ((c - m) ^ 2)%R) a) w H) as [r Hr].
  rewrite Hr. eexists; reflexivity.
Qed.

Lemma usable_known :
  forall self l,
    (forall n, In n l -> usable self n) -> forallb (known self) l = true.
Proof.
  intros self l H. apply forallb_forall. intros n Hn. now apply H.
Qed.

Lemma count_names_nonempty :
  forall l : list string, l <> [] -> count_names l <> [].
Proof.
  intros l Hne. destruct l as [|n l]; [congruence|].
  assert (Hin : In n (nodup string_dec (n :: l))) by (apply nodup_In; now left).
  unfold count_names. destruct (nodup string_dec (n :: l)); [contradiction|].
  discriminate.
Qed.

Lemma get_cov_mean_std_ok :
  forall self p,
    p <> [] -> (forall n, In n (names p) -> usable self n) ->
    exists ms, get_cov_mean_std self p None = Ok ms.
Proof.
  intros self p Hne Hu. unfold get_cov_mean_std.
  rewrite (check_path_ok self p Hne (usable_known self _ Hu)). cbn [bind].
  unfold counts_after_exclusion. rewrite mapM_cover_entry.
  assert (Ek : forallb (fun nc : string * nat => known self (fst nc))
                       (count_names (names p)) = true).
  { apply forallb_forall. intros [n c] Hin. unfold count_names in Hin.
    apply in_map_iff in Hin. destruct Hin as [m [E Hm]]. inversion E; subst.
    apply nodup_In in Hm. now apply Hu. }
  rewrite Ek. cbn [bind].
  assert (Hs : sumZ (map snd (map (entry_of self) (count_names (names p))))
               <> 0%Z).
  { assert (0 < sumZ (map snd (map (entry_of self) (count_names (names p)))))%Z;
      [|lia].
    apply sumZ_pos.
    - intro E. apply map_eq_nil in E. apply map_eq_nil in E.
      apply (count_names_nonempty (names p)); [|exact E].
      destruct p; [congruence | discriminate].
    - apply Forall_forall. intros z Hz. rewrite map_map in Hz.
      apply in_map_iff in Hz. destruct Hz as [[n c] [E Hin]]. subst z.
      unfold entry_of. cbn [fst snd].
      pose proof (count_names_positive (names p)) as Hpos.
      rewrite Forall_forall in Hpos. specialize (Hpos _ Hin). cbn in Hpos.
      unfold count_names in Hin. apply in_map_iff in Hin.
      destruct Hin as [m [E Hm]]. inversion E; subst.
      apply nodup_In in Hm. destruct (Hu _ Hm) as [_ Hl].
      apply Z.mul_pos_pos; lia. }
  destruct (np_average_ok (map fst (map (entry_of self) (count_names (names p))))
                          _ Hs) as [m Hm].
  rewrite Hm. cbn [bind].
  destruct (weighted_std_ok (map fst (map (entry_of self) (count_names (names p))))
                            _ m Hs) as [s Hstd].
  rewrite Hstd. eexists; reflexivity.
Qed.

Lemma fold_min_in :
  forall t x, In (fold_left Nat.min t x) (x :: t).
Proof.
  induction t as [|y t IH]; intro x; [now left|].
  cbn [fold_left]. destruct (IH (Nat.min x y)) as [E|Hin].
  - rewrite <- E. destruct (Nat.min_dec x y) as [->| ->];
      [now left | right; now left].
  - right. now right.
Qed.

Lemma min_nat_list_in :
  forall l, l <> [] -> In (min_nat_list l) l.
Proof.
  intros [|x t] H; [congruence|]. apply fold_min_in.
Qed.

Lemma insert_sorted_in :
  forall (A : Type) (leb : A -> A -> bool) x y l,
    In y (insert_sorted leb x l) <-> y = x \/ In y l.
Proof.
  intros A leb x y l. induction l as [|z l IH]; cbn [insert_sorted].
  - cbn. intuition congruence.
  - destruct (leb x z); cbn [In]; [intuition congruence|].
    rewrite IH. intuition congruence.
Qed.

Lemma sorted_in :
  forall (A : Type) (leb : A -> A -> bool) y l,
    In y (sorted leb l) <-> In y l.
Proof.
  intros A leb y l. unfold sorted. induction l as [|x l IH]; [reflexivity|].
  cbn [fold_right]. rewrite insert_sorted_in, IH. cbn. intuition congruence.
Qed.

Lemma single_copy_names_in :
  forall self p n, In n (single_copy_names self p) -> In n (names p).
Proof.
  intros self p n H. unfold single_copy_names in H.
  assert (Hv : forall m,
             In m (map fst (filter
                      (fun nc : string * nat =>
                         snd nc =? min_nat_list (map snd (count_names (names p))))
                      (count_names (names p)))) -> In m (names p)).
  { intros m Hm. apply in_map_iff in Hm. destruct Hm as [[k c] [E Hin]].
    cbn in E. subst k. apply filter_In in Hin. destruct Hin as [Hin _].
    unfold count_names in Hin. apply in_map_iff in Hin.
    destruct Hin as [k [E Hk]]. inversion E; subst. now apply nodup_In in Hk. }
  destruct (is_empty _) in H; [now apply Hv|].
  apply sorted_in in H. apply filter_In in H. now apply Hv.
Qed.

Lemma single_copy_names_nonempty :
  forall self p, p <> [] -> single_copy_names self p <> [].
Proof.
  intros self p Hne. unfold single_copy_names.
  set (cs := count_names (names p)).
  assert (Hcs : cs <> []).
  { apply count_names_nonempty. destruct p; [congruence | discriminate]. }
  assert (Hv : map fst (filter
                 (fun nc : string * nat => snd nc =? min_nat_list (map snd cs))
                 cs) <> []).
  { assert (Hin : In (min_nat_list (map snd cs)) (map snd cs)).
    { apply min_nat_list_in. intro E. apply map_eq_nil in E. contradiction. }
    apply in_map_iff in Hin. destruct Hin as [[k c] [E Hin]]. cbn in E.
    assert (Hf : In (k, c) (filter
                   (fun nc : string * nat => snd nc =? min_nat_list (map snd cs))
                   cs)).
    { apply filter_In. split; [assumption|]. cbn. rewrite E. apply Nat.eqb_refl. }
    intro E'. apply map_eq_nil in E'. rewrite E' in Hf. contradiction. }
  destruct (filter (fun n => mem_string n (candidate_single_copy_vs self)) _)
    as [|x l] eqn:El; cbn [is_empty]; [exact Hv|].
  intro E.
  assert (Hx : In x (sorted String.leb (x :: l))) by (apply sorted_in; now left).
  rewrite E in Hx. contradiction.
Qed.

Lemma mapM_single_entry :
  forall self ns,
    forallb (known self) ns = true ->
    mapM (single_entry self) ns =
    Ok (map (fun n => (cov_of self n, len_of self n)) ns).
Proof.
  intros self ns. induction ns as [|n ns IH]; intro H; [reflexivity|].
  cbn [forallb] in H. apply andb_true_iff in H. destruct H as [Hn Hns].
  cbn [mapM map]. rewrite (IH Hns).
  unfold single_entry, getitem, cov_of, len_of. unfold known in Hn.
  destruct (lookup n (contig_coverages self)); [|discriminate].
  destruct (lookup n (vertex_info (graph self))); [|discriminate].
  reflexivity.
Qed.

Lemma get_cov_mean_of_single_std_ok :
  forall self p,
    p <> [] -> (forall n, In n (names p) -> usable self n) ->
    exists ms, get_cov_mean_of_single_std self p = Ok ms.
Proof.
  intros self p Hne Hu. unfold get_cov_mean_of_single_std.
  rewrite (check_path_ok self p Hne (usable_known self _ Hu)). cbn [bind].
  assert (Hin : forall n, In n (single_copy_names self p) -> usable self n)
    by (intros n Hn; apply Hu; eapply single_copy_names_in; eassumption).
  rewrite (mapM_single_entry self _ (usable_known self _ Hin)). cbn [bind].
  rewrite !map_map. cbn [fst snd].
  assert (Hs : sumZ (map (fun n => len_of self n) (single_copy_names self p))
               <> 0%Z).
  { assert (0 < sumZ (map (fun n => len_of self n)
                          (single_copy_names self p)))%Z; [|lia].
    apply sumZ_pos.
    - intro E. apply map_eq_nil in E.
      now apply (single_copy_names_nonempty self p Hne).
    - apply Forall_forall. intros z Hz. apply in_map_iff in Hz.
      destruct Hz as [n [E Hn]]. subst z. now apply Hin. }
  destruct (np_average_ok (map (fun n => cov_of self n)
                               (single_copy_names self p)) _ Hs) as [m Hm].
  rewrite Hm. cbn [bind].
  destruct (weighted_std_ok (map (fun n => cov_of self n)
                                 (single_copy_names self p)) _ m Hs)
    as [s Hstd].
  rewrite Hstd. eexists; reflexivity.
Qed.

Lemma getitem_known_cov :
  forall self n, known self n = true ->
    getitem n (contig_coverages self) = Ok (cov_of self n).
Proof.
  intros self n H. unfold getitem, cov_of. unfold known in H.
  destruct (lookup n (contig_coverages self)); [reflexivity | discriminate].
Qed.

Lemma lookup_count_table :
  forall (g : string -> nat) (l : list string) n,
    In n l -> lookup n (map (fun n => (n, g n)) l) = Some (g n).
Proof.
  intros g l n. induction l as [|k l IH]; intro Hin; [contradiction|].
  cbn [map lookup]. destruct (String.eqb_spec n k) as [->|Hne];
    [reflexivity|].
  apply IH. destruct Hin as [E|Hin]; [congruence | exact Hin].
Qed.

Lemma like_step_ok :
  forall self (g : string -> nat) keys sm ss ext0 s v,
    In (fst v) keys -> In (fst v) (names ext0) ->
    ls_path s <> [] ->
    (forall n, In n (names (ls_path s ++ [v])) -> usable self n) ->
    exists s',
      like_step self (map (fun n => (n, g n)) keys) sm ss
        (map (fun v : vne => (fst v, len_of self (fst v))) ext0) s v = Ok s'
      /\ ls_path s' = ls_path s ++ [v].
Proof.
  intros self g keys sm ss ext0 s [v_name v_end] Hk He Hne Hu.
  cbn [fst] in Hk, He.
  assert (Hv : usable self v_name).
  { apply Hu. unfold names. rewrite map_app. apply in_or_app. right. now left. }
  destruct Hv as [Hkn _].
  unfold like_step, getitem at 1.
  rewrite (lookup_count_table g keys v_name Hk). cbn [bind].
  rewrite (getitem_known_cov self v_name Hkn).
  destruct (get_cov_mean_std_ok self (ls_path s ++ [(v_name, v_end)]))
    as [ms Hms]; [now destruct (ls_path s) | exact Hu |].
  assert (Hl : getitem v_name
                 (map (fun v : vne => (fst v, len_of self (fst v))) ext0)
               = Ok (len_of self v_name)).
  { unfold getitem. now rewrite (lookup_map_key _ (len_of self) ext0 v_name He). }
  destruct (lookup v_name (old_like_cache s)) as [old|];
    destruct (g v_name =? 0); cbn [bind]; rewrite Hms; cbn [bind];
    rewrite Hl; cbn [bind]; eexists; split; reflexivity.
Qed.

Lemma like_loop_ok :
  forall self (g : string -> nat) keys sm ss ext0 ext s,
    (forall v, In v ext -> In (fst v) keys /\ In (fst v) (names ext0)) ->
    ls_path s <> [] ->
    (forall n, In n (names (ls_path s ++ ext)) -> usable self n) ->
    exists s',
      like_loop self (map (fun n => (n, g n)) keys) sm ss
        (map (fun v : vne => (fst v, len_of self (fst v))) ext0) s ext = Ok s'.
Proof.
  intros self g keys sm ss ext0 ext.
  induction ext as [|v ext IH]; intros s Hin Hne Hu.
  - eexists; reflexivity.
  - cbn [like_loop].
    destruct (Hin v (or_introl eq_refl)) as [Hk He].
    destruct (like_step_ok self g keys sm ss ext0 s v Hk He Hne) as [s1 [Hs1 Hp]].
    { intros n Hn. apply Hu. unfold names in *. rewrite map_app in *.
      apply in_app_or in Hn. apply in_or_app.
      destruct Hn as [Hn|Hn]; [now left | right].
      cbn in Hn. destruct Hn as [E|[]]. now left. }
    rewrite Hs1. cbn [bind]. apply IH.
    + intros w Hw. apply Hin. now right.
    + rewrite Hp. now destruct (ls_path s).
    + rewrite Hp, <- app_assoc. exact Hu.
Qed.

Lemma mapM_xdiv_ok :
  forall xs ns,
    Forall (fun z => 0 < z)%Z ns ->
    exists ys,
      mapM (fun la => xdiv_int (fst la) (snd la)) (combine xs ns) = Ok ys.
Proof.
  intros xs ns Hn. apply mapM_ok. intros [x n] Hin. cbn [fst snd].
  apply xdiv_int_ok. apply in_combine_r in Hin.
  rewrite Forall_forall in Hn. specialize (Hn _ Hin). lia.
Qed.

Lemma cal_multiplicity_like_ok :
  forall self p ext om os sm ss,
    p <> [] ->
    (forall n, In n (names (p ++ ext)) -> usable self n) ->
    exists l,
      cal_multiplicity_like self p ext None om os sm ss true = Ok l.
Proof.
  intros self p ext om os sm ss Hne Hu.
  assert (Hup : forall n, In n (names p) -> usable self n).
  { intros n Hn. apply Hu. unfold names in *. rewrite map_app.
    apply in_or_app. now left. }
  assert (Hue : forall v, In v ext -> usable self (fst v)).
  { intros v Hv. apply Hu. unfold names. rewrite map_app.
    apply in_or_app. right. now apply in_map. }
  unfold cal_multiplicity_like.
  assert (E1 : exists u,
             (if truthy om && truthy os then Ok tt
              else _ <- get_cov_mean_std self p None ;; Ok tt) = Ok u).
  { destruct (truthy om && truthy os); [eexists; reflexivity|].
    destruct (get_cov_mean_std_ok self p Hne Hup) as [ms Hms].
    rewrite Hms. eexists; reflexivity. }
  destruct E1 as [u E1]. rewrite E1. cbn [bind].
  assert (E2 : exists ms,
             match sm, ss with
             | Some m, Some s =>
                 if truthy sm && truthy ss then Ok (m, s)
                 else get_cov_mean_of_single_std self p
             | _, _ => get_cov_mean_of_single_std self p
             end = Ok ms).
  { destruct (get_cov_mean_of_single_std_ok self p Hne Hup) as [ms Hms].
    destruct sm as [m|]; [|now exists ms].
    destruct ss as [s|]; [|now exists ms].
    destruct (truthy (Some m) && truthy (Some s));
      [eexists; reflexivity | now exists ms]. }
  destruct E2 as [[s_mean s_std] E2]. rewrite E2. cbn [bind].
  match goal with
  | |- context [bind (mapM ?f ext) _] =>
      assert (E3 : mapM f ext
                   = Ok (map (fun v : vne => (fst v, len_of self (fst v))) ext))
  end.
  { assert (Hk : forall v, In v ext -> known self (fst v) = true)
      by (intros v Hv; now apply Hue).
    clear - Hk. induction ext as [|v ext IH]; [reflexivity|].
    cbn [mapM map]. rewrite IH by (intros w Hw; apply Hk; now right).
    specialize (Hk v (or_introl eq_refl)). unfold known in Hk.
    unfold getitem, len_of.
    destruct (lookup (fst v) (contig_coverages self)); [|discriminate].
    destruct (lookup (fst v) (vertex_info (graph self))); [|discriminate].
    reflexivity. }
  rewrite E3. cbn [bind].
  destruct (like_loop_ok self (count_occ string_dec (names p))
              (nodup string_dec (names ext)) s_mean s_std ext ext
              {| log_like_ratio := Fin 0; old_like_cache := [];
                 ls_path := p; log_like_ratio_list := [] |})
    as [s Hs].
  { intros v Hv. split; [apply nodup_In|]; now apply in_map. }
  { exact Hne. }
  { exact Hu. }
  rewrite Hs. cbn [bind].
  match goal with
  | |- context [bind (mapM ?f ext) _] =>
      replace (mapM f ext)
        with (@Ok (list Z) (map (fun v : vne => len_of self (fst v)) ext))
        by (symmetry; exact (v_lengths_eq (len_of self) ext ext (incl_refl ext)))
  end.
  cbn [bind].
  destruct (mapM_xdiv_ok (log_like_ratio_list s)
              (accumulated_v_lengths
                 (map (fun v : vne => len_of self (fst v)) ext)
                 (List.length (log_like_ratio_list s)))) as [ys Hys].
  { destruct (like_loop_le0 _ _ _ _ _ _ _ _ Hs (Forall_nil _)) as [_ Hn].
    cbn [log_like_ratio_list List.length Nat.add] in Hn.
    apply accumulated_v_lengths_pos.
    - apply Forall_forall. intros z Hz. apply in_map_iff in Hz.
      destruct Hz as [v [E Hv]]. subst z. now apply Hue.
    - rewrite length_map, Hn. apply Nat.le_refl. }
  rewrite Hys. eexists; reflexivity.
Qed.

Lemma cal_multiplicity_like_sound :
  forall self p ext om os sm ss,
    p <> [] ->
    (forall n, In n (names (p ++ ext)) -> usable self n) ->
    exists l,
      cal_multiplicity_like self p ext None om os sm ss true = Ok l /\
      cal_multiplicity_like self p ext None om os sm ss false
      = Ok (map xexp l) /\
      List.length l = List.length ext /\
      Forall xle0 l /\
      Forall is_ratio (map xexp l).
Proof.
  intros self p ext om os sm ss Hne Hu.
  destruct (cal_multiplicity_like_ok self p ext om os sm ss Hne Hu) as [l Hl].
  exists l. split; [exact Hl|].
  destruct (cal_multiplicity_like_le0 self p ext None om os sm ss l) as [Hle Hlen];
    [|exact Hl|].
  { intros v Hv. apply Hu. unfold names. rewrite map_app. apply in_or_app.
    right. now apply in_map. }
  split; [rewrite cal_multiplicity_like_exp, Hl; reflexivity|].
  split; [exact Hlen|]. split; [exact Hle|].
  apply Forall_forall. intros x Hx. apply in_map_iff in Hx.
  destruct Hx as [y [E Hy]]. subst x. apply xexp_ratio.
  rewrite Forall_forall in Hle. now apply Hle.
Qed.

(** *** The second lap around the A-B-C circle *)

Lemma abc_single_stats :
  get_cov_mean_of_single_std abc_ready abc_path = Ok (12%R, 4%R).
Proof.
  cbn. f_equal. f_equal; [lra|].
  match goal with |- sqrt ?e = _ => replace e with (4 * 4)%R by lra end.
  apply sqrt_square. lra.
Qed.

Lemma norm_logpdf_diff :
  forall a b m s,
    (0 < s)%R ->
    xsub (norm_logpdf a m s) (norm_logpdf b m s)
    = Fin ((((b - m) / s) ^ 2 - ((a - m) / s) ^ 2) / 2)%R.
Proof.
  intros a b m s Hs. unfold norm_logpdf.
  destruct (Rlt_dec 0 s); [|contradiction].
  cbn. f_equal. lra.
Qed.

Lemma min0_neg : forall r, (r < 0)%R -> min0 (Fin r) = Fin r.
Proof. intros r H. cbn. destruct (Rlt_dec r 0); [reflexivity | contradiction]. Qed.

Lemma second_lap_ratios :
  cal_multiplicity_like abc_ready abc_path second_lap_start
    None None None None None true
  = Ok [Fin (- (45 / 32)); Fin (- (5 / 16))].
Proof.
  unfold cal_multiplicity_like. cbv beta iota.
  rewrite abc_single_stats.
  cbn -[norm_logpdf xsub min0].
  rewrite !norm_logpdf_diff by lra.
  cbn [xmul_int xadd].
  match goal with
  | |- context [min0 (Fin ?e)] => replace e with (- (1125 / 8))%R by lra
  end.
  rewrite min0_neg by lra. cbn [xadd].
  match goal with
  | |- context [min0 (Fin ?e)] => replace e with (- (375 / 8))%R by lra
  end.
  rewrite min0_neg by lra.
  cbn. repeat f_equal; lra.
Qed.

Lemma abc_usable :
  forall n, In n (names (abc_path ++ second_lap_start)) -> usable abc_ready n.
Proof.
  intros n Hn. cbn in Hn.
  repeat (destruct Hn as [<-|Hn]; [split; reflexivity|]).
  contradiction.
Qed.

(** C1 (as amended): for a non-empty path and a proposed extension whose
    contigs, like those of the path, have a coverage and a positive length,
    the evaluator returns one entry per prefix of the extension, and every
    entry is at most 0 in log form, hence a ratio between 0 and 1 once
    exponentiated. The entries need not decrease with the prefix length. *)
Theorem cal_multiplicity_like_entries_nonpositive :
  forall self p ext om os sm ss,
    p <> [] ->
    (forall n, In n (names (p ++ ext)) -> usable self n) ->
    exists l,
      cal_multiplicity_like self p ext None om os sm ss true = Ok l /\
      cal_multiplicity_like self p ext None om os sm ss false
      = Ok (map xexp l) /\
      List.length l = List.length ext /\
      Forall xle0 l /\
      Forall is_ratio (map xexp l).
Proof.
  exact cal_multiplicity_like_sound.
Qed.

Lemma cal_multiplicity_like_entries_nonpositive_witness :
  abc_path <> [] /\
  exists l,
    cal_multiplicity_like abc_ready abc_path second_lap_start
      None None None None None true = Ok l /\
    cal_multiplicity_like abc_ready abc_path second_lap_start
      None None None None None false = Ok (map xexp l) /\
    List.length l = List.length second_lap_start /\
    Forall xle0 l /\
    Forall is_ratio (map xexp l).
Proof.
  split; [discriminate|].
  apply (cal_multiplicity_like_entries_nonpositive
           abc_ready abc_path second_lap_start None None None None).
  - discriminate.
  - exact abc_usable.
Defined.

(** C1, counterexample: on the second lap around the A-B-C circle the entry
    for the prefix A is -45/32 and the entry for the prefix A, B is -5/16:
    the sequence goes up. *)
Lemma second_lap_ratios_increase :
  cal_multiplicity_like abc_ready abc_path second_lap_start
    None None None None None true
  = Ok [Fin (- (45 / 32)); Fin (- (5 / 16))] /\
  ~ non_increasing [Fin (- (45 / 32)); Fin (- (5 / 16))].
Proof.
  split; [exact second_lap_ratios|].
  cbn. intros [H _]. lra.
Qed.

(** ** Stochastic stopping rule *)

Lemma rev_repeat_same :
  forall (A : Type) (x : A) n, rev (repeat x n) = repeat x n.
Proof.
  intros A x n. induction n as [|n IH]; [reflexivity|].
  cbn [repeat rev]. rewrite IH. symmetry. apply repeat_cons.
Qed.

Lemma all_zero_ratios_rev :
  forall n, rev (all_zero_ratios n) = all_zero_ratios n.
Proof.
  intro n. unfold all_zero_ratios. now rewrite <- map_rev, rev_repeat_same.
Qed.

Lemma slice_to_all :
  forall (A : Type) (l : list A),
    slice_to l (Z.of_nat (List.length l) - Z.of_nat 0) = l.
Proof.
  intros A l. unfold slice_to. cbn [Z.of_nat]. rewrite Z.sub_0_r.
  destruct (Z.leb_spec 0 (Z.of_nat (List.length l))); [|lia].
  rewrite Nat2Z.id. apply firstn_all.
Qed.

Lemma first_draw_accepts :
  forall g p ext ndr draws t,
    (0 <= draws 0%nat < 1)%R ->
    draw_loop g p ext ndr draws (Fin 0) 0 (xexp (Fin 0) :: t)
    = Extend (p ++ ext) ndr.
Proof.
  intros g p ext ndr draws t Hd. cbn [draw_loop].
  assert (E : xgtb (xdiv (xsub (xexp (Fin 0)) (Fin 0)) (xsub (Fin 1) (Fin 0)))
                   (draws 0%nat) = true).
  { cbn. destruct (Req_dec_T (1 + - 0) 0) as [E0|_]; [exfalso; lra|].
    cbn. rewrite exp_0.
    destruct (Rlt_dec (draws 0%nat) ((1 + - 0) / (1 + - 0))) as [_|Hn];
      [reflexivity|].
    exfalso. apply Hn.
    replace ((1 + - 0) / (1 + - 0))%R with 1%R by (field; lra). lra. }
  rewrite E. now rewrite slice_to_all.
Qed.

Lemma all_zero_accepts_longest :
  forall self p ext ndr cvc draws,
    ext <> [] ->
    (0 <= draws 0%nat < 1)%R ->
    heuristic_check_multiplicity self p ext ndr cvc
      (Some (all_zero_ratios (List.length ext))) draws
    = Ok (Extend (p ++ ext) ndr).
Proof.
  intros self p ext ndr cvc draws Hne Hd.
  unfold heuristic_check_multiplicity.
  destruct ext as [|v ext]; [congruence|].
  cbn [is_empty negb assert bind].
  change (all_zero_ratios (List.length (v :: ext)))
    with (xexp (Fin 0) :: all_zero_ratios (List.length ext)).
  cbn [bind]. f_equal.
  change (xexp (Fin 0) :: all_zero_ratios (List.length ext))
    with (all_zero_ratios (List.length (v :: ext))).
  rewrite all_zero_ratios_rev.
  change (all_zero_ratios (List.length (v :: ext)))
    with (xexp (Fin 0) :: all_zero_ratios (List.length ext)).
  now apply first_draw_accepts.
Qed.

(** C3: called with the likelihood ratios of log-likelihood ratios that are
    all zero, the stopping rule accepts the whole proposed extension, whatever
    the random source draws in [0, 1): the first draw, at the longest length,
    succeeds. *)
Theorem all_zero_ratios_accept_longest :
  forall self p ext ndr cvc draws,
    ext <> [] ->
    (0 <= draws 0%nat < 1)%R ->
    heuristic_check_multiplicity self p ext ndr cvc
      (Some (all_zero_ratios (List.length ext))) draws
    = Ok (Extend (p ++ ext) ndr).
Proof.
  exact all_zero_accepts_longest.
Qed.

Lemma all_zero_ratios_accept_longest_witness :
  second_lap_start <> [] /\
  (0 <= half_draws 0%nat < 1)%R /\
  heuristic_check_multiplicity abc_ready abc_path second_lap_start false None
    (Some (all_zero_ratios (List.length second_lap_start))) half_draws
  = Ok (Extend (abc_path ++ second_lap_start) false).
Proof.
  split; [discriminate|]. split; [unfold half_draws; lra|].
  apply (all_zero_ratios_accept_longest
           abc_ready abc_path second_lap_start false None half_draws).
  - discriminate.
  - unfold half_draws. lra.
Defined.

(** ** Hetero-unit decomposer *)

Lemma decompose_short :
  forall self p,
    List.length p < 4 -> decompose_hetero_units self p = Ok [p].
Proof.
  intros self p H. unfold decompose_hetero_units.
  apply Nat.ltb_lt in H. now rewrite H.
Qed.

Lemma unique_vne_list_in :
  forall p v, In v (unique_vne_list p) <-> In v p.
Proof.
  intros p v. unfold unique_vne_list. now rewrite sorted_in, nodup_In.
Qed.

Lemma count_vne_nodup :
  forall (p : path) v, NoDup p -> In v p -> count_vne p v = 1.
Proof.
  intros p v Hnd Hin. unfold count_vne.
  pose proof (proj1 (NoDup_count_occ vne_dec p) Hnd v) as Hle.
  pose proof (proj1 (count_occ_In vne_dec p v) Hin) as Hge. lia.
Qed.

Lemma add_copy_fold_one :
  forall (c : vne -> nat) U acc,
    (forall v, In v U -> c v = 1) ->
    fold_left (fun d v => add_copy (c v) v d) U [(1, acc)] = [(1, acc ++ U)].
Proof.
  intros c U. induction U as [|u U IH]; intros acc H.
  - now rewrite app_nil_r.
  - cbn [fold_left]. rewrite (H u (or_introl eq_refl)). cbn [add_copy Nat.eqb].
    rewrite IH by (intros v Hv; apply H; now right).
    now rewrite <- app_assoc.
Qed.

Lemma copy_to_vne_nodup :
  forall p : path, NoDup p -> p <> [] -> copy_to_vne p = [(1, unique_vne_list p)].
Proof.
  intros p Hnd Hne. unfold copy_to_vne.
  assert (Hc : forall v, In v (unique_vne_list p) -> count_vne p v = 1).
  { intros v Hv. apply count_vne_nodup; [assumption|].
    now apply unique_vne_list_in. }
  destruct (unique_vne_list p) as [|u U] eqn:EU.
  - destruct p as [|v p]; [congruence|].
    assert (In v (unique_vne_list (v :: p)))
      by (apply unique_vne_list_in; now left).
    rewrite EU in H. contradiction.
  - cbn [fold_left]. rewrite (Hc u (or_introl eq_refl)). cbn [add_copy].
    apply (add_copy_fold_one (count_vne p) U [u]).
    intros v Hv. apply Hc. now right.
Qed.

Lemma lookup_setitem :
  forall (V : Type) k k' (v : V) d,
    lookup k (setitem k' v d) = if String.eqb k k' then Some v else lookup k d.
Proof.
  intros V k k' v d. induction d as [|[a w] d IH]; cbn [setitem lookup].
  - reflexivity.
  - destruct (String.eqb_spec k' a) as [->|Hne]; cbn [lookup].
    + destruct (String.eqb_spec k a); reflexivity.
    + rewrite IH. destruct (String.eqb_spec k a) as [->|Hka].
      * destruct (String.eqb_spec a k'); [congruence | reflexivity].
      * reflexivity.
Qed.

Lemma lookup_ordered_fold :
  forall (V : Type) (g : string -> V) (U : path) k d,
    (In k (names U) \/ lookup k d = Some (g k)) ->
    lookup k (fold_left (fun d kv => setitem (fst kv) (snd kv) d)
                        (map (fun v : vne => (fst v, g (fst v))) U) d)
    = Some (g k).
Proof.
  intros V g U. induction U as [|u U IH]; intros k d H.
  - destruct H as [[]|H]. exact H.
  - cbn [map fold_left fst snd]. apply IH.
    destruct (in_dec string_dec k (names U)) as [Hin|Hnin]; [now left|].
    right. rewrite lookup_setitem.
    destruct (String.eqb_spec k (fst u)) as [->|Hne]; [reflexivity|].
    destruct H as [[E|Hin]|H]; [congruence | contradiction | exact H].
Qed.

Lemma lookup_ordered_dict :
  forall (g : string -> Z) (U : path) k,
    In k (names U) ->
    lookup k (ordered_dict (map (fun v : vne => (fst v, g (fst v))) U))
    = Some (g k).
Proof.
  intros g U k H. unfold ordered_dict. apply lookup_ordered_fold. now left.
Qed.

Lemma unit_v_lengths_placed :
  forall self p,
    (forall v, In v p -> placed self (fst v)) ->
    unit_v_lengths self p =
    Ok (ordered_dict (map (fun v : vne => (fst v, len_of self (fst v)))
                          (unique_vne_list p))).
Proof.
  intros self p H. unfold unit_v_lengths.
  assert (HU : forall v, In v (unique_vne_list p) -> placed self (fst v))
    by (intros v Hv; apply H; now apply unique_vne_list_in).
  match goal with
  | |- bind (mapM ?f ?U) _ = _ =>
      assert (E : mapM f U
                  = Ok (map (fun v : vne => (fst v, len_of self (fst v))) U))
  end.
  { clear H. induction (unique_vne_list p) as [|v U IH]; [reflexivity|].
    cbn [mapM map]. rewrite IH by (intros w Hw; apply HU; now right).
    destruct (HU v (or_introl eq_refl)) as [Hin _].
    unfold in_vertex_info in Hin. unfold getitem, len_of.
    destruct (lookup (fst v) (vertex_info (graph self))); [|discriminate].
    reflexivity. }
  rewrite E. reflexivity.
Qed.

Lemma mapM_getitem_lengths :
  forall (g : string -> Z) (U sel : path),
    incl sel U ->
    mapM (fun v : vne =>
            getitem (fst v)
              (ordered_dict (map (fun v : vne => (fst v, g (fst v))) U))) sel
    = Ok (map (fun v : vne => g (fst v)) sel).
Proof.
  intros g U sel. induction sel as [|v sel IH]; intro Hincl; [reflexivity|].
  cbn [mapM map]. unfold getitem at 1.
  rewrite lookup_ordered_dict by (apply in_map, Hincl; now left).
  cbn [bind]. rewrite IH by (intros w Hw; apply Hincl; now right).
  reflexivity.
Qed.

Lemma selection_nonempty :
  forall self p,
    p <> [] ->
    (if negb (is_empty (candidate_sc_vertices self p))
     then filter (fun v : vne => mem_string (fst v) (candidate_single_copy_vs self))
                 (unique_vne_list p)
     else unique_vne_list p) <> [].
Proof.
  intros self p Hne.
  destruct (candidate_sc_vertices self p) as [|n l] eqn:E; cbn [is_empty negb].
  - destruct p as [|v p]; [congruence|]. intro E'.
    assert (In v (unique_vne_list (v :: p)))
      by (apply unique_vne_list_in; now left).
    rewrite E' in H. contradiction.
  - assert (Hn : In n (candidate_sc_vertices self p)) by (rewrite E; now left).
    unfold candidate_sc_vertices in Hn. apply filter_In in Hn.
    destruct Hn as [Hn Hm]. apply nodup_In in Hn. unfold names in Hn.
    apply in_map_iff in Hn. destruct Hn as [v [Ev Hv]]. subst n.
    intro E'.
    assert (Hf : In v (filter
                   (fun v : vne => mem_string (fst v) (candidate_single_copy_vs self))
                   (unique_vne_list p)))
      by (apply filter_In; now split).
    rewrite E' in Hf. contradiction.
Qed.

Lemma candidate_num_units_nodup :
  forall self (p : path),
    NoDup p -> p <> [] ->
    (forall v, In v p -> placed self (fst v)) ->
    candidate_num_units self p
      (ordered_dict (map (fun v : vne => (fst v, len_of self (fst v)))
                         (unique_vne_list p)))
    = Ok [].
Proof.
  intros self p Hnd Hne Hpl. unfold candidate_num_units, sum_lens.
  rewrite (copy_to_vne_nodup p Hnd Hne).
  cbn [map fst sorted fold_right insert_sorted mapM lookup_copy Nat.eqb bind].
  set (sel := if negb (is_empty (candidate_sc_vertices self p))
              then filter (fun v : vne =>
                             mem_string (fst v) (candidate_single_copy_vs self))
                          (unique_vne_list p)
              else unique_vne_list p).
  assert (Hincl : incl sel (unique_vne_list p)).
  { unfold sel. destruct (negb _); [|apply incl_refl].
    intros v Hv. now apply filter_In in Hv. }
  match goal with
  | |- context [mapM ?f ?s] =>
      match s with
      | context [filter] =>
          replace (mapM f s)
            with (@Ok (list Z) (map (fun v : vne => len_of self (fst v)) sel))
            by (symmetry;
                exact (mapM_getitem_lengths (len_of self) (unique_vne_list p)
                         sel Hincl))
      end
  end.
  cbn [bind combine map fst snd sumZ fold_right mapM].
  assert (Hpos : (0 < sumZ (map (fun v : vne => len_of self (fst v)) sel))%Z).
  { apply sumZ_pos.
    - intro E. apply map_eq_nil in E.
      now apply (selection_nonempty self p Hne).
    - apply Forall_forall. intros z Hz. apply in_map_iff in Hz.
      destruct Hz as [v [E Hv]]. subst z.
      apply Hpl. apply unique_vne_list_in. now apply Hincl. }
  unfold py_div.
  destruct (Z.eqb_spec
              (Z.of_nat 1 * sumZ (map (fun v : vne => len_of self (fst v)) sel) + 0)
              0) as [E|_]; [lia|].
  reflexivity.
Qed.

Lemma decompose_nodup :
  forall self (p : path),
    NoDup p ->
    (forall v, In v p -> placed self (fst v)) ->
    decompose_hetero_units self p = Ok [p].
Proof.
  intros self p Hnd Hpl. unfold decompose_hetero_units.
  destruct (List.length p <? 4) eqn:E; [reflexivity|].
  assert (Hne : p <> []) by (intro; subst; discriminate).
  rewrite (unit_v_lengths_placed self p Hpl). cbn [bind].
  rewrite (candidate_num_units_nodup self p Hnd Hne Hpl). reflexivity.
Qed.

(** *** Schemes that lose sub-paths *)

Lemma select_units_fold :
  forall self p schemes acc,
    fold_left
      (fun units scheme =>
         if covers_original self p scheme then units ++ scheme else units)
      schemes acc
    = acc ++ List.concat (filter (covers_original self p) schemes).
Proof.
  intros self p schemes. induction schemes as [|s schemes IH]; intro acc.
  - cbn. now rewrite app_nil_r.
  - cbn [fold_left filter]. rewrite IH.
    destruct (covers_original self p s); [|reflexivity].
    cbn [List.concat]. now rewrite app_assoc.
Qed.

Lemma select_units_eq :
  forall self p schemes,
    select_units self p schemes =
    if is_empty (List.concat (filter (covers_original self p) schemes))
    then [p]
    else List.concat (filter (covers_original self p) schemes).
Proof.
  intros self p schemes. unfold select_units.
  now rewrite select_units_fold.
Qed.

Lemma path_eqb_eq : forall a b, path_eqb a b = true <-> a = b.
Proof.
  intros a b. unfold path_eqb. destruct (path_dec a b); split; congruence.
Qed.

Lemma covers_original_incl :
  forall self p scheme,
    covers_original self p scheme = true <->
    incl (get_variant_sub_paths (tvs self) p) (scheme_sub_paths self scheme).
Proof.
  intros self p scheme. unfold covers_original, incl.
  rewrite forallb_forall. split; intros H sp Hsp.
  - specialize (H sp Hsp). apply existsb_exists in H.
    destruct H as [y [Hy E]]. apply path_eqb_eq in E. now subst.
  - apply existsb_exists. exists sp. split; [now apply H|].
    now apply path_eqb_eq.
Qed.

Lemma in_concat_filter :
  forall (A : Type) (f : list A -> bool) (ls : list (list A)) x,
    In x (List.concat (filter f ls)) ->
    exists l, In l ls /\ f l = true /\ In x l.
Proof.
  intros A f ls x H. apply in_concat in H. destruct H as [l [Hl Hx]].
  apply filter_In in Hl. destruct Hl as [Hl Hf]. now exists l.
Qed.

Lemma decompose_units_origin :
  forall self p units,
    decompose_hetero_units self p = Ok units ->
    units = [p] \/
    exists v_lengths candidates schemes,
      unit_v_lengths self p = Ok v_lengths /\
      candidate_num_units self p v_lengths = Ok candidates /\
      qualified_schemes self p v_lengths candidates = Ok schemes /\
      units = List.concat (filter (covers_original self p) schemes) /\
      forall u, In u units ->
        exists s, In s schemes /\ covers_original self p s = true /\ In u s.
Proof.
  intros self p units H. unfold decompose_hetero_units in H.
  destruct (List.length p <? 4); [inversion H; now left|].
  bind_inv H as vl Hvl. bind_inv H as cands Hc.
  destruct (is_empty cands); [inversion H; now left|].
  bind_inv H as schemes Hs. inversion H as [E]. rewrite select_units_eq.
  destruct (is_empty (List.concat (filter (covers_original self p) schemes)));
    [now left|].
  right. exists vl, cands, schemes. repeat split; try assumption.
  intros u Hu. now apply in_concat_filter.
Qed.

(** *** Examples *)

Lemma abc_twice_decomposes :
  decompose_hetero_units abc_ready abc_twice = Ok [abc_variant; abc_variant].
Proof. vm_compute. reflexivity. Qed.

Lemma bubble_circle_decomposes :
  decompose_hetero_units bubble_ready bubble_circle
  = Ok [bubble_unit_7; bubble_unit_8].
Proof. vm_compute. reflexivity. Qed.

Lemma bubble_lap_placed :
  forall v, In v bubble_lap -> placed bubble_ready (fst v).
Proof.
  intros v Hv. cbn in Hv.
  repeat (destruct Hv as [<-|Hv]; [split; reflexivity|]).
  contradiction.
Qed.

Lemma bubble_lap_nodup : NoDup bubble_lap.
Proof.
  unfold bubble_lap.
  repeat (constructor; [cbn; intuition discriminate|]). constructor.
Qed.

(** The table of lengths is keyed by contig name and the table of copy
    numbers by oriented contig: when a contig occurs in both orientations
    the two arrays differ in length and their product raises. *)
Lemma both_orientations_raise :
  decompose_hetero_units abc_ready both_ways_twice = Err ValueError.
Proof. vm_compute. reflexivity. Qed.

(** C7: the units of a scheme are returned only when the sub-paths of the
    original path are all among the sub-paths of the scheme's units. The
    result of the last step is made of the units of exactly the schemes that
    pass this test, the others being skipped (and it is the original path
    when nothing is left); so every unit the decomposer returns, when it
    does not return the original path alone, belongs to a qualifying scheme
    that passes the test. *)
Theorem only_covering_schemes_contribute :
  forall self (p : path),
    (forall scheme,
       covers_original self p scheme = true <->
       incl (get_variant_sub_paths (tvs self) p)
            (scheme_sub_paths self scheme)) /\
    (forall schemes,
       select_units self p schemes =
       if is_empty (List.concat (filter (covers_original self p) schemes))
       then [p]
       else List.concat (filter (covers_original self p) schemes)) /\
    (forall units,
       decompose_hetero_units self p = Ok units ->
       units = [p] \/
       exists v_lengths candidates schemes,
         unit_v_lengths self p = Ok v_lengths /\
         candidate_num_units self p v_lengths = Ok candidates /\
         qualified_schemes self p v_lengths candidates = Ok schemes /\
         units = List.concat (filter (covers_original self p) schemes) /\
         forall u, In u units ->
           exists s, In s schemes /\ covers_original self p s = true /\
                     In u s).
Proof.
  intros self p. split; [|split].
  - apply covers_original_incl.
  - apply select_units_eq.
  - apply decompose_units_origin.
Qed.

Lemma only_covering_schemes_contribute_witness :
  decompose_hetero_units bubble_ready bubble_circle
  = Ok [bubble_unit_7; bubble_unit_8] /\
  ([bubble_unit_7; bubble_unit_8] = [bubble_circle] \/
   exists v_lengths candidates schemes,
     unit_v_lengths bubble_ready bubble_circle = Ok v_lengths /\
     candidate_num_units bubble_ready bubble_circle v_lengths = Ok candidates /\
     qualified_schemes bubble_ready bubble_circle v_lengths candidates
     = Ok schemes /\
     [bubble_unit_7; bubble_unit_8]
     = List.concat (filter (covers_original bubble_ready bubble_circle) schemes) /\
     forall u, In u [bubble_unit_7; bubble_unit_8] ->
       exists s, In s schemes /\
                 covers_original bubble_ready bubble_circle s = true /\
                 In u s).
Proof.
  split; [exact bubble_circle_decomposes|].
  apply (proj2 (proj2 (only_covering_schemes_contribute
                         bubble_ready bubble_circle))).
  exact bubble_circle_decomposes.
Defined.

(** A read that runs from one branch of the bubble to the other is a
    sub-path of the two-lap path and of neither unit: the scheme qualifies,
    fails the test and is dropped, and the path comes back whole. *)
Lemma spanning_read_rejects_scheme :
  (v <- unit_v_lengths spanning_ready bubble_circle ;;
   c <- candidate_num_units spanning_ready bubble_circle v ;;
   qualified_schemes spanning_ready bubble_circle v c)
  = Ok [[bubble_unit_7; bubble_unit_8]] /\
  covers_original spanning_ready bubble_circle [bubble_unit_7; bubble_unit_8]
  = false /\
  decompose_hetero_units spanning_ready bubble_circle = Ok [bubble_circle].
Proof.
  repeat split; vm_compute; reflexivity.
Qed.

(** ** Search coordinator *)

Lemma path_eqb_refl : forall a, path_eqb a a = true.
Proof. intro a. now apply path_eqb_eq. Qed.

Lemma path_setitem_keys :
  forall (V : Type) k (v : V) d p,
    In p (map fst (path_setitem k v d)) -> p = k \/ In p (map fst d).
Proof.
  intros V k v d p. induction d as [|[a w] d IH]; cbn [path_setitem].
  - cbn. intuition.
  - destruct (path_eqb k a); cbn [map fst In]; intros [H|H]; auto.
    destruct (IH H); auto.
Qed.

Lemma total_count_setitem_some :
  forall k c d,
    path_lookup k d = Some c ->
    total_count (path_setitem k (c + 1)%Z d) = (total_count d + 1)%Z.
Proof.
  intros k c d. unfold total_count.
  induction d as [|[a w] d IH]; cbn [path_lookup path_setitem]; intro H.
  - discriminate.
  - destruct (path_eqb k a).
    + inversion H; subst. cbn. lia.
    + cbn [map snd sumZ fold_right] in *. unfold sumZ in IH.
      rewrite (IH H). lia.
Qed.

Lemma total_count_setitem_none :
  forall k v d,
    path_lookup k d = None ->
    total_count (path_setitem k v d) = (total_count d + v)%Z.
Proof.
  intros k v d. unfold total_count.
  induction d as [|[a w] d IH]; cbn [path_lookup path_setitem]; intro H.
  - cbn. lia.
  - destruct (path_eqb k a); [discriminate|].
    cbn [map snd sumZ fold_right] in *. unfold sumZ in IH.
    rewrite (IH H). lia.
Qed.

Lemma insert_variant_counts :
  forall s u,
    count_valid (insert_variant s u) = (count_valid s + 1)%Z /\
    count_search (insert_variant s u) = count_search s /\
    total_count (ss_variants_counts (insert_variant s u))
    = (total_count (ss_variants_counts s) + 1)%Z.
Proof.
  intros s u. unfold insert_variant.
  destruct (path_lookup u (ss_variants_counts s)) as [c|] eqn:E;
    cbn [count_valid count_search ss_variants_counts]; repeat split.
  - now apply total_count_setitem_some.
  - now apply total_count_setitem_none.
Qed.

Lemma insert_variant_catalog :
  forall s u p,
    in_catalog (insert_variant s u) p -> in_catalog s p \/ p = u.
Proof.
  intros s u p. unfold in_catalog, insert_variant.
  destruct (path_lookup u (ss_variants_counts s)) as [c|];
    cbn [ss_variants ss_variants_counts]; intros [H|H].
  - auto.
  - apply path_setitem_keys in H. intuition.
  - apply in_app_or in H. cbn in H. intuition.
  - apply path_setitem_keys in H. intuition.
Qed.

(** *** The count of valid variants *)

Lemma insert_units_within :
  forall n total0 units s,
    (count_valid s < n)%Z ->
    total_count (ss_variants_counts s) = (total0 + count_valid s)%Z ->
    Forall (within_target n total0) (insert_units n s units).
Proof.
  intros n total0 units. induction units as [|u units IH]; intros s Hlt Hbal.
  - constructor.
  - cbn [insert_units].
    destruct (insert_variant_counts s u) as [Hcv [_ Htot]].
    constructor.
    + split; [lia | rewrite Htot, Hcv, Hbal; lia].
    + destruct (Z.eqb_spec (count_valid (insert_variant s u)) n);
        [constructor|].
      apply IH; [lia | rewrite Htot, Hcv, Hbal; lia].
Qed.

Lemma Forall_last :
  forall (A : Type) (P : A -> Prop) l d, Forall P l -> P d -> P (last l d).
Proof.
  intros A P l d H Hd. induction H as [|x l Hx Hl IH]; [exact Hd|].
  destruct l; [exact Hx | exact IH].
Qed.

Lemma within_target_bump :
  forall n total0 s,
    within_target n total0 s -> within_target n total0 (bump_search s).
Proof. intros n total0 s H. exact H. Qed.

Lemma uni_loop_within :
  forall self total0 raws s trace,
    within_target (num_search self) total0 s ->
    uni_loop self s raws = Ok trace ->
    Forall (within_target (num_search self) total0) trace.
Proof.
  intros self total0 raws. induction raws as [|raw raws IH];
    intros s trace Hs H; cbn [uni_loop] in H.
  - inversion H. constructor.
  - destruct (Z.ltb_spec (count_valid s) (num_search self)) as [Hlt|Hge];
      [|inversion H; constructor].
    destruct (invalid_search self (get_single_traversal self raw)).
    + bind_inv H as rest Hrest. inversion H; subst.
      constructor; [now apply within_target_bump|].
      apply (IH (bump_search s)); [now apply within_target_bump | exact Hrest].
    + bind_inv H as units Hunits. bind_inv H as rest Hrest.
      inversion H; subst.
      assert (Hins : Forall (within_target (num_search self) total0)
                            (insert_units (num_search self) (bump_search s) units)).
      { apply insert_units_within; [exact Hlt | apply Hs]. }
      constructor; [now apply within_target_bump|].
      apply Forall_app. split; [exact Hins|].
      apply (IH (last (insert_units (num_search self) (bump_search s) units)
                      (bump_search s))); [|exact Hrest].
      apply Forall_last; [exact Hins | now apply within_target_bump].
Qed.

Lemma uni_run_within :
  forall self raws trace,
    (0 <= num_search self)%Z ->
    variants_counts self = [] ->
    uni_loop self (search_start self) raws = Ok trace ->
    Forall (within_target (num_search self) 0)
           (search_start self :: trace).
Proof.
  intros self raws trace Hn Hempty H.
  assert (H0 : within_target (num_search self) 0 (search_start self)).
  { unfold within_target, search_start. cbn. rewrite Hempty. cbn. lia. }
  constructor; [exact H0|]. eapply uni_loop_within; eassumption.
Qed.

Lemma uni_run_total :
  forall self raws g s,
    (0 <= num_search self)%Z ->
    variants_counts self = [] ->
    gen_heuristic_paths_uni self raws = Ok (g, s) ->
    (num_search self <= count_valid s)%Z ->
    count_valid s = num_search self /\
    total_count (variants_counts g) = num_search self.
Proof.
  intros self raws g s Hn Hempty H Hdone.
  unfold gen_heuristic_paths_uni in H. bind_inv H as trace Htrace.
  inversion H; subst. clear H.
  pose proof (uni_run_within self raws trace Hn Hempty Htrace) as Hall.
  inversion Hall as [|? ? H0 Htr]; subst.
  pose proof (Forall_last _ _ trace (search_start self) Htr H0) as [Hle Hbal].
  cbn [variants_counts set_catalog]. split; lia.
Qed.

(** *** Where the entries of the catalog come from *)

Lemma invalid_search_false :
  forall self p,
    invalid_search self p = false <-> meets_constraints self p.
Proof.
  intros self p. unfold invalid_search, meets_constraints.
  destruct (force_circular self), (hetero_chromosome self),
    (is_circular_path (graph self) p), (is_fully_covered_by (graph self) p);
    cbn; intuition discriminate.
Qed.

Lemma new_path_list_linear :
  forall self p units u,
    new_path_list self p = Ok units ->
    is_circular_path (graph self) p = false -> In u units -> u = p.
Proof.
  intros self p units u H Hc Hu. unfold new_path_list in H. rewrite Hc in H.
  inversion H; subst. destruct Hu as [E|[]]. now symmetry.
Qed.

Lemma insert_units_catalog :
  forall n units s s' p,
    In s' (insert_units n s units) -> in_catalog s' p ->
    in_catalog s p \/ In p units.
Proof.
  intros n units. induction units as [|u units IH]; intros s s' p Hs' Hp.
  - contradiction.
  - cbn [insert_units] in Hs'. destruct Hs' as [E|Hs'].
    + subst s'. apply insert_variant_catalog in Hp.
      destruct Hp as [Hp|Hp]; [now left | right; now left].
    + destruct (count_valid (insert_variant s u) =? n)%Z; [contradiction|].
      destruct (IH _ _ _ Hs' Hp) as [H|H]; [|right; now right].
      apply insert_variant_catalog in H.
      destruct H as [H|H]; [now left | right; now left].
Qed.

Lemma last_in :
  forall (A : Type) (l : list A) d, l <> [] -> In (last l d) l.
Proof.
  intros A l d. induction l as [|x l IH]; intro H; [congruence|].
  destruct l as [|y l]; [now left|].
  right. apply IH. discriminate.
Qed.

Lemma last_in_or_default :
  forall (A : Type) (l : list A) d, last l d = d \/ In (last l d) l.
Proof.
  intros A l d. destruct l as [|x l]; [now left|].
  right. apply last_in. discriminate.
Qed.

Lemma from_valid_traversal_cons :
  forall self raw raws p,
    from_valid_traversal self raws p ->
    from_valid_traversal self (raw :: raws) p.
Proof.
  intros self raw raws p [r [units [Hin H]]].
  exists r, units. split; [now right | exact H].
Qed.

Lemma from_valid_traversal_here :
  forall self raw raws units p,
    invalid_search self (get_single_traversal self raw) = false ->
    new_path_list self (get_single_traversal self raw) = Ok units ->
    In p units ->
    from_valid_traversal self (raw :: raws) p.
Proof.
  intros self raw raws units p Hv Hu Hp. exists raw, units.
  split; [now left|]. split; [now apply invalid_search_false|].
  split; [exact Hu|]. split; [exact Hp|].
  intro Hc. eapply new_path_list_linear; eassumption.
Qed.

Lemma uni_loop_catalog :
  forall self raws s trace,
    uni_loop self s raws = Ok trace ->
    forall s' p, In s' trace -> in_catalog s' p ->
      in_catalog s p \/ from_valid_traversal self raws p.
Proof.
  intros self raws. induction raws as [|raw raws IH];
    intros s trace H s' p Hs' Hp; cbn [uni_loop] in H.
  - inversion H; subst. contradiction.
  - destruct (count_valid s <? num_search self)%Z;
      [|inversion H; subst; contradiction].
    destruct (invalid_search self (get_single_traversal self raw)) eqn:Ev.
    + bind_inv H as rest Hrest. inversion H; subst.
      destruct Hs' as [E|Hs']; [subst s'; now left|].
      destruct (IH _ _ Hrest _ _ Hs' Hp) as [Hc|Hc]; [now left|].
      right. now apply from_valid_traversal_cons.
    + bind_inv H as units Hunits. bind_inv H as rest Hrest.
      inversion H; subst.
      assert (Hins : forall s1,
                 In s1 (insert_units (num_search self) (bump_search s) units) ->
                 in_catalog s1 p ->
                 in_catalog s p \/ from_valid_traversal self (raw :: raws) p).
      { intros s1 Hs1 Hp1.
        destruct (insert_units_catalog _ _ _ _ _ Hs1 Hp1) as [Hc|Hc];
          [now left|].
        right. eapply from_valid_traversal_here; eassumption. }
      destruct Hs' as [E|Hs']; [subst s'; now left|].
      apply in_app_or in Hs'. destruct Hs' as [Hs'|Hs']; [now apply (Hins s')|].
      destruct (IH _ _ Hrest _ _ Hs' Hp) as [Hc|Hc];
        [|right; now apply from_valid_traversal_cons].
      destruct (last_in_or_default _
                  (insert_units (num_search self) (bump_search s) units)
                  (bump_search s)) as [E|Hin].
      * rewrite E in Hc. now left.
      * now apply (Hins _ Hin).
Qed.

Lemma commit_units_catalog :
  forall n units s p,
    in_catalog (commit_units n s units) p -> in_catalog s p \/ In p units.
Proof.
  intros n units. induction units as [|u units IH]; intros s p H.
  - now left.
  - cbn [commit_units] in H. destruct (n <=? count_valid s)%Z; [now left|].
    destruct (IH _ _ H) as [Hc|Hc]; [|right; now right].
    apply insert_variant_catalog in Hc.
    destruct Hc as [Hc|Hc]; [now left | right; now left].
Qed.

Lemma worker_commit_catalog :
  forall self s raw raws s' p,
    worker_commit self s raw = Ok s' -> in_catalog s' p ->
    in_catalog s p \/ from_valid_traversal self (raw :: raws) p.
Proof.
  intros self s raw raws s' p H Hp. unfold worker_commit in H.
  destruct (invalid_search self (get_single_traversal self raw)) eqn:Ev.
  - inversion H; subst. now left.
  - bind_inv H as units Hunits. inversion H; subst.
    destruct (commit_units_catalog _ _ _ _ Hp) as [Hc|Hc]; [now left|].
    right. eapply from_valid_traversal_here; eassumption.
Qed.

Lemma fold_commit_err :
  forall self raws e,
    fold_left (fun acc raw => s <- acc ;; worker_commit self s raw) raws (Err e)
    = Err e.
Proof.
  intros self raws e. induction raws as [|raw raws IH]; [reflexivity|].
  cbn [fold_left bind]. exact IH.
Qed.

Lemma fold_commit_catalog :
  forall self raws s s' p,
    fold_left (fun acc raw => s <- acc ;; worker_commit self s raw) raws (Ok s)
    = Ok s' ->
    in_catalog s' p -> in_catalog s p \/ from_valid_traversal self raws p.
Proof.
  intros self raws. induction raws as [|raw raws IH]; intros s s' p H Hp.
  - inversion H; subst. now left.
  - cbn [fold_left bind] in H.
    destruct (worker_commit self s raw) as [s1|e] eqn:E.
    + destruct (IH _ _ _ H Hp) as [Hc|Hc].
      * eapply worker_commit_catalog; eassumption.
      * right. now apply from_valid_traversal_cons.
    + rewrite fold_commit_err in H. discriminate.
Qed.

Lemma catalog_origin :
  forall self raws g s,
    variants self = [] -> variants_counts self = [] ->
    gen_heuristic_paths_uni self raws = Ok (g, s) \/
    gen_heuristic_paths_mp self raws = Ok (g, s) ->
    forall p,
      In p (variants g) \/ In p (map fst (variants_counts g)) ->
      from_valid_traversal self raws p.
Proof.
  intros self raws g s Hv Hc [H|H] p Hp.
  - unfold gen_heuristic_paths_uni in H. bind_inv H as trace Htrace.
    inversion H; subst. clear H. cbn [variants variants_counts set_catalog] in Hp.
    assert (Hempty : ~ in_catalog (search_start self) p).
    { unfold in_catalog, search_start. cbn. rewrite Hv, Hc. cbn. tauto. }
    destruct (last_in_or_default _ trace (search_start self)) as [E|Hin].
    + rewrite E in Hp. contradiction.
    + destruct (uni_loop_catalog _ _ _ _ Htrace _ p Hin Hp) as [Hs|Hs];
        [contradiction | exact Hs].
  - unfold gen_heuristic_paths_mp in H. bind_inv H as s1 Hs1.
    inversion H; subst. clear H. cbn [variants variants_counts set_catalog] in Hp.
    destruct (fold_commit_catalog _ _ _ _ p Hs1 Hp) as [Hs|Hs]; [|exact Hs].
    unfold in_catalog in Hs. cbn in Hs. tauto.
Qed.

(** *** The index flag *)

Lemma index_sets_flag :
  forall self f g,
    index_readpaths_subpaths self f = Ok g ->
    read_paths_counter_indexed g = true /\
    num_processes g = num_processes self /\
    use_alignment_cov g = use_alignment_cov self.
Proof.
  intros self f g H. unfold index_readpaths_subpaths in H.
  destruct (fold_left (count_record (graph self) f) (alignment self)
                      ([], read_paths self, [])) as [[counter rps] lens].
  destruct (fold_left (index_read_path (graph self))
                      (combine (seq 0 (List.length rps)) rps)
                      (starting_subpath_to_readpaths self,
                       middle_subpath_to_readpaths self)) as [st mid].
  bind_inv H as longest Hl. inversion H; subst. cbn. auto.
Qed.

Lemma search_keeps_flag :
  forall self raws g s,
    gen_heuristic_paths_uni self raws = Ok (g, s) \/
    gen_heuristic_paths_mp self raws = Ok (g, s) ->
    read_paths_counter_indexed g = read_paths_counter_indexed self.
Proof.
  intros self raws g s [H|H].
  - unfold gen_heuristic_paths_uni in H. bind_inv H as trace Htrace.
    inversion H; subst. reflexivity.
  - unfold gen_heuristic_paths_mp in H. bind_inv H as s1 Hs1.
    inversion H; subst. reflexivity.
Qed.

Lemma generate_indexed :
  forall self n raws,
    read_paths_counter_indexed self = true ->
    generate_heuristic_paths self n raws =
    (_ <- assert (1 <=? effective_processes self n)%Z ;;
     if (effective_processes self n =? 1)%Z
     then gen_heuristic_paths_uni (prepared self) raws
     else gen_heuristic_paths_mp (prepared self) raws).
Proof.
  intros self n raws H. unfold generate_heuristic_paths. rewrite H.
  destruct n; reflexivity.
Qed.

Lemma generate_unindexed :
  forall self n raws,
    read_paths_counter_indexed self = false ->
    generate_heuristic_paths self n raws =
    (_ <- assert (1 <=? effective_processes self n)%Z ;;
     self' <- index_readpaths_subpaths self true ;;
     generate_heuristic_paths self' n raws).
Proof.
  intros self n raws H.
  unfold generate_heuristic_paths at 1. rewrite H.
  fold (effective_processes self n).
  destruct (1 <=? effective_processes self n)%Z eqn:E; [|reflexivity].
  cbn [assert bind].
  destruct (index_readpaths_subpaths self true) as [g|e] eqn:Ei;
    [|reflexivity].
  cbn [bind].
  destruct (index_sets_flag _ _ _ Ei) as [Hf [Hn Hu]].
  rewrite (generate_indexed g n raws Hf).
  assert (En : effective_processes g n = effective_processes self n)
    by (destruct n; [reflexivity | exact Hn]).
  rewrite En, E. cbn [assert bind]. reflexivity.
Qed.

Lemma generate_sets_flag :
  forall self n raws g s,
    generate_heuristic_paths self n raws = Ok (g, s) ->
    read_paths_counter_indexed g = true.
Proof.
  intros self n raws g s H.
  assert (Hidx : forall self0,
             read_paths_counter_indexed self0 = true ->
             generate_heuristic_paths self0 n raws = Ok (g, s) ->
             read_paths_counter_indexed g = true).
  { intros self0 Hf H0. rewrite (generate_indexed self0 n raws Hf) in H0.
    bind_inv H0 as u Hu.
    assert (Hx : read_paths_counter_indexed (prepared self0) = true)
      by (unfold prepared; destruct (use_alignment_cov self0); exact Hf).
    rewrite <- Hx. apply (search_keeps_flag (prepared self0) raws g s).
    destruct (_ =? 1)%Z; [now left | now right]. }
  destruct (read_paths_counter_indexed self) eqn:Ef; [now apply (Hidx self)|].
  rewrite (generate_unindexed self n raws Ef) in H.
  bind_inv H as u Hu. bind_inv H as g1 Hg1.
  apply (Hidx g1); [|exact H]. now apply (index_sets_flag self true g1).
Qed.

(** *** Examples *)

Lemma abc_run :
  generate_heuristic_paths abc_generator None [abc_path]
  = Ok (abc_final, abc_final_state).
Proof. vm_compute. reflexivity. Qed.

Lemma abc_ready_run :
  gen_heuristic_paths_uni abc_ready [abc_path]
  = Ok (set_catalog abc_ready [abc_variant] [(abc_variant, 1%Z)],
        abc_final_state).
Proof. vm_compute. reflexivity. Qed.

Lemma bubble_run :
  generate_heuristic_paths bubble_generator None [bubble_traversal]
  = Ok (bubble_final, bubble_final_state).
Proof. vm_compute. reflexivity. Qed.

Lemma bubble_three_loop :
  uni_loop bubble_three (search_start bubble_three) bubble_three_raws
  = Ok bubble_three_trace.
Proof. vm_compute. reflexivity. Qed.

Lemma bubble_three_run :
  gen_heuristic_paths_uni bubble_three bubble_three_raws
  = Ok (set_catalog bubble_three (ss_variants bubble_three_state)
          (ss_variants_counts bubble_three_state),
        bubble_three_state).
Proof. vm_compute. reflexivity. Qed.

(** X26: [generate_heuristic_paths] builds the subpath index itself when it
    has not been built: once its assertion on the number of processes has
    passed it calls [index_readpaths_subpaths] and goes on as from the
    indexed generator; whenever it succeeds the index is marked as built. *)
Theorem generate_builds_missing_index :
  forall self n raws,
    read_paths_counter_indexed self = false ->
    generate_heuristic_paths self n raws =
    (_ <- assert (1 <=? effective_processes self n)%Z ;;
     self' <- index_readpaths_subpaths self true ;;
     generate_heuristic_paths self' n raws) /\
    (forall g s,
       generate_heuristic_paths self n raws = Ok (g, s) ->
       read_paths_counter_indexed g = true).
Proof.
  intros self n raws H. split.
  - now apply generate_unindexed.
  - intros g s. apply generate_sets_flag.
Qed.

Lemma generate_builds_missing_index_witness :
  read_paths_counter_indexed abc_generator = false /\
  generate_heuristic_paths abc_generator None [abc_path] =
  (_ <- assert (1 <=? effective_processes abc_generator None)%Z ;;
   self' <- index_readpaths_subpaths abc_generator true ;;
   generate_heuristic_paths self' None [abc_path]) /\
  (forall g s,
     generate_heuristic_paths abc_generator None [abc_path] = Ok (g, s) ->
     read_paths_counter_indexed g = true).
Proof.
  split; [reflexivity|].
  apply (generate_builds_missing_index abc_generator None [abc_path]).
  reflexivity.
Defined.

(** The generator of the end-to-end scenario has no index when
    [generate_heuristic_paths] is called; the call builds it, returns the
    variant and leaves the index marked as built. *)
Lemma unindexed_generator_runs :
  read_paths_counter_indexed abc_generator = false /\
  generate_heuristic_paths abc_generator None [abc_path]
  = Ok (abc_final, abc_final_state) /\
  variants abc_final = [abc_variant] /\
  read_paths_counter_indexed abc_final = true.
Proof.
  split; [reflexivity|]. split; [exact abc_run|].
  split; vm_compute; reflexivity.
Qed.

(** C8 (as amended): every path inserted into the variant catalog, by the
    single-process loop or by a worker, is an element of the list built for
    a traversal that satisfies the structural constraints (circular when
    force_circular is set, covering the graph when heterogeneous chromosomes
    are disallowed): the traversal itself when it is not circular, a unit
    returned by the hetero-unit decomposer when it is. The units are not
    checked again. *)
Theorem inserted_paths_come_from_valid_traversals :
  forall self raws g s,
    variants self = [] -> variants_counts self = [] ->
    gen_heuristic_paths_uni self raws = Ok (g, s) \/
    gen_heuristic_paths_mp self raws = Ok (g, s) ->
    forall p,
      In p (variants g) \/ In p (map fst (variants_counts g)) ->
      from_valid_traversal self raws p.
Proof.
  exact catalog_origin.
Qed.

Lemma inserted_paths_come_from_valid_traversals_witness :
  variants abc_ready = [] /\ variants_counts abc_ready = [] /\
  from_valid_traversal abc_ready [abc_path] abc_variant.
Proof.
  split; [reflexivity|]. split; [reflexivity|].
  apply (inserted_paths_come_from_valid_traversals
           abc_ready [abc_path]
           (set_catalog abc_ready [abc_variant] [(abc_variant, 1%Z)])
           abc_final_state).
  - reflexivity.
  - reflexivity.
  - left. exact abc_ready_run.
  - left. left. reflexivity.
Defined.

(** C8, counterexample: heterogeneous chromosomes are disallowed and the
    traversal, two laps around the bubble graph, covers the graph; the
    decomposer cuts it into two units and the one inserted first has no
    contig 8: it does not cover the graph. *)
Lemma decomposed_unit_misses_contig :
  generate_heuristic_paths bubble_generator None [bubble_traversal]
  = Ok (bubble_final, bubble_final_state) /\
  In bubble_unit_7 (variants bubble_final) /\
  ~ meets_constraints bubble_final bubble_unit_7.
Proof.
  split; [exact bubble_run|]. split; [left; reflexivity|].
  intros [_ H].
  assert (E : is_fully_covered_by (graph bubble_final) bubble_unit_7 = false)
    by (vm_compute; reflexivity).
  rewrite H in E; [discriminate | reflexivity].
Qed.

(** *** The loop reaches the target *)

Lemma select_units_nonempty :
  forall self p schemes, select_units self p schemes <> [].
Proof.
  intros self p schemes. rewrite select_units_eq.
  destruct (List.concat (filter (covers_original self p) schemes));
    cbn [is_empty]; discriminate.
Qed.

Lemma new_path_list_nonempty :
  forall self p units, new_path_list self p = Ok units -> units <> [].
Proof.
  intros self p units H. unfold new_path_list in H.
  destruct (is_circular_path (graph self) p);
    [|inversion H; discriminate].
  unfold decompose_hetero_units in H.
  destruct (List.length p <? 4)%nat; [inversion H; discriminate|].
  bind_inv H as vl Hvl. bind_inv H as cands Hc.
  destruct (is_empty cands); [inversion H; discriminate|].
  bind_inv H as schemes Hs. inversion H. apply select_units_nonempty.
Qed.

Lemma last_cons :
  forall (A : Type) (x : A) l d, last (x :: l) d = last l x.
Proof.
  intros A x l. revert x. induction l as [|y l IH]; intros x d; [reflexivity|].
  change (last (x :: y :: l) d) with (last (y :: l) d).
  change (last (y :: l) x) with (last (y :: l) x).
  now rewrite !IH.
Qed.

Lemma last_app_default :
  forall (A : Type) (l l' : list A) d, last (l ++ l') d = last l' (last l d).
Proof.
  intros A l. induction l as [|x l IH]; intros l' d; [reflexivity|].
  change ((x :: l) ++ l') with (x :: l ++ l').
  now rewrite !last_cons, IH.
Qed.

Lemma last_cons_app :
  forall (A : Type) (x : A) l l' d,
    last (x :: l ++ l') d = last l' (last l x).
Proof.
  intros A x l l' d. now rewrite last_cons, last_app_default.
Qed.

(** The inner loop inserts at least its first path. *)
Lemma insert_units_progress :
  forall n s units,
    units <> [] ->
    (count_valid s < count_valid (last (insert_units n s units) s))%Z.
Proof.
  intros n s units. revert s. induction units as [|u units IH]; intros s Hne;
    [congruence|].
  cbn [insert_units]. rewrite last_cons.
  destruct (insert_variant_counts s u) as [Hcv _].
  destruct (Z.eqb_spec (count_valid (insert_variant s u)) n) as [E|E].
  - cbn [last]. lia.
  - destruct units as [|u' units]; [cbn [insert_units last]; lia|].
    assert (Hne' : u' :: units <> []) by discriminate.
    specialize (IH (insert_variant s u) Hne'). lia.
Qed.

Lemma uni_loop_reaches :
  forall self total0 raws s trace,
    within_target (num_search self) total0 s ->
    uni_loop self s raws = Ok trace ->
    (num_search self - count_valid s
     <= Z.of_nat (List.length (valid_traversals self raws)))%Z ->
    loop_left self (last trace s).
Proof.
  intros self total0 raws. induction raws as [|raw raws IH];
    intros s trace Hs H Hn; cbn [uni_loop] in H.
  - inversion H; subst. cbn [last]. unfold loop_left.
    cbn [valid_traversals filter List.length] in Hn. lia.
  - destruct (Z.ltb_spec (count_valid s) (num_search self)) as [Hlt|Hge];
      [|inversion H; subst; exact Hge].
    unfold valid_traversals in Hn. cbn [filter] in Hn.
    fold (valid_traversals self raws) in Hn.
    destruct (invalid_search self (get_single_traversal self raw)).
    + bind_inv H as rest Hrest. inversion H; subst. cbn [negb] in Hn.
      replace (last (bump_search s :: rest) s)
        with (last rest (bump_search s))
        by (symmetry; apply (last_cons_app _ (bump_search s) [] rest s)).
      apply (IH (bump_search s) rest);
        [now apply within_target_bump | exact Hrest | exact Hn].
    + bind_inv H as units Hunits. bind_inv H as rest Hrest.
      inversion H; subst. cbn [negb List.length] in Hn.
      rewrite last_cons_app.
      set (s2 := last (insert_units (num_search self) (bump_search s) units)
                      (bump_search s)) in *.
      assert (Hins : Forall (within_target (num_search self) total0)
                            (insert_units (num_search self) (bump_search s) units)).
      { apply insert_units_within; [exact Hlt | apply Hs]. }
      assert (Hs2 : within_target (num_search self) total0 s2).
      { apply Forall_last; [exact Hins | now apply within_target_bump]. }
      apply (IH s2 rest Hs2 Hrest).
      pose proof (insert_units_progress (num_search self) (bump_search s) units
                    (new_path_list_nonempty _ _ _ Hunits)) as Hp.
      fold s2 in Hp. cbn [bump_search count_valid] in Hp. lia.
Qed.

(** C10 (as amended): in single-process generation with a non-negative
    target, the count of valid variants is at most [num_search] in every
    state the loop goes through, the first one and the states between two
    insertions of one traversal included, and the occurrence counts of the
    catalog add up to their sum before the run plus that count. The loop is
    left once the traversals have supplied [num_search] valid ones, each of
    which inserts at least one path; and when it is left the count is exactly
    [num_search] and the sum of the occurrence counts has grown by exactly
    [num_search]: it is [num_search] when the run started from an empty
    catalog. *)
Theorem count_valid_never_exceeds_num_search :
  forall self raws g s,
    (0 <= num_search self)%Z ->
    gen_heuristic_paths_uni self raws = Ok (g, s) ->
    (exists trace,
       uni_loop self (search_start self) raws = Ok trace /\
       s = last trace (search_start self) /\
       Forall (within_target (num_search self)
                 (total_count (variants_counts self)))
              (search_start self :: trace)) /\
    (num_search self <= Z.of_nat (List.length (valid_traversals self raws))
     -> loop_left self s)%Z /\
    (loop_left self s ->
     count_valid s = num_search self /\
     total_count (variants_counts g)
     = (total_count (variants_counts self) + num_search self)%Z /\
     (variants_counts self = [] ->
      total_count (variants_counts g) = num_search self)).
Proof.
  intros self raws g s Hn H.
  unfold gen_heuristic_paths_uni in H. bind_inv H as trace Htrace.
  inversion H; subst. clear H.
  assert (H0 : within_target (num_search self)
                 (total_count (variants_counts self)) (search_start self)).
  { unfold within_target, search_start. cbn [count_valid ss_variants_counts].
    split; [exact Hn | lia]. }
  pose proof (uni_loop_within self _ raws _ trace H0 Htrace) as Htr.
  pose proof (Forall_last _ _ trace (search_start self) Htr H0) as [Hle Hbal].
  split; [|split].
  - exists trace. split; [exact Htrace|]. split; [reflexivity|].
    constructor; assumption.
  - intro Hv. apply (uni_loop_reaches self _ raws _ trace H0 Htrace).
    cbn [search_start count_valid]. lia.
  - unfold loop_left. intro Hleft. cbn [variants_counts set_catalog].
    split; [lia|]. split; [lia|].
    intro Hempty. rewrite Hempty in Hbal. cbn in Hbal. lia.
Qed.

Lemma count_valid_never_exceeds_num_search_witness :
  num_search bubble_three = 3%Z /\
  count_valid bubble_three_state = 3%Z /\
  total_count (ss_variants_counts bubble_three_state) = 3%Z /\
  (exists trace,
     uni_loop bubble_three (search_start bubble_three) bubble_three_raws
     = Ok trace /\
     bubble_three_state = last trace (search_start bubble_three) /\
     Forall (within_target (num_search bubble_three)
               (total_count (variants_counts bubble_three)))
            (search_start bubble_three :: trace)) /\
  ((num_search bubble_three
    <= Z.of_nat (List.length (valid_traversals bubble_three bubble_three_raws)))%Z
   -> loop_left bubble_three bubble_three_state) /\
  (loop_left bubble_three bubble_three_state ->
   count_valid bubble_three_state = num_search bubble_three /\
   total_count
     (variants_counts
        (set_catalog bubble_three (ss_variants bubble_three_state)
           (ss_variants_counts bubble_three_state)))
   = (total_count (variants_counts bubble_three) + num_search bubble_three)%Z /\
   (variants_counts bubble_three = [] ->
    total_count
      (variants_counts
         (set_catalog bubble_three (ss_variants bubble_three_state)
            (ss_variants_counts bubble_three_state)))
    = num_search bubble_three)).
Proof.
  split; [reflexivity|]. split; [reflexivity|]. split; [reflexivity|].
  apply (count_valid_never_exceeds_num_search bubble_three bubble_three_raws).
  - vm_compute. discriminate.
  - exact bubble_three_run.
Defined.

(** C10, counterexample: the constructor accepts a target of -1; the run
    then leaves the loop at once with a count of 0, which is above the
    target, and the occurrence counts add up to 0, which is not the target.
    And a second run on the generator of the end-to-end scenario adds to the
    counts of the first: they add up to 2 for a target of 1. *)
Lemma count_valid_above_negative_target :
  init abc_traversome negative_search_config = Ok negative_target /\
  (exists g s,
     generate_heuristic_paths negative_target None [abc_path] = Ok (g, s) /\
     num_search g = (-1)%Z /\ count_valid s = 0%Z /\
     (num_search g < count_valid s)%Z /\
     total_count (variants_counts g) = 0%Z /\
     total_count (variants_counts g) <> num_search g) /\
  generate_heuristic_paths abc_generator None [abc_path]
  = Ok (abc_final, abc_final_state) /\
  (exists g s,
     generate_heuristic_paths abc_final None [abc_path] = Ok (g, s) /\
     num_search g = 1%Z /\ count_valid s = 1%Z /\
     total_count (variants_counts g) = 2%Z /\
     total_count (variants_counts g) <> num_search g).
Proof.
  split; [reflexivity|]. split; [|split; [exact abc_run|]].
  - exists (set_catalog (prepared
              (match index_readpaths_subpaths negative_target true with
               | Ok g => g | Err _ => negative_target end)) [] []).
    exists {| ss_variants := []; ss_variants_counts := [];
              count_search := 0; count_valid := 0 |}.
    split; [vm_compute; reflexivity|].
    repeat split; vm_compute; discriminate.
  - exists (set_catalog (prepared abc_final) [abc_variant] [(abc_variant, 2%Z)]).
    exists {| ss_variants := [abc_variant];
              ss_variants_counts := [(abc_variant, 2%Z)];
              count_search := 1; count_valid := 1 |}.
    split; [vm_compute; reflexivity|].
    repeat split; vm_compute; discriminate.
Qed.

(** ** Further properties of the coverage model *)

Lemma check_path_cases :
  forall self (p : path),
    check_path self p =
    if is_empty p then Err AssertionError
    else if forallb (in_vertex_info (graph self)) (names p) then Ok tt
         else Err PyException.
Proof.
  intros self p. unfold check_path.
  rewrite (forallb_names (in_vertex_info (graph self))).
  destruct p; reflexivity.
Qed.

Lemma count_names_as_map :
  forall l, count_names l
            = map (fun n => (n, count_occ string_dec l n)) (nodup string_dec l).
Proof. reflexivity. Qed.

Lemma get_cov_mean_cases :
  forall self (p : path),
    get_cov_mean self p None =
    if is_empty p then Err AssertionError
    else if negb (forallb (in_vertex_info (graph self)) (names p))
    then Err PyException
    else if negb (forallb (known self) (names p)) then Err KeyError
    else if (sumZ (map (fun n => len_of self n
                                 * Z.of_nat (count_occ string_dec (names p) n))
                       (nodup string_dec (names p))) =? 0)%Z
    then Err ZeroDivisionError
    else Ok (weighted_mean_of self (count_occ string_dec (names p))
               (nodup string_dec (names p))).
Proof.
  intros self p. rewrite get_cov_mean_unfold, check_path_cases.
  destruct (is_empty p); [reflexivity|].
  destruct (forallb (in_vertex_info (graph self)) (names p)); [|reflexivity].
  cbn [negb bind]. unfold counts_after_exclusion.
  rewrite count_names_as_map.
  destruct (forallb (known self) (names p)) eqn:Ek; cbn [negb].
  - destruct (Z.eqb_spec
                (sumZ (map (fun n => (len_of self n
                                      * Z.of_nat (count_occ string_dec (names p) n))%Z)
                           (nodup string_dec (names p)))) 0) as [E|E].
    + unfold mean_of_counts. rewrite mapM_cover_entry.
      assert (Ek' : forallb (fun nc : string * nat => known self (fst nc))
                      (map (fun n => (n, count_occ string_dec (names p) n))
                           (nodup string_dec (names p))) = true).
      { apply forallb_forall. intros [n c] Hin. apply in_map_iff in Hin.
        destruct Hin as [m [Em Hm]]. inversion Em; subst. cbn.
        rewrite forallb_forall in Ek. apply Ek. now apply nodup_In in Hm. }
      rewrite Ek'. cbn [bind]. unfold np_average.
      rewrite !map_map. unfold entry_of. cbn [fst snd]. rewrite E. reflexivity.
    + apply mean_of_counts_known; [|exact E].
      apply forallb_forall. intros n Hn. apply nodup_In in Hn.
      rewrite forallb_forall in Ek. now apply Ek.
  - unfold mean_of_counts. rewrite mapM_cover_entry.
    assert (Ek' : forallb (fun nc : string * nat => known self (fst nc))
                    (map (fun n => (n, count_occ string_dec (names p) n))
                         (nodup string_dec (names p))) = false).
    { destruct (forallb _ (map _ _)) eqn:E; [|reflexivity].
      rewrite <- Ek. symmetry. apply forallb_forall. intros n Hn.
      rewrite forallb_forall in E.
      apply (E (n, count_occ string_dec (names p) n)).
      apply in_map_iff. exists n. split; [reflexivity|]. now apply nodup_In. }
    rewrite Ek'. reflexivity.
Qed.

(** X1: without an exclusion path, [__get_cov_mean] fails in a fixed order:
    with an assertion error on an empty path, with the generic exception
    when a contig of the path is not in the graph, with a key error when a
    contig has no coverage, and with a zero-division error when the weights
    (length times count) add up to zero; in every other case it returns the
    length-weighted mean of the per-copy coverages. *)
Theorem get_cov_mean_outcome :
  forall self (p : path),
    get_cov_mean self p None =
    if is_empty p then Err AssertionError
    else if negb (forallb (in_vertex_info (graph self)) (names p))
    then Err PyException
    else if negb (forallb (known self) (names p)) then Err KeyError
    else if (sumZ (map (fun n => len_of self n
                                 * Z.of_nat (count_occ string_dec (names p) n))
                       (nodup string_dec (names p))) =? 0)%Z
    then Err ZeroDivisionError
    else Ok (weighted_mean_of self (count_occ string_dec (names p))
               (nodup string_dec (names p))).
Proof.
  exact get_cov_mean_cases.
Qed.

Lemma weighted_sum_bounds :
  forall (A : Type) (c : A -> R) (w : A -> Z) (lo hi : R) (l : list A),
    (forall x, In x l -> (0 < w x)%Z /\ (lo <= c x <= hi)%R) ->
    (lo * IZR (sumZ (map w l))
     <= sumR (map (fun x => c x * IZR (w x)) l)
     <= hi * IZR (sumZ (map w l)))%R.
Proof.
  intros A c w lo hi l. induction l as [|x l IH]; intro H.
  - cbn. lra.
  - cbn [map sumZ sumR fold_right].
    destruct (H x (or_introl eq_refl)) as [Hw [Hlo Hhi]].
    destruct IH as [IHlo IHhi]; [intros y Hy; apply H; now right|].
    fold (sumZ (map w l)) in *.
    fold (sumR (map (fun x => c x * IZR (w x)) l))%R in *.
    rewrite plus_IZR.
    assert (Hp : (0 < IZR (w x))%R) by (apply IZR_lt; exact Hw).
    pose proof (Rmult_le_compat_r _ _ _ (Rlt_le _ _ Hp) Hlo).
    pose proof (Rmult_le_compat_r _ _ _ (Rlt_le _ _ Hp) Hhi).
    lra.
Qed.

Lemma count_occ_names_pos :
  forall (l : list string) n, In n l -> (0 < count_occ string_dec l n)%nat.
Proof. intros l n H. now apply count_occ_In. Qed.

(** X2: when the contigs of the path have positive lengths, the mean that
    [__get_cov_mean] returns lies between any lower and any upper bound of
    the per-copy coverages (coverage divided by count) of the contigs of the
    path. *)
Theorem get_cov_mean_between_extremes :
  forall self (p : path) (m lo hi : R),
    get_cov_mean self p None = Ok m ->
    (forall n, In n (names p) -> (0 < len_of self n)%Z) ->
    (forall n, In n (names p) ->
       (lo <= cov_of self n / INR (count_occ string_dec (names p) n) <= hi)%R) ->
    (lo <= m <= hi)%R.
Proof.
  intros self p m lo hi H Hlen Hb.
  rewrite get_cov_mean_cases in H.
  destruct (is_empty p); [discriminate|].
  destruct (negb (forallb _ (names p))); [discriminate|].
  destruct (negb (forallb (known self) (names p))); [discriminate|].
  destruct (Z.eqb_spec
              (sumZ (map (fun n => (len_of self n
                                    * Z.of_nat (count_occ string_dec (names p) n))%Z)
                         (nodup string_dec (names p)))) 0) as [E|E];
    [discriminate|].
  inversion H; subst m. clear H. unfold weighted_mean_of.
  pose proof (weighted_sum_bounds string
                (fun n => cov_of self n / INR (count_occ string_dec (names p) n))%R
                (fun n => len_of self n * Z.of_nat (count_occ string_dec (names p) n))%Z
                lo hi (nodup string_dec (names p))) as Hs.
  cbv beta in Hs.
  assert (Hall : forall n, In n (nodup string_dec (names p)) ->
             (0 < len_of self n * Z.of_nat (count_occ string_dec (names p) n))%Z).
  { intros n Hn. apply nodup_In in Hn.
    pose proof (count_occ_names_pos _ _ Hn). specialize (Hlen _ Hn).
    apply Z.mul_pos_pos; lia. }
  destruct Hs as [Hlo Hhi].
  { intros n Hn. split; [now apply Hall|]. apply Hb. now apply nodup_In in Hn. }
  set (W := sumZ (map (fun n => (len_of self n
                                 * Z.of_nat (count_occ string_dec (names p) n))%Z)
                      (nodup string_dec (names p)))) in *.
  set (S := sumR _) in *.
  assert (HW : (0 < W)%Z).
  { assert (0 <= W)%Z; [|lia]. unfold W. clear - Hall.
    induction (nodup string_dec (names p)) as [|n l IH]; [cbn; lia|].
    cbn [map sumZ fold_right]. fold (sumZ (map (fun n => (len_of self n
                                 * Z.of_nat (count_occ string_dec (names p) n))%Z) l)).
    specialize (Hall n (or_introl eq_refl)) as Hn.
    assert (0 <= sumZ (map (fun n => (len_of self n
                                 * Z.of_nat (count_occ string_dec (names p) n))%Z) l))%Z
      by (apply IH; intros k Hk; apply Hall; now right).
    lia. }
  assert (HWr : (0 < IZR W)%R) by (apply IZR_lt; exact HW).
  split.
  - apply Rmult_le_reg_r with (IZR W); [exact HWr|].
    unfold Rdiv. rewrite Rmult_assoc, Rinv_l by lra. lra.
  - apply Rmult_le_reg_r with (IZR W); [exact HWr|].
    unfold Rdiv. rewrite Rmult_assoc, Rinv_l by lra. lra.
Qed.

Lemma get_cov_mean_between_extremes_witness :
  get_cov_mean abc_ready abc_path None = Ok 12%R /\
  (10 <= 12 <= 20)%R.
Proof.
  assert (H : get_cov_mean abc_ready abc_path None = Ok 12%R).
  { rewrite get_cov_mean_cases. cbn. f_equal. unfold weighted_mean_of. cbn.
    unfold cov_of, len_of. cbn. field. }
  split; [exact H|].
  apply (get_cov_mean_between_extremes abc_ready abc_path 12 10 20 H).
  - intros n Hn. cbn in Hn.
    destruct Hn as [<-|[<-|[<-|[]]]]; vm_compute; reflexivity.
  - intros n Hn. cbn in Hn.
    destruct Hn as [<-|[<-|[<-|[]]]]; unfold cov_of; cbn; lra.
Defined.

Lemma nodup_all_same :
  forall (l : list string) n,
    l <> [] -> (forall x, In x l -> x = n) -> nodup string_dec l = [n].
Proof.
  intros l n. induction l as [|x l IH]; intros Hne H; [congruence|].
  assert (x = n) by (apply H; now left). subst x.
  cbn [nodup]. destruct (in_dec string_dec n l) as [Hin|Hnin].
  - apply IH; [intro E; subst; contradiction | intros y Hy; apply H; now right].
  - destruct l as [|y l]; [reflexivity|].
    exfalso. apply Hnin. left. apply H. right. now left.
Qed.

Lemma count_occ_all_same :
  forall (l : list string) n,
    (forall x, In x l -> x = n) -> count_occ string_dec l n = List.length l.
Proof.
  intros l n. induction l as [|x l IH]; intro H; [reflexivity|].
  assert (x = n) by (apply H; now left). subst x.
  cbn [count_occ List.length]. destruct (string_dec n n); [|congruence].
  f_equal. apply IH. intros y Hy. apply H. now right.
Qed.

Lemma count_names_all_same :
  forall (p : path) n,
    p <> [] -> (forall v, In v p -> fst v = n) ->
    count_names (names p) = [(n, List.length p)].
Proof.
  intros p n Hne H. unfold count_names.
  assert (Hn : forall x, In x (names p) -> x = n).
  { intros x Hx. apply in_map_iff in Hx. destruct Hx as [v [<- Hv]]. now apply H. }
  rewrite (nodup_all_same (names p) n); [|destruct p; [congruence|discriminate]|exact Hn].
  cbn [map]. rewrite (count_occ_all_same _ _ Hn). unfold names.
  now rewrite length_map.
Qed.

(** X3: on a path made of copies of one contig, which has a coverage and a
    length other than zero, [__get_cov_mean] returns the coverage divided by
    the number of copies and, as standard deviation, a tenth of that mean;
    [__get_cov_mean_of_single] returns the undivided coverage and a tenth of
    it. *)
Theorem single_contig_path_statistics :
  forall self (p : path) n,
    p <> [] -> (forall v, In v p -> fst v = n) ->
    known self n = true -> len_of self n <> 0%Z ->
    get_cov_mean_std self p None
    = Ok ((cov_of self n / INR (List.length p))%R,
          (cov_of self n / INR (List.length p) * (1 / 10))%R) /\
    get_cov_mean_of_single_std self p
    = Ok (cov_of self n, (cov_of self n * (1 / 10))%R).
Proof.
  intros self p n Hne Hall Hk Hl.
  assert (Hlen : (0 < List.length p)%nat) by (destruct p; [congruence | cbn; lia]).
  assert (Hkn : forallb (known self) (names p) = true).
  { apply forallb_forall. intros x Hx. apply in_map_iff in Hx.
    destruct Hx as [v [<- Hv]]. now rewrite (Hall v Hv). }
  pose proof (check_path_ok self p Hne Hkn) as Hc.
  pose proof (count_names_all_same p n Hne Hall) as Ec.
  split.
  - unfold get_cov_mean_std. rewrite Hc. cbn [bind].
    unfold counts_after_exclusion. rewrite Ec.
    cbn [mapM]. unfold cover_entry.
    rewrite (getitem_known_cov self n Hk). cbn [bind].
    unfold getitem. pose proof Hk as Hk'. unfold known in Hk'.
    unfold len_of in Hl |- *.
    destruct (lookup n (contig_coverages self)) as [c|]; [|discriminate].
    destruct (lookup n (vertex_info (graph self))) as [v|]; [|discriminate].
    cbn [bind map fst snd]. unfold np_average. cbn [sumZ fold_right].
    rewrite Z.add_0_r.
    destruct (Z.eqb_spec (v_len v * Z.of_nat (List.length p)) 0) as [E|E]; [lia|].
    cbn [bind]. unfold weighted_std. cbn [List.length].
    change (1 <? 1)%nat with false. cbv iota. cbn [bind combine map sumR fold_right fst snd].
    assert (Hv0 : IZR (v_len v) <> 0%R) by (apply not_0_IZR; lia).
    assert (Hp0 : INR (List.length p) <> 0%R) by (apply not_0_INR; lia).
    rewrite mult_IZR, <- INR_IZR_INZ.
    f_equal. f_equal.
    + field. tauto.
    + f_equal. field. tauto.
  - unfold get_cov_mean_of_single_std. rewrite Hc. cbn [bind].
    assert (Es : single_copy_names self p = [n]).
    { unfold single_copy_names. rewrite Ec. cbn [map snd fst min_nat_list fold_left filter].
      rewrite Nat.eqb_refl. cbn [map fst filter].
      destruct (mem_string n (candidate_single_copy_vs self)); reflexivity. }
    rewrite Es. cbn [mapM]. unfold single_entry.
    rewrite (getitem_known_cov self n Hk). cbn [bind].
    unfold getitem. pose proof Hk as Hk'. unfold known in Hk'.
    unfold len_of in Hl.
    destruct (lookup n (contig_coverages self)) as [c|]; [|discriminate].
    destruct (lookup n (vertex_info (graph self))) as [v|]; [|discriminate].
    cbn [bind map fst snd]. unfold np_average. cbn [sumZ fold_right].
    rewrite Z.add_0_r.
    destruct (Z.eqb_spec (v_len v) 0) as [E|E]; [lia|].
    cbn [bind]. unfold weighted_std. cbn [List.length].
    change (1 <? 1)%nat with false. cbv iota. cbn [bind combine map sumR fold_right fst snd].
    assert (IZR (v_len v) <> 0)%R by (apply not_0_IZR; exact E).
    f_equal. f_equal.
    + field. assumption.
    + f_equal. field. assumption.
Qed.

Lemma single_contig_path_statistics_witness :
  get_cov_mean_std loop_ready loop_twice None
  = Ok ((cov_of loop_ready "X" / INR (List.length loop_twice))%R,
        (cov_of loop_ready "X" / INR (List.length loop_twice) * (1 / 10))%R) /\
  get_cov_mean_of_single_std loop_ready loop_twice
  = Ok (cov_of loop_ready "X", (cov_of loop_ready "X" * (1 / 10))%R).
Proof.
  apply (single_contig_path_statistics loop_ready loop_twice "X"%string).
  - discriminate.
  - intros v Hv. cbn in Hv. destruct Hv as [<-|[<-|[]]]; reflexivity.
  - reflexivity.
  - vm_compute. discriminate.
Defined.

(** ** An extension that ends in a contig the path does not have *)

Lemma like_loop_app :
  forall self cvc sm ss pl a b s,
    like_loop self cvc sm ss pl s (a ++ b) =
    (s' <- like_loop self cvc sm ss pl s a ;;
     like_loop self cvc sm ss pl s' b).
Proof.
  intros self cvc sm ss pl a b. induction a as [|v a IH]; intro s.
  - reflexivity.
  - cbn [app like_loop].
    destruct (like_step self cvc sm ss pl s v) as [s1|e]; cbn [bind];
      [apply IH | reflexivity].
Qed.

Lemma getitem_ok_lookup :
  forall (V : Type) k (d : list (string * V)) v,
    getitem k d = Ok v -> lookup k d = Some v.
Proof.
  intros V k d v H. unfold getitem in H.
  destruct (lookup k d); [now inversion H | discriminate].
Qed.

Lemma like_step_invariants :
  forall self cvc sm ss pl s v s',
    like_step self cvc sm ss pl s v = Ok s' ->
    (forall n ol, lookup n (old_like_cache s) = Some ol ->
                  lookup n cvc = Some 0%nat -> ol = NInf) ->
    (forall n ol, lookup n (old_like_cache s') = Some ol ->
                  lookup n cvc = Some 0%nat -> ol = NInf) /\
    xle0 (log_like_ratio s') /\
    log_like_ratio_list s' = log_like_ratio_list s ++ [log_like_ratio s'].
Proof.
  intros self cvc sm ss pl s [v_name v_end] s' H Hinv.
  unfold like_step in H.
  bind_inv H as c Hc. bind_inv H as oc Hoc. destruct oc as [old_like cache].
  bind_inv H as u Hu. bind_inv H as new_like Hnew. bind_inv H as len Hlen.
  inversion H; subst s'. clear H.
  cbn [old_like_cache log_like_ratio log_like_ratio_list].
  split; [|split; [apply min0_le0 | reflexivity]].
  apply getitem_ok_lookup in Hc.
  destruct (lookup v_name (old_like_cache s)) as [ol0|] eqn:El.
  - inversion Hoc; subst. exact Hinv.
  - bind_inv Hoc as ol1 Hol1. inversion Hoc; subst. clear Hoc.
    intros n ol Hn Hz. rewrite lookup_setitem in Hn.
    destruct (String.eqb_spec n v_name) as [->|Hne].
    + inversion Hn; subst. rewrite Hc in Hz. inversion Hz; subst.
      cbn in Hol1. now inversion Hol1.
    + eapply Hinv; eassumption.
Qed.

Lemma like_step_new_contig :
  forall self cvc sm ss pl s v s' len,
    like_step self cvc sm ss pl s v = Ok s' ->
    lookup (fst v) cvc = Some 0%nat ->
    lookup (fst v) pl = Some len -> (0 < len)%Z ->
    xle0 (log_like_ratio s) ->
    (forall n ol, lookup n (old_like_cache s) = Some ol ->
                  lookup n cvc = Some 0%nat -> ol = NInf) ->
    log_like_ratio s' = Fin 0.
Proof.
  intros self cvc sm ss pl s [v_name v_end] s' len0 H Hz Hl Hpos Hle Hinv.
  cbn [fst] in Hz, Hl. unfold like_step in H.
  bind_inv H as c Hc. bind_inv H as oc Hoc. destruct oc as [old_like cache].
  bind_inv H as u Hu. bind_inv H as new_like Hnew. bind_inv H as len Hlen.
  inversion H; subst s'. clear H. cbn [log_like_ratio].
  apply getitem_ok_lookup in Hc, Hlen.
  rewrite Hz in Hc. inversion Hc; subst c.
  rewrite Hl in Hlen. inversion Hlen; subst len.
  cbn in Hnew. inversion Hnew; subst new_like.
  assert (Eo : old_like = NInf).
  { destruct (lookup v_name (old_like_cache s)) as [ol0|] eqn:El.
    - inversion Hoc; subst. eapply Hinv; eassumption.
    - cbn in Hoc. now inversion Hoc. }
  subst old_like. cbn [xsub xopp xadd xmul_int].
  destruct (Z.eqb_spec len0 0); [lia|]. destruct (Z.ltb_spec 0 len0); [|lia].
  destruct (log_like_ratio s); cbn in Hle |- *; try contradiction; reflexivity.
Qed.

Lemma like_loop_invariants :
  forall self cvc sm ss pl ext s s',
    like_loop self cvc sm ss pl s ext = Ok s' ->
    xle0 (log_like_ratio s) ->
    (forall n ol, lookup n (old_like_cache s) = Some ol ->
                  lookup n cvc = Some 0%nat -> ol = NInf) ->
    xle0 (log_like_ratio s') /\
    (forall n ol, lookup n (old_like_cache s') = Some ol ->
                  lookup n cvc = Some 0%nat -> ol = NInf).
Proof.
  intros self cvc sm ss pl ext. induction ext as [|v ext IH]; intros s s' H Hle Hinv.
  - inversion H; subst. now split.
  - cbn [like_loop] in H. bind_inv H as s1 Hs1.
    destruct (like_step_invariants _ _ _ _ _ _ _ _ Hs1 Hinv) as [Hinv1 [Hle1 _]].
    now apply (IH _ _ H).
Qed.

Lemma like_loop_ends_in_new_contig :
  forall self cvc sm ss pl ext v s s' len,
    like_loop self cvc sm ss pl s (ext ++ [v]) = Ok s' ->
    lookup (fst v) cvc = Some 0%nat ->
    lookup (fst v) pl = Some len -> (0 < len)%Z ->
    xle0 (log_like_ratio s) ->
    (forall n ol, lookup n (old_like_cache s) = Some ol ->
                  lookup n cvc = Some 0%nat -> ol = NInf) ->
    exists l, log_like_ratio_list s' = l ++ [Fin 0].
Proof.
  intros self cvc sm ss pl ext v s s' len H Hz Hl Hpos Hle Hinv.
  rewrite like_loop_app in H. bind_inv H as s1 Hs1.
  destruct (like_loop_invariants _ _ _ _ _ _ _ _ Hs1 Hle Hinv) as [Hle1 Hinv1].
  cbn [like_loop] in H. bind_inv H as s2 Hs2. inversion H; subst s'.
  destruct (like_step_invariants _ _ _ _ _ _ _ _ Hs2 Hinv1) as [_ [_ El]].
  rewrite (like_step_new_contig _ _ _ _ _ _ _ _ _ Hs2 Hz Hl Hpos Hle1 Hinv1) in El.
  eexists. exact El.
Qed.

Lemma mapM_app :
  forall (A B : Type) (f : A -> result B) l1 l2 r,
    mapM f (l1 ++ l2) = Ok r ->
    exists r1 r2, mapM f l1 = Ok r1 /\ mapM f l2 = Ok r2 /\ r = r1 ++ r2.
Proof.
  intros A B f l1. induction l1 as [|x l1 IH]; intros l2 r H.
  - exists [], r. repeat split. exact H.
  - cbn [app mapM] in H. bind_inv H as y Hy. bind_inv H as ys Hys.
    inversion H; subst. destruct (IH _ _ Hys) as [r1 [r2 [E1 [E2 E]]]].
    exists (y :: r1), r2. cbn [mapM]. rewrite Hy, E1. cbn [bind]. subst ys.
    repeat split. exact E2.
Qed.

Lemma list_snoc :
  forall (A : Type) (l : list A), l <> [] -> exists l' x, l = l' ++ [x].
Proof.
  intros A l H. destruct (exists_last H) as [l' [x E]]. now exists l', x.
Qed.

Lemma combine_app_same :
  forall (A B : Type) (l1 l2 : list A) (m1 m2 : list B),
    List.length l1 = List.length m1 ->
    combine (l1 ++ l2) (m1 ++ m2) = combine l1 m1 ++ combine l2 m2.
Proof.
  intros A B l1. induction l1 as [|x l1 IH]; intros l2 m1 m2 H.
  - destruct m1; [reflexivity | discriminate].
  - destruct m1 as [|y m1]; [discriminate|]. cbn [app combine].
    f_equal. apply IH. now inversion H.
Qed.

Lemma mapM_xdiv_last_zero :
  forall l ns ys,
    List.length ns = S (List.length l) ->
    Forall (fun z => 0 < z)%Z ns ->
    mapM (fun la => xdiv_int (fst la) (snd la)) (combine (l ++ [Fin 0]) ns)
    = Ok ys ->
    exists ys', ys = ys' ++ [Fin 0].
Proof.
  intros l ns ys Hlen Hpos H.
  destruct (list_snoc _ ns) as [ns' [a E]];
    [intro E; subst; discriminate|]. subst ns.
  rewrite length_app in Hlen. cbn in Hlen.
  rewrite combine_app_same in H by lia. cbn [combine] in H.
  apply mapM_app in H. destruct H as [r1 [r2 [E1 [E2 E]]]]. subst ys.
  exists r1. f_equal. cbn [mapM fst snd] in E2. unfold xdiv_int in E2.
  apply Forall_app in Hpos. destruct Hpos as [_ Ha].
  inversion Ha as [|? ? Ha0 _]; subst.
  destruct (Z.eqb_spec a 0); [lia|]. cbn [bind] in E2. inversion E2.
  f_equal. f_equal. unfold Rdiv. apply Rmult_0_l.
Qed.

Lemma cal_ends_in_new_contig :
  forall self (p ext : path) (v : vne),
    p <> [] ->
    (forall n, In n (names (p ++ ext ++ [v])) -> usable self n) ->
    ~ In (fst v) (names p) ->
    exists ys,
      cal_multiplicity_like self p (ext ++ [v])
        (Some (map (fun w : vne =>
                      (fst w, count_occ string_dec (names p) (fst w)))
                   (ext ++ [v])))
        None None None None false
      = Ok (ys ++ [Fin 1]).
Proof.
  intros self p ext v Hne Hu Hnew.
  set (E := ext ++ [v]) in *.
  assert (Hup : forall n, In n (names p) -> usable self n).
  { intros n Hn. apply Hu. unfold names in *. rewrite map_app.
    apply in_or_app. now left. }
  assert (Hue : forall w, In w E -> usable self (fst w)).
  { intros w Hw. apply Hu. unfold names. rewrite map_app.
    apply in_or_app. right. now apply in_map. }
  assert (HvE : In v E) by (apply in_or_app; right; now left).
  assert (ED : map (fun w : vne => (fst w, count_occ string_dec (names p) (fst w))) E
               = map (fun n => (n, count_occ string_dec (names p) n)) (names E)).
  { unfold names. now rewrite map_map. }
  rewrite cal_multiplicity_like_exp.
  assert (Hlog : exists l,
             cal_multiplicity_like self p E
               (Some (map (fun w : vne =>
                             (fst w, count_occ string_dec (names p) (fst w))) E))
               None None None None true = Ok (l ++ [Fin 0])).
  { unfold cal_multiplicity_like.
    destruct (map (fun w : vne => (fst w, count_occ string_dec (names p) (fst w))) E)
      as [|e d] eqn:EDc.
    { exfalso. apply map_eq_nil in EDc. rewrite EDc in HvE. contradiction. }
    rewrite ED. clear EDc ED e d.
    cbn [truthy andb].
    destruct (get_cov_mean_std_ok self p Hne Hup) as [ms Hms].
    rewrite Hms. cbn [bind].
    destruct (get_cov_mean_of_single_std_ok self p Hne Hup) as [[s_mean s_std] Hss].
    rewrite Hss. cbn [bind].
    match goal with
    | |- context [bind (mapM ?f E) _] =>
        assert (E3 : mapM f E
                     = Ok (map (fun v : vne => (fst v, len_of self (fst v))) E))
    end.
    { assert (Hk : forall v, In v E -> known self (fst v) = true)
        by (intros w Hw; now apply Hue).
      clear - Hk. induction E as [|w E IH]; [reflexivity|].
      cbn [mapM map]. rewrite IH by (intros w' Hw'; apply Hk; now right).
      specialize (Hk w (or_introl eq_refl)). unfold known in Hk.
      unfold getitem, len_of.
      destruct (lookup (fst w) (contig_coverages self)); [|discriminate].
      destruct (lookup (fst w) (vertex_info (graph self))); [|discriminate].
      reflexivity. }
    rewrite E3. cbn [bind].
    destruct (like_loop_ok self (count_occ string_dec (names p))
                (names E) s_mean s_std E E
                {| log_like_ratio := Fin 0; old_like_cache := [];
                   ls_path := p; log_like_ratio_list := [] |})
      as [s Hs].
    { intros w Hw. split; now apply in_map. }
    { exact Hne. }
    { exact Hu. }
    rewrite Hs. cbn [bind].
    destruct (like_loop_ends_in_new_contig _ _ _ _ _ ext v _ _
                (len_of self (fst v)) Hs) as [l El].
    { rewrite (lookup_count_table (count_occ string_dec (names p)) (names E)
                 (fst v) (in_map fst E v HvE)).
      f_equal. now apply count_occ_not_In. }
    { apply (lookup_map_key _ (len_of self) E (fst v)). now apply in_map. }
    { now apply (Hue v HvE). }
    { cbn. lra. }
    { cbn. discriminate. }
    match goal with
    | |- context [bind (mapM ?f E) _] =>
        replace (mapM f E)
          with (@Ok (list Z) (map (fun v : vne => len_of self (fst v)) E))
          by (symmetry; exact (v_lengths_eq (len_of self) E E (incl_refl E)))
    end.
    cbn [bind].
    assert (Hn : List.length (log_like_ratio_list s) = List.length E).
    { destruct (like_loop_le0 _ _ _ _ _ _ _ _ Hs (Forall_nil _)) as [_ Hn].
      exact Hn. }
    assert (Hacc : Forall (fun z => 0 < z)%Z
                     (accumulated_v_lengths
                        (map (fun v : vne => len_of self (fst v)) E)
                        (List.length (log_like_ratio_list s)))).
    { apply accumulated_v_lengths_pos.
      - apply Forall_forall. intros z Hz. apply in_map_iff in Hz.
        destruct Hz as [w [Ew Hw]]. subst z. now apply Hue.
      - rewrite length_map, Hn. apply Nat.le_refl. }
    destruct (mapM_xdiv_ok (log_like_ratio_list s) _ Hacc) as [ys Hys].
    rewrite Hys. cbn [bind].
    rewrite El in Hys, Hacc.
    assert (Hlen' : List.length
                      (accumulated_v_lengths
                         (map (fun v : vne => len_of self (fst v)) E)
                         (List.length (l ++ [Fin 0])))
                    = S (List.length l)).
    { rewrite accumulated_v_lengths_length, length_app. cbn. lia. }
    destruct (mapM_xdiv_last_zero _ _ _ Hlen' Hacc Hys) as [ys' Eys].
    exists ys'. now rewrite Eys. }
  destruct Hlog as [l Hl]. rewrite Hl. cbn [bind].
  exists (map xexp l). rewrite map_app. cbn [map xexp]. now rewrite exp_0.
Qed.

(** X4: a proposed extension whose last contig does not occur in the path is
    accepted whole by [__heuristic_check_multiplicity] (called without
    counts and without cached ratios), whatever contigs come before it in
    the extension and whatever the random source draws in [0, 1): the last
    likelihood ratio of the evaluator is 1. The path is not empty and the
    contigs involved have a coverage and a positive length. *)
Theorem extension_ending_in_new_contig_is_accepted :
  forall self (p ext : path) (v : vne) ndr draws,
    p <> [] ->
    (forall n, In n (names (p ++ ext ++ [v])) -> usable self n) ->
    ~ In (fst v) (names p) ->
    (0 <= draws 0%nat < 1)%R ->
    heuristic_check_multiplicity self p (ext ++ [v]) ndr None None draws
    = Ok (Extend (p ++ ext ++ [v]) ndr).
Proof.
  intros self p ext v ndr draws Hne Hu Hnew Hd.
  unfold heuristic_check_multiplicity.
  assert (HE : is_empty (ext ++ [v]) = false) by (now destruct ext).
  rewrite HE. cbn [negb assert bind].
  destruct (cal_ends_in_new_contig self p ext v Hne Hu Hnew) as [ys Hys].
  match goal with
  | |- bind ?m _ = _ =>
      replace m with (@Ok (list xreal) (ys ++ [Fin 1]))
        by (symmetry; exact Hys)
  end.
  cbn [bind]. f_equal.
  rewrite rev_app_distr. cbn [rev app]. rewrite <- exp_0.
  change (Fin (exp 0)) with (xexp (Fin 0)).
  now apply first_draw_accepts.
Qed.

Lemma extension_ending_in_new_contig_is_accepted_witness :
  heuristic_check_multiplicity abc_ready [fw "A"] ([fw "B"] ++ [fw "C"]) false
    None None half_draws
  = Ok (Extend ([fw "A"] ++ [fw "B"] ++ [fw "C"]) false).
Proof.
  apply (extension_ending_in_new_contig_is_accepted
           abc_ready [fw "A"] [fw "B"] (fw "C") false half_draws).
  - discriminate.
  - intros n Hn. cbn in Hn.
    destruct Hn as [<-|[<-|[<-|[]]]]; split; vm_compute; reflexivity.
  - cbn. intros [H|[]]. discriminate.
  - unfold half_draws. lra.
Defined.

(** ** What the stopping rule can hand over *)

Lemma draw_loop_outcome :
  forall g (p ext : path) ndr draws rl prev k,
    (k + List.length rl = List.length ext)%nat ->
    (exists j, (1 <= j <= List.length ext)%nat /\
               draw_loop g p ext ndr draws prev k rl
               = Extend (p ++ firstn j ext) ndr) \/
    draw_loop g p ext ndr draws prev k rl
    = (if ndr then Return p else Extend (reverse_path g p) true).
Proof.
  intros g p ext ndr draws rl. induction rl as [|x rl IH]; intros prev k Hk.
  - right. cbn [draw_loop]. now destruct ndr.
  - cbn [draw_loop]. cbn [List.length] in Hk.
    destruct (xgtb _ (draws k)).
    + left. exists (List.length ext - k)%nat. split; [lia|].
      unfold slice_to.
      destruct (Z.leb_spec 0 (Z.of_nat (List.length ext) - Z.of_nat k)); [|lia].
      now rewrite <- Nat2Z.inj_sub, Nat2Z.id by lia.
    + apply IH. lia.
Qed.

(** X5: whenever [__heuristic_check_multiplicity] returns, the proposed
    extension is not empty and the rule hands over either the path extended
    by a non-empty prefix of the proposal, with the reversal flag unchanged,
    or, when no draw succeeded, the path itself if the reversal was done and
    the reversed path otherwise. The contigs of the proposal have positive
    lengths and a cached list of ratios has the length of the proposal. *)
Theorem stopping_rule_outcomes :
  forall self (p ext : path) ndr cvc cached draws r,
    heuristic_check_multiplicity self p ext ndr cvc cached draws = Ok r ->
    (forall v, In v ext -> (0 < len_of self (fst v))%Z) ->
    (forall x l, cached = Some (x :: l) ->
                 List.length (x :: l) = List.length ext) ->
    ext <> [] /\
    ((exists j, (1 <= j <= List.length ext)%nat /\
                r = Extend (p ++ firstn j ext) ndr) \/
     r = (if ndr then Return p else Extend (reverse_path (graph self) p) true)).
Proof.
  intros self p ext ndr cvc cached draws r H Hlen Hc.
  unfold heuristic_check_multiplicity in H.
  bind_inv H as u Hu. bind_inv H as l Hl. inversion H; subst r. clear H.
  assert (Hne : ext <> []).
  { intro E. subst ext. discriminate. }
  split; [exact Hne|].
  assert (El : List.length l = List.length ext).
  { destruct cached as [[|x t]|].
    - rewrite cal_multiplicity_like_exp in Hl. bind_inv Hl as l0 Hl0.
      inversion Hl; subst l. rewrite length_map.
      now destruct (cal_multiplicity_like_le0 _ _ _ _ _ _ _ _ _ Hlen Hl0).
    - inversion Hl; subst l. now apply (Hc x t).
    - rewrite cal_multiplicity_like_exp in Hl. bind_inv Hl as l0 Hl0.
      inversion Hl; subst l. rewrite length_map.
      now destruct (cal_multiplicity_like_le0 _ _ _ _ _ _ _ _ _ Hlen Hl0). }
  destruct (draw_loop_outcome (graph self) p ext ndr draws (rev l) (Fin 0) 0)
    as [[j [Hj E]]|E].
  - rewrite length_rev. cbn. exact El.
  - left. exists j. split; [exact Hj | exact E].
  - right. exact E.
Qed.

Lemma stopping_rule_outcomes_witness :
  second_lap_start <> [] /\
  ((exists j, (1 <= j <= List.length second_lap_start)%nat /\
              Extend (abc_path ++ second_lap_start) false
              = Extend (abc_path ++ firstn j second_lap_start) false) \/
   Extend (abc_path ++ second_lap_start) false
   = (if false then Return abc_path
      else Extend (reverse_path (graph abc_ready) abc_path) true)).
Proof.
  apply (stopping_rule_outcomes abc_ready abc_path second_lap_start false None
           (Some (all_zero_ratios (List.length second_lap_start))) half_draws).
  - apply all_zero_accepts_longest; [discriminate | unfold half_draws; lra].
  - intros v Hv. cbn in Hv. destruct Hv as [<-|[<-|[]]]; vm_compute; reflexivity.
  - intros x l E. inversion E. reflexivity.
Defined.

(** ** Subpath index *)

Lemma fold_left_invariant :
  forall (A B : Type) (I : A -> Prop) (f : A -> B -> A) (l : list B) (a : A),
    (forall acc x, In x l -> I acc -> I (f acc x)) ->
    I a -> I (fold_left f l a).
Proof.
  intros A B I f l. induction l as [|x l IH]; intros a Hf Ha; [exact Ha|].
  cbn [fold_left]. apply IH.
  - intros acc y Hy. apply Hf. now right.
  - apply Hf; [now left | exact Ha].
Qed.

Lemma fold_left_reaches :
  forall (A B : Type) (I : A -> Prop) (f : A -> B -> A) (l : list B) (a : A)
         (x0 : B),
    (forall acc x, I acc -> I (f acc x)) ->
    In x0 l -> (forall acc, I (f acc x0)) ->
    I (fold_left f l a).
Proof.
  intros A B I f l. induction l as [|x l IH]; intros a x0 Hk Hin H0;
    [contradiction|].
  cbn [fold_left]. destruct Hin as [->|Hin].
  - apply fold_left_invariant; [intros; now apply Hk | apply H0].
  - now apply (IH _ x0).
Qed.

Lemma path_setitem_in :
  forall (V : Type) k (v : V) d k' v',
    In (k', v') (path_setitem k v d) -> (k' = k /\ v' = v) \/ In (k', v') d.
Proof.
  intros V k v d k' v'. induction d as [|[a w] d IH]; cbn [path_setitem].
  - cbn. intros [H|[]]. inversion H. auto.
  - destruct (path_dec k a) as [E|E].
    + subst a. rewrite path_eqb_refl. cbn [In]. intros [H|H].
      * inversion H. auto.
      * right. now right.
    + assert (Eb : path_eqb k a = false).
      { unfold path_eqb. destruct (path_dec k a); [contradiction | reflexivity]. }
      rewrite Eb. cbn [In]. intros [H|H].
      * right. now left.
      * destruct (IH H); auto.
Qed.

Lemma path_lookup_in :
  forall (V : Type) k (d : list (path * V)) v,
    path_lookup k d = Some v -> In (k, v) d.
Proof.
  intros V k d v. induction d as [|[a w] d IH]; cbn [path_lookup]; intro H.
  - discriminate.
  - destruct (path_eqb k a) eqn:E.
    + apply path_eqb_eq in E. subst a. inversion H. now left.
    + right. now apply IH.
Qed.

Lemma path_lookup_setitem :
  forall (V : Type) k k' (v : V) d,
    path_lookup k (path_setitem k' v d)
    = if path_eqb k k' then Some v else path_lookup k d.
Proof.
  intros V k k' v d. induction d as [|[a w] d IH]; cbn [path_setitem path_lookup].
  - reflexivity.
  - destruct (path_eqb k' a) eqn:E'; cbn [path_lookup].
    + apply path_eqb_eq in E'. subst a. destruct (path_eqb k k'); reflexivity.
    + rewrite IH. destruct (path_eqb k a) eqn:E; [|reflexivity].
      apply path_eqb_eq in E. subst a.
      destruct (path_eqb k k') eqn:E2; [|reflexivity].
      apply path_eqb_eq in E2. subst k'. rewrite path_eqb_refl in E'.
      discriminate.
Qed.

Lemma set_add_in :
  forall x y s, In x (set_add y s) <-> x = y \/ In x s.
Proof.
  intros x y s. unfold set_add. destruct (existsb (read_eqb y) s) eqn:E.
  - split; [auto|]. intros [->|H]; [|exact H].
    apply existsb_exists in E. destruct E as [z [Hz Ez]].
    unfold read_eqb in Ez. apply andb_true_iff in Ez. destruct Ez as [E1 E2].
    apply Nat.eqb_eq in E1. apply Bool.eqb_prop in E2.
    destruct y, z. cbn in *. now subst.
  - rewrite in_app_iff. cbn. intuition.
Qed.

Lemma index_subpath_sound :
  forall P sub read_id strand table,
    table_sound P table -> P sub (read_id, strand) ->
    table_sound P (index_subpath sub read_id strand table).
Proof.
  intros P sub read_id strand table Ht Hp sub' set x Hin Hx.
  unfold index_subpath in Hin.
  destruct (path_lookup sub table) as [s|] eqn:El;
    apply path_setitem_in in Hin; destruct Hin as [[-> ->]|Hin].
  - apply set_add_in in Hx. destruct Hx as [->|Hx]; [exact Hp|].
    apply (Ht sub s x); [now apply path_lookup_in | exact Hx].
  - now apply (Ht sub' set x).
  - destruct Hx as [<-|[]]. exact Hp.
  - now apply (Ht sub' set x).
Qed.

Lemma index_subpath_registers :
  forall sub read_id strand table,
    registered (index_subpath sub read_id strand table) sub (read_id, strand).
Proof.
  intros sub read_id strand table. unfold registered, index_subpath.
  destruct (path_lookup sub table) as [s|];
    rewrite path_lookup_setitem, path_eqb_refl; eexists; split;
    try reflexivity.
  - apply set_add_in. now left.
  - now left.
Qed.

Lemma index_subpath_keeps :
  forall sub read_id strand table sub' x,
    registered table sub' x ->
    registered (index_subpath sub read_id strand table) sub' x.
Proof.
  intros sub read_id strand table sub' x [set [Hl Hx]].
  unfold registered, index_subpath.
  destruct (path_lookup sub table) as [s|] eqn:El;
    rewrite path_lookup_setitem; destruct (path_eqb sub' sub) eqn:E.
  - apply path_eqb_eq in E. subst sub'. rewrite El in Hl. inversion Hl; subst.
    eexists; split; [reflexivity|]. apply set_add_in. now right.
  - now exists set.
  - apply path_eqb_eq in E. subst sub'. rewrite El in Hl. discriminate.
  - now exists set.
Qed.

Lemma in_combine_seq :
  forall (A : Type) (l : list A) a i x,
    In (i, x) (combine (seq a (List.length l)) l) <->
    (a <= i)%nat /\ nth_error l (i - a) = Some x.
Proof.
  intros A l. induction l as [|y l IH]; intros a i x.
  - cbn. split; [intros [] | intros [_ H]]. destruct (i - a)%nat; discriminate.
  - cbn [List.length seq combine In]. rewrite IH. split.
    + intros [H|[Hle Hn]].
      * inversion H; subst. rewrite Nat.sub_diag. cbn. split; [lia | reflexivity].
      * split; [lia|]. replace (i - a)%nat with (S (i - S a)) by lia. exact Hn.
    + intros [Hle Hn]. destruct (Nat.eq_dec a i) as [->|Hne].
      * left. rewrite Nat.sub_diag in Hn. cbn in Hn. now inversion Hn.
      * right. split; [lia|].
        replace (i - a)%nat with (S (i - S a)) in Hn by lia. exact Hn.
Qed.

Lemma index_sub_contig_num_sound :
  forall g rps read_id rp tables k,
    nth_error rps read_id = Some rp -> (1 <= k < List.length rp)%nat ->
    table_sound (starts_read g rps) (fst tables) /\
    table_sound (inside_read g rps) (snd tables) ->
    table_sound (starts_read g rps)
      (fst (index_sub_contig_num rp (reverse_path g rp) read_id tables k)) /\
    table_sound (inside_read g rps)
      (snd (index_sub_contig_num rp (reverse_path g rp) read_id tables k)).
Proof.
  intros g rps read_id rp [st mid] k Hn Hk [Hs Hm].
  cbn [fst snd] in Hs, Hm. cbn [index_sub_contig_num fst snd]. split.
  - apply index_subpath_sound; [apply index_subpath_sound; [exact Hs|]|].
    + exists rp, k. cbn [fst snd oriented]. auto.
    + exists rp, k. cbn [fst snd oriented]. auto.
  - apply fold_left_invariant; [|exact Hm].
    intros m a Ha Hm'. apply in_seq in Ha.
    apply index_subpath_sound; [apply index_subpath_sound; [exact Hm'|]|].
    + exists rp, a, k. cbn [fst snd oriented]. repeat split; try lia; auto.
    + exists rp, a, k. cbn [fst snd oriented]. repeat split; try lia; auto.
Qed.

Lemma index_read_path_sound :
  forall g rps read_id rp tables,
    nth_error rps read_id = Some rp ->
    table_sound (starts_read g rps) (fst tables) /\
    table_sound (inside_read g rps) (snd tables) ->
    table_sound (starts_read g rps)
      (fst (index_read_path g tables (read_id, rp))) /\
    table_sound (inside_read g rps)
      (snd (index_read_path g tables (read_id, rp))).
Proof.
  intros g rps read_id rp tables Hn Ht. cbn [index_read_path].
  apply (fold_left_invariant _ _
           (fun t => table_sound (starts_read g rps) (fst t) /\
                     table_sound (inside_read g rps) (snd t)));
    [|exact Ht].
  intros acc k Hk Hacc. apply in_seq in Hk.
  apply index_sub_contig_num_sound; [exact Hn | lia | exact Hacc].
Qed.

Lemma index_tables_sound :
  forall g rps tables,
    table_sound (starts_read g rps) (fst tables) /\
    table_sound (inside_read g rps) (snd tables) ->
    table_sound (starts_read g rps)
      (fst (fold_left (index_read_path g)
              (combine (seq 0 (List.length rps)) rps) tables)) /\
    table_sound (inside_read g rps)
      (snd (fold_left (index_read_path g)
              (combine (seq 0 (List.length rps)) rps) tables)).
Proof.
  intros g rps tables Ht.
  apply (fold_left_invariant _ _
           (fun t => table_sound (starts_read g rps) (fst t) /\
                     table_sound (inside_read g rps) (snd t)));
    [|exact Ht].
  intros acc [read_id rp] Hin Hacc. apply in_combine_seq in Hin.
  destruct Hin as [_ Hn]. rewrite Nat.sub_0_r in Hn.
  now apply index_read_path_sound.
Qed.

Lemma index_unfold :
  forall self f g,
    index_readpaths_subpaths self f = Ok g ->
    exists counter rps lens longest,
      fold_left (count_record (graph self) f) (alignment self)
                ([], read_paths self, []) = (counter, rps, lens) /\
      max_Z_list lens = Ok longest /\
      graph g = graph self /\
      read_paths g = rps /\ read_paths_counter g = counter /\
      local_max_alignment_len g = Some longest /\
      starting_subpath_to_readpaths g
      = fst (fold_left (index_read_path (graph self))
               (combine (seq 0 (List.length rps)) rps)
               (starting_subpath_to_readpaths self,
                middle_subpath_to_readpaths self)) /\
      middle_subpath_to_readpaths g
      = snd (fold_left (index_read_path (graph self))
               (combine (seq 0 (List.length rps)) rps)
               (starting_subpath_to_readpaths self,
                middle_subpath_to_readpaths self)).
Proof.
  intros self f g H. unfold index_readpaths_subpaths in H.
  destruct (fold_left (count_record (graph self) f) (alignment self)
                      ([], read_paths self, [])) as [[counter rps] lens].
  destruct (fold_left (index_read_path (graph self))
                      (combine (seq 0 (List.length rps)) rps)
                      (starting_subpath_to_readpaths self,
                       middle_subpath_to_readpaths self)) as [st mid] eqn:Et.
  bind_inv H as longest Hl. inversion H; subst. cbn.
  exists counter, rps, lens, longest. rewrite Et. repeat split; auto.
Qed.

(** X6: built from empty tables, the index is exact: every entry
    [(read_id, strand)] stored under a sub-path in the starting table points
    to a read path of which the sub-path is the first [k] contigs along that
    strand, for some [1 <= k < len(read path)]; every entry of the middle
    table points to a read path of which the sub-path is a window that begins
    after the first contig and ends before position [len(read path)]. *)
Theorem subpath_index_sound :
  forall self filter_by_graph g,
    index_readpaths_subpaths self filter_by_graph = Ok g ->
    starting_subpath_to_readpaths self = [] ->
    middle_subpath_to_readpaths self = [] ->
    table_sound (starts_read (graph g) (read_paths g))
                (starting_subpath_to_readpaths g) /\
    table_sound (inside_read (graph g) (read_paths g))
                (middle_subpath_to_readpaths g).
Proof.
  intros self f g H Hs Hm.
  destruct (index_unfold self f g H)
    as [counter [rps [lens [longest [_ [_ [Eg [Er [_ [_ [Est Emid]]]]]]]]]]].
  rewrite Eg, Er, Est, Emid. apply index_tables_sound.
  rewrite Hs, Hm. cbn [fst snd]. split; intros sub set x [].
Qed.

Lemma index_sub_contig_num_keeps :
  forall f r read_id tables k sub x,
    (registered (fst tables) sub x ->
     registered (fst (index_sub_contig_num f r read_id tables k)) sub x) /\
    (registered (snd tables) sub x ->
     registered (snd (index_sub_contig_num f r read_id tables k)) sub x).
Proof.
  intros f r read_id [st mid] k sub x. cbn [index_sub_contig_num fst snd]. split.
  - intro H. now apply index_subpath_keeps, index_subpath_keeps.
  - intro H. apply (fold_left_invariant _ _ (fun m => registered m sub x));
      [|exact H].
    intros m a _ Hm. now apply index_subpath_keeps, index_subpath_keeps.
Qed.

Lemma index_sub_contig_num_registers :
  forall (f r : path) read_id tables k (strand : bool),
    registered (fst (index_sub_contig_num f r read_id tables k))
      (firstn k (if strand then f else r)) (read_id, strand) /\
    (forall a, (1 <= a)%nat -> (a + k < List.length f)%nat ->
       registered (snd (index_sub_contig_num f r read_id tables k))
         (slice (if strand then f else r) a (a + k)) (read_id, strand)).
Proof.
  intros f r read_id [st mid] k strand.
  cbn [index_sub_contig_num fst snd]. split.
  - destruct strand.
    + apply index_subpath_keeps, index_subpath_registers.
    + apply index_subpath_registers.
  - intros a Ha Hak.
    apply (fold_left_reaches _ _ (fun m => registered m _ (read_id, strand)))
      with (x0 := a).
    + intros m b Hm. now apply index_subpath_keeps, index_subpath_keeps.
    + apply in_seq. lia.
    + intro m. destruct strand.
      * apply index_subpath_keeps, index_subpath_registers.
      * apply index_subpath_registers.
Qed.

Lemma index_read_path_keeps :
  forall g tables ir sub x,
    (registered (fst tables) sub x ->
     registered (fst (index_read_path g tables ir)) sub x) /\
    (registered (snd tables) sub x ->
     registered (snd (index_read_path g tables ir)) sub x).
Proof.
  intros g tables [read_id rp] sub x. cbn [index_read_path]. split; intro H.
  - apply (fold_left_invariant _ _ (fun t => registered (fst t) sub x)); [|exact H].
    intros acc k _ Hacc. now apply index_sub_contig_num_keeps.
  - apply (fold_left_invariant _ _ (fun t => registered (snd t) sub x)); [|exact H].
    intros acc k _ Hacc. now apply index_sub_contig_num_keeps.
Qed.

Lemma index_read_path_registers :
  forall g tables read_id rp strand,
    (forall k, (1 <= k < List.length rp)%nat ->
       registered (fst (index_read_path g tables (read_id, rp)))
         (firstn k (oriented g rp strand)) (read_id, strand)) /\
    (forall a k, (1 <= a)%nat -> (1 <= k)%nat -> (a + k < List.length rp)%nat ->
       registered (snd (index_read_path g tables (read_id, rp)))
         (slice (oriented g rp strand) a (a + k)) (read_id, strand)).
Proof.
  intros g tables read_id rp strand. cbn [index_read_path].
  assert (Eo : oriented g rp strand
               = if strand then rp else reverse_path g rp) by reflexivity.
  rewrite Eo. split.
  - intros k Hk.
    apply (fold_left_reaches _ _ (fun t => registered (fst t) _ (read_id, strand)))
      with (x0 := k).
    + intros acc b Hacc. now apply index_sub_contig_num_keeps.
    + apply in_seq. lia.
    + intro acc. apply index_sub_contig_num_registers.
  - intros a k Ha Hk Hak.
    apply (fold_left_reaches _ _ (fun t => registered (snd t) _ (read_id, strand)))
      with (x0 := k).
    + intros acc b Hacc. now apply index_sub_contig_num_keeps.
    + apply in_seq. lia.
    + intro acc.
      now apply (index_sub_contig_num_registers rp (reverse_path g rp) read_id
                   acc k strand).
Qed.

(** X7: the index is complete: for every read path and either strand, every
    start of [1 <= k < len] contigs is registered under the id of the read
    path in the starting table, and every window [a : a + k] with [1 <= a],
    [1 <= k] and [a + k < len] in the middle table. *)
Theorem subpath_index_complete :
  forall self filter_by_graph g read_id rp strand,
    index_readpaths_subpaths self filter_by_graph = Ok g ->
    nth_error (read_paths g) read_id = Some rp ->
    (forall k, (1 <= k < List.length rp)%nat ->
       registered (starting_subpath_to_readpaths g)
         (firstn k (oriented (graph g) rp strand)) (read_id, strand)) /\
    (forall a k, (1 <= a)%nat -> (1 <= k)%nat -> (a + k < List.length rp)%nat ->
       registered (middle_subpath_to_readpaths g)
         (slice (oriented (graph g) rp strand) a (a + k)) (read_id, strand)).
Proof.
  intros self f g read_id rp strand H Hn.
  destruct (index_unfold self f g H)
    as [counter [rps [lens [longest [_ [_ [Eg [Er [_ [_ [Est Emid]]]]]]]]]]].
  rewrite Eg, Est, Emid. rewrite Er in Hn.
  assert (Hin : In (read_id, rp) (combine (seq 0 (List.length rps)) rps)).
  { apply in_combine_seq. split; [lia|]. now rewrite Nat.sub_0_r. }
  split.
  - intros k Hk.
    apply (fold_left_reaches _ _ (fun t => registered (fst t) _ (read_id, strand)))
      with (x0 := (read_id, rp)).
    + intros acc ir Hacc. now apply index_read_path_keeps.
    + exact Hin.
    + intro acc. now apply index_read_path_registers.
  - intros a k Ha Hk Hak.
    apply (fold_left_reaches _ _ (fun t => registered (snd t) _ (read_id, strand)))
      with (x0 := (read_id, rp)).
    + intros acc ir Hacc. now apply index_read_path_keeps.
    + exact Hin.
    + intro acc. now apply index_read_path_registers.
Qed.

Lemma abc_index_run :
  index_readpaths_subpaths abc_generator true = Ok abc_indexed.
Proof. vm_compute. reflexivity. Qed.

Lemma subpath_index_sound_witness :
  table_sound (starts_read (graph abc_indexed) (read_paths abc_indexed))
              (starting_subpath_to_readpaths abc_indexed) /\
  table_sound (inside_read (graph abc_indexed) (read_paths abc_indexed))
              (middle_subpath_to_readpaths abc_indexed).
Proof.
  apply (subpath_index_sound abc_generator true abc_indexed).
  - exact abc_index_run.
  - reflexivity.
  - reflexivity.
Defined.

Lemma subpath_index_complete_witness :
  (forall k, (1 <= k < List.length abc_path)%nat ->
     registered (starting_subpath_to_readpaths abc_indexed)
       (firstn k (oriented (graph abc_indexed) abc_path false)) (0%nat, false)) /\
  (forall a k, (1 <= a)%nat -> (1 <= k)%nat ->
     (a + k < List.length abc_path)%nat ->
     registered (middle_subpath_to_readpaths abc_indexed)
       (slice (oriented (graph abc_indexed) abc_path false) a (a + k))
       (0%nat, false)).
Proof.
  apply (subpath_index_complete abc_generator true abc_indexed 0 abc_path false).
  - exact abc_index_run.
  - vm_compute. reflexivity.
Defined.

(** *** The counts of the read paths *)

Lemma path_lookup_none_keys :
  forall (V : Type) k (d : list (path * V)),
    path_lookup k d = None -> ~ In k (map fst d).
Proof.
  intros V k d. induction d as [|[a w] d IH]; cbn [path_lookup]; intro H.
  - intros [].
  - destruct (path_eqb k a) eqn:E; [discriminate|].
    cbn [map fst In]. intros [Ha|Hin].
    + subst a. rewrite path_eqb_refl in E. discriminate.
    + now apply IH.
Qed.

Lemma path_setitem_keys_eq :
  forall (V : Type) k (v : V) d,
    map fst (path_setitem k v d)
    = match path_lookup k d with
      | Some _ => map fst d
      | None => map fst d ++ [k]
      end.
Proof.
  intros V k v d. induction d as [|[a w] d IH]; cbn [path_setitem path_lookup].
  - reflexivity.
  - destruct (path_eqb k a); [reflexivity|].
    cbn [map fst]. rewrite IH. now destruct (path_lookup k d).
Qed.

Lemma count_record_step :
  forall self f done counter rps lens rec counter' rps' lens',
    count_record (graph self) f (counter, rps, lens) rec
    = (counter', rps', lens') ->
    let acc := fun rec =>
                 negb f || contain_path (graph self)
                             (get_standardized_path (graph self) (gaf_path rec)) in
    let std := fun rec => get_standardized_path (graph self) (gaf_path rec) in
    ((forall p, path_lookup p counter =
                if (count_occ path_dec (map std (filter acc done)) p =? 0)%nat
                then None
                else Some (Z.of_nat (count_occ path_dec
                                       (map std (filter acc done)) p))) /\
     rps = read_paths self ++ map fst counter /\
     NoDup (map fst counter) /\
     total_count counter = Z.of_nat (List.length (filter acc done)) /\
     lens = map p_align_len (filter acc done)) ->
    ((forall p, path_lookup p counter' =
                if (count_occ path_dec (map std (filter acc (done ++ [rec]))) p
                    =? 0)%nat
                then None
                else Some (Z.of_nat (count_occ path_dec
                                       (map std (filter acc (done ++ [rec]))) p))) /\
     rps' = read_paths self ++ map fst counter' /\
     NoDup (map fst counter') /\
     total_count counter' = Z.of_nat (List.length (filter acc (done ++ [rec]))) /\
     lens' = map p_align_len (filter acc (done ++ [rec]))).
Proof.
  intros self f done counter rps lens rec counter' rps' lens' H acc std
         [Hl [Hr [Hnd [Ht Hlen]]]].
  unfold count_record in H. rewrite filter_app. cbn [filter].
  fold (acc rec) in H |- *. fold (std rec) in H.
  destruct (acc rec) eqn:Ea.
  - rewrite !map_app, length_app. cbn [map List.length].
    assert (Hc : forall p,
               count_occ path_dec (map std (filter acc done) ++ [std rec]) p
               = (count_occ path_dec (map std (filter acc done)) p
                  + if path_eqb p (std rec) then 1 else 0)%nat).
    { intro p. rewrite count_occ_app. cbn [count_occ]. unfold path_eqb.
      destruct (path_dec (std rec) p) as [E|E];
        destruct (path_dec p (std rec)) as [E'|E']; congruence. }
    pose proof (Hl (std rec)) as Hs.
    destruct (path_lookup (std rec) counter) as [c|] eqn:El;
      inversion H; subst counter' rps' lens'; clear H.
    + destruct (Nat.eqb_spec
                  (count_occ path_dec (map std (filter acc done)) (std rec)) 0)
        as [E0|E0]; [discriminate|].
      inversion Hs; subst c. clear Hs.
      repeat split.
      * intro p. rewrite path_lookup_setitem, Hc.
        destruct (path_eqb p (std rec)) eqn:Ep.
        -- apply path_eqb_eq in Ep. subst p.
           destruct (Nat.eqb_spec
                       (count_occ path_dec (map std (filter acc done)) (std rec) + 1)
                       0); [lia|].
           f_equal. lia.
        -- rewrite Nat.add_0_r. apply Hl.
      * rewrite path_setitem_keys_eq, El. exact Hr.
      * rewrite path_setitem_keys_eq, El. exact Hnd.
      * rewrite (total_count_setitem_some _ _ _ El), Ht. lia.
      * now rewrite Hlen.
    + destruct (Nat.eqb_spec
                  (count_occ path_dec (map std (filter acc done)) (std rec)) 0)
        as [E0|E0]; [|discriminate].
      repeat split.
      * intro p. rewrite path_lookup_setitem, Hc.
        destruct (path_eqb p (std rec)) eqn:Ep.
        -- apply path_eqb_eq in Ep. subst p. rewrite E0. reflexivity.
        -- rewrite Nat.add_0_r. apply Hl.
      * rewrite path_setitem_keys_eq, El, Hr, app_assoc. reflexivity.
      * rewrite path_setitem_keys_eq, El. apply NoDup_app; [exact Hnd | | ].
        -- constructor; [intros [] | constructor].
        -- intros p Hp [<-|[]]. now apply (path_lookup_none_keys _ _ _ El).
      * rewrite (total_count_setitem_none _ _ _ El), Ht. lia.
      * now rewrite Hlen.
  - inversion H; subst counter' rps' lens'. rewrite !app_nil_r.
    repeat split; assumption.
Qed.

Lemma count_records_fold :
  forall self f recs done counter rps lens,
    let acc := fun rec =>
                 negb f || contain_path (graph self)
                             (get_standardized_path (graph self) (gaf_path rec)) in
    let std := fun rec => get_standardized_path (graph self) (gaf_path rec) in
    ((forall p, path_lookup p counter =
                if (count_occ path_dec (map std (filter acc done)) p =? 0)%nat
                then None
                else Some (Z.of_nat (count_occ path_dec
                                       (map std (filter acc done)) p))) /\
     rps = read_paths self ++ map fst counter /\
     NoDup (map fst counter) /\
     total_count counter = Z.of_nat (List.length (filter acc done)) /\
     lens = map p_align_len (filter acc done)) ->
    forall counter' rps' lens',
      fold_left (count_record (graph self) f) recs (counter, rps, lens)
      = (counter', rps', lens') ->
      (forall p, path_lookup p counter' =
                 if (count_occ path_dec (map std (filter acc (done ++ recs))) p
                     =? 0)%nat
                 then None
                 else Some (Z.of_nat (count_occ path_dec
                                        (map std (filter acc (done ++ recs))) p))) /\
      rps' = read_paths self ++ map fst counter' /\
      NoDup (map fst counter') /\
      total_count counter' = Z.of_nat (List.length (filter acc (done ++ recs))) /\
      lens' = map p_align_len (filter acc (done ++ recs)).
Proof.
  intros self f recs. induction recs as [|rec recs IH];
    intros done counter rps lens acc std Hinv counter' rps' lens' H.
  - cbn [fold_left] in H. inversion H; subst. rewrite app_nil_r. exact Hinv.
  - cbn [fold_left] in H.
    destruct (count_record (graph self) f (counter, rps, lens) rec)
      as [[c1 r1] l1] eqn:E1.
    pose proof (count_record_step self f done counter rps lens rec c1 r1 l1 E1
                  Hinv) as Hinv1.
    replace (done ++ rec :: recs) with ((done ++ [rec]) ++ recs)
      by (rewrite <- app_assoc; reflexivity).
    exact (IH (done ++ [rec]) c1 r1 l1 Hinv1 counter' rps' lens' H).
Qed.

Lemma count_records_all :
  forall self f counter rps lens,
    fold_left (count_record (graph self) f) (alignment self)
              ([], read_paths self, []) = (counter, rps, lens) ->
    (forall p, path_lookup p counter =
               if (count_occ path_dec (counted_paths self f) p =? 0)%nat
               then None
               else Some (Z.of_nat (count_occ path_dec (counted_paths self f) p))) /\
    rps = read_paths self ++ map fst counter /\
    NoDup (map fst counter) /\
    total_count counter = Z.of_nat (List.length (counted_records self f)) /\
    lens = map p_align_len (counted_records self f).
Proof.
  intros self f counter rps lens H.
  apply (count_records_fold self f (alignment self) [] [] (read_paths self) [])
    with (2 := H).
  cbn. repeat split; try reflexivity.
  - now rewrite app_nil_r.
  - constructor.
Qed.

(** X8: after [index_readpaths_subpaths] the counter gives each path the
    number of the counted alignment records (those whose standardized path
    the graph contains, or all of them when the filter is off) that have it
    as standardized path, and has no entry for any other path; its keys are
    distinct and are appended, in their order, to the read paths the
    generator had; the counts add up to the number of counted records. *)
Theorem read_paths_counter_counts_accepted_records :
  forall self filter_by_graph g,
    index_readpaths_subpaths self filter_by_graph = Ok g ->
    (forall p, path_lookup p (read_paths_counter g) =
               if (count_occ path_dec (counted_paths self filter_by_graph) p
                   =? 0)%nat
               then None
               else Some (Z.of_nat (count_occ path_dec
                                      (counted_paths self filter_by_graph) p))) /\
    read_paths g = read_paths self ++ map fst (read_paths_counter g) /\
    NoDup (map fst (read_paths_counter g)) /\
    total_count (read_paths_counter g)
    = Z.of_nat (List.length (counted_records self filter_by_graph)).
Proof.
  intros self f g H.
  destruct (index_unfold self f g H)
    as [counter [rps [lens [longest [Ef [_ [_ [Er [Ec _]]]]]]]]].
  rewrite Er, Ec.
  destruct (count_records_all self f counter rps lens Ef)
    as [H1 [H2 [H3 [H4 _]]]].
  repeat split; assumption.
Qed.

Lemma read_paths_counter_counts_accepted_records_witness :
  (forall p, path_lookup p (read_paths_counter abc_indexed) =
             if (count_occ path_dec (counted_paths abc_generator true) p
                 =? 0)%nat
             then None
             else Some (Z.of_nat (count_occ path_dec
                                    (counted_paths abc_generator true) p))) /\
  read_paths abc_indexed
  = read_paths abc_generator ++ map fst (read_paths_counter abc_indexed) /\
  NoDup (map fst (read_paths_counter abc_indexed)) /\
  total_count (read_paths_counter abc_indexed)
  = Z.of_nat (List.length (counted_records abc_generator true)).
Proof.
  apply (read_paths_counter_counts_accepted_records abc_generator true
           abc_indexed).
  exact abc_index_run.
Defined.

(** *** The longest alignment *)

Lemma fold_max_spec :
  forall t x,
    In (fold_left Z.max t x) (x :: t) /\
    forall y, In y (x :: t) -> (y <= fold_left Z.max t x)%Z.
Proof.
  induction t as [|z t IH]; intro x.
  - cbn. split; [now left|]. intros y [<-|[]]. lia.
  - cbn [fold_left]. destruct (IH (Z.max x z)) as [Hin Hmax]. split.
    + destruct Hin as [E|Hin].
      * rewrite <- E.
        destruct (Z.max_spec x z) as [[_ ->]|[_ ->]];
          [right; now left | now left].
      * right. now right.
    + intros y [<-|[<-|Hy]].
      * specialize (Hmax (Z.max x z) (or_introl eq_refl)). lia.
      * specialize (Hmax (Z.max x z) (or_introl eq_refl)). lia.
      * apply Hmax. now right.
Qed.

Lemma index_outcome :
  forall self filter_by_graph,
    match index_readpaths_subpaths self filter_by_graph with
    | Err e => e = IndexError /\ counted_records self filter_by_graph = []
    | Ok g =>
        exists m,
          local_max_alignment_len g = Some m /\
          In m (map p_align_len (counted_records self filter_by_graph)) /\
          forall rec, In rec (counted_records self filter_by_graph) ->
                      (p_align_len rec <= m)%Z
    end.
Proof.
  intros self f. unfold index_readpaths_subpaths.
  destruct (fold_left (count_record (graph self) f) (alignment self)
                      ([], read_paths self, [])) as [[counter rps] lens] eqn:Ef.
  destruct (count_records_all self f counter rps lens Ef) as [_ [_ [_ [_ El]]]].
  destruct (fold_left (index_read_path (graph self))
                      (combine (seq 0 (List.length rps)) rps)
                      (starting_subpath_to_readpaths self,
                       middle_subpath_to_readpaths self)) as [st mid].
  destruct lens as [|x t]; cbn [max_Z_list bind].
  - split; [reflexivity|]. symmetry in El. now apply map_eq_nil in El.
  - cbn [local_max_alignment_len]. exists (fold_left Z.max t x).
    destruct (fold_max_spec t x) as [Hin Hmax]. rewrite <- El.
    split; [reflexivity|]. split; [exact Hin|].
    intros rec Hrec. apply Hmax. rewrite El. now apply in_map.
Qed.

(** X9: [index_readpaths_subpaths] fails, with an index error, exactly when
    no alignment record is counted; when it succeeds,
    [local_max_alignment_len] is the largest alignment length among the
    counted records. *)
Theorem index_needs_a_counted_record :
  forall self filter_by_graph,
    match index_readpaths_subpaths self filter_by_graph with
    | Err e => e = IndexError /\ counted_records self filter_by_graph = []
    | Ok g =>
        exists m,
          local_max_alignment_len g = Some m /\
          In m (map p_align_len (counted_records self filter_by_graph)) /\
          forall rec, In rec (counted_records self filter_by_graph) ->
                      (p_align_len rec <= m)%Z
    end.
Proof.
  exact index_outcome.
Qed.

(** ** Coverage sources and single-copy candidates *)

Lemma lookup_ordered_fold_keys :
  forall (V W : Type) (h : string * W -> V) (l : list (string * W)) k d,
    (match lookup k (fold_left (fun d kv => setitem (fst kv) (snd kv) d)
                       (map (fun nv => (fst nv, h nv)) l) d) with
     | Some _ => true | None => false end)
    = (match lookup k l with Some _ => true | None => false end)
      || (match lookup k d with Some _ => true | None => false end).
Proof.
  intros V W h l. induction l as [|[a w] l IH]; intros k d.
  - reflexivity.
  - cbn [map fold_left fst snd lookup]. rewrite IH, lookup_setitem.
    destruct (String.eqb k a); [|reflexivity].
    now destruct (lookup k l).
Qed.

Lemma lookup_ordered_dict_keys :
  forall (V W : Type) (h : string * W -> V) (l : list (string * W)) k,
    (match lookup k (ordered_dict (map (fun nv => (fst nv, h nv)) l)) with
     | Some _ => true | None => false end)
    = (match lookup k l with Some _ => true | None => false end).
Proof.
  intros V W h l k. unfold ordered_dict. rewrite lookup_ordered_fold_keys.
  cbn [lookup]. apply orb_false_r.
Qed.

Lemma lookup_const_fold :
  forall (V W : Type) (c : V) (l : list (string * W)) k d,
    (forall v, lookup k d = Some v -> v = c) ->
    forall v,
      lookup k (fold_left (fun d kv => setitem (fst kv) (snd kv) d)
                  (map (fun nv : string * W => (fst nv, c)) l) d) = Some v ->
      v = c.
Proof.
  intros V W c l. induction l as [|[a w] l IH]; intros k d Hd v H.
  - now apply Hd.
  - cbn [map fold_left fst snd] in H. apply IH in H; [exact H|].
    intros v' Hv'. rewrite lookup_setitem in Hv'.
    destruct (String.eqb k a); [now inversion Hv' | now apply Hd].
Qed.

Lemma count_step_lookup :
  forall (rp : path) k (cov : list (string * Z)),
    lookup k (fold_left
                (fun cov (v : vne) =>
                   match lookup (fst v) cov with
                   | Some c => setitem (fst v) (c + 1)%Z cov
                   | None => cov
                   end) rp cov)
    = match lookup k cov with
      | Some c => Some (c + Z.of_nat (count_occ string_dec (names rp) k))%Z
      | None => None
      end.
Proof.
  intros rp k. induction rp as [|v rp IH]; intro cov.
  - cbn. destruct (lookup k cov); [f_equal; lia | reflexivity].
  - cbn [fold_left names map count_occ]. rewrite IH.
    fold (names rp).
    destruct (lookup (fst v) cov) as [c|] eqn:Ev.
    + rewrite lookup_setitem.
      destruct (String.eqb_spec k (fst v)) as [->|Hne].
      * rewrite Ev. destruct (string_dec (fst v) (fst v)); [|congruence].
        f_equal. lia.
      * destruct (string_dec (fst v) k); [congruence|]. reflexivity.
    + destruct (string_dec (fst v) k) as [<-|Hne]; [|reflexivity].
      now rewrite Ev.
Qed.

Lemma count_reads_lookup :
  forall (rps : list path) k (cov : list (string * Z)),
    lookup k (fold_left
                (fun cov read_path =>
                   fold_left
                     (fun cov (v : vne) =>
                        match lookup (fst v) cov with
                        | Some c => setitem (fst v) (c + 1)%Z cov
                        | None => cov
                        end) read_path cov) rps cov)
    = match lookup k cov with
      | Some c =>
          Some (c + Z.of_nat (count_occ string_dec
                                (names (List.concat rps)) k))%Z
      | None => None
      end.
Proof.
  intros rps k. induction rps as [|rp rps IH]; intro cov.
  - cbn. destruct (lookup k cov); [f_equal; lia | reflexivity].
  - cbn [fold_left List.concat]. rewrite IH, count_step_lookup.
    rewrite count_occ_names_app.
    destruct (lookup k cov); [f_equal; lia | reflexivity].
Qed.

Lemma lookup_map_values :
  forall (V W : Type) (h : V -> W) k (d : list (string * V)),
    lookup k (map (fun nc => (fst nc, h (snd nc))) d)
    = option_map h (lookup k d).
Proof.
  intros V W h k d. induction d as [|[a w] d IH]; [reflexivity|].
  cbn [map lookup fst snd]. destruct (String.eqb k a); [reflexivity | exact IH].
Qed.

Lemma estimated_coverage_lookup :
  forall self n,
    lookup n (contig_coverages (estimate_contig_coverages_from_read_paths self))
    = if in_vertex_info (graph self) n
      then Some (IZR (Z.of_nat (count_occ string_dec
                                  (names (List.concat (read_paths self))) n)))
      else None.
Proof.
  intros self n. unfold estimate_contig_coverages_from_read_paths.
  cbn [contig_coverages set_contig_coverages].
  rewrite lookup_map_values, count_reads_lookup.
  pose proof (lookup_ordered_dict_keys Z vertex (fun _ => 0%Z)
                (vertex_info (graph self)) n) as Hk.
  unfold in_vertex_info.
  destruct (lookup n (ordered_dict
                        (map (fun nv : string * vertex => (fst nv, 0%Z))
                             (vertex_info (graph self))))) as [c|] eqn:Ec.
  - destruct (lookup n (vertex_info (graph self))); [|discriminate].
    assert (c = 0%Z).
    { unfold ordered_dict in Ec.
      apply (lookup_const_fold Z vertex 0%Z (vertex_info (graph self)) n [])
        in Ec; [exact Ec|]. intros v0 Hv0. discriminate. }
    subst c. cbn [option_map]. f_equal.
  - destruct (lookup n (vertex_info (graph self))); [discriminate|].
    reflexivity.
Qed.

(** X10: [estimate_contig_coverages_from_read_paths] gives every contig of
    the graph, as coverage, the number of its occurrences over all the read
    paths, in either orientation, and gives no coverage to any other
    name. *)
Theorem read_path_coverage_counts_occurrences :
  forall self n,
    lookup n (contig_coverages (estimate_contig_coverages_from_read_paths self))
    = if in_vertex_info (graph self) n
      then Some (IZR (Z.of_nat (count_occ string_dec
                                  (names (List.concat (read_paths self))) n)))
      else None.
Proof.
  exact estimated_coverage_lookup.
Qed.

Lemma prepared_graph : forall self, graph (prepared self) = graph self.
Proof. intro self. unfold prepared. now destruct (use_alignment_cov self). Qed.

Lemma prepared_known :
  forall self n,
    known (prepared self) n = in_vertex_info (graph self) n.
Proof.
  intros self n. unfold known. rewrite prepared_graph.
  assert (Ec : (match lookup n (contig_coverages (prepared self)) with
                | Some _ => true | None => false end)
               = in_vertex_info (graph self) n).
  { unfold prepared. destruct (use_alignment_cov self).
    - cbn [estimate_single_copy_vertices set_candidate_single_copy_vs
             contig_coverages].
      rewrite estimated_coverage_lookup.
      now destruct (in_vertex_info (graph self) n).
    - cbn [estimate_single_copy_vertices set_candidate_single_copy_vs
             contig_coverages use_contig_coverage_from_assembly_graph
             set_contig_coverages].
      apply (lookup_ordered_dict_keys R vertex (fun nv => v_cov (snd nv))). }
  unfold in_vertex_info in *.
  destruct (lookup n (contig_coverages (prepared self)));
    destruct (lookup n (vertex_info (graph self))); congruence.
Qed.

Lemma np_average_no_key_error :
  forall a w, np_average a w <> Err KeyError.
Proof.
  intros a w. unfold np_average. destruct (sumZ w =? 0)%Z; discriminate.
Qed.

Lemma weighted_std_no_key_error :
  forall a w m, weighted_std a w m <> Err KeyError.
Proof.
  intros a w m. unfold weighted_std. destruct (1 <? List.length a)%nat;
    [|discriminate].
  pose proof (np_average_no_key_error (map (fun c => ((c - m) ^ 2)%R) a) w).
  destruct (np_average _ w) as [r|e]; cbn [bind]; congruence.
Qed.

Lemma counts_after_exclusion_names :
  forall (p : path) ex nc,
    In nc (counts_after_exclusion p ex) -> In (fst nc) (names p).
Proof.
  intros p ex nc H. destruct ex as [ex|].
  - rewrite counts_after_exclusion_spec in H. apply in_map_iff in H.
    destruct H as [n [<- Hn]]. cbn [fst]. unfold remaining_names in Hn.
    apply filter_In in Hn. destruct Hn as [Hn _]. now apply nodup_In in Hn.
  - cbn [counts_after_exclusion] in H. unfold count_names in H.
    apply in_map_iff in H. destruct H as [n [<- Hn]]. cbn [fst].
    now apply nodup_In in Hn.
Qed.

(** X11: once the coverages are set the way [generate_heuristic_paths] sets
    them, from the read paths or from the graph, the coverage means raise no
    key error, for any path and any exclusion path. *)
Theorem prepared_generator_raises_no_key_error :
  forall self (p : path) ex,
    get_cov_mean (prepared self) p ex <> Err KeyError /\
    get_cov_mean_std (prepared self) p ex <> Err KeyError /\
    get_cov_mean_of_single_std (prepared self) p <> Err KeyError.
Proof.
  intros self p ex.
  unfold get_cov_mean, get_cov_mean_std, get_cov_mean_of_single_std.
  rewrite check_path_cases.
  destruct (is_empty p); [repeat split; discriminate|].
  destruct (forallb (in_vertex_info (graph (prepared self))) (names p)) eqn:Eg;
    [|repeat split; discriminate].
  cbn [bind].
  assert (Hk : forall n, In n (names p) -> known (prepared self) n = true).
  { intros n Hn. rewrite prepared_known, <- (prepared_graph self).
    rewrite forallb_forall in Eg. now apply Eg. }
  rewrite mapM_cover_entry.
  assert (E1 : forallb (fun nc : string * nat => known (prepared self) (fst nc))
                 (counts_after_exclusion p ex) = true).
  { apply forallb_forall. intros nc Hnc. apply Hk.
    eapply counts_after_exclusion_names; eassumption. }
  rewrite E1. cbn [bind].
  assert (E2 : forallb (known (prepared self))
                 (single_copy_names (prepared self) p) = true).
  { apply forallb_forall. intros n Hn. apply Hk.
    eapply single_copy_names_in; eassumption. }
  rewrite (mapM_single_entry _ _ E2). cbn [bind].
  repeat split.
  - apply np_average_no_key_error.
  - match goal with
    | |- bind (np_average ?a ?w) _ <> _ =>
        pose proof (np_average_no_key_error a w) as Ha;
        destruct (np_average a w) as [m|e]; cbn [bind]; [|congruence];
        pose proof (weighted_std_no_key_error a w m) as Hs;
        destruct (weighted_std a w m); cbn [bind]; congruence
    end.
  - match goal with
    | |- bind (np_average ?a ?w) _ <> _ =>
        pose proof (np_average_no_key_error a w) as Ha;
        destruct (np_average a w) as [m|e]; cbn [bind]; [|congruence];
        pose proof (weighted_std_no_key_error a w m) as Hs;
        destruct (weighted_std a w m); cbn [bind]; congruence
    end.
Qed.

(** *** Single-copy candidates *)

Lemma mem_string_in :
  forall x l, mem_string x l = true <-> In x l.
Proof.
  intros x l. unfold mem_string. rewrite existsb_exists. split.
  - intros [y [Hy E]]. apply String.eqb_eq in E. now subst.
  - intro H. exists x. split; [exact H | apply String.eqb_refl].
Qed.

(** X12: after [estimate_single_copy_vertices] the single-copy candidates
    are those there were before together with the contigs of the graph that
    have fewer than two connections at each end; a list of candidates without
    duplicates stays so. *)
Theorem single_copy_candidates_have_few_connections :
  forall self n,
    (In n (candidate_single_copy_vs (estimate_single_copy_vertices self)) <->
     In n (candidate_single_copy_vs self) \/
     exists v, In (n, v) (vertex_info (graph self)) /\
               (List.length (v_connections v true) < 2)%nat /\
               (List.length (v_connections v false) < 2)%nat) /\
    (NoDup (candidate_single_copy_vs self) ->
     NoDup (candidate_single_copy_vs (estimate_single_copy_vertices self))).
Proof.
  intros self n. unfold estimate_single_copy_vertices.
  cbn [candidate_single_copy_vs set_candidate_single_copy_vs].
  generalize (candidate_single_copy_vs self) as s.
  induction (vertex_info (graph self)) as [|[a w] l IH]; intro s.
  - cbn. split; [|auto]. split; [auto|]. intros [H|[v [[] _]]]. exact H.
  - cbn [fold_left fst snd]. destruct (IH
      (if (List.length (v_connections w true) <? 2)%nat
          && (List.length (v_connections w false) <? 2)%nat
       then if mem_string a s then s else s ++ [a]
       else s)) as [IHin IHnd]. clear IH. split.
    + rewrite IHin. clear IHin IHnd.
      destruct ((List.length (v_connections w true) <? 2)%nat
                && (List.length (v_connections w false) <? 2)%nat) eqn:Ec.
      * apply andb_true_iff in Ec. destruct Ec as [Et Ef].
        apply Nat.ltb_lt in Et, Ef.
        destruct (mem_string a s) eqn:Em.
        -- apply mem_string_in in Em. split.
           ++ intros [H|[v [Hv Hc]]]; [now left|].
              right. exists v. split; [now right | exact Hc].
           ++ intros [H|[v [[Hv|Hv] Hc]]]; [now left | |].
              ** inversion Hv; subst. now left.
              ** right. now exists v.
        -- rewrite in_app_iff. cbn [In]. split.
           ++ intros [[H|[<-|[]]]|[v [Hv Hc]]].
              ** now left.
              ** right. exists w. split; [now left | now split].
              ** right. exists v. split; [now right | exact Hc].
           ++ intros [H|[v [[Hv|Hv] Hc]]].
              ** left. now left.
              ** inversion Hv; subst. left. right. now left.
              ** right. now exists v.
      * split.
        -- intros [H|[v [Hv Hc]]]; [now left|].
           right. exists v. split; [now right | exact Hc].
        -- intros [H|[v [[Hv|Hv] Hc]]]; [now left | |].
           ++ inversion Hv; subst. destruct Hc as [Ht Hf].
              apply Nat.ltb_lt in Ht, Hf. rewrite Ht, Hf in Ec. discriminate.
           ++ right. now exists v.
    + intro Hnd. apply IHnd.
      destruct ((List.length (v_connections w true) <? 2)%nat
                && (List.length (v_connections w false) <? 2)%nat);
        [|exact Hnd].
      destruct (mem_string a s) eqn:Em; [exact Hnd|].
      apply NoDup_app; [exact Hnd | constructor; [intros [] | constructor] |].
      intros x Hx [<-|[]].
      apply mem_string_in in Hx. congruence.
Qed.

(** ** Cutting a circular path into units *)

Lemma slice_app :
  forall (A : Type) (l : list A) a b c,
    (a <= b)%nat -> (b <= c)%nat ->
    slice l a b ++ slice l b c = slice l a c.
Proof.
  intros A l a b c Hab Hbc. unfold slice.
  replace (skipn b l) with (skipn (b - a) (skipn a l))
    by (rewrite skipn_skipn; f_equal; lia).
  replace (c - a)%nat with ((b - a) + (c - b))%nat by lia.
  generalize (skipn a l) as l'. generalize (b - a)%nat as m.
  generalize (c - b)%nat as n. clear.
  intros n m. induction m as [|m IH]; intro l'.
  - reflexivity.
  - destruct l' as [|x l']; cbn [firstn skipn app Nat.add].
    + now rewrite firstn_nil.
    + f_equal. apply IH.
Qed.

Lemma slice_to_end :
  forall (A : Type) (l : list A) a b,
    (a <= b)%nat -> slice l a b ++ skipn b l = skipn a l.
Proof.
  intros A l a b Hab. unfold slice.
  replace (skipn b l) with (skipn (b - a) (skipn a l))
    by (rewrite skipn_skipn; f_equal; lia).
  apply firstn_skipn.
Qed.

Lemma ascending_tail :
  forall a l, ascending (a :: l) -> ascending l.
Proof. intros a [|b l] H; [exact I | now destruct H]. Qed.

Lemma ascending_le_last :
  forall l a, ascending (a :: l) -> (a <= last (a :: l) 0)%nat.
Proof.
  induction l as [|b l IH]; intros a H; [cbn; lia|].
  destruct H as [Hab H]. specialize (IH b H).
  change (last (a :: b :: l) 0%nat) with (last (b :: l) 0%nat). lia.
Qed.

Lemma cut_inner_concat :
  forall (p : path) l a,
    ascending (a :: l) ->
    List.concat (map (fun ft => slice p (fst ft) (snd ft))
                     (combine (removelast (a :: l)) (tl (a :: l))))
    = slice p a (last (a :: l) 0%nat).
Proof.
  intros p l. induction l as [|b l IH]; intros a H.
  - cbn. unfold slice. now rewrite Nat.sub_diag.
  - destruct H as [Hab H].
    change (removelast (a :: b :: l)) with (a :: removelast (b :: l)).
    cbn [tl combine map List.concat fst snd].
    change (last (a :: b :: l) 0%nat) with (last (b :: l) 0%nat).
    specialize (IH b H). cbn [tl] in IH.
    destruct l as [|c l].
    + cbn. now rewrite app_nil_r.
    + change (removelast (b :: c :: l)) with (b :: removelast (c :: l)) in *.
      rewrite IH. apply slice_app; [lia|].
      now apply ascending_le_last.
Qed.

Lemma cut_units_concat :
  forall (p : path) l a,
    ascending (a :: l) ->
    List.concat (cut_units p (a :: l)) = skipn a p ++ firstn a p.
Proof.
  intros p l a H. unfold cut_units. rewrite concat_app.
  rewrite (cut_inner_concat p l a H). cbn [List.concat hd].
  rewrite app_nil_r, app_assoc. f_equal.
  apply slice_to_end. now apply ascending_le_last.
Qed.

Lemma cut_units_length :
  forall (p : path) l a,
    List.length (cut_units p (a :: l)) = List.length (a :: l).
Proof.
  intros p l a. unfold cut_units.
  rewrite length_app, length_map, length_combine. cbn [tl List.length].
  assert (E : List.length (removelast (a :: l)) = List.length l).
  { clear. revert a. induction l as [|b l IH]; intro a; [reflexivity|].
    change (removelast (a :: b :: l)) with (a :: removelast (b :: l)).
    cbn [List.length]. f_equal. apply IH. }
  rewrite E. lia.
Qed.

Lemma vne_eqb_eq : forall w v, vne_eqb w v = true <-> w = v.
Proof.
  intros w v. unfold vne_eqb. rewrite andb_true_iff, String.eqb_eq. split.
  - intros [E1 E2]. apply Bool.eqb_prop in E2. destruct w, v. cbn in *.
    now subst.
  - intros ->. split; [reflexivity | apply Bool.eqb_reflx].
Qed.

(** The positions of an oriented contig, counted from [a]. *)
Lemma positions_from_spec :
  forall (p : path) v a,
    let l := map fst (filter (fun iv : nat * vne => vne_eqb (snd iv) v)
                             (combine (seq a (List.length p)) p)) in
    ascending l /\
    (forall i, In i l -> (a <= i)%nat /\ nth_error p (i - a) = Some v) /\
    List.length l = count_vne p v.
Proof.
  intros p v. induction p as [|w p IH]; intro a.
  - cbn. split; [exact I|]. split; [intros i []|reflexivity].
  - cbn [List.length seq combine filter snd].
    destruct (IH (S a)) as [Hasc [Hin Hlen]].
    unfold count_vne in *. cbn [count_occ].
    destruct (vne_eqb w v) eqn:E.
    + apply vne_eqb_eq in E. subst w. destruct (vne_dec v v); [|congruence].
      cbn [map fst List.length]. split; [|split].
      * destruct (map fst _) as [|b t] eqn:El; [exact I|].
        split; [|exact Hasc].
        destruct (Hin b (or_introl eq_refl)). lia.
      * intros i [<-|H].
        -- split; [lia|]. now rewrite Nat.sub_diag.
        -- destruct (Hin i H) as [Hle Hn]. split; [lia|].
           replace (i - a)%nat with (S (i - S a)) by lia. exact Hn.
      * now rewrite Hlen.
    + destruct (vne_dec w v) as [Ewv|_];
        [apply vne_eqb_eq in Ewv; congruence|].
      split; [exact Hasc|]. split; [|exact Hlen].
      intros i H. destruct (Hin i H) as [Hle Hn]. split; [lia|].
      replace (i - a)%nat with (S (i - S a)) by lia. exact Hn.
Qed.

Lemma positions_spec :
  forall (p : path) v,
    ascending (positions p v) /\
    (forall i, In i (positions p v) -> nth_error p i = Some v) /\
    List.length (positions p v) = count_vne p v.
Proof.
  intros p v. destruct (positions_from_spec p v 0) as [H1 [H2 H3]].
  split; [exact H1|]. split; [|exact H3].
  intros i Hi. destruct (H2 i Hi) as [_ Hn]. now rewrite Nat.sub_0_r in Hn.
Qed.

Lemma hd_slice :
  forall (p : path) a b v,
    (a < b)%nat -> nth_error p a = Some v -> hd_error (slice p a b) = Some v.
Proof.
  intros p a b v Hab Hn. unfold slice.
  destruct (b - a)%nat as [|m] eqn:E; [lia|].
  revert p Hn. clear. induction a as [|a IH]; intros p Hn.
  - destruct p; [discriminate|]. cbn in *. exact Hn.
  - destruct p; [discriminate|]. cbn [skipn]. apply IH. exact Hn.
Qed.

Lemma hd_skipn :
  forall (p q : path) a v,
    nth_error p a = Some v -> hd_error (skipn a p ++ q) = Some v.
Proof.
  intros p q a. revert p. induction a as [|a IH]; intros p v Hn.
  - destruct p; [discriminate|]. cbn in *. exact Hn.
  - destruct p; [discriminate|]. cbn [skipn]. now apply IH.
Qed.

Lemma last_in_list :
  forall (l : list nat) a, In (last (a :: l) 0%nat) (a :: l).
Proof.
  induction l as [|b l IH]; intro a; [now left|].
  change (last (a :: b :: l) 0%nat) with (last (b :: l) 0%nat).
  right. apply IH.
Qed.

Lemma cut_units_heads :
  forall (p : path) v l a,
    ascending (a :: l) ->
    (forall i, In i (a :: l) -> nth_error p i = Some v) ->
    Forall (fun u => hd_error u = Some v) (cut_units p (a :: l)).
Proof.
  intros p v l a Hasc Hn. unfold cut_units. apply Forall_app. split.
  - clear - Hasc Hn. revert a Hasc Hn.
    induction l as [|b l IH]; intros a Hasc Hn; [constructor|].
    destruct Hasc as [Hab Hasc].
    change (removelast (a :: b :: l)) with (a :: removelast (b :: l)).
    cbn [tl combine map fst snd]. constructor.
    + apply hd_slice; [exact Hab | apply Hn; now left].
    + specialize (IH b Hasc). cbn [tl] in IH. apply IH.
      intros i Hi. apply Hn. now right.
  - constructor; [|constructor].
    apply hd_skipn. apply Hn. apply last_in_list.
Qed.

(** X13: the units cut at the occurrences of an oriented contig of a
    circular path are as many as these occurrences, each begins with that
    contig, and joined in order they give the path rotated to its first
    occurrence: no contig is lost or added. *)
Theorem cut_units_partition_the_circle :
  forall (p : path) (v : vne),
    In v p ->
    List.concat (cut_units p (positions p v))
    = skipn (hd 0%nat (positions p v)) p ++ firstn (hd 0%nat (positions p v)) p /\
    List.length (cut_units p (positions p v)) = count_vne p v /\
    Forall (fun u => hd_error u = Some v) (cut_units p (positions p v)).
Proof.
  intros p v Hin. destruct (positions_spec p v) as [Hasc [Hn Hlen]].
  destruct (positions p v) as [|a l] eqn:E.
  - exfalso. cbn in Hlen. unfold count_vne in Hlen.
    apply (count_occ_In vne_dec) in Hin. lia.
  - cbn [hd]. split; [now apply cut_units_concat|].
    split; [now rewrite cut_units_length|].
    now apply cut_units_heads.
Qed.

Lemma cut_units_partition_the_circle_witness :
  List.concat (cut_units bubble_circle (positions bubble_circle (bw "1")))
  = skipn (hd 0%nat (positions bubble_circle (bw "1"))) bubble_circle
    ++ firstn (hd 0%nat (positions bubble_circle (bw "1"))) bubble_circle /\
  List.length (cut_units bubble_circle (positions bubble_circle (bw "1")))
  = count_vne bubble_circle (bw "1") /\
  Forall (fun u => hd_error u = Some (bw "1"))
         (cut_units bubble_circle (positions bubble_circle (bw "1"))).
Proof.
  apply (cut_units_partition_the_circle bubble_circle (bw "1")).
  vm_compute. auto.
Defined.

(** ** Where the units of the decomposer come from *)

Lemma add_copy_in :
  forall c v d c' l',
    In (c', l') (add_copy c v d) ->
    In (c', l') d \/
    (c' = c /\ (l' = [v] \/ exists l0, In (c, l0) d /\ l' = l0 ++ [v])).
Proof.
  intros c v d c' l'. induction d as [|[c0 l0] d IH]; cbn [add_copy].
  - intros [H|[]]. inversion H; subst. right. split; [reflexivity | now left].
  - destruct (Nat.eqb_spec c c0) as [->|Hne]; cbn [In].
    + intros [H|H].
      * inversion H; subst. right. split; [reflexivity|]. right.
        exists l0. split; [now left | reflexivity].
      * left. now right.
    + intros [H|H].
      * left. now left.
      * destruct (IH H) as [Hd|[-> [->|[l1 [Hl1 ->]]]]].
        -- left. now right.
        -- right. split; [reflexivity | now left].
        -- right. split; [reflexivity|]. right. exists l1.
           split; [now right | reflexivity].
Qed.

Lemma copy_to_vne_members :
  forall (p : path) c l,
    In (c, l) (copy_to_vne p) ->
    l <> [] /\ forall v, In v l -> In v p /\ count_vne p v = c.
Proof.
  intros p c l H. unfold copy_to_vne in H.
  revert c l H.
  apply (fold_left_invariant _ _
           (fun d => forall c l, In (c, l) d ->
                       l <> [] /\
                       forall v, In v l -> In v p /\ count_vne p v = c)).
  - intros d v Hv Hd c l Hin. apply (proj1 (unique_vne_list_in p v)) in Hv.
    apply add_copy_in in Hin.
    destruct Hin as [Hin|[-> [->|[l0 [Hl0 ->]]]]].
    + now apply Hd.
    + split; [discriminate|]. intros w [<-|[]]. now split.
    + split; [now destruct l0|]. intros w Hw. apply in_app_or in Hw.
      destruct Hw as [Hw|[<-|[]]]; [|now split].
      now apply (proj2 (Hd _ _ Hl0)).
  - intros c l [].
Qed.

Lemma lookup_copy_in :
  forall c d l, lookup_copy c d = Ok l -> In (c, l) d.
Proof.
  intros c d l. induction d as [|[c0 l0] d IH]; cbn [lookup_copy]; intro H.
  - discriminate.
  - destruct (Nat.eqb_spec c c0) as [->|Hne].
    + inversion H. now left.
    + right. now apply IH.
Qed.

Lemma candidate_units_loop_in :
  forall min_sim cw c,
    In c (candidate_units_loop min_sim cw) ->
    (1 < c)%nat /\ In c (map fst cw).
Proof.
  intros min_sim cw c. induction cw as [|[k w] cw IH]; [intros []|].
  cbn [candidate_units_loop map fst In]. intro H.
  destruct (Nat.ltb_spec 1 k) as [Hk|Hk].
  - destruct (Qle_bool min_sim _).
    + destruct H as [<-|H]; [split; [exact Hk | now left]|].
      destruct (IH H). split; [assumption | now right].
    + destruct (IH H). split; [assumption | now right].
  - destruct (IH H). split; [assumption | now right].
Qed.

Lemma candidate_num_units_in :
  forall self (p : path) v_lengths candidates c,
    candidate_num_units self p v_lengths = Ok candidates ->
    In c candidates ->
    (1 < c)%nat /\ exists v, In v p /\ count_vne p v = c.
Proof.
  intros self p vl cands c H Hc. unfold candidate_num_units in H.
  bind_inv H as sl Hsl. bind_inv H as ws Hws. inversion H; subst cands.
  apply candidate_units_loop_in in Hc. destruct Hc as [H1 Hin].
  split; [exact H1|].
  apply in_map_iff in Hin. destruct Hin as [[k w] [Ek Hin]]. cbn in Ek.
  subst k. apply in_combine_l in Hin. apply sorted_in in Hin.
  apply in_map_iff in Hin. destruct Hin as [[k l] [Ek Hin]]. cbn in Ek.
  subst k. destruct (copy_to_vne_members p c l Hin) as [Hne Hl].
  destruct l as [|v l]; [congruence|]. exists v. apply Hl. now left.
Qed.

(** X14: every candidate number of units that step 2 of the decomposer
    proposes is greater than one and is the number of copies of some oriented
    contig of the path. *)
Theorem candidate_numbers_of_units_are_copy_numbers :
  forall self (p : path) v_lengths candidates c,
    candidate_num_units self p v_lengths = Ok candidates ->
    In c candidates ->
    (1 < c)%nat /\ exists v, In v p /\ count_vne p v = c.
Proof.
  exact candidate_num_units_in.
Qed.

Lemma drop_consecutive_in :
  forall len_total rest keep step x,
    In x (drop_consecutive len_total keep step rest) -> In x rest.
Proof.
  intros len_total rest. induction rest as [|c t IH]; intros keep step x H.
  - contradiction.
  - cbn [drop_consecutive] in H.
    destruct (forallb _ (combine keep (snd c))).
    + right. eapply IH; eassumption.
    + destruct H as [<-|H]; [now left|]. right. eapply IH; eassumption.
Qed.

Lemma start_entries_in :
  forall self (p : path) num_units entries e,
    start_entries self p num_units = Ok entries -> In e entries ->
    snd e = positions p (fst e) /\ In (fst e) p /\
    count_vne p (fst e) = num_units.
Proof.
  intros self p k entries e H He. unfold start_entries in H.
  bind_inv H as vs Hvs. apply lookup_copy_in in Hvs.
  destruct (copy_to_vne_members p k vs Hvs) as [_ Hmem].
  match type of H with
  | match sorted indices_leb (map _ ?st) with _ => _ end = _ =>
      set (starts := st) in *
  end.
  assert (Hst : forall v, In v starts -> In v vs).
  { intros v Hv. unfold starts in Hv.
    destruct (is_empty _); [exact Hv|]. now apply filter_In in Hv. }
  assert (Hall : forall x,
             In x (sorted indices_leb
                     (map (fun s => (s, positions p s)) starts)) ->
             snd x = positions p (fst x) /\ In (fst x) p /\
             count_vne p (fst x) = k).
  { intros x Hx. apply sorted_in in Hx. apply in_map_iff in Hx.
    destruct Hx as [s [<- Hs]]. cbn [fst snd]. split; [reflexivity|].
    apply Hmem. now apply Hst. }
  destruct (sorted indices_leb (map (fun s => (s, positions p s)) starts))
    as [|first others] eqn:Es; [discriminate|].
  assert (Hk : forall x,
             In x (first :: drop_consecutive (List.length p) (snd first) 1 others)
             -> In x (first :: others)).
  { intros x [<-|Hx]; [now left|]. right.
    eapply drop_consecutive_in; eassumption. }
  apply Hall, Hk.
  match type of H with
  | (if ?c then _ else _) = _ => destruct c
  end.
  - inversion H; subst entries. cbn [tl] in He. now right.
  - inversion H; subst entries. exact He.
Qed.

Lemma add_scheme_in :
  forall s schemes x, In x (add_scheme s schemes) -> x = s \/ In x schemes.
Proof.
  intros s schemes x H. unfold add_scheme in H.
  destruct (existsb _ schemes); [now right|].
  apply in_app_or in H. destruct H as [H|[<-|[]]]; auto.
Qed.

Lemma fold_result_invariant :
  forall (A B : Type) (I : A -> Prop) (f : A -> B -> result A) (l : list B)
         (a r : A),
    (forall acc x y, In x l -> I acc -> f acc x = Ok y -> I y) ->
    I a ->
    fold_left (fun acc x => s <- acc ;; f s x) l (Ok a) = Ok r ->
    I r.
Proof.
  intros A B I f l. induction l as [|x l IH]; intros a r Hf Ha H.
  - inversion H; subst. exact Ha.
  - cbn [fold_left bind] in H. destruct (f a x) as [y|e] eqn:E.
    + apply (IH y r); [|eapply Hf; [now left | exact Ha | exact E] | exact H].
      intros acc z w Hz. apply Hf. now right.
    + exfalso. clear - H. induction l as [|z l IHl]; [discriminate|].
      cbn [fold_left bind] in H. now apply IHl.
Qed.

Lemma schemes_for_origin :
  forall self (p : path) vl total schemes num_units schemes',
    (1 < num_units)%nat ->
    schemes_for self p vl total schemes num_units = Ok schemes' ->
    forall x, In x schemes' ->
      In x schemes \/
      exists s, In s p /\ (2 <= count_vne p s)%nat /\
                x = sorted path_leb
                      (map (fun u => get_standardized_path_circ (graph self)
                                       (roll_path (graph self) u))
                           (cut_units p (positions p s))).
Proof.
  intros self p vl total schemes k schemes' Hk H.
  unfold schemes_for in H. bind_inv H as starts Hst.
  revert H.
  apply (fold_result_invariant _ _
           (fun acc => forall x, In x acc ->
              In x schemes \/
              exists s, In s p /\ (2 <= count_vne p s)%nat /\
                x = sorted path_leb
                      (map (fun u => get_standardized_path_circ (graph self)
                                       (roll_path (graph self) u))
                           (cut_units p (positions p s))))).
  - intros acc start y Hin Hacc Hy x Hx.
    bind_inv Hy as sl Hsl.
    destruct (exceeds _ _ _); inversion Hy; subst y; [|now apply Hacc].
    apply add_scheme_in in Hx. destruct Hx as [->|Hx]; [|now apply Hacc].
    right. destruct (start_entries_in self p k starts start Hst Hin)
      as [Es [Hp Hc]].
    exists (fst start). split; [exact Hp|]. split; [lia|].
    now rewrite Es.
  - intros x Hx. now left.
Qed.

Lemma qualified_schemes_origin :
  forall self (p : path) vl cands schemes,
    (forall c, In c cands -> (1 < c)%nat) ->
    qualified_schemes self p vl cands = Ok schemes ->
    forall x, In x schemes ->
      exists s, In s p /\ (2 <= count_vne p s)%nat /\
                x = sorted path_leb
                      (map (fun u => get_standardized_path_circ (graph self)
                                       (roll_path (graph self) u))
                           (cut_units p (positions p s))).
Proof.
  intros self p vl cands schemes Hc H.
  unfold qualified_schemes in H. bind_inv H as prod Hprod.
  revert H.
  apply (fold_result_invariant _ _
           (fun acc => forall x, In x acc ->
              exists s, In s p /\ (2 <= count_vne p s)%nat /\
                x = sorted path_leb
                      (map (fun u => get_standardized_path_circ (graph self)
                                       (roll_path (graph self) u))
                           (cut_units p (positions p s))))).
  - intros acc k y Hk Hacc Hy x Hx.
    destruct (schemes_for_origin self p _ _ acc k y (Hc k Hk) Hy x Hx)
      as [Hin|Hnew]; [now apply Hacc | exact Hnew].
  - intros x [].
Qed.

(** X15: the decomposer never returns an empty list, and every unit it
    returns is the path itself or the canonical form of a segment cut from
    the path at the occurrences of an oriented contig that occurs at least
    twice in it. *)
Theorem decomposed_units_are_cut_from_the_path :
  forall self (p : path) units,
    decompose_hetero_units self p = Ok units ->
    units <> [] /\
    forall u, In u units ->
      u = p \/
      exists s seg,
        In s p /\ (2 <= count_vne p s)%nat /\
        In seg (cut_units p (positions p s)) /\
        u = get_standardized_path_circ (graph self)
              (roll_path (graph self) seg).
Proof.
  intros self p units H. unfold decompose_hetero_units in H.
  destruct (List.length p <? 4)%nat.
  { inversion H; subst. split; [discriminate|]. intros u [<-|[]]. now left. }
  bind_inv H as vl Hvl. bind_inv H as cands Hc.
  destruct (is_empty cands).
  { inversion H; subst. split; [discriminate|]. intros u [<-|[]]. now left. }
  bind_inv H as schemes Hs. inversion H as [E]. clear H.
  rewrite select_units_eq.
  destruct (List.concat (filter (covers_original self p) schemes))
    as [|u0 us] eqn:Eu; cbn [is_empty].
  { split; [discriminate|]. intros u [<-|[]]. now left. }
  split; [discriminate|]. intros u Hu. right.
  rewrite <- Eu in Hu. apply in_concat_filter in Hu.
  destruct Hu as [x [Hx [_ Hux]]].
  destruct (qualified_schemes_origin self p vl cands schemes) with (3 := Hx)
    as [s [Hsp [Hcount Ex]]].
  - intros c Hcin.
    now destruct (candidate_num_units_in self p vl cands c Hc Hcin).
  - exact Hs.
  - subst x. apply sorted_in in Hux. apply in_map_iff in Hux.
    destruct Hux as [seg [Eseg Hseg]]. exists s, seg. auto.
Qed.

Lemma candidate_numbers_of_units_are_copy_numbers_witness :
  (1 < 2)%nat /\
  exists v, In v bubble_circle /\ count_vne bubble_circle v = 2%nat.
Proof.
  apply (candidate_numbers_of_units_are_copy_numbers bubble_ready bubble_circle
           [("1"%string, 1000%Z); ("2"%string, 100%Z); ("5"%string, 100%Z);
            ("7"%string, 10%Z); ("8"%string, 10%Z)]
           [2%nat] 2%nat).
  - vm_compute. reflexivity.
  - now left.
Defined.

Lemma decomposed_units_are_cut_from_the_path_witness :
  [bubble_unit_7; bubble_unit_8] <> [] /\
  forall u, In u [bubble_unit_7; bubble_unit_8] ->
    u = bubble_circle \/
    exists s seg,
      In s bubble_circle /\ (2 <= count_vne bubble_circle s)%nat /\
      In seg (cut_units bubble_circle (positions bubble_circle s)) /\
      u = get_standardized_path_circ (graph bubble_ready)
            (roll_path (graph bubble_ready) seg).
Proof.
  apply (decomposed_units_are_cut_from_the_path bubble_ready bubble_circle
           [bubble_unit_7; bubble_unit_8]).
  exact bubble_circle_decomposes.
Defined.

(** ** A contig in both orientations *)

Lemma insert_sorted_length :
  forall (A : Type) (leb : A -> A -> bool) x l,
    List.length (insert_sorted leb x l) = S (List.length l).
Proof.
  intros A leb x l. induction l as [|y l IH]; [reflexivity|].
  cbn [insert_sorted]. destruct (leb x y); cbn [List.length]; [reflexivity|].
  now rewrite IH.
Qed.

Lemma sorted_length :
  forall (A : Type) (leb : A -> A -> bool) l,
    List.length (sorted leb l) = List.length l.
Proof.
  intros A leb l. unfold sorted. induction l as [|x l IH]; [reflexivity|].
  cbn [fold_right List.length]. now rewrite insert_sorted_length, IH.
Qed.

Lemma insert_sorted_perm :
  forall (A : Type) (leb : A -> A -> bool) x l,
    Permutation (insert_sorted leb x l) (x :: l).
Proof.
  intros A leb x l. induction l as [|y l IH]; [apply Permutation_refl|].
  cbn [insert_sorted]. destruct (leb x y); [apply Permutation_refl|].
  apply perm_trans with (y :: x :: l); [now constructor | apply perm_swap].
Qed.

Lemma sorted_perm :
  forall (A : Type) (leb : A -> A -> bool) l, Permutation (sorted leb l) l.
Proof.
  intros A leb l. unfold sorted. induction l as [|x l IH]; [constructor|].
  cbn [fold_right].
  apply perm_trans with (x :: fold_right (insert_sorted leb) [] l);
    [apply insert_sorted_perm | now constructor].
Qed.

Lemma setitem_keys :
  forall (V : Type) k (v : V) d,
    map fst (setitem k v d)
    = match lookup k d with
      | Some _ => map fst d
      | None => map fst d ++ [k]
      end.
Proof.
  intros V k v d. induction d as [|[a w] d IH]; [reflexivity|].
  cbn [setitem lookup]. destruct (String.eqb k a); [reflexivity|].
  cbn [map fst]. rewrite IH. now destruct (lookup k d).
Qed.

Lemma lookup_none_keys :
  forall (V : Type) k (d : list (string * V)),
    lookup k d = None -> ~ In k (map fst d).
Proof.
  intros V k d. induction d as [|[a w] d IH]; cbn [lookup]; intro H.
  - intros [].
  - destruct (String.eqb_spec k a) as [->|Hne]; [discriminate|].
    cbn [map fst In]. intros [E|Hin]; [congruence | now apply IH].
Qed.

Lemma ordered_fold_keys :
  forall (V : Type) (pairs : list (string * V)) d,
    NoDup (map fst d) ->
    NoDup (map fst (fold_left (fun d kv => setitem (fst kv) (snd kv) d)
                              pairs d)) /\
    forall k,
      In k (map fst (fold_left (fun d kv => setitem (fst kv) (snd kv) d)
                               pairs d))
      <-> In k (map fst d) \/ In k (map fst pairs).
Proof.
  intros V pairs. induction pairs as [|[a w] pairs IH]; intros d Hnd.
  - cbn. split; [exact Hnd|]. intro k. tauto.
  - cbn [fold_left fst snd].
    assert (Hnd' : NoDup (map fst (setitem a w d))).
    { rewrite setitem_keys. destruct (lookup a d) eqn:El; [exact Hnd|].
      apply NoDup_app; [exact Hnd | constructor; [intros []|constructor] |].
      intros x Hx [<-|[]]. now apply (lookup_none_keys _ _ _ El). }
    destruct (IH (setitem a w d) Hnd') as [H1 H2]. split; [exact H1|].
    intro k. rewrite H2, setitem_keys. cbn [map fst In].
    destruct (lookup a d) eqn:El.
    + split; [tauto|]. intros [H|[<-|H]]; auto.
      left. clear - El. induction d as [|[b x] d IHd]; [discriminate|].
      cbn [lookup] in El. cbn [map fst In].
      destruct (String.eqb_spec a b); [now left | right; now apply IHd].
    + rewrite in_app_iff. cbn [In]. tauto.
Qed.

Lemma ordered_dict_length :
  forall (V : Type) (pairs : list (string * V)),
    List.length (ordered_dict pairs)
    = List.length (nodup string_dec (map fst pairs)).
Proof.
  intros V pairs. unfold ordered_dict.
  destruct (ordered_fold_keys V pairs [] (NoDup_nil _)) as [Hnd Hin].
  rewrite <- (length_map fst (fold_left _ pairs [])).
  apply Permutation_length. apply NoDup_Permutation.
  - exact Hnd.
  - apply NoDup_nodup.
  - intro k. rewrite Hin, nodup_In. cbn. tauto.
Qed.

Lemma nodup_length_le :
  forall (l : list string),
    (List.length (nodup string_dec l) <= List.length l)%nat.
Proof.
  induction l as [|x l IH]; [cbn; lia|].
  cbn [nodup]. destruct (in_dec string_dec x l); cbn [List.length]; lia.
Qed.

Lemma nodup_length_lt :
  forall (l : list string),
    ~ NoDup l -> (List.length (nodup string_dec l) < List.length l)%nat.
Proof.
  induction l as [|x l IH]; intro H.
  - exfalso. apply H. constructor.
  - cbn [nodup]. destruct (in_dec string_dec x l) as [Hin|Hnin].
    + pose proof (nodup_length_le l). cbn [List.length]. lia.
    + cbn [List.length]. apply -> Nat.succ_lt_mono. apply IH.
      intro Hnd. apply H. now constructor.
Qed.

Lemma nodup_map_injective :
  forall (A B : Type) (f : A -> B) (l : list A) x y,
    NoDup (map f l) -> In x l -> In y l -> f x = f y -> x = y.
Proof.
  intros A B f l. induction l as [|a l IH]; intros x y Hnd Hx Hy E;
    [contradiction|].
  cbn [map] in Hnd. inversion Hnd as [|? ? Hnin Hnd']; subst.
  destruct Hx as [->|Hx]; destruct Hy as [->|Hy].
  - reflexivity.
  - exfalso. apply Hnin. rewrite E. now apply in_map.
  - exfalso. apply Hnin. rewrite <- E. now apply in_map.
  - now apply IH.
Qed.

Lemma two_names_length :
  forall (l : list string) a b,
    In a l -> In b l -> a <> b ->
    (2 <= List.length (nodup string_dec l))%nat.
Proof.
  intros l a b Ha Hb Hne.
  apply (nodup_In string_dec) in Ha, Hb.
  destruct (nodup string_dec l) as [|x [|y t]]; cbn [List.length]; try lia.
  - contradiction.
  - destruct Ha as [<-|[]]. destruct Hb as [<-|[]]. congruence.
Qed.

Lemma np_mul_shape_error :
  forall a b,
    List.length a <> List.length b ->
    (2 <= List.length a)%nat -> (2 <= List.length b)%nat ->
    np_mul a b = Err ValueError.
Proof.
  intros a b Hne Ha Hb. unfold np_mul.
  destruct (Nat.eqb_spec (List.length a) (List.length b)); [contradiction|].
  destruct a as [|x [|y a]]; cbn in Ha; try lia.
  destruct b as [|u [|w b]]; cbn in Hb; try lia. reflexivity.
Qed.

Lemma unit_v_lengths_length :
  forall self (p : path) vl,
    unit_v_lengths self p = Ok vl ->
    List.length vl
    = List.length (nodup string_dec (names (unique_vne_list p))).
Proof.
  intros self p vl H. unfold unit_v_lengths in H.
  bind_inv H as pairs Hp. inversion H; subst vl.
  rewrite ordered_dict_length.
  assert (E : map fst pairs = names (unique_vne_list p)).
  { apply mapM_Forall2 in Hp. unfold names. clear H.
    induction Hp as [|v y U pairs Hy Hp IH]; [reflexivity|].
    cbn [map]. rewrite IH. f_equal.
    bind_inv Hy as vtx Hv. now inversion Hy. }
  now rewrite E.
Qed.

(** X16: on a circular path of at least four contigs, with at least two
    contig names, in which some contig occurs in both orientations, the
    decomposer raises a value error as soon as step 2 proposes a number of
    units: the lengths are tabled by contig name and the copy numbers by
    oriented contig, so the product of the two arrays does not broadcast. *)
Theorem decompose_raises_on_both_orientations :
  forall self (p : path) vl c cs n a b,
    (4 <= List.length p)%nat ->
    unit_v_lengths self p = Ok vl ->
    candidate_num_units self p vl = Ok (c :: cs) ->
    In (n, true) p -> In (n, false) p ->
    In a (names p) -> In b (names p) -> a <> b ->
    decompose_hetero_units self p = Err ValueError.
Proof.
  intros self p vl c cs n a b Hlen Hvl Hc Ht Hf Ha Hb Hab.
  unfold decompose_hetero_units.
  destruct (Nat.ltb_spec (List.length p) 4); [lia|].
  rewrite Hvl. cbn [bind]. rewrite Hc. cbn [bind is_empty].
  unfold qualified_schemes.
  pose proof (unit_v_lengths_length self p vl Hvl) as El.
  set (U := unique_vne_list p) in *.
  assert (HU : NoDup U).
  { unfold U, unique_vne_list.
    apply (Permutation_NoDup (l := nodup vne_dec p)); [|apply NoDup_nodup].
    symmetry. apply sorted_perm. }
  assert (Hnames : forall x, In x (names p) -> In x (names U)).
  { intros x Hx. unfold names in *. apply in_map_iff in Hx.
    destruct Hx as [v [<- Hv]]. apply in_map. now apply unique_vne_list_in. }
  assert (Hlt : (List.length (nodup string_dec (names U)) < List.length U)%nat).
  { assert (EU : List.length (names U) = List.length U)
      by (unfold names; apply length_map).
    rewrite <- EU. apply nodup_length_lt. intro Hnd.
    assert (E : (n, true) = (n, false)).
    { apply (nodup_map_injective _ _ fst U); try assumption;
        try (now apply unique_vne_list_in). reflexivity. }
    discriminate. }
  assert (H2 : (2 <= List.length (nodup string_dec (names U)))%nat).
  { apply (two_names_length _ a b); auto. }
  rewrite np_mul_shape_error; [reflexivity| | |].
  - rewrite !length_map. unfold vne_to_copy. rewrite length_map.
    fold U. lia.
  - rewrite length_map. lia.
  - rewrite length_map. unfold vne_to_copy. rewrite length_map. fold U. lia.
Qed.

Lemma decompose_raises_on_both_orientations_witness :
  decompose_hetero_units abc_ready both_ways_twice = Err ValueError.
Proof.
  apply (decompose_raises_on_both_orientations abc_ready both_ways_twice
           [("A"%string, 100%Z); ("B"%string, 50%Z); ("C"%string, 100%Z)]
           2%nat [] "A"%string "A"%string "B"%string).
  - cbn. lia.
  - vm_compute. reflexivity.
  - vm_compute. reflexivity.
  - cbn. auto.
  - cbn. auto.
  - cbn. auto.
  - cbn. auto.
  - discriminate.
Defined.

(** ** The catalog of variants *)

Lemma path_setitem_values :
  forall (P : Z -> Prop) k v (d : list (path * Z)),
    Forall (fun pc => P (snd pc)) d -> P v ->
    Forall (fun pc => P (snd pc)) (path_setitem k v d).
Proof.
  intros P k v d H Hv. induction H as [|[a w] d Ha Hd IH]; cbn [path_setitem].
  - constructor; [exact Hv | constructor].
  - destruct (path_eqb k a); constructor; auto.
Qed.

Lemma insert_variant_consistent :
  forall s u, catalog_consistent s -> catalog_consistent (insert_variant s u).
Proof.
  intros s u [Hk [Hnd Hc]]. unfold catalog_consistent, insert_variant.
  destruct (path_lookup u (ss_variants_counts s)) as [c|] eqn:El;
    cbn [ss_variants ss_variants_counts]; rewrite path_setitem_keys_eq, El.
  - split; [exact Hk|]. split; [exact Hnd|].
    apply (path_setitem_values (fun z => 1 <= z)%Z); [exact Hc|].
    apply path_lookup_in in El. rewrite Forall_forall in Hc.
    specialize (Hc _ El). cbn in Hc. lia.
  - split; [now rewrite Hk|]. split.
    + apply NoDup_app; [exact Hnd | constructor; [intros []|constructor] |].
      intros x Hx [<-|[]]. rewrite Hk in Hx.
      now apply (path_lookup_none_keys _ _ _ El).
    + apply (path_setitem_values (fun z => 1 <= z)%Z); [exact Hc | lia].
Qed.

Lemma insert_units_consistent :
  forall n units s,
    catalog_consistent s ->
    Forall catalog_consistent (insert_units n s units).
Proof.
  intros n units. induction units as [|u units IH]; intros s Hs.
  - constructor.
  - cbn [insert_units]. pose proof (insert_variant_consistent s u Hs) as H1.
    constructor; [exact H1|].
    destruct (count_valid (insert_variant s u) =? n)%Z; [constructor|].
    now apply IH.
Qed.

Lemma uni_loop_consistent :
  forall self raws s trace,
    catalog_consistent s ->
    uni_loop self s raws = Ok trace ->
    Forall catalog_consistent trace.
Proof.
  intros self raws. induction raws as [|raw raws IH];
    intros s trace Hs H; cbn [uni_loop] in H.
  - inversion H. constructor.
  - destruct (count_valid s <? num_search self)%Z; [|inversion H; constructor].
    assert (Hb : catalog_consistent (bump_search s)) by exact Hs.
    destruct (invalid_search self (get_single_traversal self raw)).
    + bind_inv H as rest Hrest. inversion H; subst.
      constructor; [exact Hb|]. now apply (IH (bump_search s)).
    + bind_inv H as units Hunits. bind_inv H as rest Hrest.
      inversion H; subst.
      pose proof (insert_units_consistent (num_search self) units
                    (bump_search s) Hb) as Hins.
      constructor; [exact Hb|]. apply Forall_app. split; [exact Hins|].
      apply (IH (last (insert_units (num_search self) (bump_search s) units)
                      (bump_search s))); [|exact Hrest].
      now apply Forall_last.
Qed.

Lemma commit_units_consistent :
  forall n units s,
    catalog_consistent s -> catalog_consistent (commit_units n s units).
Proof.
  intros n units. induction units as [|u units IH]; intros s Hs; [exact Hs|].
  cbn [commit_units]. destruct (n <=? count_valid s)%Z; [exact Hs|].
  apply IH. now apply insert_variant_consistent.
Qed.

Lemma worker_commit_consistent :
  forall self s raw s',
    catalog_consistent s -> worker_commit self s raw = Ok s' ->
    catalog_consistent s'.
Proof.
  intros self s raw s' Hs H. unfold worker_commit in H.
  destruct (invalid_search self (get_single_traversal self raw)).
  - inversion H; subst. exact Hs.
  - bind_inv H as units Hu. inversion H; subst.
    apply commit_units_consistent. exact Hs.
Qed.

(** X17: a search, in one process or with workers, keeps the catalog
    consistent: the list of variants is the list of the keys of the counts,
    in order and without duplicates, and every count is at least one; the
    generator is left with this catalog. *)
Theorem catalog_stays_consistent :
  forall self raws g s,
    gen_heuristic_paths_uni self raws = Ok (g, s) \/
    gen_heuristic_paths_mp self raws = Ok (g, s) ->
    catalog_consistent (search_start self) ->
    catalog_consistent s /\
    variants g = ss_variants s /\
    variants_counts g = ss_variants_counts s.
Proof.
  intros self raws g s [H|H] H0.
  - unfold gen_heuristic_paths_uni in H. bind_inv H as trace Htrace.
    inversion H; subst. clear H. cbn [variants variants_counts set_catalog].
    split; [|split; reflexivity].
    apply Forall_last; [|exact H0].
    eapply uni_loop_consistent; eassumption.
  - unfold gen_heuristic_paths_mp in H. bind_inv H as s1 Hs1.
    inversion H; subst. clear H. cbn [variants variants_counts set_catalog].
    split; [|split; reflexivity].
    revert Hs1.
    apply (fold_result_invariant _ _ catalog_consistent
             (fun s raw => worker_commit self s raw)).
    + intros acc raw y _ Hacc Hy.
      eapply worker_commit_consistent; eassumption.
    + unfold catalog_consistent. cbn. repeat split; constructor.
Qed.

Lemma catalog_stays_consistent_witness :
  catalog_consistent bubble_three_state /\
  variants (set_catalog bubble_three (ss_variants bubble_three_state)
              (ss_variants_counts bubble_three_state))
  = ss_variants bubble_three_state /\
  variants_counts (set_catalog bubble_three (ss_variants bubble_three_state)
                     (ss_variants_counts bubble_three_state))
  = ss_variants_counts bubble_three_state.
Proof.
  apply (catalog_stays_consistent bubble_three bubble_three_raws).
  - left. exact bubble_three_run.
  - unfold catalog_consistent. cbn. repeat split; constructor.
Defined.

(** ** The workers' commits *)

Lemma commit_units_within :
  forall n units s,
    (count_valid s <= n)%Z ->
    total_count (ss_variants_counts s) = count_valid s ->
    (count_valid (commit_units n s units) <= n)%Z /\
    total_count (ss_variants_counts (commit_units n s units))
    = count_valid (commit_units n s units) /\
    count_search (commit_units n s units) = count_search s.
Proof.
  intros n units. induction units as [|u units IH]; intros s Hle Hbal.
  - cbn. auto.
  - cbn [commit_units]. destruct (Z.leb_spec n (count_valid s)); [auto|].
    destruct (insert_variant_counts s u) as [Hcv [Hcs Htot]].
    destruct (IH (insert_variant s u)) as [H1 [H2 H3]]; [lia | lia |].
    repeat split; [exact H1 | exact H2 | now rewrite H3].
Qed.

(** X18: with a non-negative target, the commits of the workers never take
    the number of valid variants above the target; the counts of the catalog
    add up to it, and every commit, valid or not, counts as one search. *)
Theorem workers_never_overshoot :
  forall self raws g s,
    (0 <= num_search self)%Z ->
    gen_heuristic_paths_mp self raws = Ok (g, s) ->
    (count_valid s <= num_search self)%Z /\
    total_count (variants_counts g) = count_valid s /\
    count_search s = Z.of_nat (List.length raws).
Proof.
  intros self raws g s Hn H.
  unfold gen_heuristic_paths_mp in H. bind_inv H as s1 Hs1.
  inversion H; subst. clear H. cbn [variants_counts set_catalog].
  assert (Hgen : forall raws s0 s',
             (count_valid s0 <= num_search self)%Z ->
             total_count (ss_variants_counts s0) = count_valid s0 ->
             fold_left (fun acc raw => s <- acc ;; worker_commit self s raw)
                       raws (Ok s0) = Ok s' ->
             (count_valid s' <= num_search self)%Z /\
             total_count (ss_variants_counts s') = count_valid s' /\
             count_search s'
             = (count_search s0 + Z.of_nat (List.length raws))%Z).
  { clear. intros raws. induction raws as [|raw raws IH];
      intros s0 s' Hle Hbal H.
    - inversion H; subst. cbn. repeat split; auto; lia.
    - cbn [fold_left bind] in H.
      destruct (worker_commit self s0 raw) as [s1|e] eqn:E;
        [|rewrite fold_commit_err in H; discriminate].
      assert (H1 : (count_valid s1 <= num_search self)%Z /\
                   total_count (ss_variants_counts s1) = count_valid s1 /\
                   count_search s1 = (count_search s0 + 1)%Z).
      { unfold worker_commit in E.
        destruct (invalid_search self (get_single_traversal self raw)).
        - inversion E; subst. cbn. auto.
        - bind_inv E as units Hu. inversion E; subst.
          destruct (commit_units_within (num_search self) units
                      (bump_search s0)) as [A [B C]]; [exact Hle | exact Hbal|].
          repeat split; [exact A | exact B | rewrite C; reflexivity]. }
      destruct H1 as [A [B C]].
      destruct (IH s1 s' A B H) as [A' [B' C']].
      repeat split; [exact A' | exact B'|].
      rewrite C', C. cbn [List.length]. lia. }
  destruct (Hgen raws {| ss_variants := []; ss_variants_counts := [];
                         count_search := 0; count_valid := 0 |} s Hn eq_refl Hs1)
    as [A [B C]].
  repeat split; [exact A | exact B | rewrite C; cbn; lia].
Qed.

Lemma workers_never_overshoot_witness :
  (count_valid bubble_three_mp_state <= num_search bubble_three)%Z /\
  total_count
    (variants_counts
       (set_catalog bubble_three (ss_variants bubble_three_mp_state)
          (ss_variants_counts bubble_three_mp_state)))
  = count_valid bubble_three_mp_state /\
  count_search bubble_three_mp_state
  = Z.of_nat (List.length bubble_three_raws).
Proof.
  apply (workers_never_overshoot bubble_three bubble_three_raws).
  - vm_compute. discriminate.
  - vm_compute. reflexivity.
Defined.

(** ** Failing before the search *)

(** X19: [generate_heuristic_paths] fails before any traversal is looked
    at, with an assertion error when the number of processes is below one,
    and otherwise with an index error when the index has yet to be built and
    no alignment record is consistent with the graph. *)
Theorem generate_fails_before_searching :
  forall self n raws,
    (effective_processes self n < 1)%Z \/
    (read_paths_counter_indexed self = false /\
     counted_records self true = []) ->
    generate_heuristic_paths self n raws
    = Err (if (effective_processes self n <? 1)%Z
           then AssertionError else IndexError).
Proof.
  intros self n raws H.
  destruct (Z.ltb_spec (effective_processes self n) 1) as [Hlt|Hge].
  - unfold generate_heuristic_paths. fold (effective_processes self n).
    destruct (Z.leb_spec 1 (effective_processes self n)); [lia|].
    reflexivity.
  - destruct H as [H|[Hf Hc]]; [lia|].
    rewrite (generate_unindexed self n raws Hf).
    destruct (Z.leb_spec 1 (effective_processes self n)); [|lia].
    cbn [assert bind].
    pose proof (index_outcome self true) as Hi.
    destruct (index_readpaths_subpaths self true) as [g|e].
    + destruct Hi as [m [_ [Hin _]]]. rewrite Hc in Hin. contradiction.
    + destruct Hi as [-> _]. reflexivity.
Qed.

Lemma generate_fails_before_searching_witness :
  generate_heuristic_paths no_reads_generator None [abc_path]
  = Err (if (effective_processes no_reads_generator None <? 1)%Z
         then AssertionError else IndexError).
Proof.
  apply (generate_fails_before_searching no_reads_generator None [abc_path]).
  right. split; reflexivity.
Defined.

(** ** The contigs the single-copy mean is taken over *)

Lemma fold_min_le :
  forall t x y, In y (x :: t) -> (fold_left Nat.min t x <= y)%nat.
Proof.
  induction t as [|z t IH]; intros x y H.
  - destruct H as [<-|[]]. cbn. lia.
  - cbn [fold_left]. destruct H as [<-|[<-|H]].
    + specialize (IH (Nat.min x z) (Nat.min x z) (or_introl eq_refl)). lia.
    + specialize (IH (Nat.min x z) (Nat.min x z) (or_introl eq_refl)). lia.
    + apply IH. now right.
Qed.

Lemma min_nat_list_le :
  forall l y, In y l -> (min_nat_list l <= y)%nat.
Proof.
  intros [|x t] y H; [contradiction|]. now apply fold_min_le.
Qed.

Lemma least_frequent_spec :
  forall (l : list string) n,
    In n (map fst (filter (fun nc : string * nat =>
                             (snd nc =? min_nat_list (map snd (count_names l)))%nat)
                          (count_names l)))
    <-> In n l /\
        forall m, In m l ->
                  (count_occ string_dec l n <= count_occ string_dec l m)%nat.
Proof.
  intros l n. split.
  - intro H. apply in_map_iff in H. destruct H as [[k c] [Ek H]].
    cbn in Ek. subst k. apply filter_In in H. destruct H as [Hin Hc].
    cbn in Hc. apply Nat.eqb_eq in Hc.
    unfold count_names in Hin. apply in_map_iff in Hin.
    destruct Hin as [k [E Hk]]. inversion E; subst k. clear E.
    apply nodup_In in Hk. split; [exact Hk|].
    intros m Hm. rewrite H1, Hc. apply min_nat_list_le.
    apply in_map_iff. exists (m, count_occ string_dec l m). split; [reflexivity|].
    unfold count_names. apply in_map_iff. exists m. split; [reflexivity|].
    now apply nodup_In.
  - intros [Hn Hle]. apply in_map_iff.
    exists (n, count_occ string_dec l n). split; [reflexivity|].
    assert (Hin : In (n, count_occ string_dec l n) (count_names l)).
    { unfold count_names. apply in_map_iff. exists n. split; [reflexivity|].
      now apply nodup_In. }
    apply filter_In. split; [exact Hin|]. cbn [snd]. apply Nat.eqb_eq.
    apply Nat.le_antisymm.
    + assert (Hmin : In (min_nat_list (map snd (count_names l)))
                        (map snd (count_names l))).
      { apply min_nat_list_in. intro E. apply map_eq_nil in E.
        rewrite E in Hin. contradiction. }
      apply in_map_iff in Hmin. destruct Hmin as [[m c] [Ec Hm]].
      cbn in Ec. rewrite <- Ec.
      unfold count_names in Hm. apply in_map_iff in Hm.
      destruct Hm as [k [E Hk]]. inversion E; subst. apply Hle.
      now apply nodup_In in Hk.
    + apply min_nat_list_le. apply in_map_iff.
      now exists (n, count_occ string_dec l n).
Qed.

(** X20: the contigs [__get_cov_mean_of_single] averages over are contigs
    of the path that occur least often in it; when one of the least frequent
    contigs is a single-copy candidate, only candidates are averaged over. *)
Theorem single_copy_mean_uses_least_frequent_contigs :
  forall self (p : path) n,
    In n (single_copy_names self p) ->
    In n (names p) /\
    (forall m, In m (names p) ->
       (count_occ string_dec (names p) n
        <= count_occ string_dec (names p) m)%nat) /\
    ((exists c, In c (names p) /\ In c (candidate_single_copy_vs self) /\
                forall m, In m (names p) ->
                  (count_occ string_dec (names p) c
                   <= count_occ string_dec (names p) m)%nat) ->
     In n (candidate_single_copy_vs self)).
Proof.
  intros self p n H. unfold single_copy_names in H.
  set (least := map fst (filter
                 (fun nc : string * nat =>
                    (snd nc =? min_nat_list (map snd (count_names (names p))))%nat)
                 (count_names (names p)))) in *.
  assert (Hl : forall k, In k least <->
                 In k (names p) /\
                 forall m, In m (names p) ->
                   (count_occ string_dec (names p) k
                    <= count_occ string_dec (names p) m)%nat)
    by (intro k; apply least_frequent_spec).
  destruct (filter (fun n => mem_string n (candidate_single_copy_vs self)) least)
    as [|x l] eqn:Ef; cbn [is_empty] in H.
  - apply Hl in H. destruct H as [H1 H2]. split; [exact H1|].
    split; [exact H2|]. intros [c [Hc [Hcand Hmin]]]. exfalso.
    assert (Hin : In c (filter (fun n => mem_string n
                                           (candidate_single_copy_vs self)) least)).
    { apply filter_In. split; [apply Hl; now split|]. now apply mem_string_in. }
    rewrite Ef in Hin. contradiction.
  - apply sorted_in in H. rewrite <- Ef in H. apply filter_In in H.
    destruct H as [H Hm]. apply Hl in H. destruct H as [H1 H2].
    split; [exact H1|]. split; [exact H2|]. intros _. now apply mem_string_in.
Qed.

Lemma single_copy_mean_uses_least_frequent_contigs_witness :
  In "B"%string (names abc_path) /\
  (forall m, In m (names abc_path) ->
     (count_occ string_dec (names abc_path) "B"%string
      <= count_occ string_dec (names abc_path) m)%nat) /\
  ((exists c, In c (names abc_path) /\
              In c (candidate_single_copy_vs abc_ready) /\
              forall m, In m (names abc_path) ->
                (count_occ string_dec (names abc_path) c
                 <= count_occ string_dec (names abc_path) m)%nat) ->
   In "B"%string (candidate_single_copy_vs abc_ready)).
Proof.
  apply (single_copy_mean_uses_least_frequent_contigs abc_ready abc_path
           "B"%string).
  vm_compute. auto.
Defined.

(** ** The extensions proposed from overlaps *)

Lemma overlap_loop_in :
  forall starting internal_length longest (p : path) nums k cands,
    In (k, cands) (overlap_loop starting internal_length longest p nums) ->
    In k nums /\
    exists s, path_lookup (last_contigs p k) starting = Some s /\
              cands = sorted read_leb s.
Proof.
  intros starting il longest p nums. induction nums as [|n nums IH];
    intros k cands H; [contradiction|].
  cbn [overlap_loop] in H.
  destruct (longest <=? il (last_contigs p n ++ [(""%string, true)]))%Z;
    [contradiction|].
  destruct (path_lookup (last_contigs p n) starting) as [s|] eqn:El.
  - destruct H as [H|H].
    + inversion H; subst. split; [now left|]. now exists s.
    + destruct (IH k cands H) as [Hin Hs]. split; [now right | exact Hs].
  - destruct (IH k cands H) as [Hin Hs]. split; [now right | exact Hs].
Qed.

Lemma overlap_proposal :
  forall self filter_by_graph g internal_length longest (p : path)
         k cands read_id strand,
    index_readpaths_subpaths self filter_by_graph = Ok g ->
    starting_subpath_to_readpaths self = [] ->
    middle_subpath_to_readpaths self = [] ->
    (forall q : path,
        List.length (reverse_path (graph g) q) = List.length q) ->
    In (k, cands) (overlap_candidates g internal_length longest p) ->
    In (read_id, strand) cands ->
    exists read_path ext,
      nth_error (read_paths g) read_id = Some read_path /\
      new_extend g read_id strand k = Ok ext /\
      ext <> [] /\
      (1 <= k <= List.length p)%nat /\
      oriented (graph g) read_path strand = last_contigs p k ++ ext.
Proof.
  intros self f g il longest p k cands read_id strand Hi Hs Hm Hrev Hk Hc.
  unfold overlap_candidates in Hk. apply overlap_loop_in in Hk.
  destruct Hk as [Hin [s [Hl ->]]]. apply in_seq in Hin.
  apply (proj1 (sorted_in _ read_leb (read_id, strand) s)) in Hc.
  assert (Hsound : table_sound (starts_read (graph g) (read_paths g))
                               (starting_subpath_to_readpaths g)).
  { destruct (index_unfold self f g Hi)
      as [counter [rps [lens [m [_ [_ [Eg [Er [_ [_ [Est Emid]]]]]]]]]]].
    rewrite Eg, Er, Est.
    apply index_tables_sound. rewrite Hs, Hm. cbn [fst snd].
    split; intros sub set x []. }
  destruct (Hsound (last_contigs p k) s (read_id, strand))
    as [rp [k' [Hn [Hk' Esub]]]];
    [now apply path_lookup_in | exact Hc |].
  cbn [fst snd] in Hn, Esub.
  assert (Hlen : List.length (oriented (graph g) rp strand) = List.length rp).
  { unfold oriented. destruct strand; [reflexivity | apply Hrev]. }
  assert (Ek : k' = k).
  { assert (E : List.length (last_contigs p k)
                = List.length (firstn k' (oriented (graph g) rp strand)))
      by (now rewrite Esub).
    unfold last_contigs in E. rewrite length_skipn, length_firstn in E. lia. }
  subst k'.
  exists rp, (skipn k (oriented (graph g) rp strand)).
  split; [exact Hn|]. split.
  - unfold new_extend. rewrite Hn. reflexivity.
  - split.
    + intro E. apply (f_equal (@List.length vne)) in E.
      rewrite length_skipn in E. cbn in E. lia.
    + split; [lia|]. rewrite Esub. symmetry. apply firstn_skipn.
Qed.

(** X25: every candidate that the engine collects by overlap, from the index
    that [index_readpaths_subpaths] built from empty tables, stands for a
    read path that begins, along the candidate's strand, with the last
    [ovl_c_num] contigs of the current path; the extension proposed for it,
    the rest of that read path, is never empty. Reversing a path keeps its
    length. *)
Theorem overlap_proposals_continue_a_read :
  forall self filter_by_graph g internal_length longest (p : path)
         k cands read_id strand,
    index_readpaths_subpaths self filter_by_graph = Ok g ->
    starting_subpath_to_readpaths self = [] ->
    middle_subpath_to_readpaths self = [] ->
    (forall q : path,
        List.length (reverse_path (graph g) q) = List.length q) ->
    In (k, cands) (overlap_candidates g internal_length longest p) ->
    In (read_id, strand) cands ->
    exists read_path ext,
      nth_error (read_paths g) read_id = Some read_path /\
      new_extend g read_id strand k = Ok ext /\
      ext <> [] /\
      (1 <= k <= List.length p)%nat /\
      oriented (graph g) read_path strand = last_contigs p k ++ ext.
Proof.
  exact overlap_proposal.
Qed.

Lemma overlap_proposals_continue_a_read_witness :
  exists read_path ext,
    nth_error (read_paths abc_indexed) 0%nat = Some read_path /\
    new_extend abc_indexed 0%nat true 2%nat = Ok ext /\
    ext <> [] /\
    (1 <= 2 <= List.length [fw "C"; fw "A"; fw "B"])%nat /\
    oriented (graph abc_indexed) read_path true
    = last_contigs [fw "C"; fw "A"; fw "B"] 2 ++ ext.
Proof.
  apply (overlap_proposals_continue_a_read abc_generator true abc_indexed
           (fun q => Z.of_nat (List.length q)) 100%Z
           [fw "C"; fw "A"; fw "B"] 2%nat [(0%nat, true)] 0%nat true).
  - exact abc_index_run.
  - reflexivity.
  - reflexivity.
  - intro q. cbn. unfold ex_reverse_path. now rewrite length_map, length_rev.
  - vm_compute. auto.
  - now left.
Defined.

(** ** Maximum-likelihood fit *)

Lemma minimize_loop_eq :
  forall runs todo count_run acc,
    (List.length acc <= 5)%nat ->
    minimize_loop runs todo count_run acc
    = firstn 6 (acc ++ filter res_success (map runs (seq count_run todo))).
Proof.
  intros runs todo. induction todo as [|todo IH]; intros c acc Hacc.
  - cbn [minimize_loop seq map filter]. rewrite app_nil_r. symmetry.
    apply firstn_all2. lia.
  - cbn [minimize_loop seq map filter].
    destruct (res_success (runs c)) eqn:Es.
    + destruct (Nat.ltb_spec 5 (List.length (acc ++ [runs c]))) as [H6|H6].
      * rewrite length_app in H6. cbn in H6.
        assert (E : List.length (acc ++ [runs c]) = 6%nat)
          by (rewrite length_app; cbn; lia).
        replace (acc ++ runs c :: filter res_success (map runs (seq (S c) todo)))
          with ((acc ++ [runs c])
                ++ filter res_success (map runs (seq (S c) todo)))
          by (rewrite <- app_assoc; reflexivity).
        rewrite firstn_app, E, Nat.sub_diag, firstn_O.
        rewrite app_nil_r. symmetry. apply firstn_all2. lia.
      * rewrite IH by exact H6. now rewrite <- app_assoc.
    + now apply IH.
Qed.

Lemma fun_leb_true :
  forall a b, fun_leb a b = true <-> (res_fun a <= res_fun b)%R.
Proof.
  intros a b. unfold fun_leb. destruct (Rle_dec (res_fun a) (res_fun b));
    split; auto; discriminate.
Qed.

Lemma insert_sorted_head :
  forall x l,
    (match l with
     | [] => True
     | h :: _ => forall y, In y l -> (res_fun h <= res_fun y)%R
     end) ->
    match insert_sorted fun_leb x l with
    | [] => False
    | h :: _ => forall y, In y (x :: l) -> (res_fun h <= res_fun y)%R
    end.
Proof.
  intros x [|h l] H; cbn [insert_sorted].
  - intros y [<-|[]]. lra.
  - destruct (fun_leb x h) eqn:E.
    + apply fun_leb_true in E. intros y [<-|Hy]; [lra|].
      specialize (H y Hy). lra.
    + assert (Hhx : (res_fun h <= res_fun x)%R).
      { unfold fun_leb in E. destruct (Rle_dec (res_fun x) (res_fun h));
          [discriminate | lra]. }
      intros y [<-|Hy]; [exact Hhx | now apply H].
Qed.

Lemma sorted_head_least :
  forall l,
    match sorted fun_leb l with
    | [] => l = []
    | h :: _ => In h l /\ forall y, In y l -> (res_fun h <= res_fun y)%R
    end.
Proof.
  induction l as [|x l IH]; [reflexivity|].
  change (sorted fun_leb (x :: l))
    with (insert_sorted fun_leb x (sorted fun_leb l)).
  pose proof (insert_sorted_head x (sorted fun_leb l)) as Hh.
  assert (Hpre : match sorted fun_leb l with
                 | [] => True
                 | h :: _ => forall y, In y (sorted fun_leb l) ->
                                       (res_fun h <= res_fun y)%R
                 end).
  { destruct (sorted fun_leb l) as [|h t] eqn:Es; [exact I|].
    destruct IH as [_ Hmin]. intros y Hy. apply Hmin.
    apply (sorted_in _ fun_leb). now rewrite Es. }
  specialize (Hh Hpre).
  destruct (insert_sorted fun_leb x (sorted fun_leb l)) as [|h t] eqn:Ei;
    [contradiction|].
  split.
  - assert (Hin : In h (insert_sorted fun_leb x (sorted fun_leb l)))
      by (rewrite Ei; now left).
    apply insert_sorted_in in Hin. destruct Hin as [->|Hin]; [now left|].
    right. now apply (sorted_in _ fun_leb).
  - intros y [<-|Hy]; apply Hh; [now left|]. right.
    now apply (sorted_in _ fun_leb).
Qed.

Lemma minimize_cases :
  forall runs,
    match minimize_neg_likelihood runs with
    | None =>
        forall k, (k < Z.to_nat 10000)%nat -> res_success (runs k) = false
    | Some best =>
        In best (firstn 6 (filter res_success
                             (map runs (seq 0 (Z.to_nat 10000))))) /\
        forall r, In r (firstn 6 (filter res_success
                                    (map runs (seq 0 (Z.to_nat 10000))))) ->
                  (res_fun best <= res_fun r)%R
    end.
Proof.
  intro runs. unfold minimize_neg_likelihood.
  rewrite minimize_loop_eq by (cbn; lia). cbn [app].
  generalize (Z.to_nat 10000) as n. intro n.
  pose proof (sorted_head_least
                (firstn 6 (filter res_success (map runs (seq 0 n))))) as H.
  destruct (sorted fun_leb _) as [|best t]; [|exact H].
  intros k Hk. destruct (res_success (runs k)) eqn:Es; [|reflexivity].
  exfalso.
  assert (Hin : In (runs k) (filter res_success (map runs (seq 0 n)))).
  { apply filter_In. split; [|exact Es]. apply in_map. apply in_seq. lia. }
  destruct (filter res_success (map runs (seq 0 n))); [contradiction|].
  discriminate.
Qed.

(** X21: [minimize_neg_likelihood] returns [False] exactly when none of its
    10000 rounds gave a successful run of the optimizer; otherwise it returns
    one of the first six successful runs, of least objective value among
    these six: what a later round would give is not looked at. *)
Theorem minimize_returns_best_of_first_six_successes :
  forall runs,
    match minimize_neg_likelihood runs with
    | None =>
        forall k, (k < Z.to_nat 10000)%nat -> res_success (runs k) = false
    | Some best =>
        In best (firstn 6 (filter res_success
                             (map runs (seq 0 (Z.to_nat 10000))))) /\
        forall r, In r (firstn 6 (filter res_success
                                    (map runs (seq 0 (Z.to_nat 10000))))) ->
                  (res_fun best <= res_fun r)%R
    end.
Proof.
  exact minimize_cases.
Qed.

(** *** The proportions of the variants *)

Lemma zlookup_zsetitem :
  forall (V : Type) k k' (v : V) d,
    zlookup k (zsetitem k' v d)
    = if (k =? k')%Z then Some v else zlookup k d.
Proof.
  intros V k k' v d. induction d as [|[a w] d IH]; cbn [zsetitem zlookup].
  - reflexivity.
  - destruct (Z.eqb_spec k' a) as [->|Hne]; cbn [zlookup].
    + destruct (Z.eqb_spec k a); reflexivity.
    + rewrite IH. destruct (Z.eqb_spec k a) as [->|Hka]; [|reflexivity].
      destruct (Z.eqb_spec a k'); [congruence | reflexivity].
Qed.

Lemma zlookup_none_keys :
  forall (V : Type) k (d : list (Z * V)),
    zlookup k d = None -> ~ In k (map fst d).
Proof.
  intros V k d. induction d as [|[a w] d IH]; cbn [zlookup]; intro H.
  - intros [].
  - destruct (Z.eqb_spec k a) as [->|Hne]; [discriminate|].
    cbn [map fst In]. intros [E|Hin]; [congruence | now apply IH].
Qed.

Lemma zsetitem_keys :
  forall (V : Type) k (v : V) d,
    map fst (zsetitem k v d)
    = match zlookup k d with
      | Some _ => map fst d
      | None => map fst d ++ [k]
      end.
Proof.
  intros V k v d. induction d as [|[a w] d IH]; [reflexivity|].
  cbn [zsetitem zlookup]. destruct (k =? a)%Z; [reflexivity|].
  cbn [map fst]. rewrite IH. now destruct (zlookup k d).
Qed.

Lemma zsetitem_nodup :
  forall (V : Type) k (v : V) d,
    NoDup (map fst d) -> NoDup (map fst (zsetitem k v d)).
Proof.
  intros V k v d H. rewrite zsetitem_keys.
  destruct (zlookup k d) eqn:El; [exact H|].
  apply NoDup_app; [exact H | constructor; [intros []|constructor] |].
  intros x Hx [<-|[]]. now apply (zlookup_none_keys _ _ _ El).
Qed.

Lemma zlookup_in_iff :
  forall (V : Type) k (v : V) d,
    NoDup (map fst d) -> (zlookup k d = Some v <-> In (k, v) d).
Proof.
  intros V k v d. induction d as [|[a w] d IH]; intro Hnd.
  - cbn. split; [discriminate | intros []].
  - cbn [map fst] in Hnd. inversion Hnd as [|? ? Hnin Hnd']; subst.
    cbn [zlookup In]. destruct (Z.eqb_spec k a) as [->|Hne].
    + split.
      * intro E. inversion E. now left.
      * intros [E|Hin]; [now inversion E|].
        exfalso. apply Hnin. apply in_map_iff. now exists (a, v).
    + rewrite (IH Hnd'). split; [now right|].
      intros [E|Hin]; [inversion E; congruence | exact Hin].
Qed.

Lemma zlookup_perm :
  forall (V : Type) k (d d' : list (Z * V)),
    NoDup (map fst d) -> Permutation d d' -> zlookup k d' = zlookup k d.
Proof.
  intros V k d d' Hnd Hp.
  assert (Hnd' : NoDup (map fst d')).
  { apply (Permutation_NoDup (l := map fst d)); [|exact Hnd].
    now apply Permutation_map. }
  destruct (zlookup k d) as [v|] eqn:E.
  - apply (zlookup_in_iff _ _ _ _ Hnd'). apply (Permutation_in _ Hp).
    now apply (zlookup_in_iff _ _ _ _ Hnd).
  - destruct (zlookup k d') as [v'|] eqn:E'; [|reflexivity].
    apply (zlookup_in_iff _ _ _ _ Hnd') in E'.
    apply (Permutation_in _ (Permutation_sym Hp)) in E'.
    apply (zlookup_in_iff _ _ _ _ Hnd) in E'. congruence.
Qed.

Lemma assign_all_lookup :
  forall (ids : list Z) (v : R) uid d,
    zlookup uid (fold_left (fun d u => zsetitem u v d) ids d)
    = if in_dec Z.eq_dec uid ids then Some v else zlookup uid d.
Proof.
  intros ids v uid. induction ids as [|a ids IH]; intro d; [reflexivity|].
  cbn [fold_left]. rewrite IH, zlookup_zsetitem.
  destruct (in_dec Z.eq_dec uid ids) as [Hin|Hnin];
    destruct (in_dec Z.eq_dec uid (a :: ids)) as [Hin'|Hnin'];
    try reflexivity.
  - exfalso. apply Hnin'. now right.
  - destruct Hin' as [->|Hin']; [|contradiction].
    now rewrite Z.eqb_refl.
  - destruct (Z.eqb_spec uid a) as [->|Hne]; [|reflexivity].
    exfalso. apply Hnin'. now left.
Qed.

Lemma assign_all_nodup :
  forall (ids : list Z) (v : R) d,
    NoDup (map fst d) ->
    NoDup (map fst (fold_left (fun d u => zsetitem u v d) ids d)).
Proof.
  intros ids v. induction ids as [|a ids IH]; intros d H; [exact H|].
  cbn [fold_left]. apply IH. now apply zsetitem_nodup.
Qed.

Lemma summarize_loop_frame :
  forall merged reps xs go pd ep pd' ep' uid,
    summarize_loop merged reps xs go (pd, ep) = Ok (pd', ep') ->
    (forall j rep ids,
        (j < List.length xs)%nat ->
        nth_error reps (go + j) = Some rep ->
        zlookup rep merged = Some ids -> ~ In uid ids) ->
    zlookup uid pd' = zlookup uid pd.
Proof.
  intros merged reps xs. induction xs as [|x xs IH];
    intros go pd ep pd' ep' uid H Hout.
  - inversion H; subst. reflexivity.
  - cbn [summarize_loop] in H.
    destruct (nth_error reps go) as [rep|] eqn:Er; [|discriminate].
    bind_inv H as ids Hids. unfold zgetitem in Hids.
    destruct (zlookup rep merged) as [ids0|] eqn:El; [|discriminate].
    inversion Hids; subst ids0. clear Hids.
    rewrite (IH _ _ _ _ _ uid H).
    + rewrite assign_all_lookup.
      destruct (in_dec Z.eq_dec uid ids) as [Hin|_]; [|reflexivity].
      exfalso. apply (Hout 0%nat rep ids); [cbn; lia | | exact El | exact Hin].
      now rewrite Nat.add_0_r.
    + intros j rep' ids' Hj Hn. apply (Hout (S j) rep' ids'); [cbn; lia|].
      now rewrite Nat.add_succ_r.
Qed.

Lemma summarize_loop_nodup :
  forall merged reps xs go pd ep pd' ep',
    summarize_loop merged reps xs go (pd, ep) = Ok (pd', ep') ->
    NoDup (map fst pd) -> NoDup (map fst pd').
Proof.
  intros merged reps xs. induction xs as [|x xs IH];
    intros go pd ep pd' ep' H Hnd.
  - inversion H; subst. exact Hnd.
  - cbn [summarize_loop] in H.
    destruct (nth_error reps go) as [rep|]; [|discriminate].
    bind_inv H as ids Hids.
    apply (IH _ _ _ _ _ H). now apply assign_all_nodup.
Qed.

Lemma summarize_loop_values :
  forall merged reps,
    groups_disjoint merged -> NoDup reps ->
    forall xs go pd ep pd' ep',
      summarize_loop merged reps xs go (pd, ep) = Ok (pd', ep') ->
      forall j this_prop rep ids uid,
        nth_error xs j = Some this_prop ->
        nth_error reps (go + j) = Some rep ->
        zlookup rep merged = Some ids ->
        In uid ids ->
        zlookup uid pd' = Some (this_prop / INR (List.length ids))%R.
Proof.
  intros merged reps Hdis Hnd xs. induction xs as [|x xs IH];
    intros go pd ep pd' ep' H j this_prop rep ids uid Hx Hr Hl Hin.
  - destruct j; discriminate.
  - cbn [summarize_loop] in H.
    destruct (nth_error reps go) as [rep0|] eqn:Er; [|discriminate].
    bind_inv H as ids0 Hids. unfold zgetitem in Hids.
    destruct (zlookup rep0 merged) as [ids1|] eqn:El; [|discriminate].
    inversion Hids; subst ids1. clear Hids.
    destruct j as [|j].
    + rewrite Nat.add_0_r in Hr. rewrite Er in Hr. inversion Hr; subst rep0.
      rewrite El in Hl. inversion Hl; subst ids0.
      cbn in Hx. inversion Hx; subst x.
      rewrite (summarize_loop_frame _ _ _ _ _ _ _ _ uid H).
      * rewrite assign_all_lookup.
        destruct (in_dec Z.eq_dec uid ids); [reflexivity | contradiction].
      * intros j' rep' ids' Hj Hn Hl' Hin'.
        assert (rep' = rep) by (eapply Hdis; eassumption). subst rep'.
        assert (E : (S go + j')%nat = go).
        { apply (proj1 (NoDup_nth_error reps) Hnd).
          - apply nth_error_Some. rewrite Hn. discriminate.
          - now rewrite Hn, Er. }
        lia.
    + apply (IH _ _ _ _ _ H j this_prop rep ids uid); try assumption.
      now rewrite Nat.add_succ_r in Hr.
Qed.

Lemma representatives_nodup :
  forall merged within,
    NoDup (map fst merged) -> NoDup (representatives merged within).
Proof.
  intros merged within H. unfold representatives.
  destruct within as [[|w ws]|]; try exact H. now apply NoDup_filter.
Qed.

Lemma sumR_constant :
  forall (A : Type) (l : list A) (f : A -> R) (c : R),
    (forall a, In a l -> f a = c) ->
    sumR (map f l) = (INR (List.length l) * c)%R.
Proof.
  intros A l f c. induction l as [|a l IH]; intro H.
  - cbn. lra.
  - cbn [map sumR fold_right]. fold (sumR (map f l)).
    rewrite IH by (intros b Hb; apply H; now right).
    rewrite (H a (or_introl eq_refl)).
    change (List.length (a :: l)) with (S (List.length l)).
    rewrite S_INR. lra.
Qed.

Lemma summarize_values :
  forall merged run within use_prop echo_prop,
    summarize_run_prop merged run within = Ok (use_prop, echo_prop) ->
    groups_disjoint merged ->
    NoDup (map fst merged) ->
    forall go this_prop rep ids,
      nth_error (res_x run) go = Some this_prop ->
      nth_error (representatives merged within) go = Some rep ->
      zlookup rep merged = Some ids ->
      (forall uid, In uid ids ->
         zlookup uid use_prop
         = Some (this_prop / INR (List.length ids))%R) /\
      (ids <> [] -> sumR (map (prop_of use_prop) ids) = this_prop).
Proof.
  intros merged run within use_prop echo_prop H Hdis Hnd
         go this_prop rep ids Hx Hr Hl.
  unfold summarize_run_prop in H. bind_inv H as st Hst.
  destruct st as [pd ep]. inversion H; subst use_prop echo_prop. clear H.
  assert (Hv : forall uid, In uid ids ->
             zlookup uid (sorted (fun a b : Z * R => (fst a <=? fst b)%Z) pd)
             = Some (this_prop / INR (List.length ids))%R).
  { intros uid Hin.
    rewrite (zlookup_perm _ uid pd).
    - apply (summarize_loop_values merged (representatives merged within)
               Hdis (representatives_nodup merged within Hnd)
               _ _ _ _ _ _ Hst go this_prop rep ids uid); assumption.
    - apply (summarize_loop_nodup _ _ _ _ _ _ _ _ Hst). constructor.
    - symmetry. apply sorted_perm. }
  split; [exact Hv|]. intro Hne.
  rewrite (sumR_constant _ ids _ (this_prop / INR (List.length ids))%R).
  - field. apply not_0_INR. destruct ids; [congruence | discriminate].
  - intros uid Hin. unfold prop_of. now rewrite (Hv uid Hin).
Qed.

(** X22: [__summarize_run_prop] gives every variant that a representative
    stands for the proportion estimated for the representative divided by the
    number of these variants, so that their proportions add up to it. Every
    variant stands under one representative and the representatives are
    distinct. *)
Theorem summarize_splits_each_proportion_evenly :
  forall merged run within use_prop echo_prop,
    summarize_run_prop merged run within = Ok (use_prop, echo_prop) ->
    groups_disjoint merged ->
    NoDup (map fst merged) ->
    forall go this_prop rep ids,
      nth_error (res_x run) go = Some this_prop ->
      nth_error (representatives merged within) go = Some rep ->
      zlookup rep merged = Some ids ->
      (forall uid, In uid ids ->
         zlookup uid use_prop
         = Some (this_prop / INR (List.length ids))%R) /\
      (ids <> [] -> sumR (map (prop_of use_prop) ids) = this_prop).
Proof.
  exact summarize_values.
Qed.

Lemma two_groups_summary :
  summarize_run_prop two_groups two_groups_run None
  = Ok (two_groups_use_prop, two_groups_echo_prop).
Proof. reflexivity. Qed.

Lemma summarize_splits_each_proportion_evenly_witness :
  (forall uid, In uid [0%Z; 2%Z] ->
     zlookup uid two_groups_use_prop
     = Some (6 / 10 / INR (List.length [0%Z; 2%Z]))%R) /\
  ([0%Z; 2%Z] <> [] ->
   sumR (map (prop_of two_groups_use_prop) [0%Z; 2%Z]) = (6 / 10)%R).
Proof.
  apply (summarize_splits_each_proportion_evenly two_groups two_groups_run
           None two_groups_use_prop two_groups_echo_prop)
    with (go := 0%nat) (rep := 0%Z).
  - exact two_groups_summary.
  - intros r1 r2 ids1 ids2 uid H1 H2 Hi1 Hi2. unfold two_groups in H1, H2.
    cbn [zlookup] in H1, H2.
    destruct (Z.eqb_spec r1 0) as [->|N1];
      destruct (Z.eqb_spec r2 0) as [->|N2]; try reflexivity.
    + inversion H1; subst ids1.
      destruct (Z.eqb_spec r2 1) as [->|M2]; [|discriminate].
      inversion H2; subst ids2. cbn in Hi1, Hi2. lia.
    + inversion H2; subst ids2.
      destruct (Z.eqb_spec r1 1) as [->|M1]; [|discriminate].
      inversion H1; subst ids1. cbn in Hi1, Hi2. lia.
    + destruct (Z.eqb_spec r1 1) as [->|M1]; [|discriminate].
      destruct (Z.eqb_spec r2 1) as [->|M2]; [reflexivity | discriminate].
  - cbn. repeat constructor; cbn; intuition discriminate.
  - reflexivity.
  - reflexivity.
  - reflexivity.
Defined.

(** *** More proportions than representatives *)

Lemma zlookup_key_some :
  forall (V : Type) k (d : list (Z * V)),
    In k (map fst d) -> exists v, zlookup k d = Some v.
Proof.
  intros V k d. induction d as [|[a w] d IH]; [intros []|].
  cbn [map fst In zlookup]. intro H.
  destruct (Z.eqb_spec k a) as [->|Hne]; [now exists w|].
  apply IH. destruct H as [E|H]; [congruence | exact H].
Qed.

Lemma representatives_keys :
  forall merged within rep,
    In rep (representatives merged within) -> In rep (map fst merged).
Proof.
  intros merged within rep H. unfold representatives in H.
  destruct within as [[|w ws]|]; try exact H.
  now apply filter_In in H.
Qed.

Lemma summarize_loop_outcome :
  forall merged reps,
    (forall rep, In rep reps -> In rep (map fst merged)) ->
    forall xs go st,
      match summarize_loop merged reps xs go st with
      | Ok _ => xs = [] \/ (go + List.length xs <= List.length reps)%nat
      | Err e => e = IndexError /\
                 (List.length reps < go + List.length xs)%nat
      end.
Proof.
  intros merged reps Hk xs. induction xs as [|x xs IH]; intros go [pd ep].
  - cbn. now left.
  - cbn [summarize_loop List.length].
    destruct (nth_error reps go) as [rep|] eqn:Er.
    + assert (Hgo : (go < List.length reps)%nat)
        by (apply nth_error_Some; rewrite Er; discriminate).
      destruct (zlookup_key_some _ rep merged) as [ids El].
      { apply Hk. eapply nth_error_In; eassumption. }
      unfold zgetitem. rewrite El. cbn [bind].
      match goal with
      | |- match summarize_loop _ _ _ _ ?st with _ => _ end =>
          specialize (IH (S go) st);
          destruct (summarize_loop merged reps xs (S go) st) as [r|e]
      end.
      * right. destruct IH as [->|IH]; [cbn; lia | lia].
      * destruct IH as [-> IH]. split; [reflexivity | lia].
    + apply nth_error_None in Er. split; [reflexivity | lia].
Qed.

Lemma summarize_outcome :
  forall merged run within,
    match summarize_run_prop merged run within with
    | Ok _ =>
        (List.length (res_x run)
         <= List.length (representatives merged within))%nat
    | Err e =>
        e = IndexError /\
        (List.length (representatives merged within)
         < List.length (res_x run))%nat
    end.
Proof.
  intros merged run within. unfold summarize_run_prop.
  pose proof (summarize_loop_outcome merged (representatives merged within)
                (representatives_keys merged within)
                (res_x run) 0 ([], [])) as H.
  destruct (summarize_loop _ _ _ _ _) as [[pd ep]|e]; cbn [bind].
  - destruct H as [->|H]; [cbn; lia | exact H].
  - exact H.
Qed.

(** X23: [__summarize_run_prop] fails, with an index error, exactly when
    the run has more proportions than there are representatives. *)
Theorem summarize_needs_a_representative_per_proportion :
  forall merged run within,
    match summarize_run_prop merged run within with
    | Ok _ =>
        (List.length (res_x run)
         <= List.length (representatives merged within))%nat
    | Err e =>
        e = IndexError /\
        (List.length (representatives merged within)
         < List.length (res_x run))%nat
    end.
Proof.
  exact summarize_outcome.
Qed.

(** *** Dropping the variants of proportion zero *)

Lemma zdelitem_spec :
  forall (V : Type) k (d d' : list (Z * V)),
    zdelitem k d = Ok d' ->
    NoDup (map fst d) ->
    NoDup (map fst d') /\
    forall k', zlookup k' d' = if (k' =? k)%Z then None else zlookup k' d.
Proof.
  intros V k d. induction d as [|[a w] d IH]; intros d' H Hnd.
  - discriminate.
  - cbn [map fst] in Hnd. inversion Hnd as [|? ? Hnin Hnd']; subst.
    cbn [zdelitem] in H. destruct (Z.eqb_spec k a) as [->|Hne].
    + inversion H; subst d'. split; [exact Hnd'|].
      intro k'. cbn [zlookup]. destruct (Z.eqb_spec k' a) as [->|Hk];
        [|reflexivity].
      destruct (zlookup a d) eqn:E; [|reflexivity].
      exfalso. apply Hnin.
      apply (zlookup_in_iff _ _ _ _ Hnd') in E.
      apply in_map_iff. now exists (a, v).
    + bind_inv H as t' Ht. inversion H; subst d'.
      destruct (IH t' Ht Hnd') as [Hnd1 Hl]. split.
      * cbn [map fst]. constructor; [|exact Hnd1].
        intro Hin. apply Hnin.
        apply in_map_iff in Hin. destruct Hin as [[b x] [Eb Hin]].
        cbn in Eb. subst b.
        apply (zlookup_in_iff _ _ _ _ Hnd1) in Hin. rewrite Hl in Hin.
        destruct (a =? k)%Z; [discriminate|].
        apply (zlookup_in_iff _ _ _ _ Hnd') in Hin.
        apply in_map_iff. now exists (a, x).
      * intro k'. cbn [zlookup]. rewrite Hl.
        destruct (Z.eqb_spec k' a) as [->|Hk]; [|reflexivity].
        destruct (Z.eqb_spec a k); [congruence | reflexivity].
Qed.

Lemma delete_all_keeps_values :
  forall (ids : list Z) (d d' : list (Z * R)),
    fold_left (fun acc uid => d <- acc ;; zdelitem uid d) ids (Ok d) = Ok d' ->
    NoDup (map fst d) ->
    NoDup (map fst d') /\
    forall k v, zlookup k d' = Some v -> zlookup k d = Some v.
Proof.
  intros ids. induction ids as [|a ids IH]; intros d d' H Hnd.
  - inversion H; subst. auto.
  - cbn [fold_left bind] in H.
    destruct (zdelitem a d) as [d1|e] eqn:E.
    + destruct (zdelitem_spec _ a d d1 E Hnd) as [Hnd1 Hl].
      destruct (IH d1 d' H Hnd1) as [Hnd' Hv]. split; [exact Hnd'|].
      intros k v Hk. apply Hv in Hk. rewrite Hl in Hk.
      destruct (k =? a)%Z; [discriminate | exact Hk].
    + exfalso. clear - H. induction ids as [|b ids IHi]; [discriminate|].
      cbn [fold_left bind] in H. now apply IHi.
Qed.

Lemma remove_absent :
  forall (l : list Z) x, ~ In x l -> remove Z.eq_dec x l = l.
Proof. intros l x H. now apply notin_remove. Qed.

Lemma drop_zero_loop :
  forall merged tol props0 todo done props echo chosen' props' echo',
    NoDup (done ++ todo) ->
    NoDup (map fst props) ->
    (forall k v, zlookup k props = Some v -> zlookup k props0 = Some v) ->
    fold_left
      (fun acc iso_id => st <- acc ;; drop_zero_step merged tol st iso_id)
      todo
      (Ok (filter (fun id => negb (near_zero (prop_of props0 id) tol)) done
           ++ todo, props, echo))
    = Ok (chosen', props', echo') ->
    chosen' = filter (fun id => negb (near_zero (prop_of props0 id) tol))
                     (done ++ todo) /\
    (forall k v, zlookup k props' = Some v -> zlookup k props0 = Some v).
Proof.
  intros merged tol props0 todo.
  induction todo as [|id todo IH];
    intros done props echo chosen' props' echo' Hnd Hk Hv H.
  - cbn [fold_left] in H. inversion H; subst. rewrite !app_nil_r.
    split; [reflexivity | exact Hv].
  - cbn [fold_left bind] in H.
    set (keep := fun id => negb (near_zero (prop_of props0 id) tol)) in *.
    destruct (drop_zero_step merged tol (filter keep done ++ id :: todo,
                                         props, echo) id)
      as [[[c1 p1] e1]|e] eqn:Es.
    2:{ exfalso. clear - H. induction todo as [|b todo IHt]; [discriminate|].
        cbn [fold_left bind] in H. now apply IHt. }
    assert (Hnd1 : NoDup ((done ++ [id]) ++ todo))
      by (rewrite <- app_assoc; exact Hnd).
    replace (done ++ id :: todo) with ((done ++ [id]) ++ todo)
      by (rewrite <- app_assoc; reflexivity).
    unfold drop_zero_step in Es.
    bind_inv Es as p Hp. unfold zgetitem in Hp.
    destruct (zlookup id props) as [p0|] eqn:El; [|discriminate].
    inversion Hp; subst p0. clear Hp.
    assert (Ep : prop_of props0 id = p)
      by (unfold prop_of; now rewrite (Hv id p El)).
    assert (Hid : ~ In id (filter keep done ++ todo)).
    { intro Hin. apply in_app_or in Hin.
      apply NoDup_remove_2 in Hnd. apply Hnd. apply in_or_app.
      destruct Hin as [Hin|Hin]; [left | now right].
      now apply filter_In in Hin. }
    destruct (near_zero p tol) eqn:En.
    + bind_inv Es as ids Hids. bind_inv Es as p2 Hp2. bind_inv Es as e2 He2.
      inversion Es; subst c1 p1 e1. clear Es.
      destruct (delete_all_keeps_values ids props p2 Hp2 Hk) as [Hk2 Hv2].
      assert (Ec : remove Z.eq_dec id (filter keep done ++ id :: todo)
                   = filter keep (done ++ [id]) ++ todo).
      { rewrite remove_app, remove_cons. rewrite <- remove_app.
        rewrite (remove_absent _ _ Hid).
        assert (Hkeep : keep id = false) by (unfold keep; now rewrite Ep, En).
        rewrite filter_app. cbn [filter]. rewrite Hkeep.
        now rewrite app_nil_r. }
      rewrite Ec in H.
      apply (IH (done ++ [id]) p2 e2 chosen' props' echo' Hnd1 Hk2); [|exact H].
      intros k v Hkv. apply Hv. now apply Hv2.
    + inversion Es; subst c1 p1 e1. clear Es.
      assert (Ec : filter keep done ++ id :: todo
                   = filter keep (done ++ [id]) ++ todo).
      { assert (Hkeep : keep id = true) by (unfold keep; now rewrite Ep, En).
        rewrite filter_app. cbn [filter]. rewrite Hkeep.
        now rewrite <- app_assoc. }
      rewrite Ec in H.
      apply (IH (done ++ [id]) props echo chosen' props' echo' Hnd1 Hk Hv H).
Qed.

Lemma drop_zero_result :
  forall merged chosen props echo tol chosen' props' echo',
    drop_zero_variants merged chosen props echo tol
    = Ok (chosen', props', echo') ->
    NoDup chosen -> NoDup (map fst props) ->
    chosen' = filter (fun id => negb (near_zero (prop_of props id) tol)) chosen
    /\
    (forall id, In id chosen' ->
       In id chosen /\ (tol <= Rabs (prop_of props id - 0))%R) /\
    (forall k v, zlookup k props' = Some v -> zlookup k props = Some v).
Proof.
  intros merged chosen props echo tol chosen' props' echo' H Hnd Hk.
  unfold drop_zero_variants in H.
  destruct (drop_zero_loop merged tol props chosen [] props echo
              chosen' props' echo') as [Ec Hv]; auto.
  split; [exact Ec|]. split; [|exact Hv].
  intros id Hid. rewrite Ec in Hid. apply filter_In in Hid.
  destruct Hid as [Hin Hz]. split; [exact Hin|].
  unfold near_zero in Hz.
  destruct (Rlt_dec (Rabs (prop_of props id - 0)) tol); [discriminate | lra].
Qed.

(** X24: when [__drop_zero_variants] returns, the chosen ids that are left
    are those whose proportion is not within the tolerance of zero, in their
    order; each of them has a proportion of absolute value at least the
    tolerance, and the proportions that are left are as they were. The chosen
    ids are distinct and so are the keys of the proportions. *)
Theorem dropped_variants_are_those_near_zero :
  forall merged chosen props echo tol chosen' props' echo',
    drop_zero_variants merged chosen props echo tol
    = Ok (chosen', props', echo') ->
    NoDup chosen -> NoDup (map fst props) ->
    chosen' = filter (fun id => negb (near_zero (prop_of props id) tol)) chosen
    /\
    (forall id, In id chosen' ->
       In id chosen /\ (tol <= Rabs (prop_of props id - 0))%R) /\
    (forall k v, zlookup k props' = Some v -> zlookup k props = Some v).
Proof.
  exact drop_zero_result.
Qed.

Lemma near_zero_half :
  near_zero (1 / 2) (1 / 1000000000) = false.
Proof.
  unfold near_zero.
  destruct (Rlt_dec (Rabs (1 / 2 - 0)) (1 / 1000000000)) as [H|_];
    [|reflexivity].
  rewrite Rabs_right in H by lra. lra.
Qed.

Lemma near_zero_zero :
  near_zero 0 (1 / 1000000000) = true.
Proof.
  unfold near_zero.
  destruct (Rlt_dec (Rabs (0 - 0)) (1 / 1000000000)) as [_|H];
    [reflexivity|].
  exfalso. apply H. rewrite Rabs_right by lra. lra.
Qed.

Lemma one_zero_first_round :
  drop_zero_step two_groups (1 / 1000000000)
    ([0%Z; 1%Z], one_zero_props, one_zero_echo) 0
  = Ok ([0%Z; 1%Z], one_zero_props, one_zero_echo).
Proof.
  unfold drop_zero_step, one_zero_props.
  cbn [zgetitem zlookup Z.eqb bind]. now rewrite near_zero_half.
Qed.

Lemma one_zero_second_round :
  drop_zero_step two_groups (1 / 1000000000)
    ([0%Z; 1%Z], one_zero_props, one_zero_echo) 1
  = Ok ([0%Z], [(0%Z, (1 / 2)%R); (2%Z, (1 / 2)%R)], [("0+2"%string, 1%R)]).
Proof.
  unfold drop_zero_step, one_zero_props.
  cbn [zgetitem zlookup Z.eqb Pos.eqb bind]. rewrite near_zero_zero.
  reflexivity.
Qed.

Lemma one_zero_dropped :
  drop_zero_variants two_groups [0%Z; 1%Z] one_zero_props one_zero_echo
    (1 / 1000000000)
  = Ok ([0%Z], [(0%Z, (1 / 2)%R); (2%Z, (1 / 2)%R)], [("0+2"%string, 1%R)]).
Proof.
  unfold drop_zero_variants. cbn [fold_left bind].
  rewrite one_zero_first_round. cbn [bind].
  exact one_zero_second_round.
Qed.

Lemma dropped_variants_are_those_near_zero_witness :
  [0%Z] = filter (fun id => negb (near_zero (prop_of one_zero_props id)
                                             (1 / 1000000000)))
                 [0%Z; 1%Z] /\
  (forall id, In id [0%Z] ->
     In id [0%Z; 1%Z] /\
     (1 / 1000000000 <= Rabs (prop_of one_zero_props id - 0))%R) /\
  (forall k v, zlookup k [(0%Z, (1 / 2)%R); (2%Z, (1 / 2)%R)] = Some v ->
               zlookup k one_zero_props = Some v).
Proof.
  apply (dropped_variants_are_those_near_zero two_groups [0%Z; 1%Z]
           one_zero_props one_zero_echo (1 / 1000000000)
           [0%Z] [(0%Z, (1 / 2)%R); (2%Z, (1 / 2)%R)] [("0+2"%string, 1%R)]).
  - exact one_zero_dropped.
  - repeat constructor; cbn; intuition discriminate.
  - cbn. repeat constructor; cbn; intuition discriminate.
Defined.

(** ** The start of a traversal *)

(** Until the index is built the generator has no read path. *)
Lemma unindexed_has_no_read_paths :
  forall self,
    reachable self ->
    read_paths_counter_indexed self = false ->
    read_paths self = [].
Proof.
  intros self H. induction H as [t c g Hi | g f g' Hr IH Hx | g Hr IH | g Hr IH
                                | g Hr IH | g vs vc Hr IH | g n raws g' s Hr IH Hg];
    intro Hf.
  - unfold init in Hi.
    repeat (match type of Hi with
            | bind (assert ?c) _ = _ => destruct c; [cbn [assert bind] in Hi|discriminate]
            end).
    inversion Hi. reflexivity.
  - destruct (index_sets_flag g f g' Hx) as [Ht _]. congruence.
  - exact (IH Hf).
  - exact (IH Hf).
  - exact (IH Hf).
  - exact (IH Hf).
  - rewrite (generate_sets_flag g n raws g' s Hg) in Hf. discriminate.
Qed.

Lemma choices_empty :
  forall (A : Type) (u : R), choices (@nil A) [] u = Err IndexError.
Proof. reflexivity. Qed.

Lemma traversal_without_read_paths :
  forall self draws extend,
    read_paths self = [] ->
    heuristic_extend_path self draws extend [] = Err IndexError /\
    get_single_traversal_call self draws extend = Err IndexError.
Proof.
  intros self draws extend H.
  assert (E : heuristic_extend_path self draws extend [] = Err IndexError).
  { unfold heuristic_extend_path. rewrite H. reflexivity. }
  split; [exact E|]. unfold get_single_traversal_call. now rewrite E.
Qed.

(** *** Once the index is built *)

Lemma accumulate_length :
  forall weights acc,
    List.length (accumulate acc weights) = List.length weights.
Proof.
  induction weights as [|w t IH]; intro acc; [reflexivity|].
  cbn [accumulate List.length]. now rewrite IH.
Qed.

Lemma accumulate_positive :
  forall weights acc,
    (0 <= acc)%R -> Forall (fun w => 0 < w)%R weights ->
    Forall (fun c => 0 < c)%R (accumulate acc weights).
Proof.
  induction weights as [|w t IH]; intros acc Hacc Hw; [constructor|].
  inversion Hw as [|? ? Hw0 Ht]; subst. cbn [accumulate].
  constructor; [lra|]. apply IH; [lra | exact Ht].
Qed.

Lemma bisect_within :
  forall cum_weights x hi, (bisect cum_weights x hi <= hi)%nat.
Proof.
  intros cum x hi. unfold bisect.
  etransitivity; [apply filter_length_le|]. apply firstn_le_length.
Qed.

(** With as many positive weights as there are elements, the draw returns
    an element of the population. *)
Lemma choices_positive :
  forall (A : Type) (population : list A) (weights : list R) (u : R),
    population <> [] ->
    List.length weights = List.length population ->
    Forall (fun w => 0 < w)%R weights ->
    exists x, In x population /\ choices population weights u = Ok x.
Proof.
  intros A population weights u Hne Hlen Hpos. unfold choices.
  rewrite accumulate_length, Hlen, Nat.eqb_refl. cbn [negb].
  pose proof (accumulate_positive weights 0%R (Rle_refl 0) Hpos) as Hcum.
  pose proof (accumulate_length weights 0%R) as Hl.
  destruct (accumulate 0%R weights) as [|c cum] eqn:E.
  - exfalso. cbn in Hl. rewrite Hlen in Hl. symmetry in Hl.
    now apply length_zero_iff_nil in Hl.
  - cbv zeta.
    assert (Hlast : (0 < last (c :: cum) c)%R).
    { assert (Hin : In (last (c :: cum) c) (c :: cum))
        by (apply last_in; discriminate).
      exact (proj1 (Forall_forall _ _) Hcum _ Hin). }
    destruct (Rle_dec (last (c :: cum) c) 0) as [H|_]; [lra|].
    pose proof (bisect_within (c :: cum) (u * last (c :: cum) c)%R
                  (List.length population - 1)) as Hb.
    destruct (nth_error population
                (bisect (c :: cum) (u * last (c :: cum) c)
                        (List.length population - 1))) as [x|] eqn:En.
    + exists x. split; [|reflexivity]. eapply nth_error_In; eassumption.
    + exfalso. apply nth_error_None in En.
      destruct population; [congruence | cbn [List.length] in *; lia].
Qed.

Lemma path_lookup_key :
  forall (V : Type) (k : path) (d : list (path * V)),
    In k (map fst d) -> path_lookup k d <> None.
Proof.
  intros V k d Hin H. now apply (path_lookup_none_keys _ _ _ H).
Qed.

Lemma freq_reciprocals_positive :
  forall self (l : list path),
    (forall r_p, In r_p l ->
       exists c, path_lookup r_p (read_paths_counter self) = Some c /\
                 (0 < c)%Z) ->
    exists ws, mapM (freq_reciprocal self) l = Ok ws /\
               List.length ws = List.length l /\
               Forall (fun w => 0 < w)%R ws.
Proof.
  intros self l. induction l as [|r_p l IH]; intro H.
  - exists []. repeat split. constructor.
  - destruct (H r_p (or_introl eq_refl)) as [c [Ec Hc]].
    destruct IH as [ws [Ews [Hlen Hpos]]];
      [intros x Hx; apply H; now right|].
    exists ((1 / IZR c)%R :: ws). cbn [mapM]. unfold freq_reciprocal at 1.
    rewrite Ec. destruct (Z.eqb_spec c 0) as [E|_]; [lia|].
    cbn [bind]. rewrite Ews. cbn [bind List.length].
    split; [reflexivity|]. split; [now rewrite Hlen|].
    constructor; [|exact Hpos].
    unfold Rdiv. rewrite Rmult_1_l. apply Rinv_0_lt_compat.
    now apply (IZR_lt 0).
Qed.

(** The index built on a generator that has no read path leaves read paths,
    each with a positive count. *)
Lemma indexed_read_paths_counted :
  forall self f g,
    read_paths self = [] ->
    index_readpaths_subpaths self f = Ok g ->
    read_paths g <> [] /\
    forall r_p, In r_p (read_paths g) ->
      exists c, path_lookup r_p (read_paths_counter g) = Some c /\ (0 < c)%Z.
Proof.
  intros self f g Hnone H.
  destruct (index_unfold self f g H)
    as [counter [rps [lens [longest [Ef [Hmax [_ [Er [Ec _]]]]]]]]].
  destruct (count_records_all self f counter rps lens Ef)
    as [Hlook [Hrps [_ [Htot Hlens]]]].
  rewrite Hnone in Hrps. cbn [app] in Hrps. rewrite Er, Ec, Hrps. split.
  - intro E. apply map_eq_nil in E. rewrite E in Htot.
    destruct lens as [|x t]; [discriminate|].
    destruct (counted_records self f); [discriminate|].
    unfold total_count in Htot.
    cbn [map sumZ fold_right List.length] in Htot. lia.
  - intros r_p Hin. pose proof (path_lookup_key _ r_p counter Hin) as Hsome.
    rewrite Hlook in *.
    destruct (Nat.eqb_spec (count_occ path_dec (counted_paths self f) r_p) 0)
      as [E|E]; [congruence|].
    eexists. split; [reflexivity | lia].
Qed.

Lemma traversal_starts_once_indexed :
  forall self f g draws extend,
    read_paths self = [] ->
    index_readpaths_subpaths self f = Ok g ->
    exists read_path,
      In read_path (read_paths g) /\
      heuristic_extend_path g draws extend []
      = extend (if Rgt_dec (draws 1%nat) (1 / 2)
                then reverse_path (graph g) read_path
                else read_path) 2%nat.
Proof.
  intros self f g draws extend Hnone H.
  destruct (indexed_read_paths_counted self f g Hnone H) as [Hne Hc].
  destruct (freq_reciprocals_positive g (read_paths g) Hc)
    as [ws [Ews [Hlen Hpos]]].
  destruct (choices_positive _ (read_paths g) ws (draws 0%nat) Hne Hlen Hpos)
    as [rp [Hin Ech]].
  exists rp. split; [exact Hin|].
  unfold heuristic_extend_path. rewrite Ews. cbn [bind]. rewrite Ech.
  reflexivity.
Qed.

(** C4: a traversal needs the subpath index to have been built. On every
    generator that the constructor and the methods can produce, as long as
    the index has not been built, the call [get_single_traversal()] and the
    call [__heuristic_extend_path([])] it makes raise an exception, whatever
    the random source draws and whatever the rest of the engine would do: no
    read path is there yet, and [random.choices] raises [IndexError] on the
    empty list of read paths. The exception comes from that draw; the flag
    that marks the index as built is not tested. Once
    [index_readpaths_subpaths] has built the index on such a generator, the
    same call draws one of the read paths, turns it over when the second
    draw is above one half, and goes on with the engine from it. *)
Theorem traversal_fails_before_index_is_built :
  forall self draws extend,
    reachable self ->
    read_paths_counter_indexed self = false ->
    (heuristic_extend_path self draws extend [] = Err IndexError /\
     get_single_traversal_call self draws extend = Err IndexError) /\
    (forall filter_by_graph g,
       index_readpaths_subpaths self filter_by_graph = Ok g ->
       exists read_path,
         In read_path (read_paths g) /\
         heuristic_extend_path g draws extend []
         = extend (if Rgt_dec (draws 1%nat) (1 / 2)
                   then reverse_path (graph g) read_path
                   else read_path) 2%nat).
Proof.
  intros self draws extend Hr Hf.
  pose proof (unindexed_has_no_read_paths self Hr Hf) as Hnone. split.
  - now apply traversal_without_read_paths.
  - intros f g Hg. now apply (traversal_starts_once_indexed self f g).
Qed.

Lemma traversal_fails_before_index_is_built_witness :
  reachable abc_generator /\
  read_paths_counter_indexed abc_generator = false /\
  (heuristic_extend_path abc_generator half_draws (fun p _ => Ok p) []
   = Err IndexError /\
   get_single_traversal_call abc_generator half_draws (fun p _ => Ok p)
   = Err IndexError) /\
  (forall filter_by_graph g,
     index_readpaths_subpaths abc_generator filter_by_graph = Ok g ->
     exists read_path,
       In read_path (read_paths g) /\
       heuristic_extend_path g half_draws (fun p _ => Ok p) []
       = Ok (if Rgt_dec (half_draws 1%nat) (1 / 2)
             then reverse_path (graph g) read_path
             else read_path)).
Proof.
  assert (Hr : reachable abc_generator)
    by (apply (@reach_init abc_traversome abc_config); reflexivity).
  split; [exact Hr|]. split; [reflexivity|].
  apply (traversal_fails_before_index_is_built abc_generator half_draws
           (fun p _ => Ok p)).
  - exact Hr.
  - reflexivity.
Defined.

(** Once the index of the A-B-C scenario is built the same call draws its
    one read path and goes on with it. *)
Lemma abc_indexed_traversal_starts :
  forall extend,
    reachable abc_indexed /\
    read_paths_counter_indexed abc_indexed = true /\
    heuristic_extend_path abc_indexed half_draws extend []
    = extend (get_standardized_path (graph abc_generator) abc_path) 2%nat.
Proof.
  intro extend. split; [|split; [reflexivity|]].
  - apply (@reach_index abc_generator true).
    + apply (@reach_init abc_traversome abc_config). reflexivity.
    + vm_compute. reflexivity.
  - unfold heuristic_extend_path.
    assert (Er : read_paths abc_indexed
                 = [get_standardized_path (graph abc_generator) abc_path])
      by (vm_compute; reflexivity).
    assert (Ec : path_lookup
                   (get_standardized_path (graph abc_generator) abc_path)
                   (read_paths_counter abc_indexed) = Some 5%Z)
      by (vm_compute; reflexivity).
    rewrite Er. cbn [mapM]. unfold freq_reciprocal. rewrite Ec.
    cbn [Z.eqb bind]. unfold choices.
    cbn [accumulate List.length Nat.eqb negb last Nat.sub bisect firstn filter
         nth_error].
    destruct (Rle_dec (0 + 1 / 5) 0) as [H|_]; [lra|].
    cbn [bind]. unfold half_draws.
    destruct (Rgt_dec (1 / 2) (1 / 2)) as [H|_]; [lra|]. reflexivity.
Qed.

(** ** Exact repeats of a unit *)

Lemma laps_S : forall m u, laps (S m) u = u ++ laps m u.
Proof. reflexivity. Qed.

Lemma length_laps :
  forall m (u : path), List.length (laps m u) = (m * List.length u)%nat.
Proof.
  intros m u. induction m as [|m IH]; [reflexivity|].
  rewrite laps_S, length_app, IH. reflexivity.
Qed.

Lemma in_laps :
  forall m (u : path) v, (1 <= m)%nat -> In v (laps m u) <-> In v u.
Proof.
  intros m u v Hm. induction m as [|m IH]; [lia|].
  rewrite laps_S, in_app_iff. destruct m as [|m].
  - cbn. tauto.
  - rewrite IH by lia. tauto.
Qed.

Lemma count_laps :
  forall m (u : path) v,
    count_vne (laps m u) v = (m * count_vne u v)%nat.
Proof.
  intros m u v. unfold count_vne. induction m as [|m IH]; [reflexivity|].
  rewrite laps_S, count_occ_app, IH. reflexivity.
Qed.

Lemma nodup_names :
  forall u : path, NoDup (names u) -> NoDup u.
Proof. intros u H. unfold names in H. now apply NoDup_map_inv in H. Qed.

(** *** Step 1: the copy numbers *)

Lemma unique_vne_list_perm :
  forall (p u : path),
    NoDup u -> (forall v, In v p <-> In v u) ->
    Permutation (unique_vne_list p) u.
Proof.
  intros p u Hnd Hin. unfold unique_vne_list.
  apply perm_trans with (nodup vne_dec p); [apply sorted_perm|].
  apply NoDup_Permutation; [apply NoDup_nodup | exact Hnd |].
  intro v. rewrite nodup_In. apply Hin.
Qed.

Lemma add_copy_fold_const :
  forall (c : vne -> nat) k U acc,
    (forall v, In v U -> c v = k) ->
    fold_left (fun d v => add_copy (c v) v d) U [(k, acc)] = [(k, acc ++ U)].
Proof.
  intros c k U. induction U as [|u U IH]; intros acc H.
  - now rewrite app_nil_r.
  - cbn [fold_left]. rewrite (H u (or_introl eq_refl)). cbn [add_copy].
    rewrite Nat.eqb_refl.
    rewrite IH by (intros v Hv; apply H; now right).
    now rewrite <- app_assoc.
Qed.

Lemma copy_to_vne_const :
  forall (p : path) k,
    p <> [] -> (forall v, In v p -> count_vne p v = k) ->
    copy_to_vne p = [(k, unique_vne_list p)].
Proof.
  intros p k Hne Hc. unfold copy_to_vne.
  assert (HU : forall v, In v (unique_vne_list p) -> count_vne p v = k)
    by (intros v Hv; apply Hc; now apply unique_vne_list_in).
  destruct (unique_vne_list p) as [|u U] eqn:EU.
  - destruct p as [|v p]; [congruence|].
    assert (In v (unique_vne_list (v :: p)))
      by (apply unique_vne_list_in; now left).
    rewrite EU in H. contradiction.
  - cbn [fold_left]. rewrite (HU u (or_introl eq_refl)). cbn [add_copy].
    apply (add_copy_fold_const (count_vne p) k U [u]).
    intros v Hv. apply HU. now right.
Qed.

Lemma laps_not_empty :
  forall m (u : path), (1 <= m)%nat -> u <> [] -> laps m u <> [].
Proof.
  intros m u Hm Hu. destruct u as [|v t]; [congruence|].
  intro H. assert (Hv : In v (laps m (v :: t))) by (apply in_laps; [lia | now left]).
  rewrite H in Hv. contradiction.
Qed.

Lemma laps_count :
  forall m (u : path) v,
    NoDup u -> (1 <= m)%nat -> In v (laps m u) -> count_vne (laps m u) v = m.
Proof.
  intros m u v Hnd Hm Hv. rewrite count_laps.
  rewrite count_vne_nodup; [lia | exact Hnd | now apply (in_laps m u v Hm)].
Qed.

Lemma laps_unique_perm :
  forall m (u : path),
    NoDup u -> (1 <= m)%nat -> Permutation (unique_vne_list (laps m u)) u.
Proof.
  intros m u Hnd Hm. apply unique_vne_list_perm; [exact Hnd|].
  intro v. now apply in_laps.
Qed.

Lemma laps_unique_in :
  forall m (u : path) v,
    (1 <= m)%nat -> In v (unique_vne_list (laps m u)) <-> In v u.
Proof.
  intros m u v Hm. rewrite unique_vne_list_in. now apply in_laps.
Qed.

Lemma laps_unique_names :
  forall m (u : path),
    NoDup (names u) -> (1 <= m)%nat ->
    NoDup (names (unique_vne_list (laps m u))).
Proof.
  intros m u Hnd Hm. unfold names.
  apply Permutation_NoDup with (map fst u); [|exact Hnd].
  apply Permutation_map, Permutation_sym, laps_unique_perm;
    [now apply nodup_names | exact Hm].
Qed.

Lemma laps_unique_not_empty :
  forall m (u : path),
    (1 <= m)%nat -> u <> [] -> unique_vne_list (laps m u) <> [].
Proof.
  intros m u Hm Hu. destruct u as [|v t]; [congruence|].
  intro H.
  assert (Hv : In v (unique_vne_list (laps m (v :: t))))
    by (apply laps_unique_in; [exact Hm | now left]).
  rewrite H in Hv. contradiction.
Qed.

Lemma laps_copy_to_vne :
  forall m (u : path),
    NoDup u -> (1 <= m)%nat -> u <> [] ->
    copy_to_vne (laps m u) = [(m, unique_vne_list (laps m u))].
Proof.
  intros m u Hnd Hm Hu. apply copy_to_vne_const.
  - now apply laps_not_empty.
  - intros v Hv. now apply laps_count.
Qed.

(** *** Step 1.2: the lengths *)

Lemma setitem_absent :
  forall (V : Type) k (v : V) d,
    ~ In k (map fst d) -> setitem k v d = d ++ [(k, v)].
Proof.
  intros V k v d. induction d as [|[a w] d IH]; intro H; [reflexivity|].
  cbn [setitem]. destruct (String.eqb_spec k a) as [->|Hne].
  - exfalso. apply H. now left.
  - cbn [app]. f_equal. apply IH. intro Hin. apply H. now right.
Qed.

Lemma ordered_fold_nodup :
  forall (V : Type) (pairs d : list (string * V)),
    NoDup (map fst (d ++ pairs)) ->
    fold_left (fun d kv => setitem (fst kv) (snd kv) d) pairs d = d ++ pairs.
Proof.
  intros V pairs. induction pairs as [|[a w] pairs IH]; intros d H.
  - now rewrite app_nil_r.
  - cbn [fold_left fst snd].
    assert (Hn : ~ In a (map fst d)).
    { rewrite map_app in H. cbn [map fst] in H.
      apply NoDup_remove_2 in H. intro Hin. apply H.
      apply in_or_app. now left. }
    rewrite (setitem_absent V a w d Hn).
    rewrite IH by (now rewrite <- app_assoc).
    now rewrite <- app_assoc.
Qed.

Lemma ordered_dict_nodup :
  forall (V : Type) (pairs : list (string * V)),
    NoDup (map fst pairs) -> ordered_dict pairs = pairs.
Proof.
  intros V pairs H. unfold ordered_dict.
  now rewrite (ordered_fold_nodup V pairs []).
Qed.

Lemma v_lengths_values :
  forall (g : string -> Z) (U : path),
    NoDup (names U) ->
    map snd (ordered_dict (map (fun v : vne => (fst v, g (fst v))) U))
    = map (fun v : vne => g (fst v)) U.
Proof.
  intros g U H. rewrite ordered_dict_nodup.
  - rewrite map_map. reflexivity.
  - rewrite map_map. exact H.
Qed.

(** *** Step 2: the candidate numbers of units *)

Lemma inject_Z_nonzero :
  forall x : Z, x <> 0%Z -> ~ (inject_Z x == 0)%Q.
Proof.
  intros x Hx H. unfold Qeq in H. cbn in H. lia.
Qed.

Lemma Qdiv_same :
  forall x : Z, x <> 0%Z -> (inject_Z x / inject_Z x == 1)%Q.
Proof.
  intros x Hx. field. now apply inject_Z_nonzero.
Qed.

Lemma selection_lengths_pos :
  forall self (p : path) (sel : path),
    sel <> [] -> (forall v, In v sel -> placed self (fst v)) ->
    (0 < sumZ (map (fun v : vne => len_of self (fst v)) sel))%Z.
Proof.
  intros self p sel Hne Hpl. apply sumZ_pos.
  - intro E. apply map_eq_nil in E. contradiction.
  - apply Forall_forall. intros z Hz. apply in_map_iff in Hz.
    destruct Hz as [v [E Hv]]. subst z. now apply Hpl.
Qed.

Lemma candidate_num_units_laps :
  forall self m (u : path),
    NoDup (names u) -> u <> [] -> (2 <= m)%nat ->
    (forall v, In v u -> placed self (fst v)) ->
    candidate_num_units self (laps m u)
      (ordered_dict (map (fun v : vne => (fst v, len_of self (fst v)))
                         (unique_vne_list (laps m u))))
    = Ok (if Qle_bool (min_unit_similarity self) 1 then [m] else []).
Proof.
  intros self m u Hnd Hu Hm Hpl.
  assert (Hm1 : (1 <= m)%nat) by lia.
  assert (Hp : laps m u <> []) by now apply laps_not_empty.
  unfold candidate_num_units, sum_lens.
  rewrite (laps_copy_to_vne m u (nodup_names u Hnd) Hm1 Hu).
  cbn [map fst sorted fold_right insert_sorted mapM lookup_copy bind].
  rewrite Nat.eqb_refl. cbn [bind].
  set (sel := if negb (is_empty (candidate_sc_vertices self (laps m u)))
              then filter (fun v : vne =>
                             mem_string (fst v) (candidate_single_copy_vs self))
                          (unique_vne_list (laps m u))
              else unique_vne_list (laps m u)).
  assert (Hincl : incl sel (unique_vne_list (laps m u))).
  { unfold sel. destruct (negb _); [|apply incl_refl].
    intros v Hv. now apply filter_In in Hv. }
  match goal with
  | |- context [mapM ?f ?s] =>
      match s with
      | context [filter] =>
          replace (mapM f s)
            with (@Ok (list Z) (map (fun v : vne => len_of self (fst v)) sel))
            by (symmetry;
                exact (mapM_getitem_lengths (len_of self)
                         (unique_vne_list (laps m u)) sel Hincl))
      end
  end.
  cbn [bind combine map fst snd sumZ fold_right mapM].
  set (S := sumZ (map (fun v : vne => len_of self (fst v)) sel)).
  assert (Hpos : (0 < S)%Z).
  { apply (selection_lengths_pos self (laps m u)).
    - exact (selection_nonempty self (laps m u) Hp).
    - intros v Hv. apply Hpl. apply (laps_unique_in m u v Hm1).
      now apply Hincl. }
  fold (sumZ (map (fun v : vne => len_of self (fst v)) sel)). fold S.
  rewrite Z.add_0_r. unfold py_div.
  destruct (Z.eqb_spec (Z.of_nat m * S) 0) as [E|Hne]; [nia|].
  cbn [bind combine candidate_units_loop fst snd filter].
  rewrite (proj2 (Nat.ltb_lt 1 m)) by lia.
  rewrite Nat.Div0.mod_same. cbn [Nat.eqb map snd sumQ fold_right].
  assert (Hb : Qle_bool (min_unit_similarity self)
                 (inject_Z (Z.of_nat m * S) / inject_Z (Z.of_nat m * S) + 0)
               = Qle_bool (min_unit_similarity self) 1).
  { apply Qleb_comp; [reflexivity|].
    rewrite (Qdiv_same _ Hne). reflexivity. }
  rewrite Hb. now destruct (Qle_bool (min_unit_similarity self) 1).
Qed.

(** *** Step 3.1: the positions of the starts *)

Lemma positions_from_app :
  forall (p q : path) v a,
    map fst (filter (fun iv : nat * vne => vne_eqb (snd iv) v)
                    (combine (seq a (List.length (p ++ q))) (p ++ q)))
    = map fst (filter (fun iv : nat * vne => vne_eqb (snd iv) v)
                      (combine (seq a (List.length p)) p))
      ++ map fst (filter (fun iv : nat * vne => vne_eqb (snd iv) v)
                         (combine (seq (a + List.length p) (List.length q)) q)).
Proof.
  intros p q v a. rewrite length_app, seq_app.
  rewrite combine_app_same by apply length_seq.
  now rewrite filter_app, map_app.
Qed.

Lemma positions_from_absent :
  forall (p : path) v a,
    ~ In v p ->
    map fst (filter (fun iv : nat * vne => vne_eqb (snd iv) v)
                    (combine (seq a (List.length p)) p)) = [].
Proof.
  intros p v. induction p as [|w p IH]; intros a H; [reflexivity|].
  cbn [List.length seq combine filter snd].
  destruct (vne_eqb w v) eqn:E.
  - apply vne_eqb_eq in E. subst w. exfalso. apply H. now left.
  - apply IH. intro Hin. apply H. now right.
Qed.

Lemma positions_from_unit :
  forall (u : path) v k a,
    NoDup u -> nth_error u k = Some v ->
    map fst (filter (fun iv : nat * vne => vne_eqb (snd iv) v)
                    (combine (seq a (List.length u)) u)) = [(a + k)%nat].
Proof.
  intros u v. induction u as [|w u IH]; intros k a Hnd Hk.
  - destruct k; discriminate.
  - cbn [List.length seq combine filter snd]. inversion Hnd as [|? ? Hw Hu]; subst.
    destruct k as [|k]; cbn [nth_error] in Hk.
    + inversion Hk; subst w.
      rewrite (proj2 (vne_eqb_eq v v) eq_refl). cbn [map fst].
      rewrite (positions_from_absent u v (S a) Hw). f_equal. lia.
    + assert (Hin : In v u) by (eapply nth_error_In; eassumption).
      destruct (vne_eqb w v) eqn:E.
      * apply vne_eqb_eq in E. subst w. contradiction.
      * rewrite (IH k (S a) Hu Hk). f_equal. lia.
Qed.

Lemma positions_from_laps :
  forall m (u : path) v k a,
    NoDup u -> nth_error u k = Some v ->
    map fst (filter (fun iv : nat * vne => vne_eqb (snd iv) v)
                    (combine (seq a (List.length (laps m u))) (laps m u)))
    = steps (a + k) (List.length u) m.
Proof.
  intros m u v k. induction m as [|m IH]; intros a Hnd Hk; [reflexivity|].
  rewrite laps_S, positions_from_app.
  rewrite (positions_from_unit u v k a Hnd Hk).
  rewrite (IH (a + List.length u)%nat Hnd Hk). cbn [app steps].
  f_equal. f_equal. lia.
Qed.

Lemma positions_laps :
  forall m (u : path) v k,
    NoDup u -> nth_error u k = Some v ->
    positions (laps m u) v = steps k (List.length u) m.
Proof.
  intros m u v k Hnd Hk. unfold positions.
  now rewrite (positions_from_laps m u v k 0 Hnd Hk).
Qed.

(** *** Step 3.2: the units cut at the positions of a start *)

Lemma skipn_app_le :
  forall (A : Type) (l l' : list A) k,
    (k <= List.length l)%nat -> skipn k (l ++ l') = skipn k l ++ l'.
Proof.
  intros A l l' k H. rewrite skipn_app.
  replace (k - List.length l)%nat with 0%nat by lia. reflexivity.
Qed.

Lemma firstn_app_le :
  forall (A : Type) (l l' : list A) k,
    (k <= List.length l)%nat -> firstn k (l ++ l') = firstn k l.
Proof.
  intros A l l' k H. rewrite firstn_app.
  replace (k - List.length l)%nat with 0%nat by lia.
  cbn [firstn]. now rewrite app_nil_r.
Qed.

Lemma skipn_prefix :
  forall (A : Type) (pre l : list A) k,
    skipn (List.length pre + k) (pre ++ l) = skipn k l.
Proof.
  intros A pre l k. induction pre as [|x pre IH]; [reflexivity|].
  cbn [List.length Nat.add app skipn]. exact IH.
Qed.

(** A whole lap from position [k] of a unit that is followed by another
    one is the unit read from [k]. *)
Lemma slice_lap :
  forall (pre u rest : path) k,
    (k <= List.length u)%nat ->
    slice (pre ++ u ++ u ++ rest) (List.length pre + k)
          (List.length pre + k + List.length u)
    = rotation k u.
Proof.
  intros pre u rest k Hk. unfold slice, rotation.
  replace (List.length pre + k + List.length u - (List.length pre + k))%nat
    with (List.length u) by lia.
  rewrite skipn_prefix, (skipn_app_le _ u (u ++ rest) k Hk).
  rewrite firstn_app, length_skipn.
  rewrite firstn_all2 by (rewrite length_skipn; lia).
  f_equal.
  replace (List.length u - (List.length u - k))%nat with k by lia.
  now apply firstn_app_le.
Qed.

Lemma removelast_cons2 :
  forall (A : Type) (x y : A) l,
    removelast (x :: y :: l) = x :: removelast (y :: l).
Proof. reflexivity. Qed.

Lemma last_steps :
  forall m start step d,
    last (steps start step (S m)) d = (start + m * step)%nat.
Proof.
  induction m as [|m IH]; intros start step d.
  - cbn. lia.
  - change (steps start step (S (S m)))
      with (start :: steps (start + step) step (S m)).
    change (last (start :: steps (start + step) step (S m)) d)
      with (last (steps (start + step) step (S m)) d).
    rewrite IH. lia.
Qed.

Lemma cut_inner_laps :
  forall m (pre u : path) k,
    (k <= List.length u)%nat ->
    map (fun ft => slice (pre ++ laps (S m) u) (fst ft) (snd ft))
        (combine (removelast (steps (List.length pre + k) (List.length u) (S m)))
                 (tl (steps (List.length pre + k) (List.length u) (S m))))
    = repeat (rotation k u) m.
Proof.
  induction m as [|m IH]; intros pre u k Hk; [reflexivity|].
  change (steps (List.length pre + k) (List.length u) (S (S m)))
    with ((List.length pre + k)%nat
          :: steps (List.length pre + k + List.length u) (List.length u) (S m)).
  cbn [tl].
  change (steps (List.length pre + k + List.length u) (List.length u) (S m))
    with ((List.length pre + k + List.length u)%nat
          :: steps (List.length pre + k + List.length u + List.length u)
                   (List.length u) m) at 1.
  rewrite removelast_cons2.
  change ((List.length pre + k + List.length u)%nat
          :: steps (List.length pre + k + List.length u + List.length u)
                   (List.length u) m)
    with (steps (List.length pre + k + List.length u) (List.length u) (S m)).
  set (s' := steps (List.length pre + k + List.length u) (List.length u) (S m)).
  assert (Es : s' = (List.length pre + k + List.length u)%nat :: tl s')
    by reflexivity.
  rewrite Es at 2. cbn [combine map fst snd repeat].
  f_equal.
  - rewrite (laps_S (S m)), (laps_S m). now apply slice_lap.
  - rewrite (laps_S (S m)), app_assoc.
    specialize (IH (pre ++ u) u k Hk). rewrite length_app in IH.
    replace (List.length pre + List.length u + k)%nat
      with (List.length pre + k + List.length u)%nat in IH by lia.
    fold s' in IH. exact IH.
Qed.

Lemma cut_units_laps :
  forall m (u : path) k,
    (1 <= m)%nat -> (k <= List.length u)%nat ->
    cut_units (laps m u) (steps k (List.length u) m) = repeat (rotation k u) m.
Proof.
  intros m u k Hm Hk. destruct m as [|m]; [lia|]. unfold cut_units.
  pose proof (cut_inner_laps m [] u k Hk) as Hin.
  cbn [List.length Nat.add app] in Hin. rewrite Hin.
  rewrite last_steps. cbn [steps hd].
  replace (repeat (rotation k u) (S m))
    with (repeat (rotation k u) m ++ [rotation k u])
    by (rewrite <- repeat_cons; reflexivity).
  f_equal. f_equal. unfold rotation. f_equal.
  - clear Hin Hm. revert k Hk. induction m as [|m IH]; intros k Hk.
    + cbn [Nat.mul Nat.add]. rewrite Nat.add_0_r. unfold laps. cbn.
      now rewrite app_nil_r.
    + rewrite laps_S.
      replace (k + S m * List.length u)%nat
        with (List.length u + (k + m * List.length u))%nat by lia.
      rewrite skipn_prefix. now apply IH.
  - rewrite laps_S. now apply firstn_app_le.
Qed.

(** *** Step 3.2: the shared contigs *)

Lemma count_rotation :
  forall (u : path) k v, count_vne (rotation k u) v = count_vne u v.
Proof.
  intros u k v. unfold count_vne, rotation.
  rewrite count_occ_app, Nat.add_comm, <- count_occ_app.
  now rewrite firstn_skipn.
Qed.

Lemma min_nat_list_repeat :
  forall x n, (1 <= n)%nat -> min_nat_list (repeat x n) = x.
Proof.
  intros x n Hn. destruct n as [|n]; [lia|]. cbn [repeat min_nat_list].
  clear Hn. induction n as [|n IH]; [reflexivity|].
  cbn [repeat fold_left]. now rewrite Nat.min_id.
Qed.

Lemma variants_shared_laps :
  forall m (u : path) k (U : path),
    NoDup u -> (1 <= m)%nat -> (forall v, In v U -> In v u) ->
    variants_shared (repeat (rotation k u) m) U = map (fun _ => 1%Z) U.
Proof.
  intros m u k U Hnd Hm HU. unfold variants_shared.
  apply map_ext_in. intros v Hv.
  rewrite map_repeat, (min_nat_list_repeat _ m Hm), count_rotation.
  rewrite (count_vne_nodup u v Hnd (HU v Hv)). reflexivity.
Qed.

Lemma np_mul_ones :
  forall (f : vne -> Z) (U : path),
    np_mul (map (fun _ => 1%Z) U) (map f U)
    = Ok (map (fun xy => (fst xy * snd xy)%Z)
              (combine (map (fun _ => 1%Z) U) (map f U))) /\
    sumZ (map (fun xy => (fst xy * snd xy)%Z)
              (combine (map (fun _ => 1%Z) U) (map f U)))
    = sumZ (map f U).
Proof.
  intros f U. split.
  - unfold np_mul. now rewrite !length_map, Nat.eqb_refl.
  - induction U as [|v U IH]; [reflexivity|].
    cbn [map combine sumZ fold_right fst snd] in *.
    unfold sumZ in IH. rewrite IH. lia.
Qed.

Lemma np_mul_copies :
  forall (f : vne -> Z) (c : Z) (U : path),
    np_mul (map f U) (map (fun _ => c) U)
    = Ok (map (fun xy => (fst xy * snd xy)%Z)
              (combine (map f U) (map (fun _ => c) U))) /\
    sumZ (map (fun xy => (fst xy * snd xy)%Z)
              (combine (map f U) (map (fun _ => c) U)))
    = (c * sumZ (map f U))%Z.
Proof.
  intros f c U. split.
  - unfold np_mul. now rewrite !length_map, Nat.eqb_refl.
  - induction U as [|v U IH]; [cbn; lia|].
    cbn [map combine sumZ fold_right fst snd] in *.
    unfold sumZ in IH. rewrite IH. lia.
Qed.

Lemma exceeds_whole :
  forall (x : Z) (min_sim : Q),
    x <> 0%Z -> exceeds x x min_sim = Qltb min_sim 1.
Proof.
  intros x min_sim Hx. unfold exceeds.
  destruct (Z.eqb_spec x 0) as [E|_]; [contradiction|].
  unfold Qltb. f_equal. apply Qleb_comp; [|reflexivity].
  now apply Qdiv_same.
Qed.

Lemma sorted_repeat :
  forall (A : Type) (leb : A -> A -> bool) (x : A) n,
    sorted leb (repeat x n) = repeat x n.
Proof.
  intros A leb x n. unfold sorted. induction n as [|n IH]; [reflexivity|].
  cbn [repeat fold_right]. rewrite IH. clear IH.
  induction n as [|n IH]; [reflexivity|].
  cbn [repeat insert_sorted]. destruct (leb x x); [reflexivity|].
  now rewrite IH.
Qed.

Lemma add_scheme_again :
  forall s schemes,
    schemes = [] \/ schemes = [s] -> add_scheme s schemes = [s].
Proof.
  intros s schemes [-> | ->]; unfold add_scheme; cbn [existsb]; [reflexivity|].
  destruct (list_eq_dec path_dec s s); [reflexivity | congruence].
Qed.

(** *** Step 3.1: there is a start *)

Lemma start_entries_some :
  forall self (p : path) num_units vs,
    lookup_copy num_units (copy_to_vne p) = Ok vs -> vs <> [] ->
    exists starts, start_entries self p num_units = Ok starts /\ starts <> [].
Proof.
  intros self p k vs Hvs Hne. unfold start_entries. rewrite Hvs. cbn [bind].
  cbv zeta.
  match goal with
  | |- context [sorted indices_leb (map _ ?st)] => set (cs := st)
  end.
  assert (Hcs : cs <> []).
  { unfold cs.
    match goal with
    | |- context [is_empty ?l] => destruct l as [|x l']; cbn [is_empty];
                                  [exact Hne | discriminate]
    end. }
  destruct (sorted indices_leb (map _ cs)) as [|first others] eqn:Es.
  - exfalso. apply Hcs.
    apply (f_equal (@List.length _)) in Es.
    rewrite sorted_length, length_map in Es.
    now apply length_zero_iff_nil.
  - match goal with
    | |- exists starts, (if ?c then _ else _) = _ /\ _ => destruct c eqn:Ec
    end.
    + eexists. split; [reflexivity|]. cbn [tl].
      apply andb_true_iff in Ec. destruct Ec as [_ Ec].
      apply Nat.ltb_lt in Ec. cbn [List.length] in Ec.
      intro E. rewrite E in Ec. cbn in Ec. lia.
    + eexists. split; [reflexivity | discriminate].
Qed.

(** *** Step 3: the schemes *)

Lemma fold_same_step :
  forall (A B : Type) (step : A -> B -> result A) (g : A -> A) (l : list B)
         (a : A),
    (forall x acc, In x l -> step acc x = Ok (g acc)) ->
    fold_left (fun acc x => s <- acc ;; step s x) l (Ok a)
    = Ok (Nat.iter (List.length l) g a).
Proof.
  intros A B step g l. induction l as [|x l IH]; intros a H; [reflexivity|].
  cbn [fold_left bind]. rewrite (H x a (or_introl eq_refl)).
  rewrite IH by (intros y acc Hy; apply H; now right).
  cbn [List.length]. now rewrite Nat.iter_succ_r.
Qed.

Lemma iter_add_scheme :
  forall s n, (1 <= n)%nat -> Nat.iter n (add_scheme s) [] = [s].
Proof.
  intros s n Hn. destruct n as [|n]; [lia|]. clear Hn.
  induction n as [|n IH]; [reflexivity|].
  rewrite Nat.iter_succ, IH. apply add_scheme_again. now right.
Qed.

Lemma iter_id :
  forall (A : Type) n (a : A), Nat.iter n (fun x => x) a = a.
Proof. intros A n a. induction n as [|n IH]; [reflexivity | exact IH]. Qed.

Lemma schemes_for_laps :
  forall self m (u : path),
    NoDup (names u) -> u <> [] -> (2 <= m)%nat ->
    (forall v, In v u -> placed self (fst v)) ->
    (forall k, (k < List.length u)%nat ->
               canonical self (rotation k u) = canonical self u) ->
    schemes_for self (laps m u)
      (map (fun v : vne => len_of self (fst v)) (unique_vne_list (laps m u)))
      (Z.of_nat m
       * sumZ (map (fun v : vne => len_of self (fst v))
                   (unique_vne_list (laps m u))))%Z
      [] m
    = Ok (if Qltb (min_unit_similarity self) 1
          then [repeat (canonical self u) m] else []).
Proof.
  intros self m u Hnames Hu Hm Hpl Hcanon.
  assert (Hm1 : (1 <= m)%nat) by lia.
  assert (Hnd : NoDup u) by now apply nodup_names.
  set (U := unique_vne_list (laps m u)).
  set (lens := map (fun v : vne => len_of self (fst v)) U).
  assert (Hpos : (0 < sumZ lens)%Z).
  { apply (selection_lengths_pos self (laps m u)).
    - now apply laps_unique_not_empty.
    - intros v Hv. apply Hpl. now apply (laps_unique_in m u v Hm1). }
  unfold schemes_for.
  destruct (start_entries_some self (laps m u) m U) as [starts [Est Hne]].
  { rewrite (laps_copy_to_vne m u Hnd Hm1 Hu). cbn [lookup_copy].
    now rewrite Nat.eqb_refl. }
  { now apply laps_unique_not_empty. }
  rewrite Est. cbn [bind].
  rewrite (fold_same_step _ _ _
             (fun schemes =>
                if Qltb (min_unit_similarity self) 1
                then add_scheme (repeat (canonical self u) m) schemes
                else schemes)).
  - assert (Hlen : (1 <= List.length starts)%nat)
      by (destruct starts; [congruence | cbn; lia]).
    destruct (Qltb (min_unit_similarity self) 1).
    + now rewrite iter_add_scheme.
    + now rewrite iter_id.
  - intros e schemes He.
    destruct (start_entries_in self (laps m u) m starts e Est He)
      as [Es [Hin _]].
    apply (in_laps m u (fst e) Hm1) in Hin.
    apply In_nth_error in Hin. destruct Hin as [k Hk].
    assert (Hlt : (k < List.length u)%nat)
      by (apply nth_error_Some; congruence).
    rewrite Es, (positions_laps m u (fst e) k Hnd Hk).
    rewrite (cut_units_laps m u k Hm1) by lia.
    fold U.
    rewrite (variants_shared_laps m u k U Hnd Hm1)
      by (intros v Hv; now apply (laps_unique_in m u v Hm1)).
    unfold lens.
    destruct (np_mul_ones (fun v : vne => len_of self (fst v)) U) as [E1 E2].
    rewrite E1. cbn [bind]. rewrite E2. fold lens.
    rewrite exceeds_whole by nia.
    destruct (Qltb (min_unit_similarity self) 1); [|reflexivity].
    rewrite map_repeat. fold (canonical self (rotation k u)).
    rewrite (Hcanon k Hlt), sorted_repeat. reflexivity.
Qed.

Lemma qualified_schemes_laps :
  forall self m (u : path),
    NoDup (names u) -> u <> [] -> (2 <= m)%nat ->
    (forall v, In v u -> placed self (fst v)) ->
    (forall k, (k < List.length u)%nat ->
               canonical self (rotation k u) = canonical self u) ->
    qualified_schemes self (laps m u)
      (ordered_dict (map (fun v : vne => (fst v, len_of self (fst v)))
                         (unique_vne_list (laps m u))))
      [m]
    = Ok (if Qltb (min_unit_similarity self) 1
          then [repeat (canonical self u) m] else []).
Proof.
  intros self m u Hnames Hu Hm Hpl Hcanon.
  assert (Hm1 : (1 <= m)%nat) by lia.
  unfold qualified_schemes.
  rewrite (v_lengths_values (len_of self) (unique_vne_list (laps m u)))
    by now apply laps_unique_names.
  unfold vne_to_copy. rewrite map_map. cbn [snd].
  rewrite (map_ext_in
             (fun v : vne => Z.of_nat (count_vne (laps m u) v))
             (fun _ => Z.of_nat m))
    by (intros v Hv; f_equal; apply laps_count;
        [now apply nodup_names | exact Hm1
         | now apply unique_vne_list_in]).
  destruct (np_mul_copies (fun v : vne => len_of self (fst v)) (Z.of_nat m)
              (unique_vne_list (laps m u))) as [E1 E2].
  rewrite E1. cbn [bind fold_left]. rewrite E2.
  now apply schemes_for_laps.
Qed.

Lemma decompose_laps :
  forall self m (u : path),
    NoDup (names u) -> (2 <= m)%nat -> (4 <= m * List.length u)%nat ->
    (forall v, In v u -> placed self (fst v)) ->
    (forall k, (k < List.length u)%nat ->
               canonical self (rotation k u) = canonical self u) ->
    decompose_hetero_units self (laps m u)
    = Ok (if Qltb (min_unit_similarity self) 1
             && covers_original self (laps m u) (repeat (canonical self u) m)
          then repeat (canonical self u) m
          else [laps m u]).
Proof.
  intros self m u Hnames Hm Hlen Hpl Hcanon.
  assert (Hm1 : (1 <= m)%nat) by lia.
  assert (Hu : u <> []) by (intro E; subst u; cbn in Hlen; lia).
  unfold decompose_hetero_units.
  rewrite length_laps, (proj2 (Nat.ltb_ge _ 4) Hlen).
  rewrite (unit_v_lengths_placed self (laps m u))
    by (intros v Hv; apply Hpl; now apply (in_laps m u v Hm1)).
  cbn [bind].
  rewrite (candidate_num_units_laps self m u Hnames Hu Hm Hpl). cbn [bind].
  destruct (Qle_bool (min_unit_similarity self) 1) eqn:Ele; cbn [is_empty].
  - rewrite (qualified_schemes_laps self m u Hnames Hu Hm Hpl Hcanon).
    cbn [bind]. rewrite select_units_eq.
    destruct (Qltb (min_unit_similarity self) 1); cbn [andb filter];
      [|reflexivity].
    destruct (covers_original self (laps m u) (repeat (canonical self u) m));
      cbn [List.concat is_empty]; [|reflexivity].
    rewrite app_nil_r. destruct m as [|m']; [lia | reflexivity].
  - assert (El : Qltb (min_unit_similarity self) 1 = false).
    { unfold Qltb. apply negb_false_iff. apply Qle_bool_iff.
      destruct (Qlt_le_dec 1 (min_unit_similarity self)) as [H|H].
      - now apply Qlt_le_weak.
      - apply Qle_bool_iff in H. congruence. }
    now rewrite El.
Qed.

(** *** Examples *)

Lemma abc_path_names : NoDup (names abc_path).
Proof.
  unfold abc_path, names. cbn [map fst fw].
  repeat (constructor; [cbn; intuition discriminate|]). constructor.
Qed.

Lemma abc_path_placed :
  forall v, In v abc_path -> placed abc_ready (fst v).
Proof.
  intros v Hv. cbn in Hv.
  repeat (destruct Hv as [<-|Hv]; [split; reflexivity|]).
  contradiction.
Qed.

Lemma abc_path_canonical :
  forall k, (k < List.length abc_path)%nat ->
            canonical abc_ready (rotation k abc_path)
            = canonical abc_ready abc_path.
Proof.
  intros k Hk. cbn in Hk.
  destruct k as [|[|[|k]]]; [vm_compute; reflexivity ..|lia].
Qed.

(** C6 (as amended): a circular path of fewer than four contigs is returned
    unchanged as the sole element of the result, also when it is made of
    copies of one unit; so is a circular path with no internal repetition
    whose contigs are in the graph and have a positive length. And for every
    unit [u] in which no contig occurs twice, in either orientation, whose
    contigs are in the graph and have a positive length and whose canonical
    form does not depend on where the circle is cut, and for every [m] of at
    least two with [m * len(u)] at least four: the decomposer, fed [m] copies
    of [u] one after the other, returns exactly [m] units, each the canonical
    form of [u], when the similarity threshold is below one and the
    sub-paths of the whole path are all sub-paths of the unit; otherwise it
    returns the path unchanged as the sole element. *)
Theorem decompose_returns_exact_repeats :
  forall self,
    (forall p : path,
       List.length p < 4 -> decompose_hetero_units self p = Ok [p]) /\
    (forall p : path,
       NoDup p -> (forall v, In v p -> placed self (fst v)) ->
       decompose_hetero_units self p = Ok [p]) /\
    (forall (u : path) (m : nat),
       NoDup (names u) ->
       (forall v, In v u -> placed self (fst v)) ->
       (forall k, (k < List.length u)%nat ->
                  canonical self (rotation k u) = canonical self u) ->
       (2 <= m)%nat -> (4 <= m * List.length u)%nat ->
       decompose_hetero_units self (laps m u)
       = Ok (if Qltb (min_unit_similarity self) 1
                && covers_original self (laps m u)
                     (repeat (canonical self u) m)
             then repeat (canonical self u) m
             else [laps m u])).
Proof.
  intro self. split; [|split].
  - apply decompose_short.
  - apply decompose_nodup.
  - intros u m Hnames Hpl Hcanon Hm Hlen. now apply decompose_laps.
Qed.

Lemma decompose_returns_exact_repeats_witness :
  decompose_hetero_units loop_ready loop_twice = Ok [loop_twice] /\
  decompose_hetero_units bubble_ready bubble_lap = Ok [bubble_lap] /\
  decompose_hetero_units abc_ready (abc_path ++ abc_path ++ abc_path)
  = Ok [abc_variant; abc_variant; abc_variant].
Proof.
  destruct (decompose_returns_exact_repeats loop_ready) as [Hshort _].
  destruct (decompose_returns_exact_repeats bubble_ready) as [_ [Hplain _]].
  destruct (decompose_returns_exact_repeats abc_ready) as [_ [_ Hlaps]].
  split; [|split].
  - apply Hshort. cbn. lia.
  - apply Hplain; [exact bubble_lap_nodup | exact bubble_lap_placed].
  - assert (E : Qltb (min_unit_similarity abc_ready) 1
                && covers_original abc_ready (laps 3 abc_path)
                     (repeat (canonical abc_ready abc_path) 3) = true)
      by (vm_compute; reflexivity).
    specialize (Hlaps abc_path 3%nat abc_path_names abc_path_placed
                  abc_path_canonical).
    rewrite E in Hlaps.
    change (abc_path ++ abc_path ++ abc_path) with (laps 3 abc_path).
    rewrite Hlaps; [reflexivity | lia | cbn; lia].
Defined.

(** C6, counterexample: exact repeats of a circular unit that do not come
    back as their units. Two, and three, copies of a one-contig unit make a
    path of fewer than four contigs and are not split. Two copies of the
    circle X-Y-X-Z, which goes through the long contig X twice, come back as
    six units: the two units and four halves of them. Two copies of a circle
    that goes through a contig in both orientations raise [ValueError]. Two
    copies of the A-B-C circle are not split when a read goes around the
    circle more than twice, nor when the similarity threshold is one. *)
Lemma repeats_not_returned_as_units :
  (decompose_hetero_units loop_ready (laps 2 [fw "X"])
   = Ok [[fw "X"; fw "X"]] /\
   decompose_hetero_units loop_ready (laps 3 [fw "X"])
   = Ok [[fw "X"; fw "X"; fw "X"]]) /\
  (is_circular_path (graph xyz_ready) xyz_unit = true /\
   contain_path (graph xyz_ready) xyz_unit = true /\
   decompose_hetero_units xyz_ready (laps 2 xyz_unit)
   = Ok [canonical xyz_ready xyz_unit; canonical xyz_ready xyz_unit;
         [bw "X"; bw "Y"]; [bw "X"; bw "Y"];
         [bw "X"; bw "Z"]; [bw "X"; bw "Z"]]) /\
  (is_circular_path (graph hairpin_ready) both_ways_unit = true /\
   contain_path (graph hairpin_ready) both_ways_unit = true /\
   decompose_hetero_units hairpin_ready (laps 2 both_ways_unit)
   = Err ValueError) /\
  (contain_path (graph long_read_ready) (abc_path ++ abc_path ++ [fw "A"])
   = true /\
   decompose_hetero_units long_read_ready (laps 2 abc_path)
   = Ok [laps 2 abc_path]) /\
  decompose_hetero_units strict_ready (laps 2 abc_path)
  = Ok [laps 2 abc_path].
Proof.
  repeat split; vm_compute; reflexivity.
Qed.
